(** * mjx_warp: forward kinematics, composite inertia, mass-matrix
      factorisation and the Euler integrator

    A shallow embedding of [mujoco/mjx/_src/math.py], [types.py],
    [smooth.py] and [forward.py], and the properties of the pipeline
    that are settled on it.

    Conventions of the embedding.
    - A [wp.float32] is a real number: rounding, NaN and overflow are not
      modelled, so every equation below is one of exact arithmetic.
    - A [wp.int32] is an integer of [Z]; the sentinel [-1] is kept.
    - A Warp array is a list, read and written at a [Z] index.  Warp does
      not define an access outside an array; here such a read yields a
      zero of the element type and such a write is dropped, and the
      theorems say which indices they need in range.
    - The arrays of [Data] carry a leading world axis.  The embedding
      stores one record of per-world slices for each world ([World]) and
      [Data] is the list of them: a kernel thread [(worldid, tid)] only
      touches the slice [worldid].
    - The threads of one [wp.launch] are run one after the other, by
      increasing thread id.  The kernels only share memory through
      [wp.atomic_add] and [wp.atomic_sub], which commute in exact
      arithmetic. *)

From Stdlib Require Import Reals Lra Lia ZArith.
From stdpp Require Import base list sets gmap.

(** ** Warp builtins *)

Module wp.

(** The value the embedding gives to a read outside an array. *)
Class Blank (A : Type) : Type := blank : A.

#[global] Instance R_blank : Blank R := 0%R.
#[global] Instance Z_blank : Blank Z := 0%Z.
#[global] Instance bool_blank : Blank bool := false.
#[global] Instance list_blank {A : Type} : Blank (list A) := [].
#[global] Instance prod_blank {A B : Type} `{Blank A} `{Blank B} : Blank (A * B) :=
  (blank, blank).

Section Arrays.
Context {A : Type} `{Blank A}.

(** [a[i]] *)
Definition aget (a : list A) (i : Z) : A :=
  if decide (0 <= i)%Z then default blank (a !! Z.to_nat i) else blank.

(** [a[i] = v] *)
Definition aset (a : list A) (i : Z) (v : A) : list A :=
  if decide (0 <= i)%Z then <[Z.to_nat i := v]> a else a.

Definition in_range (a : list A) (i : Z) : Prop :=
  (0 <= i < Z.of_nat (length a))%Z.
End Arrays.

(** [a[i, j]] and [a[i, j] = v] on a two-dimensional array *)
Definition aget2 {A : Type} `{Blank A} (a : list (list A)) (i j : Z) : A :=
  aget (aget a i) j.

Definition aset2 {A : Type} `{Blank A}
    (a : list (list A)) (i j : Z) (v : A) : list (list A) :=
  aset a i (aset (aget a i) j v).

(** [wp.launch(kernel, dim=(n,))]: one thread per [tid] in [0, n). *)
Definition launch {St : Type} (n : Z) (kernel : Z -> St -> St) (s : St) : St :=
  foldl (fun s tid => kernel tid s) s (seqZ 0 n).

(** [wp.select(cond, value_if_false, value_if_true)] *)
Definition select {A : Type} (cond : bool) (value_if_false value_if_true : A) : A :=
  if cond then value_if_true else value_if_false.

Local Open Scope R_scope.

(** [wp.inf] and its negation, next to the finite scalars *)
Inductive scalar_inf : Type :=
  | Finite (r : R)
  | PosInf
  | NegInf.

(** the comparisons [x <= y] and [x < y] of two scalars *)
Definition Rleb (x y : R) : bool := if Rle_dec x y then true else false.
Definition Rltb (x y : R) : bool := if Rlt_dec x y then true else false.

Definition sle (a b : scalar_inf) : bool :=
  match a, b with
  | NegInf, _ => true
  | _, PosInf => true
  | Finite x, Finite y => Rleb x y
  | _, _ => false
  end.

Definition smax (a b : scalar_inf) : scalar_inf := if sle a b then b else a.
Definition smin (a b : scalar_inf) : scalar_inf := if sle a b then a else b.

(** [wp.clamp(x, low, high)] is [min(max(low, x), high)]; it returns the
    clamped value and leaves its argument alone. *)
Definition clamp (x low high : scalar_inf) : scalar_inf :=
  smin (smax low x) high.

Record vec3 : Type := mkvec3 { v0 : R; v1 : R; v2 : R }.
Record quat : Type := mkquat { q0 : R; q1 : R; q2 : R; q3 : R }.
Record mat33 : Type := mkmat33 {
  m00 : R; m01 : R; m02 : R;
  m10 : R; m11 : R; m12 : R;
  m20 : R; m21 : R; m22 : R }.
Record spatial_vector : Type := mkspatial {
  s0 : R; s1 : R; s2 : R; s3 : R; s4 : R; s5 : R }.

Definition vec3_zero : vec3 := mkvec3 0 0 0.
Definition identity3 : mat33 := mkmat33 1 0 0 0 1 0 0 0 1.

#[global] Instance vec3_blank : Blank vec3 := vec3_zero.
#[global] Instance quat_blank : Blank quat := mkquat 0 0 0 0.
#[global] Instance mat33_blank : Blank mat33 := mkmat33 0 0 0 0 0 0 0 0 0.
#[global] Instance spatial_blank : Blank spatial_vector := mkspatial 0 0 0 0 0 0.

Definition vadd (a b : vec3) : vec3 :=
  mkvec3 (v0 a + v0 b) (v1 a + v1 b) (v2 a + v2 b).
Definition vsub (a b : vec3) : vec3 :=
  mkvec3 (v0 a - v0 b) (v1 a - v1 b) (v2 a - v2 b).
(** [s * v] and [v * s] *)
Definition vscale (s : R) (a : vec3) : vec3 :=
  mkvec3 (s * v0 a) (s * v1 a) (s * v2 a).
Definition vmuls (a : vec3) (s : R) : vec3 :=
  mkvec3 (v0 a * s) (v1 a * s) (v2 a * s).
Definition dot (a b : vec3) : R := v0 a * v0 b + v1 a * v1 b + v2 a * v2 b.
Definition cross (a b : vec3) : vec3 :=
  mkvec3 (v1 a * v2 b - v2 a * v1 b)
         (v2 a * v0 b - v0 a * v2 b)
         (v0 a * v1 b - v1 a * v0 b).
(** [mat * vec] *)
Definition mulmv (m : mat33) (a : vec3) : vec3 :=
  mkvec3 (m00 m * v0 a + m01 m * v1 a + m02 m * v2 a)
         (m10 m * v0 a + m11 m * v1 a + m12 m * v2 a)
         (m20 m * v0 a + m21 m * v1 a + m22 m * v2 a).

(** [-v] *)
Definition vneg (a : vec3) : vec3 := mkvec3 (- v0 a) (- v1 a) (- v2 a).
(** [v / s] *)
Definition vdivs (a : vec3) (s : R) : vec3 :=
  mkvec3 (v0 a / s) (v1 a / s) (v2 a / s).

(** [wp.diag], [wp.transpose], the product [a @ b] of two matrices and
    the rows [m[0]], [m[1]], [m[2]] of a matrix *)
Definition diag3 (d : vec3) : mat33 :=
  mkmat33 (v0 d) 0 0 0 (v1 d) 0 0 0 (v2 d).
Definition transpose3 (m : mat33) : mat33 :=
  mkmat33 (m00 m) (m10 m) (m20 m)
          (m01 m) (m11 m) (m21 m)
          (m02 m) (m12 m) (m22 m).
Definition mulmm (a b : mat33) : mat33 :=
  mkmat33
    (m00 a * m00 b + m01 a * m10 b + m02 a * m20 b)
    (m00 a * m01 b + m01 a * m11 b + m02 a * m21 b)
    (m00 a * m02 b + m01 a * m12 b + m02 a * m22 b)
    (m10 a * m00 b + m11 a * m10 b + m12 a * m20 b)
    (m10 a * m01 b + m11 a * m11 b + m12 a * m21 b)
    (m10 a * m02 b + m11 a * m12 b + m12 a * m22 b)
    (m20 a * m00 b + m21 a * m10 b + m22 a * m20 b)
    (m20 a * m01 b + m21 a * m11 b + m22 a * m21 b)
    (m20 a * m02 b + m21 a * m12 b + m22 a * m22 b).
Definition row0 (m : mat33) : vec3 := mkvec3 (m00 m) (m01 m) (m02 m).
Definition row1 (m : mat33) : vec3 := mkvec3 (m10 m) (m11 m) (m12 m).
Definition row2 (m : mat33) : vec3 := mkvec3 (m20 m) (m21 m) (m22 m).

(** [wp.dot] on spatial vectors *)
Definition sdot (a b : spatial_vector) : R :=
  s0 a * s0 b + s1 a * s1 b + s2 a * s2 b
  + s3 a * s3 b + s4 a * s4 b + s5 a * s5 b.

(** [wp.spatial_vector(a, b)] of two vectors, and the sum of two
    spatial vectors *)
Definition spatial_of (a b : vec3) : spatial_vector :=
  mkspatial (v0 a) (v1 a) (v2 a) (v0 b) (v1 b) (v2 b).
Definition sadd (a b : spatial_vector) : spatial_vector :=
  mkspatial (s0 a + s0 b) (s1 a + s1 b) (s2 a + s2 b)
            (s3 a + s3 b) (s4 a + s4 b) (s5 a + s5 b).
(** [v * s] on a spatial vector *)
Definition smuls (a : spatial_vector) (s : R) : spatial_vector :=
  mkspatial (s0 a * s) (s1 a * s) (s2 a * s) (s3 a * s) (s4 a * s) (s5 a * s).

(** [wp.length] *)
Definition length3 (a : vec3) : R := sqrt (dot a a).
Definition qdot (a b : quat) : R :=
  q0 a * q0 b + q1 a * q1 b + q2 a * q2 b + q3 a * q3 b.
Definition lengthq (q : quat) : R := sqrt (qdot q q).

(** [wp.normalize] on a vector: the zero vector where the length is not
    positive. *)
Definition normalize3 (a : vec3) : vec3 :=
  let l := length3 a in
  if Rlt_dec 0 l then mkvec3 (v0 a / l) (v1 a / l) (v2 a / l) else vec3_zero.

(** [wp.normalize] on a quaternion: scaled by the reciprocal of the length
    and, where the length is not positive, Warp's identity quaternion
    [(0, 0, 0, 1)] (components in storage order). *)
Definition normalizeq (q : quat) : quat :=
  let l := lengthq q in
  if Rlt_dec 0 l then
    let inv_l := 1 / l in
    mkquat (q0 q * inv_l) (q1 q * inv_l) (q2 q * inv_l) (q3 q * inv_l)
  else mkquat 0 0 0 1.

(** *** Tiles

    [wp.tile_load] and [wp.tile_store] move a tile at offset zero between
    an array and the registers of a block; [wp.tile_cholesky] and
    [wp.tile_cholesky_solve] come without source.  They are taken from
    Warp's documentation: [tile_cholesky(A)] is the lower-triangular
    factor [L] with [L L^T = A], computed row by row, and
    [tile_cholesky_solve(L, x)] solves [(L L^T) y = x] by a forward and a
    backward substitution. *)

Definition tile_load (n : Z) (a : list R) : list R :=
  (fun i => aget a i) <$> seqZ 0 n.

Definition tile_load2 (n : Z) (a : list (list R)) : list (list R) :=
  (fun i => tile_load n (aget a i)) <$> seqZ 0 n.

Definition tile_store (a tile : list R) : list R :=
  foldl (fun a i => aset a i (aget tile i)) a (seqZ 0 (Z.of_nat (length tile))).

Definition tile_store2 (a tile : list (list R)) : list (list R) :=
  foldl (fun a i => aset a i (tile_store (aget a i) (aget tile i))) a
        (seqZ 0 (Z.of_nat (length tile))).

(** The sum of the products of two lists, as far as the shorter goes. *)
Definition dotl (u v : list R) : R := foldr Rplus 0 (zip_with Rmult u v).

(** Row [i] of the factor, from the rows [L] above it. *)
Definition cholesky_row (A L : list (list R)) (n i : Z) : list R :=
  let r :=
    foldl (fun r j => r ++ [(aget2 A i j - dotl r (aget L j)) / aget2 L j j])
          [] (seqZ 0 i) in
  r ++ [sqrt (aget2 A i i - dotl r r)] ++ replicate (Z.to_nat (n - i - 1)) 0.

Definition tile_cholesky (A : list (list R)) : list (list R) :=
  let n := Z.of_nat (length A) in
  foldl (fun L i => L ++ [cholesky_row A L n i]) [] (seqZ 0 n).

Definition tile_cholesky_solve (L : list (list R)) (x : list R) : list R :=
  let n := Z.of_nat (length x) in
  let z :=
    foldl (fun z i => z ++ [(aget x i - dotl z (aget L i)) / aget2 L i i])
          [] (seqZ 0 n) in
  foldr (fun i y =>
           (aget z i
            - dotl ((fun k => aget2 L k i) <$> seqZ (i + 1) (n - i - 1)) y)
           / aget2 L i i :: y)
        [] (seqZ 0 n).

End wp.

Export wp.

(** ** math.py *)

Module math.
Local Open Scope R_scope.

Definition mul_quat (u v : quat) : quat :=
  mkquat
    (q0 u * q0 v - q1 u * q1 v - q2 u * q2 v - q3 u * q3 v)
    (q0 u * q1 v + q1 u * q0 v + q2 u * q3 v - q3 u * q2 v)
    (q0 u * q2 v - q1 u * q3 v + q2 u * q0 v + q3 u * q1 v)
    (q0 u * q3 v + q1 u * q2 v - q2 u * q1 v + q3 u * q0 v).

Definition rot_vec_quat (vec : vec3) (quat : wp.quat) : vec3 :=
  let s := q0 quat in
  let u := mkvec3 (q1 quat) (q2 quat) (q3 quat) in
  let r := vadd (vscale 2 (vmuls u (dot u vec)))
                (vscale (s * s - dot u u) vec) in
  let r := vadd r (vscale (2 * s) (cross u vec)) in
  r.

Definition axis_angle_to_quat (axis : vec3) (angle : R) : quat :=
  let s := sin (angle * 0.5) in
  let c := cos (angle * 0.5) in
  let axis := vmuls axis s in
  mkquat c (v0 axis) (v1 axis) (v2 axis).

Definition quat_to_mat (quat : wp.quat) : mat33 :=
  let a := q0 quat in let b := q1 quat in
  let c := q2 quat in let d := q3 quat in
  mkmat33
    (a * a + b * b - c * c - d * d)
    (2 * (b * c - a * d))
    (2 * (b * d + a * c))
    (2 * (b * c + a * d))
    (a * a - b * b + c * c - d * d)
    (2 * (c * d - a * b))
    (2 * (b * d - a * c))
    (2 * (c * d + a * b))
    (a * a - b * b - c * c + d * d).

End math.

(** ** types.py *)

Module types.
Local Open Scope R_scope.

(** [vec10]: six inertia components, three mass-offset components and
    the mass *)
Record vec10 : Type := mkvec10 {
  c0 : R; c1 : R; c2 : R; c3 : R; c4 : R;
  c5 : R; c6 : R; c7 : R; c8 : R; c9 : R }.

Definition vec10_zero : vec10 := mkvec10 0 0 0 0 0 0 0 0 0 0.

#[global] Instance vec10_blank : Blank vec10 := vec10_zero.

Definition vec10_add (a b : vec10) : vec10 :=
  mkvec10 (c0 a + c0 b) (c1 a + c1 b) (c2 a + c2 b) (c3 a + c3 b)
          (c4 a + c4 b) (c5 a + c5 b) (c6 a + c6 b) (c7 a + c7 b)
          (c8 a + c8 b) (c9 a + c9 b).

(** The fields of [Model] that the modelled functions read.  [types.py]
    declares part of them only; the others are taken from their uses in
    [smooth.py] and [forward.py].  [forward.py] reads the representation
    flag as [m.is_sparse], [smooth.py] as [m.opt.is_sparse]
    ([opt_is_sparse] here). *)
Record Model : Type := mkModel {
  nq : Z;
  nv : Z;
  nu : Z;
  na : Z;
  nM : Z;
  nbody : Z;
  njnt : Z;
  timestep : R;
  is_sparse : bool;
  opt_is_sparse : bool;
  disable_flags : Z;
  qpos0 : list R;
  body_tree : list Z;
  body_leveladr : list Z;
  body_levelsize : list Z;
  body_jntadr : list Z;
  body_jntnum : list Z;
  body_parentid : list Z;
  body_pos : list vec3;
  body_quat : list quat;
  jnt_type : list Z;
  jnt_qposadr : list Z;
  jnt_dofadr : list Z;
  jnt_axis : list vec3;
  jnt_pos : list vec3;
  dof_bodyid : list Z;
  dof_parentid : list Z;
  dof_Madr : list Z;
  dof_armature : list R;
  dof_damping : list R;
  qLD_updates : list (Z * Z * Z);
  qLD_leveladr : list Z;
  qLD_levelsize : list Z;
  actuator_actlimited : list bool;
  actuator_actrange : list (list R);
  actuator_actadr : list Z;
  actuator_dyntype : list Z;
  actuator_dynprm : list (list R)
}.

(** The per-world slices of the arrays of [Data]. *)
Record World : Type := mkWorld {
  qpos : list R;
  qvel : list R;
  qacc : list R;
  qacc_eulerdamp : list R;
  qfrc_smooth : list R;
  qfrc_constraint : list R;
  qfrc_eulerdamp : list R;
  act : list R;
  act_dot : list R;
  qM : list (list R);
  xpos : list vec3;
  xquat : list quat;
  xmat : list mat33;
  xipos : list vec3;
  ximat : list mat33;
  xanchor : list vec3;
  xaxis : list vec3;
  cinert : list vec10;
  cdof : list spatial_vector;
  crb : list vec10
}.

Definition set_qpos (v : list R) (w : World) : World :=
  mkWorld v (qvel w) (qacc w) (qacc_eulerdamp w) (qfrc_smooth w)
    (qfrc_constraint w) (qfrc_eulerdamp w) (act w) (act_dot w) (qM w)
    (xpos w) (xquat w) (xmat w) (xipos w) (ximat w) (xanchor w) (xaxis w)
    (cinert w) (cdof w) (crb w).

Definition set_qvel (v : list R) (w : World) : World :=
  mkWorld (qpos w) v (qacc w) (qacc_eulerdamp w) (qfrc_smooth w)
    (qfrc_constraint w) (qfrc_eulerdamp w) (act w) (act_dot w) (qM w)
    (xpos w) (xquat w) (xmat w) (xipos w) (ximat w) (xanchor w) (xaxis w)
    (cinert w) (cdof w) (crb w).

Definition set_qacc_eulerdamp (v : list R) (w : World) : World :=
  mkWorld (qpos w) (qvel w) (qacc w) v (qfrc_smooth w) (qfrc_constraint w)
    (qfrc_eulerdamp w) (act w) (act_dot w) (qM w) (xpos w) (xquat w)
    (xmat w) (xipos w) (ximat w) (xanchor w) (xaxis w) (cinert w) (cdof w)
    (crb w).

Definition set_qfrc_eulerdamp (v : list R) (w : World) : World :=
  mkWorld (qpos w) (qvel w) (qacc w) (qacc_eulerdamp w) (qfrc_smooth w)
    (qfrc_constraint w) v (act w) (act_dot w) (qM w) (xpos w) (xquat w)
    (xmat w) (xipos w) (ximat w) (xanchor w) (xaxis w) (cinert w) (cdof w)
    (crb w).

Definition set_act (v : list R) (w : World) : World :=
  mkWorld (qpos w) (qvel w) (qacc w) (qacc_eulerdamp w) (qfrc_smooth w)
    (qfrc_constraint w) (qfrc_eulerdamp w) v (act_dot w) (qM w) (xpos w)
    (xquat w) (xmat w) (xipos w) (ximat w) (xanchor w) (xaxis w) (cinert w)
    (cdof w) (crb w).

Definition set_qM (v : list (list R)) (w : World) : World :=
  mkWorld (qpos w) (qvel w) (qacc w) (qacc_eulerdamp w) (qfrc_smooth w)
    (qfrc_constraint w) (qfrc_eulerdamp w) (act w) (act_dot w) v (xpos w)
    (xquat w) (xmat w) (xipos w) (ximat w) (xanchor w) (xaxis w) (cinert w)
    (cdof w) (crb w).

Definition set_xpos (v : list vec3) (w : World) : World :=
  mkWorld (qpos w) (qvel w) (qacc w) (qacc_eulerdamp w) (qfrc_smooth w)
    (qfrc_constraint w) (qfrc_eulerdamp w) (act w) (act_dot w) (qM w) v
    (xquat w) (xmat w) (xipos w) (ximat w) (xanchor w) (xaxis w) (cinert w)
    (cdof w) (crb w).

Definition set_xquat (v : list quat) (w : World) : World :=
  mkWorld (qpos w) (qvel w) (qacc w) (qacc_eulerdamp w) (qfrc_smooth w)
    (qfrc_constraint w) (qfrc_eulerdamp w) (act w) (act_dot w) (qM w)
    (xpos w) v (xmat w) (xipos w) (ximat w) (xanchor w) (xaxis w) (cinert w)
    (cdof w) (crb w).

Definition set_xmat (v : list mat33) (w : World) : World :=
  mkWorld (qpos w) (qvel w) (qacc w) (qacc_eulerdamp w) (qfrc_smooth w)
    (qfrc_constraint w) (qfrc_eulerdamp w) (act w) (act_dot w) (qM w)
    (xpos w) (xquat w) v (xipos w) (ximat w) (xanchor w) (xaxis w)
    (cinert w) (cdof w) (crb w).

Definition set_xipos (v : list vec3) (w : World) : World :=
  mkWorld (qpos w) (qvel w) (qacc w) (qacc_eulerdamp w) (qfrc_smooth w)
    (qfrc_constraint w) (qfrc_eulerdamp w) (act w) (act_dot w) (qM w)
    (xpos w) (xquat w) (xmat w) v (ximat w) (xanchor w) (xaxis w) (cinert w)
    (cdof w) (crb w).

Definition set_ximat (v : list mat33) (w : World) : World :=
  mkWorld (qpos w) (qvel w) (qacc w) (qacc_eulerdamp w) (qfrc_smooth w)
    (qfrc_constraint w) (qfrc_eulerdamp w) (act w) (act_dot w) (qM w)
    (xpos w) (xquat w) (xmat w) (xipos w) v (xanchor w) (xaxis w) (cinert w)
    (cdof w) (crb w).

Definition set_xanchor (v : list vec3) (w : World) : World :=
  mkWorld (qpos w) (qvel w) (qacc w) (qacc_eulerdamp w) (qfrc_smooth w)
    (qfrc_constraint w) (qfrc_eulerdamp w) (act w) (act_dot w) (qM w)
    (xpos w) (xquat w) (xmat w) (xipos w) (ximat w) v (xaxis w) (cinert w)
    (cdof w) (crb w).

Definition set_xaxis (v : list vec3) (w : World) : World :=
  mkWorld (qpos w) (qvel w) (qacc w) (qacc_eulerdamp w) (qfrc_smooth w)
    (qfrc_constraint w) (qfrc_eulerdamp w) (act w) (act_dot w) (qM w)
    (xpos w) (xquat w) (xmat w) (xipos w) (ximat w) (xanchor w) v (cinert w)
    (cdof w) (crb w).

Definition set_crb (v : list vec10) (w : World) : World :=
  mkWorld (qpos w) (qvel w) (qacc w) (qacc_eulerdamp w) (qfrc_smooth w)
    (qfrc_constraint w) (qfrc_eulerdamp w) (act w) (act_dot w) (qM w)
    (xpos w) (xquat w) (xmat w) (xipos w) (ximat w) (xanchor w) (xaxis w)
    (cinert w) (cdof w) v.

Record Data : Type := mkData {
  time : R;
  worlds : list World
}.

Definition nworld (d : Data) : Z := Z.of_nat (length (worlds d)).

Definition set_worlds (ws : list World) (d : Data) : Data :=
  mkData (time d) ws.

(** [wp.launch(kernel, dim=(d.nworld, n))] of a kernel that works on the
    slice of its world. *)
Definition launch_worlds (n : Z) (kernel : Z -> Z -> World -> World)
    (d : Data) : Data :=
  set_worlds
    (imap (fun worldid w => launch n (kernel (Z.of_nat worldid)) w) (worlds d))
    d.

(** [wp.launch(kernel, dim=(d.nworld))]: one thread per world. *)
Definition launch_per_world (kernel : Z -> World -> World) (d : Data) : Data :=
  set_worlds (imap (fun worldid w => kernel (Z.of_nat worldid) w) (worlds d)) d.

(** The same launches for a kernel with a [while] loop, which is run on
    [fuel]: [None] when a thread has not left its loop by then. *)
Definition launch_opt {St : Type} (n : Z) (kernel : Z -> St -> option St)
    (s : St) : option St :=
  foldl (fun s tid => s ≫= kernel tid) (Some s) (seqZ 0 n).

Definition launch_worlds_opt (n : Z) (kernel : Z -> Z -> World -> option World)
    (d : Data) : option Data :=
  ws ← mapM (fun p => launch_opt n (kernel (Z.of_nat p.1)) p.2)
            (imap pair (worlds d));
  Some (set_worlds ws d).

End types.

Export types.

(** ** math.py: the functions on spatial vectors

    [inert_vec] takes the ten numbers of an inertia, which the callers
    hold as [types.vec10]. *)

Module math_spatial.
Local Open Scope R_scope.

(** [mju_mulInertVec]: multiply 6D vector (rotation, translation) by 6D
    inertia matrix. *)
Definition inert_vec (i : vec10) (v : spatial_vector) : spatial_vector :=
  mkspatial
    (c0 i * s0 v + c3 i * s1 v + c4 i * s2 v - c8 i * s4 v + c7 i * s5 v)
    (c3 i * s0 v + c1 i * s1 v + c5 i * s2 v + c8 i * s3 v - c6 i * s5 v)
    (c4 i * s0 v + c5 i * s1 v + c2 i * s2 v - c7 i * s3 v + c6 i * s4 v)
    (c8 i * s1 v - c7 i * s2 v + c9 i * s3 v)
    (c6 i * s2 v - c8 i * s0 v + c9 i * s4 v)
    (c7 i * s0 v - c6 i * s1 v + c9 i * s5 v).

(** Cross product of a motion and a force. *)
Definition motion_cross_force (v f : spatial_vector) : spatial_vector :=
  let v0 := mkvec3 (s0 v) (s1 v) (s2 v) in
  let v1 := mkvec3 (s3 v) (s4 v) (s5 v) in
  let f0 := mkvec3 (s0 f) (s1 f) (s2 f) in
  let f1 := mkvec3 (s3 f) (s4 f) (s5 f) in
  let ang := vadd (cross v0 f0) (cross v1 f1) in
  let vel := cross v0 f1 in
  spatial_of ang vel.

End math_spatial.

(** ** smooth.py *)

Module smooth.
Local Open Scope R_scope.

(** *** kinematics *)

Definition _root (m : Model) (worldid : Z) (w : World) : World :=
  let w := set_xpos (aset (xpos w) 0 vec3_zero) w in
  let w := set_xquat (aset (xquat w) 0 (mkquat 1 0 0 0)) w in
  let w := set_xipos (aset (xipos w) 0 vec3_zero) w in
  let w := set_xmat (aset (xmat w) 0 identity3) w in
  set_ximat (aset (ximat w) 0 identity3) w.

(** One pass of the loop [for _ in range(jntnum)] of [_level], on the
    locals [xpos], [xquat], [jntadr] and the world slice. *)
Definition _level_joint (m : Model) (st : vec3 * quat * Z * World)
    : vec3 * quat * Z * World :=
  let '(xpos, xquat, jntadr, w) := st in
  let qadr := aget (jnt_qposadr m) jntadr in
  let jnt_type := aget (types.jnt_type m) jntadr in
  let xanchor :=
    vadd (math.rot_vec_quat (aget (jnt_pos m) jntadr) xquat) xpos in
  let xaxis := math.rot_vec_quat (aget (jnt_axis m) jntadr) xquat in
  let '(xpos, xquat) :=
    if (jnt_type =? 3)%Z then
      let qloc :=
        math.axis_angle_to_quat (aget (jnt_axis m) jntadr)
          (aget (qpos w) qadr - aget (qpos0 m) qadr) in
      let xquat := math.mul_quat xquat qloc in
      let xpos :=
        vsub xanchor (math.rot_vec_quat (aget (jnt_pos m) jntadr) xquat) in
      (xpos, xquat)
    else (xpos, xquat) in
  let w := set_xanchor (aset (types.xanchor w) jntadr xanchor) w in
  let w := set_xaxis (aset (types.xaxis w) jntadr xaxis) w in
  (xpos, xquat, (jntadr + 1)%Z, w).

Definition _level (m : Model) (leveladr : Z) (worldid nodeid : Z)
    (w : World) : World :=
  let bodyid := aget (body_tree m) (leveladr + nodeid) in
  let jntadr := aget (body_jntadr m) bodyid in
  let jntnum := aget (body_jntnum m) bodyid in
  let qpos := types.qpos w in
  let '(xpos, xquat, w) :=
    if (jntnum =? 1)%Z && (aget (jnt_type m) jntadr =? 0)%Z then
      let qadr := aget (jnt_qposadr m) jntadr in
      let xpos :=
        mkvec3 (aget qpos qadr) (aget qpos (qadr + 1)) (aget qpos (qadr + 2)) in
      let xquat :=
        mkquat (aget qpos (qadr + 3)) (aget qpos (qadr + 4))
               (aget qpos (qadr + 5)) (aget qpos (qadr + 6)) in
      let w := set_xanchor (aset (xanchor w) jntadr xpos) w in
      let w := set_xaxis (aset (xaxis w) jntadr (aget (jnt_axis m) jntadr)) w in
      (xpos, xquat, w)
    else
      let pid := aget (body_parentid m) bodyid in
      let xpos :=
        vadd (mulmv (aget (xmat w) pid) (aget (body_pos m) bodyid))
             (aget (types.xpos w) pid) in
      let xquat :=
        math.mul_quat (aget (types.xquat w) pid) (aget (body_quat m) bodyid) in
      let '(xpos, xquat, _, w) :=
        Nat.iter (Z.to_nat jntnum) (_level_joint m) (xpos, xquat, jntadr, w) in
      (xpos, xquat, w) in
  let w := set_xpos (aset (types.xpos w) bodyid xpos) w in
  let w := set_xquat (aset (types.xquat w) bodyid (normalizeq xquat)) w in
  set_xmat (aset (xmat w) bodyid (math.quat_to_mat xquat)) w.

Definition kinematics (m : Model) (d : Data) : Data :=
  let d := launch_per_world (_root m) d in
  foldl (fun d '(adr, size) => launch_worlds size (_level m adr) d) d
        (zip (body_leveladr m) (body_levelsize m)).

(** *** crb *)

Definition crb_accumulate (m : Model) (leveladr : Z) (worldid nodeid : Z)
    (w : World) : World :=
  let bodyid := aget (body_tree m) (leveladr + nodeid) in
  let pid := aget (body_parentid m) bodyid in
  if (pid =? 0)%Z then w
  else
    set_crb
      (aset (crb w) pid (vec10_add (aget (crb w) pid) (aget (crb w) bodyid)))
      w.

(** The loop [while dofid >= 0] of [qM_sparse]. *)
Fixpoint qM_sparse_ancestors (fuel : nat) (m : Model) (buf : spatial_vector)
    (dofid madr_ij : Z) (w : World) : option World :=
  if (0 <=? dofid)%Z then
    match fuel with
    | O => None
    | S fuel =>
        let w :=
          set_qM
            (aset2 (qM w) 0 madr_ij
               (aget2 (qM w) 0 madr_ij + sdot (aget (cdof w) dofid) buf))
            w in
        qM_sparse_ancestors fuel m buf (aget (dof_parentid m) dofid)
          (madr_ij + 1)%Z w
    end
  else Some w.

Definition qM_sparse (fuel : nat) (m : Model) (worldid dofid : Z)
    (w : World) : option World :=
  let madr_ij := aget (dof_Madr m) dofid in
  let bodyid := aget (dof_bodyid m) dofid in
  let w := set_qM (aset2 (qM w) 0 madr_ij (aget (dof_armature m) dofid)) w in
  let i := aget (crb w) bodyid in
  let v := aget (cdof w) dofid in
  let buf :=
    mkspatial
      (c0 i * s0 v + c3 i * s1 v + c4 i * s2 v - c8 i * s4 v + c7 i * s5 v)
      (c3 i * s0 v + c1 i * s1 v + c5 i * s2 v + c8 i * s3 v - c6 i * s5 v)
      (c4 i * s0 v + c5 i * s1 v + c2 i * s2 v - c7 i * s3 v + c6 i * s4 v)
      (c8 i * s1 v - c7 i * s2 v + c9 i * s3 v)
      (c6 i * s2 v - c8 i * s0 v + c9 i * s4 v)
      (c7 i * s0 v - c6 i * s1 v + c9 i * s5 v) in
  qM_sparse_ancestors fuel m buf dofid madr_ij w.

(** [(leveladr[i], levelsize[i])] for [i] from [len(leveladr) - 1] down to
    [0]; indexing a shorter [levelsize] raises, which is [None]. *)
Definition levels_backward (leveladr levelsize : list Z) : option (list (Z * Z)) :=
  mapM (fun i => size ← levelsize !! i; adr ← leveladr !! i; Some (adr, size))
       (reverse (seq 0 (length leveladr))).

(** [crb]: [None] when the function does not return. *)
Definition crb (fuel : nat) (m : Model) (d : Data) : option Data :=
  let d := set_worlds ((fun w => set_crb (cinert w) w) <$> worlds d) d in
  match levels_backward (body_leveladr m) (body_levelsize m) with
  | None => None
  | Some levels =>
      let d :=
        foldl (fun d '(adr, size) => launch_worlds size (crb_accumulate m adr) d)
              d levels in
      let d :=
        set_worlds
          ((fun w =>
              set_qM ((fun row : list R => (fun _ : R => 0) <$> row) <$> qM w) w)
             <$> worlds d) d in
      launch_worlds_opt (nv m) (qM_sparse fuel m) d
  end.

(** *** factor_m and solve_m

    The array arguments of [factor_m] and [solve_m] are given by their
    slices of one world: [qM] and [qLD] with their two remaining axes,
    [qLDiagInv], [x] and [y] with one.  Every thread of their kernels
    works on the slices of its own world. *)

Definition qLD_acc (m : Model) (leveladr : Z) (nodeid : Z)
    (qLD : list (list R)) : list (list R) :=
  let update := aget (qLD_updates m) (leveladr + nodeid) in
  let i := update.1.1 in
  let k := update.1.2 in
  let Madr_ki := update.2 in
  let Madr_i := aget (dof_Madr m) i in
  let tmp := aget2 qLD 0 Madr_ki / aget2 qLD 0 (aget (dof_Madr m) k) in
  let qLD :=
    foldl (fun qLD j =>
             aset2 qLD 0 (Madr_i + j)
               (aget2 qLD 0 (Madr_i + j) - aget2 qLD 0 (Madr_ki + j) * tmp))
          qLD (seqZ 0 (aget (dof_Madr m) (i + 1) - Madr_i)) in
  aset2 qLD 0 Madr_ki tmp.

Definition qLDiag_div (m : Model) (qLD : list (list R)) (dofid : Z)
    (qLDiagInv : list R) : list R :=
  aset qLDiagInv dofid (1 / aget2 qLD 0 (aget (dof_Madr m) dofid)).

(** [_factor_m_sparse]: the new [qLD] and [qLDiagInv]; [None] when the
    level arrays do not match. *)
Definition _factor_m_sparse (m : Model) (qM qLD : list (list R))
    (qLDiagInv : list R) : option (list (list R) * list R) :=
  let qLD := qM in
  match levels_backward (qLD_leveladr m) (qLD_levelsize m) with
  | None => None
  | Some levels =>
      let qLD :=
        foldl (fun qLD '(adr, size) => launch size (qLD_acc m adr) qLD)
              qLD levels in
      Some (qLD, launch (nv m) (qLDiag_div m qLD) qLDiagInv)
  end.

Definition _factor_m_dense (m : Model) (qM qLD : list (list R))
    : list (list R) :=
  let TILE := nv m in
  let qM_tile := tile_load2 TILE qM in
  let qLD_tile := tile_cholesky qM_tile in
  tile_store2 qLD qLD_tile.

(** [factor_m]: [None] when the sparse path is taken without
    [qLDiagInv] (the assertion fails) or does not return. *)
Definition factor_m (m : Model) (qM qLD : list (list R))
    (qLDiagInv : option (list R)) : option (list (list R) * option (list R)) :=
  if opt_is_sparse m then
    match qLDiagInv with
    | None => None
    | Some qLDiagInv =>
        match _factor_m_sparse m qM qLD qLDiagInv with
        | None => None
        | Some (qLD, qLDiagInv) => Some (qLD, Some qLDiagInv)
        end
    end
  else Some (_factor_m_dense m qM qLD, qLDiagInv).

Definition solve_m_dense (m : Model) (qLD : list (list R)) (x y : list R)
    : list R :=
  let TILE := nv m in
  let qLD_tile := tile_load2 TILE qLD in
  let x_tile := tile_load TILE x in
  let y_tile := tile_cholesky_solve qLD_tile x_tile in
  tile_store y y_tile.

(** The two loops [while j >= 0] of [solve_m_sparse], for the first and
    for the third sweep. *)
Fixpoint solve_chain_up (fuel : nat) (m : Model) (qLD : list (list R))
    (i madr_ij j : Z) (y : list R) : option (list R) :=
  if (0 <=? j)%Z then
    match fuel with
    | O => None
    | S fuel =>
        let y := aset y j (aget y j - aget2 qLD 0 madr_ij * aget y i) in
        solve_chain_up fuel m qLD i (madr_ij + 1)%Z (aget (dof_parentid m) j) y
    end
  else Some y.

Fixpoint solve_chain_down (fuel : nat) (m : Model) (qLD : list (list R))
    (i madr_ij j : Z) (y : list R) : option (list R) :=
  if (0 <=? j)%Z then
    match fuel with
    | O => None
    | S fuel =>
        let y := aset y i (aget y i - aget2 qLD 0 madr_ij * aget y j) in
        solve_chain_down fuel m qLD i (madr_ij + 1)%Z (aget (dof_parentid m) j) y
    end
  else Some y.

(** The kernel [solve_m_sparse] on the slice [y] of its world. *)
Definition solve_m_sparse (fuel : nat) (m : Model) (qLD : list (list R))
    (qLDiagInv : list R) (y : list R) : option (list R) :=
  match
    foldl (fun y i =>
             y ≫= solve_chain_up fuel m qLD i (aget (dof_Madr m) i + 1)%Z
                    (aget (dof_parentid m) i))
          (Some y) (reverse (seqZ 0 (nv m)))
  with
  | None => None
  | Some y =>
      let y :=
        foldl (fun y i => aset y i (aget y i * aget qLDiagInv i)) y
              (seqZ 0 (nv m)) in
      foldl (fun y i =>
               y ≫= solve_chain_down fuel m qLD i (aget (dof_Madr m) i + 1)%Z
                      (aget (dof_parentid m) i))
            (Some y) (seqZ 0 (nv m))
  end.

(** [solve_m].  [x] and [y] name arrays of the store [arrays]: the caller
    may pass one array for both.  [qLD] and [qLDiagInv] are taken to be
    other arrays than [y].  [None] when an array is missing or the sparse
    kernel does not return. *)
Definition solve_m (fuel : nat) (m : Model) (qLD : list (list R))
    (qLDiagInv : list R) (x y : nat) (arrays : gmap nat (list R))
    : option (gmap nat (list R)) :=
  match arrays !! x, arrays !! y with
  | Some xv, Some yv =>
      if opt_is_sparse m then
        let arrays := <[y := xv]> arrays in
        match arrays !! y ≫= solve_m_sparse fuel m qLD qLDiagInv with
        | None => None
        | Some yv => Some (<[y := yv]> arrays)
        end
      else Some (<[y := solve_m_dense m qLD xv yv]> arrays)
  | _, _ => None
  end.

End smooth.

(** ** smooth.py: com_pos

    [com_pos] and [rne] read and write fields of [Model] and [Data] that
    no other modelled function uses.  [ModelX] and [WorldX] are [Model]
    and [World] with these fields added.  Both functions are given on
    the slices of one world: a thread [(worldid, tid)] of their kernels
    only touches the slices of its world, and the array [mass_subtree],
    which has no world axis, is computed from the model alone. *)

Module smooth_com.
Local Open Scope R_scope.

Record ModelX : Type := mkModelX {
  model :> Model;
  body_mass : list R;
  body_inertia : list vec3;
  body_rootid : list Z;
  jnt_bodyid : list Z;
  body_dofnum : list Z;
  body_dofadr : list Z;
  opt_gravity : vec3
}.

Record WorldX : Type := mkWorldX {
  world :> World;
  subtree_com : list vec3;
  cdof_dot : list spatial_vector;
  cvel : list spatial_vector;
  qfrc_bias : list R
}.

Definition set_world (w : World) (wx : WorldX) : WorldX :=
  mkWorldX w (subtree_com wx) (cdof_dot wx) (cvel wx) (qfrc_bias wx).

Definition set_subtree_com (v : list vec3) (wx : WorldX) : WorldX :=
  mkWorldX (world wx) v (cdof_dot wx) (cvel wx) (qfrc_bias wx).

Definition set_qfrc_bias (v : list R) (wx : WorldX) : WorldX :=
  mkWorldX (world wx) (subtree_com wx) (cdof_dot wx) (cvel wx) v.

Definition set_cinert (v : list vec10) (w : World) : World :=
  mkWorld (qpos w) (qvel w) (qacc w) (qacc_eulerdamp w) (qfrc_smooth w)
    (qfrc_constraint w) (qfrc_eulerdamp w) (act w) (act_dot w) (qM w)
    (xpos w) (xquat w) (xmat w) (xipos w) (ximat w) (xanchor w) (xaxis w)
    v (types.cdof w) (crb w).

Definition set_cdof (v : list spatial_vector) (w : World) : World :=
  mkWorld (qpos w) (qvel w) (qacc w) (qacc_eulerdamp w) (qfrc_smooth w)
    (qfrc_constraint w) (qfrc_eulerdamp w) (act w) (act_dot w) (qM w)
    (xpos w) (xquat w) (xmat w) (xipos w) (ximat w) (xanchor w) (xaxis w)
    (types.cinert w) v (crb w).

Definition mass_subtree_acc (m : ModelX) (leveladr : Z) (nodeid : Z)
    (mass_subtree : list R) : list R :=
  let bodyid := aget (body_tree m) (leveladr + nodeid) in
  let pid := aget (body_parentid m) bodyid in
  aset mass_subtree pid (aget mass_subtree pid + aget mass_subtree bodyid).

Definition subtree_com_init (m : ModelX) (bodyid : Z) (wx : WorldX) : WorldX :=
  set_subtree_com
    (aset (subtree_com wx) bodyid
       (vmuls (aget (xipos wx) bodyid) (aget (body_mass m) bodyid)))
    wx.

Definition subtree_com_acc (m : ModelX) (leveladr : Z) (nodeid : Z)
    (wx : WorldX) : WorldX :=
  let bodyid := aget (body_tree m) (leveladr + nodeid) in
  let pid := aget (body_parentid m) bodyid in
  set_subtree_com
    (aset (subtree_com wx) pid
       (vadd (aget (subtree_com wx) pid) (aget (subtree_com wx) bodyid)))
    wx.

Definition subtree_div (mass_subtree : list R) (bodyid : Z) (wx : WorldX)
    : WorldX :=
  set_subtree_com
    (aset (subtree_com wx) bodyid
       (vdivs (aget (subtree_com wx) bodyid) (aget mass_subtree bodyid)))
    wx.

(** The kernel [cinert].  [res] is given with the values that the
    assignments [res[k] = ...], [res[k] += ...] and [res[k] -= ...]
    leave in it. *)
Definition cinert (m : ModelX) (bodyid : Z) (wx : WorldX) : WorldX :=
  let mat := aget (ximat wx) bodyid in
  let inert := aget (body_inertia m) bodyid in
  let mass := aget (body_mass m) bodyid in
  let dif :=
    vsub (aget (xipos wx) bodyid)
         (aget (subtree_com wx) (aget (body_rootid m) bodyid)) in
  let tmp := mulmm (mulmm mat (diag3 inert)) (transpose3 mat) in
  let res :=
    mkvec10
      (m00 tmp + mass * (v1 dif * v1 dif + v2 dif * v2 dif))
      (m11 tmp + mass * (v0 dif * v0 dif + v2 dif * v2 dif))
      (m22 tmp + mass * (v0 dif * v0 dif + v1 dif * v1 dif))
      (m01 tmp - mass * v0 dif * v1 dif)
      (m02 tmp - mass * v0 dif * v2 dif)
      (m12 tmp - mass * v1 dif * v2 dif)
      (mass * v0 dif)
      (mass * v1 dif)
      (mass * v2 dif)
      mass in
  set_world (set_cinert (aset (types.cinert wx) bodyid res) wx) wx.

Definition cdof (m : ModelX) (jntid : Z) (wx : WorldX) : WorldX :=
  let bodyid := aget (jnt_bodyid m) jntid in
  let dofid := aget (jnt_dofadr m) jntid in
  let jnt_type := aget (types.jnt_type m) jntid in
  let xaxis := aget (types.xaxis wx) jntid in
  let xmat := transpose3 (aget (types.xmat wx) bodyid) in
  let offset :=
    vsub (aget (subtree_com wx) (aget (body_rootid m) bodyid))
         (aget (xanchor wx) jntid) in
  let res := types.cdof wx in
  let res :=
    if (jnt_type =? 0)%Z then
      let res := aset res (dofid + 0) (mkspatial 0 0 0 1 0 0) in
      let res := aset res (dofid + 1) (mkspatial 0 0 0 0 1 0) in
      let res := aset res (dofid + 2) (mkspatial 0 0 0 0 0 1) in
      let res :=
        aset res (dofid + 3)
             (spatial_of (row0 xmat) (cross (row0 xmat) offset)) in
      let res :=
        aset res (dofid + 4)
             (spatial_of (row1 xmat) (cross (row1 xmat) offset)) in
      aset res (dofid + 5)
           (spatial_of (row2 xmat) (cross (row2 xmat) offset))
    else if (jnt_type =? 1)%Z then
      let res :=
        aset res (dofid + 0)
             (spatial_of (row0 xmat) (cross (row0 xmat) offset)) in
      let res :=
        aset res (dofid + 1)
             (spatial_of (row1 xmat) (cross (row1 xmat) offset)) in
      aset res (dofid + 2)
           (spatial_of (row2 xmat) (cross (row2 xmat) offset))
    else if (jnt_type =? 2)%Z then
      aset res dofid (spatial_of vec3_zero xaxis)
    else if (jnt_type =? 3)%Z then
      aset res dofid (spatial_of xaxis (cross xaxis offset))
    else res in
  set_world (set_cdof res wx) wx.

(** [com_pos]: [None] when indexing [levelsize] raises. *)
Definition com_pos (m : ModelX) (wx : WorldX) : option WorldX :=
  match smooth.levels_backward (body_leveladr m) (body_levelsize m) with
  | None => None
  | Some levels =>
      let mass_subtree := body_mass m in
      let mass_subtree :=
        foldl (fun ms '(adr, size) => launch size (mass_subtree_acc m adr) ms)
              mass_subtree levels in
      let wx := launch (nbody m) (subtree_com_init m) wx in
      let wx :=
        foldl (fun wx '(adr, size) => launch size (subtree_com_acc m adr) wx)
              wx levels in
      let wx := launch (nbody m) (subtree_div mass_subtree) wx in
      let wx := launch (nbody m) (cinert m) wx in
      Some (launch (njnt m) (cdof m) wx)
  end.

End smooth_com.

(** ** smooth.py: rne

    On the slices of one world, as [com_pos].  [cacc] and [cfrc] are the
    arrays that [rne] allocates. *)

Module smooth_rne.
Import smooth_com math_spatial.
Local Open Scope R_scope.

Definition cacc_gravity (m : ModelX) (cacc : list spatial_vector)
    : list spatial_vector :=
  aset cacc 0 (spatial_of vec3_zero (vneg (opt_gravity m))).

Definition cacc_level (m : ModelX) (wx : WorldX) (leveladr : Z) (nodeid : Z)
    (cacc : list spatial_vector) : list spatial_vector :=
  let bodyid := aget (body_tree m) (leveladr + nodeid) in
  let dofnum := aget (body_dofnum m) bodyid in
  let pid := aget (body_parentid m) bodyid in
  let dofadr := aget (body_dofadr m) bodyid in
  let local_cacc := aget cacc pid in
  let local_cacc :=
    foldl (fun local_cacc i =>
             sadd local_cacc
                  (smuls (aget (cdof_dot wx) (dofadr + i))
                         (aget (qvel wx) (dofadr + i))))
          local_cacc (seqZ 0 dofnum) in
  aset cacc bodyid local_cacc.

Definition frc (wx : WorldX) (cacc : list spatial_vector) (bodyid : Z)
    (cfrc : list spatial_vector) : list spatial_vector :=
  let tmp0 := inert_vec (aget (types.cinert wx) bodyid) (aget cacc bodyid) in
  let tmp1 :=
    inert_vec (aget (types.cinert wx) bodyid) (aget (cvel wx) bodyid) in
  let tmp2 := motion_cross_force (aget (cvel wx) bodyid) tmp1 in
  aset cfrc bodyid (sadd (aget cfrc bodyid) (sadd tmp0 tmp2)).

Definition cfrc_fn (m : ModelX) (leveladr : Z) (nodeid : Z)
    (cfrc : list spatial_vector) : list spatial_vector :=
  let bodyid := aget (body_tree m) (leveladr + nodeid) in
  let pid := aget (body_parentid m) bodyid in
  aset cfrc pid (sadd (aget cfrc pid) (aget cfrc bodyid)).

Definition qfrc_bias (m : ModelX) (cfrc : list spatial_vector) (dofid : Z)
    (wx : WorldX) : WorldX :=
  let bodyid := aget (dof_bodyid m) dofid in
  set_qfrc_bias
    (aset (smooth_com.qfrc_bias wx) dofid
       (sdot (aget (types.cdof wx) dofid) (aget cfrc bodyid)))
    wx.

(** [(leveladr[i], levelsize[i])] for [i] from [len(leveladr) - 1] down
    to [1]. *)
Definition levels_backward_to_1 (leveladr levelsize : list Z)
    : option (list (Z * Z)) :=
  mapM (fun i => size ← levelsize !! i; adr ← leveladr !! i; Some (adr, size))
       (reverse (seq 1 (length leveladr - 1))).

(** [rne]: [None] when indexing [levelsize] raises. *)
Definition rne (m : ModelX) (wx : WorldX) : option WorldX :=
  let cacc := replicate (Z.to_nat (nbody m)) (mkspatial 0 0 0 0 0 0) in
  let cfrc := replicate (Z.to_nat (nbody m)) (mkspatial 0 0 0 0 0 0) in
  let cacc := cacc_gravity m cacc in
  let cacc :=
    foldl (fun cacc '(adr, size) => launch size (cacc_level m wx adr) cacc)
          cacc (zip (body_leveladr m) (body_levelsize m)) in
  let cfrc := launch (nbody m) (frc wx cacc) cfrc in
  match levels_backward_to_1 (body_leveladr m) (body_levelsize m) with
  | None => None
  | Some levels =>
      let cfrc :=
        foldl (fun cfrc '(adr, size) => launch size (cfrc_fn m adr) cfrc)
              cfrc levels in
      Some (launch (nv m) (qfrc_bias m cfrc) wx)
  end.

End smooth_rne.

(** ** forward.py *)

Module forward.
Local Open Scope R_scope.

Definition quat_integrate_wp (q : quat) (v : vec3) (dt : R) : quat :=
  let norm_ := length3 v in
  let v := normalize3 v in
  let angle := dt * norm_ in
  let q_res := math.axis_angle_to_quat v angle in
  let q_res := math.mul_quat q q_res in
  normalizeq q_res.

Definition WarpMjMinVal : R := 1e-15.

(** The kernel thread [(worldId, tid)] of [next_activation].  The value of
    [wp.clamp] is not bound to anything in the source: the statement
    computes it and goes on with [act] as it was. *)
Definition next_activation (m : Model) (act_dot_in : list (list R))
    (worldId tid : Z) (w : World) : World :=
  let limited := aget (actuator_actlimited m) tid in
  let range_low :=
    select limited NegInf (Finite (aget2 (actuator_actrange m) tid 0)) in
  let range_high :=
    select limited PosInf (Finite (aget2 (actuator_actrange m) tid 1)) in
  let act_adr := aget (actuator_actadr m) tid in
  if (act_adr =? -1)%Z then w
  else
    let acts := types.act w in
    let acts_dot := aget act_dot_in worldId in
    let act := aget acts act_adr in
    let act_dot := aget acts_dot act_adr in
    let dyn_type := aget (actuator_dyntype m) tid in
    let dyn_prm := aget2 (actuator_dynprm m) tid 0 in
    let act :=
      if (dyn_type =? 3)%Z then
        let tau :=
          select (Rltb dyn_prm WarpMjMinVal) dyn_prm WarpMjMinVal in
        act + act_dot * tau * (1 - exp (- timestep m / tau))
      else act + act_dot * timestep m in
    let _ := clamp (Finite act) range_low range_high in
    set_act (aset acts act_adr act) w.

Definition advance_velocities (m : Model) (qacc : list (list R))
    (worldId tid : Z) (w : World) : World :=
  set_qvel
    (aset (qvel w) tid (aget (qvel w) tid + aget2 qacc worldId tid * timestep m))
    w.

Definition integrate_joint_positions (m : Model) (qvel_in : list (list R))
    (worldId tid : Z) (w : World) : World :=
  let jnt_type := aget (types.jnt_type m) tid in
  let qpos_adr := aget (jnt_qposadr m) tid in
  let dof_adr := aget (jnt_dofadr m) tid in
  let qpos := types.qpos w in
  let qvel := aget qvel_in worldId in
  if (jnt_type =? 0)%Z then
    let qpos_pos :=
      mkvec3 (aget qpos qpos_adr) (aget qpos (qpos_adr + 1))
             (aget qpos (qpos_adr + 2)) in
    let qvel_lin :=
      mkvec3 (aget qvel dof_adr) (aget qvel (dof_adr + 1))
             (aget qvel (dof_adr + 2)) in
    let qpos_new := vadd qpos_pos (vscale (timestep m) qvel_lin) in
    let qpos_quat :=
      mkquat (aget qpos (qpos_adr + 3)) (aget qpos (qpos_adr + 4))
             (aget qpos (qpos_adr + 5)) (aget qpos (qpos_adr + 6)) in
    let qvel_ang :=
      mkvec3 (aget qvel (dof_adr + 3)) (aget qvel (dof_adr + 4))
             (aget qvel (dof_adr + 5)) in
    let qpos_quat_new := quat_integrate_wp qpos_quat qvel_ang (timestep m) in
    let qpos := aset qpos qpos_adr (v0 qpos_new) in
    let qpos := aset qpos (qpos_adr + 1) (v1 qpos_new) in
    let qpos := aset qpos (qpos_adr + 2) (v2 qpos_new) in
    let qpos := aset qpos (qpos_adr + 3) (q0 qpos_quat_new) in
    let qpos := aset qpos (qpos_adr + 4) (q1 qpos_quat_new) in
    let qpos := aset qpos (qpos_adr + 5) (q2 qpos_quat_new) in
    let qpos := aset qpos (qpos_adr + 6) (q3 qpos_quat_new) in
    set_qpos qpos w
  else if (jnt_type =? 1)%Z then
    let qpos_quat :=
      mkquat (aget qpos qpos_adr) (aget qpos (qpos_adr + 1))
             (aget qpos (qpos_adr + 2)) (aget qpos (qpos_adr + 3)) in
    let qvel_ang :=
      mkvec3 (aget qvel dof_adr) (aget qvel (dof_adr + 1))
             (aget qvel (dof_adr + 2)) in
    let qpos_quat_new := quat_integrate_wp qpos_quat qvel_ang (timestep m) in
    let qpos := aset qpos qpos_adr (q0 qpos_quat_new) in
    let qpos := aset qpos (qpos_adr + 1) (q1 qpos_quat_new) in
    let qpos := aset qpos (qpos_adr + 2) (q2 qpos_quat_new) in
    let qpos := aset qpos (qpos_adr + 3) (q3 qpos_quat_new) in
    set_qpos qpos w
  else
    set_qpos
      (aset qpos qpos_adr (aget qpos qpos_adr + timestep m * aget qvel dof_adr))
      w.

(** [_advance].  [act_dot] and [qacc] are the arrays the caller passes;
    no kernel launched here writes to them.  Without [qvel] the positions
    are integrated with [d.qvel] as it is after [advance_velocities]. *)
Definition _advance (m : Model) (d : Data) (act_dot qacc : list (list R))
    (qvel : option (list (list R))) : Data :=
  let d :=
    if (na m =? 0)%Z then d
    else launch_worlds (nu m) (next_activation m act_dot) d in
  let d := launch_worlds (nv m) (advance_velocities m qacc) d in
  let qvel_in :=
    match qvel with
    | Some qvel => qvel
    | None => types.qvel <$> worlds d
    end in
  let d := launch_worlds (njnt m) (integrate_joint_positions m qvel_in) d in
  mkData (time d + timestep m) (worlds d).

(** The kernel that [euler] launches on the sparse representation, over
    [m.nM] threads (its name in the source is [add_damping_dense]). *)
Definition add_damping_dense (m : Model) (worldId tid : Z) (w : World) : World :=
  let dof_Madr := aget (types.dof_Madr m) tid in
  set_qM
    (aset2 (qM w) 0 dof_Madr
       (aget2 (qM w) 0 dof_Madr + timestep m * aget (dof_damping m) dof_Madr))
    w.

(** The kernel that [euler] launches on the dense representation, over
    [m.nv] threads (its name in the source is [add_damping_sparse]). *)
Definition add_damping_sparse (m : Model) (worldId tid : Z) (w : World) : World :=
  set_qM
    (aset2 (qM w) tid tid
       (aget2 (qM w) tid tid + timestep m * aget (dof_damping m) tid))
    w.

Definition sum_qfrc (m : Model) (worldId tid : Z) (w : World) : World :=
  set_qfrc_eulerdamp
    (aset (qfrc_eulerdamp w) tid
       (aget (qfrc_smooth w) tid + aget (qfrc_constraint w) tid))
    w.

(** What a call of a Python function comes to: it returns, or it raises
    with [Data] as the kernels launched so far have left it. *)
Inductive exception : Type := TypeError.

Inductive outcome : Type :=
  | Returns (d : Data)
  | Raises (e : exception) (d : Data).

Section Euler.
(** The bit of [disable_flags] that turns implicit damping off.
    [types.MJ_DSBL_EULERDAMP] is read by [euler] and declared in no
    source file at hand. *)
Variable MJ_DSBL_EULERDAMP : Z.

(** The launches of [euler] under [if not m.disable_flags &
    types.MJ_DSBL_EULERDAMP], up to the call of [smooth.factor_m]. *)
Definition euler_damping (m : Model) (d : Data) : Data :=
  let d :=
    if is_sparse m then launch_worlds (nM m) (add_damping_dense m) d
    else launch_worlds (nv m) (add_damping_sparse m) d in
  launch_worlds (nv m) (sum_qfrc m) d.

(** [euler].  With damping enabled the source goes on with
    [smooth.factor_m(m, d)]; [factor_m] has the four required
    parameters [m], [d], [qM] and [qLD], so that call raises
    [TypeError] and neither [solve_m] nor [_advance] is reached. *)
Definition euler (m : Model) (d : Data) : outcome :=
  let d :=
    set_worlds ((fun w => set_qacc_eulerdamp (qacc w) w) <$> worlds d) d in
  if (Z.land (disable_flags m) MJ_DSBL_EULERDAMP =? 0)%Z then
    Raises TypeError (euler_damping m d)
  else
    Returns
      (_advance m d (act_dot <$> worlds d) (qacc_eulerdamp <$> worlds d) None).
End Euler.

End forward.

(** ** Concrete models and states

    Small models on which the theorems below are run. *)

Module fixtures.
Local Open Scope R_scope.

(** One stateful actuator, limited to [[0, 1]], integrated by explicit Euler. *)
Definition actuator_model : Model := {|
  nq := 0%Z;
  nv := 0%Z;
  nu := 1%Z;
  na := 1%Z;
  nM := 0%Z;
  nbody := 0%Z;
  njnt := 0%Z;
  timestep := 1;
  is_sparse := true;
  opt_is_sparse := true;
  disable_flags := 0%Z;
  qpos0 := [];
  body_tree := [];
  body_leveladr := [];
  body_levelsize := [];
  body_jntadr := [];
  body_jntnum := [];
  body_parentid := [];
  body_pos := [];
  body_quat := [];
  jnt_type := [];
  jnt_qposadr := [];
  jnt_dofadr := [];
  jnt_axis := [];
  jnt_pos := [];
  dof_bodyid := [];
  dof_parentid := [];
  dof_Madr := [];
  dof_armature := [];
  dof_damping := [];
  qLD_updates := [];
  qLD_leveladr := [];
  qLD_levelsize := [];
  actuator_actlimited := [true];
  actuator_actrange := [[0; 1]];
  actuator_actadr := [0%Z];
  actuator_dyntype := [0%Z];
  actuator_dynprm := [[1]]
|}.

(** One stateful actuator with filter-exact dynamics and time constant [0]. *)
Definition filter_model : Model := {|
  nq := 0%Z;
  nv := 0%Z;
  nu := 1%Z;
  na := 1%Z;
  nM := 0%Z;
  nbody := 0%Z;
  njnt := 0%Z;
  timestep := 1;
  is_sparse := true;
  opt_is_sparse := true;
  disable_flags := 0%Z;
  qpos0 := [];
  body_tree := [];
  body_leveladr := [];
  body_levelsize := [];
  body_jntadr := [];
  body_jntnum := [];
  body_parentid := [];
  body_pos := [];
  body_quat := [];
  jnt_type := [];
  jnt_qposadr := [];
  jnt_dofadr := [];
  jnt_axis := [];
  jnt_pos := [];
  dof_bodyid := [];
  dof_parentid := [];
  dof_Madr := [];
  dof_armature := [];
  dof_damping := [];
  qLD_updates := [];
  qLD_leveladr := [];
  qLD_levelsize := [];
  actuator_actlimited := [false];
  actuator_actrange := [[0; 0]];
  actuator_actadr := [0%Z];
  actuator_dyntype := [3%Z];
  actuator_dynprm := [[0]]
|}.

(** Activation [1] with derivative [1]. *)
Definition actuator_world : World := {|
  qpos := [];
  qvel := [];
  qacc := [];
  qacc_eulerdamp := [];
  qfrc_smooth := [];
  qfrc_constraint := [];
  qfrc_eulerdamp := [];
  act := [1];
  act_dot := [1];
  qM := [];
  xpos := [];
  xquat := [];
  xmat := [];
  xipos := [];
  ximat := [];
  xanchor := [];
  xaxis := [];
  cinert := [];
  cdof := [];
  crb := []
|}.

(** One hinge joint, one DOF; implicit damping is disabled (bit 14). *)
Definition pendulum_model : Model := {|
  nq := 1%Z;
  nv := 1%Z;
  nu := 0%Z;
  na := 0%Z;
  nM := 1%Z;
  nbody := 2%Z;
  njnt := 1%Z;
  timestep := 1;
  is_sparse := true;
  opt_is_sparse := true;
  disable_flags := 16384%Z;
  qpos0 := [0];
  body_tree := [];
  body_leveladr := [];
  body_levelsize := [];
  body_jntadr := [];
  body_jntnum := [];
  body_parentid := [];
  body_pos := [];
  body_quat := [];
  jnt_type := [3%Z];
  jnt_qposadr := [0%Z];
  jnt_dofadr := [0%Z];
  jnt_axis := [];
  jnt_pos := [];
  dof_bodyid := [];
  dof_parentid := [(-1)%Z];
  dof_Madr := [0%Z];
  dof_armature := [0];
  dof_damping := [1];
  qLD_updates := [];
  qLD_leveladr := [];
  qLD_levelsize := [];
  actuator_actlimited := [];
  actuator_actrange := [];
  actuator_actadr := [];
  actuator_dyntype := [];
  actuator_dynprm := []
|}.

(** The pendulum at rest position with [qvel = qacc = 1]. *)
Definition pendulum_world : World := {|
  qpos := [0];
  qvel := [1];
  qacc := [1];
  qacc_eulerdamp := [0];
  qfrc_smooth := [];
  qfrc_constraint := [];
  qfrc_eulerdamp := [];
  act := [];
  act_dot := [];
  qM := [[1]];
  xpos := [];
  xquat := [];
  xmat := [];
  xipos := [];
  ximat := [];
  xanchor := [];
  xaxis := [];
  cinert := [];
  cdof := [];
  crb := []
|}.

Definition pendulum_data : Data := mkData 0 [pendulum_world].

(** A body on a ball joint: four positions, three DOFs. *)
Definition ball_model : Model := {|
  nq := 4%Z;
  nv := 3%Z;
  nu := 0%Z;
  na := 0%Z;
  nM := 6%Z;
  nbody := 2%Z;
  njnt := 1%Z;
  timestep := 1;
  is_sparse := true;
  opt_is_sparse := true;
  disable_flags := 0%Z;
  qpos0 := [1; 0; 0; 0];
  body_tree := [0%Z; 1%Z];
  body_leveladr := [0%Z; 1%Z];
  body_levelsize := [1%Z; 1%Z];
  body_jntadr := [(-1)%Z; 0%Z];
  body_jntnum := [0%Z; 1%Z];
  body_parentid := [0%Z; 0%Z];
  body_pos := [vec3_zero; vec3_zero];
  body_quat := [mkquat 1 0 0 0; mkquat 1 0 0 0];
  jnt_type := [1%Z];
  jnt_qposadr := [0%Z];
  jnt_dofadr := [0%Z];
  jnt_axis := [mkvec3 0 0 1];
  jnt_pos := [vec3_zero];
  dof_bodyid := [1%Z; 1%Z; 1%Z];
  dof_parentid := [(-1)%Z; 0%Z; 1%Z];
  dof_Madr := [0%Z; 1%Z; 3%Z];
  dof_armature := [0; 0; 0];
  dof_damping := [0; 0; 0];
  qLD_updates := [];
  qLD_leveladr := [];
  qLD_levelsize := [];
  actuator_actlimited := [];
  actuator_actrange := [];
  actuator_actadr := [];
  actuator_dyntype := [];
  actuator_dynprm := []
|}.

(** The ball joint with the zero quaternion in [qpos] and no velocity. *)
Definition ball_world_zero : World := {|
  qpos := [0; 0; 0; 0];
  qvel := [0; 0; 0];
  qacc := [0; 0; 0];
  qacc_eulerdamp := [];
  qfrc_smooth := [];
  qfrc_constraint := [];
  qfrc_eulerdamp := [];
  act := [];
  act_dot := [];
  qM := [];
  xpos := [];
  xquat := [];
  xmat := [];
  xipos := [];
  ximat := [];
  xanchor := [];
  xaxis := [];
  cinert := [];
  cdof := [];
  crb := []
|}.

(** Four DOFs: DOF 1 is a child of DOF 0, DOFs 2 and 3 are roots; sparse mass matrix. *)
Definition damping_model : Model := {|
  nq := 4%Z;
  nv := 4%Z;
  nu := 0%Z;
  na := 0%Z;
  nM := 5%Z;
  nbody := 5%Z;
  njnt := 4%Z;
  timestep := 1;
  is_sparse := true;
  opt_is_sparse := true;
  disable_flags := 0%Z;
  qpos0 := [];
  body_tree := [];
  body_leveladr := [];
  body_levelsize := [];
  body_jntadr := [];
  body_jntnum := [];
  body_parentid := [];
  body_pos := [];
  body_quat := [];
  jnt_type := [];
  jnt_qposadr := [];
  jnt_dofadr := [];
  jnt_axis := [];
  jnt_pos := [];
  dof_bodyid := [];
  dof_parentid := [(-1)%Z; 0%Z; (-1)%Z; (-1)%Z];
  dof_Madr := [0%Z; 1%Z; 3%Z; 4%Z];
  dof_armature := [0; 0; 0; 0];
  dof_damping := [1; 2; 3; 4];
  qLD_updates := [];
  qLD_leveladr := [];
  qLD_levelsize := [];
  actuator_actlimited := [];
  actuator_actrange := [];
  actuator_actadr := [];
  actuator_dyntype := [];
  actuator_dynprm := []
|}.

(** A zero sparse mass matrix of five entries. *)
Definition damping_world : World := {|
  qpos := [];
  qvel := [];
  qacc := [];
  qacc_eulerdamp := [];
  qfrc_smooth := [];
  qfrc_constraint := [];
  qfrc_eulerdamp := [];
  act := [];
  act_dot := [];
  qM := [[0; 0; 0; 0; 0]];
  xpos := [];
  xquat := [];
  xmat := [];
  xipos := [];
  ximat := [];
  xanchor := [];
  xaxis := [];
  cinert := [];
  cdof := [];
  crb := []
|}.

(** The ball joint of [ball_model] with the quaternion [q] in [qpos];
    the Cartesian arrays have their shapes and hold zeros. *)
Definition ball_world (q : quat) : World := {|
  qpos := [q0 q; q1 q; q2 q; q3 q];
  qvel := [0; 0; 0];
  qacc := [0; 0; 0];
  qacc_eulerdamp := [0; 0; 0];
  qfrc_smooth := [0; 0; 0];
  qfrc_constraint := [0; 0; 0];
  qfrc_eulerdamp := [0; 0; 0];
  act := [];
  act_dot := [];
  qM := [[0; 0; 0; 0; 0; 0]];
  xpos := [vec3_zero; vec3_zero];
  xquat := [blank; blank];
  xmat := [blank; blank];
  xipos := [vec3_zero; vec3_zero];
  ximat := [blank; blank];
  xanchor := [vec3_zero];
  xaxis := [vec3_zero];
  cinert := [vec10_zero; vec10_zero];
  cdof := [blank; blank; blank];
  crb := [vec10_zero; vec10_zero]
|}.

(** A body on a hinge about the z axis, anchored at [(1, 0, 0)] in the body frame. *)
Definition hinge_model : Model := {|
  nq := 1%Z;
  nv := 1%Z;
  nu := 0%Z;
  na := 0%Z;
  nM := 1%Z;
  nbody := 2%Z;
  njnt := 1%Z;
  timestep := 1;
  is_sparse := true;
  opt_is_sparse := true;
  disable_flags := 0%Z;
  qpos0 := [0];
  body_tree := [0%Z; 1%Z];
  body_leveladr := [0%Z; 1%Z];
  body_levelsize := [1%Z; 1%Z];
  body_jntadr := [(-1)%Z; 0%Z];
  body_jntnum := [0%Z; 1%Z];
  body_parentid := [0%Z; 0%Z];
  body_pos := [vec3_zero; mkvec3 0 0 1];
  body_quat := [mkquat 1 0 0 0; mkquat 1 0 0 0];
  jnt_type := [3%Z];
  jnt_qposadr := [0%Z];
  jnt_dofadr := [0%Z];
  jnt_axis := [mkvec3 0 0 1];
  jnt_pos := [mkvec3 1 0 0];
  dof_bodyid := [1%Z];
  dof_parentid := [(-1)%Z];
  dof_Madr := [0%Z];
  dof_armature := [0];
  dof_damping := [0];
  qLD_updates := [];
  qLD_leveladr := [];
  qLD_levelsize := [];
  actuator_actlimited := [];
  actuator_actrange := [];
  actuator_actadr := [];
  actuator_dyntype := [];
  actuator_dynprm := []
|}.

(** The hinge at angle [1]; the Cartesian arrays have their shapes. *)
Definition hinge_world : World := {|
  qpos := [1];
  qvel := [0];
  qacc := [0];
  qacc_eulerdamp := [];
  qfrc_smooth := [];
  qfrc_constraint := [];
  qfrc_eulerdamp := [];
  act := [];
  act_dot := [];
  qM := [];
  xpos := [vec3_zero; vec3_zero];
  xquat := [mkquat 1 0 0 0; mkquat 1 0 0 0];
  xmat := [identity3; identity3];
  xipos := [vec3_zero; vec3_zero];
  ximat := [identity3; identity3];
  xanchor := [vec3_zero];
  xaxis := [vec3_zero];
  cinert := [];
  cdof := [];
  crb := []
|}.

(** Five bodies: the world, body 1 under it, body 2 under body 1, bodies 3 and 4 under body 2; one DOF per moving body. *)
Definition tree_model : Model := {|
  nq := 4%Z;
  nv := 4%Z;
  nu := 0%Z;
  na := 0%Z;
  nM := 9%Z;
  nbody := 5%Z;
  njnt := 4%Z;
  timestep := 1;
  is_sparse := true;
  opt_is_sparse := true;
  disable_flags := 0%Z;
  qpos0 := [0; 0; 0; 0];
  body_tree := [0%Z; 1%Z; 2%Z; 3%Z; 4%Z];
  body_leveladr := [0%Z; 1%Z; 2%Z; 3%Z];
  body_levelsize := [1%Z; 1%Z; 1%Z; 2%Z];
  body_jntadr := [(-1)%Z; 0%Z; 1%Z; 2%Z; 3%Z];
  body_jntnum := [0%Z; 1%Z; 1%Z; 1%Z; 1%Z];
  body_parentid := [0%Z; 0%Z; 1%Z; 2%Z; 2%Z];
  body_pos := [vec3_zero; vec3_zero; vec3_zero; vec3_zero; vec3_zero];
  body_quat := [mkquat 1 0 0 0; mkquat 1 0 0 0; mkquat 1 0 0 0; mkquat 1 0 0 0; mkquat 1 0 0 0];
  jnt_type := [3%Z; 3%Z; 3%Z; 3%Z];
  jnt_qposadr := [0%Z; 1%Z; 2%Z; 3%Z];
  jnt_dofadr := [0%Z; 1%Z; 2%Z; 3%Z];
  jnt_axis := [mkvec3 0 0 1; mkvec3 0 0 1; mkvec3 0 0 1; mkvec3 0 0 1];
  jnt_pos := [vec3_zero; vec3_zero; vec3_zero; vec3_zero];
  dof_bodyid := [1%Z; 2%Z; 3%Z; 4%Z];
  dof_parentid := [(-1)%Z; 0%Z; 1%Z; 1%Z];
  dof_Madr := [0%Z; 1%Z; 3%Z; 6%Z];
  dof_armature := [0; 0; 0; 0];
  dof_damping := [0; 0; 0; 0];
  qLD_updates := [(0, 1, 2)%Z; (0, 2, 5)%Z; (0, 3, 8)%Z; (1, 2, 4)%Z; (1, 3, 7)%Z];
  qLD_leveladr := [0%Z; 3%Z];
  qLD_levelsize := [3%Z; 2%Z];
  actuator_actlimited := [];
  actuator_actrange := [];
  actuator_actadr := [];
  actuator_dyntype := [];
  actuator_dynprm := []
|}.

(** [tree_model] with the dense factorisation selected. *)
Definition tree_model_dense : Model := {|
  nq := 4%Z;
  nv := 4%Z;
  nu := 0%Z;
  na := 0%Z;
  nM := 9%Z;
  nbody := 5%Z;
  njnt := 4%Z;
  timestep := 1;
  is_sparse := true;
  opt_is_sparse := false;
  disable_flags := 0%Z;
  qpos0 := [0; 0; 0; 0];
  body_tree := [0%Z; 1%Z; 2%Z; 3%Z; 4%Z];
  body_leveladr := [0%Z; 1%Z; 2%Z; 3%Z];
  body_levelsize := [1%Z; 1%Z; 1%Z; 2%Z];
  body_jntadr := [(-1)%Z; 0%Z; 1%Z; 2%Z; 3%Z];
  body_jntnum := [0%Z; 1%Z; 1%Z; 1%Z; 1%Z];
  body_parentid := [0%Z; 0%Z; 1%Z; 2%Z; 2%Z];
  body_pos := [vec3_zero; vec3_zero; vec3_zero; vec3_zero; vec3_zero];
  body_quat := [mkquat 1 0 0 0; mkquat 1 0 0 0; mkquat 1 0 0 0; mkquat 1 0 0 0; mkquat 1 0 0 0];
  jnt_type := [3%Z; 3%Z; 3%Z; 3%Z];
  jnt_qposadr := [0%Z; 1%Z; 2%Z; 3%Z];
  jnt_dofadr := [0%Z; 1%Z; 2%Z; 3%Z];
  jnt_axis := [mkvec3 0 0 1; mkvec3 0 0 1; mkvec3 0 0 1; mkvec3 0 0 1];
  jnt_pos := [vec3_zero; vec3_zero; vec3_zero; vec3_zero];
  dof_bodyid := [1%Z; 2%Z; 3%Z; 4%Z];
  dof_parentid := [(-1)%Z; 0%Z; 1%Z; 1%Z];
  dof_Madr := [0%Z; 1%Z; 3%Z; 6%Z];
  dof_armature := [0; 0; 0; 0];
  dof_damping := [0; 0; 0; 0];
  qLD_updates := [(0, 1, 2)%Z; (0, 2, 5)%Z; (0, 3, 8)%Z; (1, 2, 4)%Z; (1, 3, 7)%Z];
  qLD_leveladr := [0%Z; 3%Z];
  qLD_levelsize := [3%Z; 2%Z];
  actuator_actlimited := [];
  actuator_actrange := [];
  actuator_actadr := [];
  actuator_dyntype := [];
  actuator_dynprm := []
|}.

(** A body inertia of mass [mass] and nothing else. *)
Definition point_inertia (mass : R) : vec10 := mkvec10 0 0 0 0 0 0 0 0 0 mass.

(** A state of [tree_model] with the masses [0, 1, 2, 3, 4] in [cinert]. *)
Definition tree_world : World := {|
  qpos := [0; 0; 0; 0];
  qvel := [0; 0; 0; 0];
  qacc := [0; 0; 0; 0];
  qacc_eulerdamp := [];
  qfrc_smooth := [];
  qfrc_constraint := [];
  qfrc_eulerdamp := [];
  act := [];
  act_dot := [];
  qM := [[0; 0; 0; 0; 0; 0; 0; 0; 0]];
  xpos := [];
  xquat := [];
  xmat := [];
  xipos := [];
  ximat := [];
  xanchor := [];
  xaxis := [];
  cinert := [point_inertia 0; point_inertia 1; point_inertia 2; point_inertia 3; point_inertia 4];
  cdof := [blank; blank; blank; blank];
  crb := [vec10_zero; vec10_zero; vec10_zero; vec10_zero; vec10_zero]
|}.

(** A factor of [tree_model] in packed form (unit diagonal, no
    off-diagonal entries), its inverse diagonal, and a store with a
    right-hand side at [0] and an output array at [1]. *)
Definition tree_qLD : list (list R) := [[1; 1; 0; 1; 0; 0; 1; 0; 0]].

Definition tree_qLDiagInv : list R := [1; 1; 1; 1].

Definition tree_arrays : gmap nat (list R) :=
  <[0%nat := [1; 2; 3; 4]]> (<[1%nat := [0; 0; 0; 0]]> ∅).

(** A mass matrix of [tree_model], packed and as a square array: [4] on
    the diagonal, [1] between a DOF and its ancestors. *)
Definition tree_qM : list (list R) := [[4; 4; 1; 4; 1; 1; 4; 1; 1]].

Definition tree_qM_dense : list (list R) :=
  [[4; 1; 1; 1]; [1; 4; 1; 1]; [1; 1; 4; 0]; [1; 1; 0; 4]].

Definition tree_qLD_dense : list (list R) :=
  [[0; 0; 0; 0]; [0; 0; 0; 0]; [0; 0; 0; 0]; [0; 0; 0; 0]].

(** [tree_model] with the masses [0, 1, 2, 3, 4], unit inertias, the
    root body [1] of the one kinematic tree, one joint and one DOF per
    moving body, and gravity along [-z]. *)
Definition tree_modelx : smooth_com.ModelX := {|
  smooth_com.model := tree_model;
  smooth_com.body_mass := [0; 1; 2; 3; 4];
  smooth_com.body_inertia :=
    [vec3_zero; mkvec3 1 1 1; mkvec3 1 1 1; mkvec3 1 1 1; mkvec3 1 1 1];
  smooth_com.body_rootid := [0%Z; 1%Z; 1%Z; 1%Z; 1%Z];
  smooth_com.jnt_bodyid := [1%Z; 2%Z; 3%Z; 4%Z];
  smooth_com.body_dofnum := [0%Z; 1%Z; 1%Z; 1%Z; 1%Z];
  smooth_com.body_dofadr := [(-1)%Z; 0%Z; 1%Z; 2%Z; 3%Z];
  smooth_com.opt_gravity := mkvec3 0 0 (-10)
|}.

(** [tree_world] with the bodies at [x = 0, 1, 2, 3, 4], at rest. *)
Definition tree_worldx : smooth_com.WorldX := {|
  smooth_com.world :=
    set_xipos [vec3_zero; mkvec3 1 0 0; mkvec3 2 0 0; mkvec3 3 0 0; mkvec3 4 0 0]
      (set_ximat [identity3; identity3; identity3; identity3; identity3]
         tree_world);
  smooth_com.subtree_com := [vec3_zero; vec3_zero; vec3_zero; vec3_zero; vec3_zero];
  smooth_com.cdof_dot := [blank; blank; blank; blank];
  smooth_com.cvel := [blank; blank; blank; blank; blank];
  smooth_com.qfrc_bias := [0; 0; 0; 0]
|}.

End fixtures.

(** * Properties *)

(** ** Arrays and launches *)

Module array_facts.

Section Facts.
Context {A : Type} `{Blank A}.
Implicit Types (a : list A) (i j : Z) (v : A).

Lemma length_aset a i v : length (aset a i v) = length a.
Proof. unfold aset. case_decide; [apply length_insert | reflexivity]. Qed.

Lemma aget_aset_eq a i v : in_range a i -> aget (aset a i v) i = v.
Proof.
  intros [Hlo Hhi]. unfold aget, aset.
  rewrite !decide_True by assumption.
  rewrite list_lookup_insert_eq by lia. reflexivity.
Qed.

Lemma aget_aset_ne a i j v : i <> j -> aget (aset a i v) j = aget a j.
Proof.
  intros Hne. unfold aget, aset.
  destruct (decide (0 <= j)%Z); [| reflexivity].
  destruct (decide (0 <= i)%Z); [| reflexivity].
  rewrite list_lookup_insert_ne by lia. reflexivity.
Qed.

Lemma in_range_aset a i j v : in_range (aset a i v) j <-> in_range a j.
Proof. unfold in_range. by rewrite length_aset. Qed.
End Facts.

Lemma aget2_aset2_eq {A : Type} `{Blank A} (a : list (list A))
    (i j : Z) (v : A) :
  in_range a i -> in_range (aget a i) j -> aget2 (aset2 a i j v) i j = v.
Proof.
  intros Hi Hj. unfold aget2, aset2.
  rewrite aget_aset_eq by assumption. by apply aget_aset_eq.
Qed.

Lemma aget2_aset2_ne {A : Type} `{Blank A} (a : list (list A))
    (i j i' j' : Z) (v : A) :
  i <> i' \/ j <> j' -> aget2 (aset2 a i j v) i' j' = aget2 a i' j'.
Proof.
  intros Hne. unfold aget2, aset2.
  destruct (decide (i = i')) as [<- | Hi].
  - destruct (decide (in_range a i)) as [Hin | Hout].
    + rewrite aget_aset_eq by assumption.
      apply aget_aset_ne. destruct Hne; [contradiction | assumption].
    + f_equal. unfold aget, aset.
      destruct (decide (0 <= i)%Z); [| reflexivity].
      rewrite list_insert_ge; [reflexivity |].
      unfold in_range in Hout. lia.
  - by rewrite aget_aset_ne.
Qed.

Lemma in_range_aset2_row {A : Type} `{Blank A} (a : list (list A))
    (i j i' : Z) (v : A) :
  in_range (aset2 a i j v) i' <-> in_range a i'.
Proof. unfold aset2. apply in_range_aset. Qed.

Lemma in_range_aset2_col {A : Type} `{Blank A} (a : list (list A))
    (i j i' j' : Z) (v : A) :
  in_range (aget (aset2 a i j v) i') j' <-> in_range (aget a i') j'.
Proof.
  unfold aset2. destruct (decide (i = i')) as [<- | Hi].
  - destruct (decide (in_range a i)) as [Hin | Hout].
    + rewrite aget_aset_eq by assumption. apply in_range_aset.
    + unfold aget at 1 3, aset at 1.
      destruct (decide (0 <= i)%Z); [| reflexivity].
      rewrite list_insert_ge; [reflexivity |].
      unfold in_range in Hout. lia.
  - by rewrite aget_aset_ne.
Qed.

(** Evaluates reads and writes of arrays that are given in full. *)
Ltac arr_eval := unfold in_range, aget2, aset2, aget, aset; simpl.

Lemma launch_nonpos {St : Type} (n : Z) (k : Z -> St -> St) (s : St) :
  (n <= 0)%Z -> launch n k s = s.
Proof. intros Hn. unfold launch. by rewrite seqZ_nil. Qed.

Lemma launch_succ {St : Type} (n : Z) (k : Z -> St -> St) (s : St) :
  (0 <= n)%Z -> launch (n + 1) k s = k n (launch n k s).
Proof.
  intros Hn. unfold launch.
  rewrite (seqZ_app 0 n 1) by lia.
  rewrite foldl_app. simpl. by rewrite Z.add_0_l.
Qed.

(** A property kept by every thread is kept by the launch. *)
Lemma launch_invariant {St : Type} (P : St -> Prop) (n : Z)
    (k : Z -> St -> St) (s : St) :
  P s -> (forall tid s, (0 <= tid < n)%Z -> P s -> P (k tid s)) ->
  P (launch n k s).
Proof.
  intros Hs Hk. destruct (decide (n <= 0)%Z) as [Hn | Hn].
  - by rewrite launch_nonpos.
  - rewrite <- (Z2Nat.id n) in Hk |- * by lia.
    induction (Z.to_nat n) as [| p IH].
    + by rewrite launch_nonpos.
    + rewrite Nat2Z.inj_succ, <- Z.add_1_r, launch_succ by lia.
      apply Hk; [lia |]. apply IH. intros tid s' Ht. apply Hk. lia.
Qed.

(** A launch seen through a projection of the state that every thread
    respects. *)
Lemma launch_proj {St T : Type} (proj : St -> T) (n : Z)
    (k : Z -> St -> St) (k' : Z -> T -> T) (s : St) :
  (forall tid s, (0 <= tid < n)%Z -> proj (k tid s) = k' tid (proj s)) ->
  proj (launch n k s) = launch n k' (proj s).
Proof.
  intros Hk. destruct (decide (n <= 0)%Z) as [Hn | Hn].
  - by rewrite !launch_nonpos.
  - rewrite <- (Z2Nat.id n) in Hk |- * by lia.
    induction (Z.to_nat n) as [| p IH].
    + by rewrite !launch_nonpos.
    + rewrite Nat2Z.inj_succ, <- Z.add_1_r, !launch_succ by lia.
      rewrite Hk by lia. f_equal. apply IH.
      intros tid s' Ht. apply Hk. lia.
Qed.

Lemma launch_frame {St T : Type} (proj : St -> T) (n : Z)
    (k : Z -> St -> St) (s : St) :
  (forall tid s, (0 <= tid < n)%Z -> proj (k tid s) = proj s) ->
  proj (launch n k s) = proj s.
Proof.
  intros Hk. apply (launch_invariant (fun s' => proj s' = proj s));
    [reflexivity |].
  intros tid s' Ht Hs'. by rewrite Hk.
Qed.

(** A launch whose thread [tid] rewrites entry [tid] of an array from
    the entries [tid] of that array. *)
Lemma launch_pointwise {A : Type} `{Blank A} (f : Z -> A -> A) (n : Z)
    (a : list A) (i : Z) :
  in_range a i ->
  aget (launch n (fun tid a => aset a tid (f tid (aget a tid))) a) i
  = if decide (i < n)%Z then f i (aget a i) else aget a i.
Proof.
  intros Hi. destruct (decide (n <= 0)%Z) as [Hn | Hn].
  - rewrite launch_nonpos by assumption.
    rewrite decide_False; [reflexivity | destruct Hi; lia].
  - rewrite <- (Z2Nat.id n) by lia.
    induction (Z.to_nat n) as [| p IH].
    + rewrite launch_nonpos by reflexivity.
      rewrite decide_False; [reflexivity | destruct Hi; simpl; lia].
    + rewrite Nat2Z.inj_succ, <- Z.add_1_r, launch_succ by lia.
      set (a' := launch (Z.of_nat p) _ a) in *.
      assert (Ha' : in_range a' i).
      { unfold a'.
        apply (launch_invariant (fun b => in_range b i)); [assumption |].
        intros tid b _ Hb. by apply in_range_aset. }
      destruct (decide (i = Z.of_nat p)) as [-> | Hne].
      * rewrite aget_aset_eq by assumption.
        rewrite decide_True by lia. rewrite IH.
        rewrite decide_False by lia. reflexivity.
      * rewrite aget_aset_ne by congruence. rewrite IH.
        destruct (decide (i < Z.of_nat p)%Z), (decide (i < Z.of_nat p + 1)%Z);
          try reflexivity; lia.
Qed.

Lemma aget_fmap {A B : Type} `{Blank B}
    (f : A -> B) (l : list A) (i : nat) (x : A) :
  l !! i = Some x -> aget (f <$> l) (Z.of_nat i) = f x.
Proof.
  intros Hx. unfold aget. rewrite decide_True by lia.
  by rewrite Nat2Z.id, list_lookup_fmap, Hx.
Qed.

Lemma worlds_launch_worlds (n : Z) (k : Z -> Z -> World -> World) (d : Data)
    (i : nat) :
  worlds (launch_worlds n k d) !! i
  = launch n (k (Z.of_nat i)) <$> worlds d !! i.
Proof. unfold launch_worlds. simpl. by rewrite list_lookup_imap. Qed.

Lemma time_launch_worlds (n : Z) (k : Z -> Z -> World -> World) (d : Data) :
  time (launch_worlds n k d) = time d.
Proof. reflexivity. Qed.

Lemma length_launch_worlds (n : Z) (k : Z -> Z -> World -> World) (d : Data) :
  length (worlds (launch_worlds n k d)) = length (worlds d).
Proof. unfold launch_worlds. simpl. apply length_imap. Qed.

Lemma launch_opt_nonpos {St : Type} (n : Z) (k : Z -> St -> option St) (s : St) :
  (n <= 0)%Z -> launch_opt n k s = Some s.
Proof. intros Hn. unfold launch_opt. by rewrite seqZ_nil. Qed.

Lemma launch_opt_succ {St : Type} (n : Z) (k : Z -> St -> option St) (s : St) :
  (0 <= n)%Z -> launch_opt (n + 1) k s = launch_opt n k s ≫= k n.
Proof.
  intros Hn. unfold launch_opt.
  rewrite (seqZ_app 0 n 1) by lia.
  rewrite foldl_app. simpl. by rewrite Z.add_0_l.
Qed.

(** A launch on fuel returns when each of its threads does, and keeps
    what every thread keeps. *)
Lemma launch_opt_invariant {St : Type} (P : St -> Prop) (n : Z)
    (k : Z -> St -> option St) (s : St) :
  P s ->
  (forall tid s, (0 <= tid < n)%Z -> P s -> exists s', k tid s = Some s' /\ P s') ->
  exists s', launch_opt n k s = Some s' /\ P s'.
Proof.
  intros Hs Hk. destruct (decide (n <= 0)%Z) as [Hn | Hn].
  - exists s. by rewrite launch_opt_nonpos.
  - rewrite <- (Z2Nat.id n) in Hk |- * by lia.
    induction (Z.to_nat n) as [| p IH].
    + exists s. by rewrite launch_opt_nonpos.
    + rewrite Nat2Z.inj_succ, <- Z.add_1_r, launch_opt_succ by lia.
      destruct IH as (s1 & -> & Hs1).
      { intros tid s' Ht. apply Hk. lia. }
      simpl. apply Hk; [lia | assumption].
Qed.

Lemma launch_worlds_opt_Some (n : Z) (k : Z -> Z -> World -> option World)
    (d : Data) (Q : World -> World -> Prop) :
  (forall (i : nat) w, worlds d !! i = Some w ->
     exists w', launch_opt n (k (Z.of_nat i)) w = Some w' /\ Q w w') ->
  exists d',
    launch_worlds_opt n k d = Some d'
    /\ time d' = time d
    /\ forall (i : nat) w, worlds d !! i = Some w ->
         exists w', worlds d' !! i = Some w' /\ Q w w'.
Proof.
  intros Hk. unfold launch_worlds_opt.
  set (f := fun p : nat * World => launch_opt n (k (Z.of_nat p.1)) p.2).
  assert (Hsome : is_Some (mapM f (imap pair (worlds d)))).
  { apply mapM_is_Some, Forall_lookup. intros i [j w] Hi.
    rewrite list_lookup_imap in Hi.
    destruct (worlds d !! i) as [w0 |] eqn:Hw; [| discriminate].
    simpl in Hi. injection Hi as <- <-.
    destruct (Hk i w0 Hw) as (w' & Hw' & _).
    unfold f. simpl. by rewrite Hw'. }
  destruct Hsome as [ws Hws]. rewrite Hws. simpl.
  eexists. split; [reflexivity |]. split; [reflexivity |].
  intros i w Hw. simpl.
  apply mapM_Some_1 in Hws.
  assert (Hi : imap pair (worlds d) !! i = Some (i, w)).
  { by rewrite list_lookup_imap, Hw. }
  destruct (Forall2_lookup_l _ _ _ _ _ Hws Hi) as (w' & Hw' & Hf).
  exists w'. split; [assumption |].
  destruct (Hk i w Hw) as (w'' & Hw'' & HQ).
  unfold f in Hf. simpl in Hf. congruence.
Qed.

End array_facts.

(** ** forward.py: activation, velocity and position advance *)

Module forward_props.
Import array_facts forward.
Local Open Scope R_scope.

(** What [next_activation] stores for a stateful actuator: the advanced
    activation, whatever the limits are. *)
Lemma next_activation_stored (m : Model) (act_dot_in : list (list R))
    (worldId tid : Z) (w : World) :
  aget (actuator_actadr m) tid <> (-1)%Z ->
  in_range (act w) (aget (actuator_actadr m) tid) ->
  let act_adr := aget (actuator_actadr m) tid in
  let a := aget (act w) act_adr in
  let a_dot := aget (aget act_dot_in worldId) act_adr in
  let dyn_prm := aget2 (actuator_dynprm m) tid 0 in
  let tau := select (Rltb dyn_prm WarpMjMinVal) dyn_prm WarpMjMinVal in
  aget (act (next_activation m act_dot_in worldId tid w)) act_adr
  = if (aget (actuator_dyntype m) tid =? 3)%Z
    then a + a_dot * tau * (1 - exp (- timestep m / tau))
    else a + a_dot * timestep m.
Proof.
  intros Hadr Hin. cbv zeta. unfold next_activation.
  destruct (Z.eqb_spec (aget (actuator_actadr m) tid) (-1)) as [? | _];
    [contradiction |].
  cbv zeta. simpl. by rewrite aget_aset_eq.
Qed.

(** C3, on the code: a limited actuator with range [[0, 1]], activation
    [1], derivative [1] and timestep [1] is left with the activation [2],
    above its upper limit.  The value of [wp.clamp] is dropped. *)
Lemma next_activation_limited_out_of_range :
  let m := fixtures.actuator_model in
  let w := fixtures.actuator_world in
  let w' := next_activation m [act_dot w] 0 0 w in
  aget (actuator_actlimited m) 0 = true
  /\ aget2 (actuator_actrange m) 0 1 = 1
  /\ aget (act w') 0 = 2
  /\ clamp (Finite 2) (Finite 0) (Finite 1) = Finite 1.
Proof.
  cbv zeta. split; [reflexivity |]. split; [reflexivity |]. split.
  - change 0%Z with (aget (actuator_actadr fixtures.actuator_model) 0) at 3.
    rewrite next_activation_stored.
    + arr_eval. lra.
    + discriminate.
    + arr_eval; lia.
  - unfold clamp, smax, smin, sle, Rleb.
    destruct (Rle_dec 0 2) as [_ | Hn]; [| exfalso; lra].
    destruct (Rle_dec 2 1) as [Hle | _]; [exfalso; lra | reflexivity].
Qed.

(** The time constant of the filter-exact update is the larger of the
    dynamics parameter and [WarpMjMinVal]. *)
Lemma filterexact_tau (dyn_prm : R) :
  select (Rltb dyn_prm WarpMjMinVal) dyn_prm WarpMjMinVal
  = Rmax dyn_prm WarpMjMinVal.
Proof.
  unfold select, Rltb.
  destruct (Rlt_dec dyn_prm WarpMjMinVal) as [Hlt | Hge].
  - rewrite Rmax_right; [reflexivity | lra].
  - rewrite Rmax_left; [reflexivity | lra].
Qed.

(** C9: for a stateful actuator with filter-exact dynamics the kernel
    stores [act + act_dot * tau * (1 - exp(-timestep / tau))], where the
    divisor [tau] is the dynamics parameter clamped below by
    [WarpMjMinVal = 1e-15]: it is at least [1e-15], and so not zero,
    whatever the parameter is. *)
Theorem next_activation_filterexact (m : Model) (act_dot_in : list (list R))
    (worldId tid : Z) (w : World) :
  aget (actuator_dyntype m) tid = 3%Z ->
  aget (actuator_actadr m) tid <> (-1)%Z ->
  in_range (act w) (aget (actuator_actadr m) tid) ->
  let act_adr := aget (actuator_actadr m) tid in
  let tau := Rmax (aget2 (actuator_dynprm m) tid 0) WarpMjMinVal in
  aget (act (next_activation m act_dot_in worldId tid w)) act_adr
  = aget (act w) act_adr
    + aget (aget act_dot_in worldId) act_adr * tau
      * (1 - exp (- timestep m / tau))
  /\ 1e-15 <= tau
  /\ tau <> 0.
Proof.
  intros Hdyn Hadr Hin. cbv zeta.
  rewrite next_activation_stored by assumption.
  rewrite Hdyn, Z.eqb_refl, filterexact_tau.
  assert (Hmin : 1e-15 <= Rmax (aget2 (actuator_dynprm m) tid 0) WarpMjMinVal)
    by apply Rmax_r.
  split; [reflexivity |]. split; [exact Hmin |]. lra.
Qed.

Lemma next_activation_filterexact_witness :
  let m := fixtures.filter_model in
  let w := fixtures.actuator_world in
  let tau := Rmax 0 WarpMjMinVal in
  aget (act (next_activation m [act_dot w] 0 0 w)) 0
  = 1 + 1 * tau * (1 - exp (- 1 / tau))
  /\ 1e-15 <= tau
  /\ tau <> 0.
Proof.
  apply (next_activation_filterexact fixtures.filter_model
           [act_dot fixtures.actuator_world] 0 0 fixtures.actuator_world).
  - reflexivity.
  - discriminate.
  - arr_eval; lia.
Defined.

(** *** Velocity advance *)

Lemma qvel_next_activation (m : Model) (act_dot_in : list (list R))
    (worldId tid : Z) (w : World) :
  qvel (next_activation m act_dot_in worldId tid w) = qvel w.
Proof.
  unfold next_activation.
  by destruct (aget (actuator_actadr m) tid =? -1)%Z.
Qed.

Lemma qvel_integrate_joint_positions (m : Model) (qvel_in : list (list R))
    (worldId tid : Z) (w : World) :
  qvel (integrate_joint_positions m qvel_in worldId tid w) = qvel w.
Proof.
  unfold integrate_joint_positions.
  by destruct (aget (jnt_type m) tid =? 0)%Z, (aget (jnt_type m) tid =? 1)%Z.
Qed.

(** The world slice after [_advance]. *)
Definition advance_world (m : Model) (act_dot qacc : list (list R))
    (qvel_in : list (list R)) (worldid : Z) (w : World) : World :=
  let w :=
    if (na m =? 0)%Z then w
    else launch (nu m) (next_activation m act_dot worldid) w in
  let w := launch (nv m) (advance_velocities m qacc worldid) w in
  launch (njnt m) (integrate_joint_positions m qvel_in worldid) w.

Lemma worlds_advance (m : Model) (d : Data) (act_dot qacc : list (list R))
    (qvel : option (list (list R))) (i : nat) :
  exists qvel_in,
    worlds (_advance m d act_dot qacc qvel) !! i
    = advance_world m act_dot qacc qvel_in (Z.of_nat i) <$> worlds d !! i.
Proof.
  unfold _advance, advance_world. cbv zeta. cbn [worlds].
  destruct (na m =? 0)%Z; eexists; rewrite !worlds_launch_worlds;
    destruct (worlds d !! i); reflexivity.
Qed.

Lemma qvel_advance_world (m : Model) (act_dot qacc qvel_in : list (list R))
    (worldid : Z) (w : World) (i : Z) :
  in_range (qvel w) i -> (i < nv m)%Z ->
  aget (qvel (advance_world m act_dot qacc qvel_in worldid w)) i
  = aget (qvel w) i + aget2 qacc worldid i * timestep m.
Proof.
  intros Hi Hnv. unfold advance_world. cbv zeta.
  rewrite (launch_frame qvel)
    by (intros; apply qvel_integrate_joint_positions).
  rewrite (launch_proj qvel _ _
             (fun tid a =>
                aset a tid
                  ((fun t x => x + aget2 qacc worldid t * timestep m)
                     tid (aget a tid))))
    by reflexivity.
  assert (Hq : qvel (if (na m =? 0)%Z then w
                     else launch (nu m) (next_activation m act_dot worldid) w)
               = qvel w).
  { destruct (na m =? 0)%Z; [reflexivity |].
    apply (launch_frame qvel). intros. apply qvel_next_activation. }
  rewrite Hq.
  etransitivity;
    [exact (launch_pointwise
              (fun t x => x + aget2 qacc worldid t * timestep m)
              (nv m) (qvel w) i Hi) |].
  by rewrite decide_True.
Qed.

(** C5: with the euler-damp flag set in [disable_flags], [euler] returns
    and, in every world and for every DOF, the velocity has become
    [qvel + qacc * timestep] with [qacc] as it was supplied. *)
Theorem euler_damping_disabled (MJ_DSBL_EULERDAMP : Z) (m : Model) (d : Data) :
  Z.land (disable_flags m) MJ_DSBL_EULERDAMP <> 0%Z ->
  exists d',
    euler MJ_DSBL_EULERDAMP m d = Returns d'
    /\ forall (worldid : nat) (w : World),
         worlds d !! worldid = Some w ->
         exists w',
           worlds d' !! worldid = Some w'
           /\ forall i : Z,
                in_range (qvel w) i -> (i < nv m)%Z ->
                aget (qvel w') i
                = aget (qvel w) i + aget (qacc w) i * timestep m.
Proof.
  intros Hflag. unfold euler. cbv zeta.
  destruct (Z.eqb_spec (Z.land (disable_flags m) MJ_DSBL_EULERDAMP) 0)
    as [? | _]; [contradiction |].
  eexists. split; [reflexivity |].
  intros worldid w Hw.
  match goal with
  | |- context [_advance m ?d0 ?ad ?qa None] =>
      destruct (worlds_advance m d0 ad qa None worldid) as [qvel_in ->]
  end.
  simpl worlds. rewrite list_lookup_fmap, Hw. simpl.
  eexists. split; [reflexivity |].
  intros i Hi Hnv.
  rewrite qvel_advance_world by assumption. simpl.
  unfold aget2.
  rewrite <- list_fmap_compose.
  by rewrite (aget_fmap _ _ _ w Hw).
Qed.

Lemma euler_damping_disabled_witness :
  exists d',
    euler 16384 fixtures.pendulum_model fixtures.pendulum_data = Returns d'
    /\ forall (worldid : nat) (w : World),
         worlds fixtures.pendulum_data !! worldid = Some w ->
         exists w',
           worlds d' !! worldid = Some w'
           /\ forall i : Z,
                in_range (qvel w) i -> (i < nv fixtures.pendulum_model)%Z ->
                aget (qvel w') i
                = aget (qvel w) i
                  + aget (qacc w) i * timestep fixtures.pendulum_model.
Proof.
  apply (euler_damping_disabled 16384 fixtures.pendulum_model
           fixtures.pendulum_data).
  simpl. discriminate.
Defined.

(** *** Position advance: the stored quaternions *)

Lemma normalizeq_unit (q : quat) : lengthq (normalizeq q) = 1.
Proof.
  unfold normalizeq. cbv zeta.
  destruct (Rlt_dec 0 (lengthq q)) as [Hpos | Hnpos].
  - unfold lengthq in *. set (n := qdot q q) in *.
    assert (Hn : 0 <= n) by (unfold n, qdot; nra).
    assert (Hsq : sqrt n * sqrt n = n) by (apply sqrt_sqrt; exact Hn).
    set (l := sqrt n) in *.
    replace (qdot _ _) with 1; [apply sqrt_1 |].
    unfold qdot. simpl. fold l.
    transitivity (n * (1 / l * (1 / l))); [| unfold n, qdot; ring].
    rewrite <- Hsq. field. lra.
  - unfold lengthq, qdot. simpl.
    replace (0 * 0 + 0 * 0 + 0 * 0 + 1 * 1) with 1 by ring. apply sqrt_1.
Qed.

Lemma quat_integrate_wp_unit (q : quat) (v : vec3) (dt : R) :
  lengthq (quat_integrate_wp q v dt) = 1.
Proof. unfold quat_integrate_wp. apply normalizeq_unit. Qed.

(** The number of [qpos] entries of a joint of type [t], and the
    quaternion held in the segment of a free or ball joint, read the way
    the kernels read it. *)
Definition qpos_width (t : Z) : Z :=
  if (t =? 0)%Z then 7%Z else if (t =? 1)%Z then 4%Z else 1%Z.

Definition stored_quat (m : Model) (qpos : list R) (j : Z) : quat :=
  let adr := aget (jnt_qposadr m) j in
  if (aget (jnt_type m) j =? 0)%Z then
    mkquat (aget qpos (adr + 3)) (aget qpos (adr + 4))
           (aget qpos (adr + 5)) (aget qpos (adr + 6))
  else
    mkquat (aget qpos adr) (aget qpos (adr + 1))
           (aget qpos (adr + 2)) (aget qpos (adr + 3)).

(** The segments of the joints lie inside [qpos] and do not overlap. *)
Definition qpos_layout (m : Model) (qpos : list R) : Prop :=
  (forall j, (0 <= j < njnt m)%Z ->
     (0 <= aget (jnt_qposadr m) j)%Z
     /\ (aget (jnt_qposadr m) j + qpos_width (aget (jnt_type m) j)
         <= Z.of_nat (length qpos))%Z)
  /\ (forall j k, (0 <= j < njnt m)%Z -> (0 <= k < njnt m)%Z -> j <> k ->
       (aget (jnt_qposadr m) j + qpos_width (aget (jnt_type m) j)
        <= aget (jnt_qposadr m) k)%Z
       \/ (aget (jnt_qposadr m) k + qpos_width (aget (jnt_type m) k)
           <= aget (jnt_qposadr m) j)%Z).

Lemma length_qpos_integrate (m : Model) (qvel_in : list (list R))
    (worldId tid : Z) (w : World) :
  length (qpos (integrate_joint_positions m qvel_in worldId tid w))
  = length (qpos w).
Proof.
  unfold integrate_joint_positions. cbv zeta.
  destruct (aget (jnt_type m) tid =? 0)%Z;
    [| destruct (aget (jnt_type m) tid =? 1)%Z];
    cbn [qpos set_qpos]; by rewrite !length_aset.
Qed.

Lemma qpos_integrate_frame (m : Model) (qvel_in : list (list R))
    (worldId tid : Z) (w : World) (i : Z) :
  (i < aget (jnt_qposadr m) tid
   \/ aget (jnt_qposadr m) tid + qpos_width (aget (jnt_type m) tid) <= i)%Z ->
  aget (qpos (integrate_joint_positions m qvel_in worldId tid w)) i
  = aget (qpos w) i.
Proof.
  unfold integrate_joint_positions, qpos_width. cbv zeta.
  destruct (aget (jnt_type m) tid =? 0)%Z;
    [| destruct (aget (jnt_type m) tid =? 1)%Z];
    intros Hi; cbn [qpos set_qpos]; rewrite !aget_aset_ne by lia; reflexivity.
Qed.

Lemma quat_eta (q : quat) : mkquat (q0 q) (q1 q) (q2 q) (q3 q) = q.
Proof. by destruct q. Qed.

(** The thread of a free or ball joint leaves a unit quaternion. *)
Lemma stored_quat_integrate (m : Model) (qvel_in : list (list R))
    (worldId tid : Z) (w : World) :
  (aget (jnt_type m) tid = 0 \/ aget (jnt_type m) tid = 1)%Z ->
  (0 <= aget (jnt_qposadr m) tid)%Z ->
  (aget (jnt_qposadr m) tid + qpos_width (aget (jnt_type m) tid)
   <= Z.of_nat (length (qpos w)))%Z ->
  lengthq
    (stored_quat m (qpos (integrate_joint_positions m qvel_in worldId tid w)) tid)
  = 1.
Proof.
  intros Hty Hlo Hhi.
  unfold stored_quat, integrate_joint_positions, qpos_width in *. cbv zeta.
  destruct Hty as [Hty | Hty]; rewrite Hty in *; simpl in Hhi;
    cbn [Z.eqb Pos.eqb qpos set_qpos];
    repeat (rewrite aget_aset_ne by lia);
    repeat (rewrite aget_aset_eq
              by (rewrite ?in_range_aset; unfold in_range; lia);
            repeat (rewrite aget_aset_ne by lia));
    rewrite quat_eta; apply quat_integrate_wp_unit.
Qed.

Lemma stored_quat_integrate_frame (m : Model) (qvel_in : list (list R))
    (worldId tid : Z) (w : World) (j : Z) :
  (aget (jnt_type m) j = 0 \/ aget (jnt_type m) j = 1)%Z ->
  (aget (jnt_qposadr m) j + qpos_width (aget (jnt_type m) j)
   <= aget (jnt_qposadr m) tid
   \/ aget (jnt_qposadr m) tid + qpos_width (aget (jnt_type m) tid)
      <= aget (jnt_qposadr m) j)%Z ->
  stored_quat m (qpos (integrate_joint_positions m qvel_in worldId tid w)) j
  = stored_quat m (qpos w) j.
Proof.
  intros Hty Hdisj. unfold stored_quat. cbv zeta.
  assert (Hw : (0 < qpos_width (aget (jnt_type m) tid))%Z).
  { unfold qpos_width.
    destruct (aget (jnt_type m) tid =? 0)%Z;
      [| destruct (aget (jnt_type m) tid =? 1)%Z]; lia. }
  set (wt := qpos_width (aget (jnt_type m) tid)) in *.
  destruct Hty as [Hty | Hty]; rewrite Hty in *; unfold qpos_width in Hdisj;
    simpl in Hdisj; cbn [Z.eqb Pos.eqb];
    rewrite !qpos_integrate_frame by (fold wt; lia); reflexivity.
Qed.

Lemma integrate_launch_unit (m : Model) (qvel_in : list (list R))
    (worldId : Z) (w : World) (n : nat) :
  qpos_layout m (qpos w) -> (Z.of_nat n <= njnt m)%Z ->
  let w' := launch (Z.of_nat n) (integrate_joint_positions m qvel_in worldId) w in
  length (qpos w') = length (qpos w)
  /\ forall j, (0 <= j < Z.of_nat n)%Z ->
       (aget (jnt_type m) j = 0 \/ aget (jnt_type m) j = 1)%Z ->
       lengthq (stored_quat m (qpos w') j) = 1.
Proof.
  intros [Hin Hdisj]. cbv zeta. induction n as [| p IH]; intros Hn.
  - rewrite launch_nonpos by reflexivity. split; [reflexivity | lia].
  - rewrite Nat2Z.inj_succ, <- Z.add_1_r, launch_succ by lia.
    destruct IH as [Hlen Hunit]; [lia |].
    split; [by rewrite length_qpos_integrate |].
    intros j Hj Hty. destruct (decide (j = Z.of_nat p)) as [-> | Hne].
    + destruct (Hin (Z.of_nat p)) as [Hlo Hhi]; [lia |].
      apply stored_quat_integrate; [assumption | assumption |].
      by rewrite Hlen.
    + rewrite stored_quat_integrate_frame; [apply Hunit; [lia | assumption] | assumption |].
      apply Hdisj; [lia | lia | assumption].
Qed.

Lemma qpos_next_activation (m : Model) (act_dot_in : list (list R))
    (worldId tid : Z) (w : World) :
  qpos (next_activation m act_dot_in worldId tid w) = qpos w.
Proof.
  unfold next_activation.
  by destruct (aget (actuator_actadr m) tid =? -1)%Z.
Qed.

Lemma qpos_before_integrate (m : Model) (act_dot qacc : list (list R))
    (worldid : Z) (w : World) :
  qpos (launch (nv m) (advance_velocities m qacc worldid)
          (if (na m =? 0)%Z then w
           else launch (nu m) (next_activation m act_dot worldid) w))
  = qpos w.
Proof.
  rewrite (launch_frame qpos) by reflexivity.
  destruct (na m =? 0)%Z; [reflexivity |].
  apply (launch_frame qpos). intros. apply qpos_next_activation.
Qed.

(** C6: after [_advance], in every world, the quaternion stored in the
    [qpos] segment of a free or ball joint has unit norm, whatever the
    quaternion and the velocities were (the zero quaternion and a zero
    angular velocity included).  The segments of the joints are assumed
    to lie inside [qpos] without overlap. *)
Theorem advance_quaternions_unit (m : Model) (d : Data)
    (act_dot qacc : list (list R)) (qvel : option (list (list R)))
    (worldid : nat) (w : World) (j : Z) :
  worlds d !! worldid = Some w ->
  qpos_layout m (qpos w) ->
  (0 <= j < njnt m)%Z ->
  (aget (jnt_type m) j = 0 \/ aget (jnt_type m) j = 1)%Z ->
  exists w',
    worlds (_advance m d act_dot qacc qvel) !! worldid = Some w'
    /\ lengthq (stored_quat m (qpos w') j) = 1.
Proof.
  intros Hw Hlay Hj Hty.
  destruct (worlds_advance m d act_dot qacc qvel worldid) as [qvel_in ->].
  rewrite Hw. simpl. eexists. split; [reflexivity |].
  unfold advance_world. cbv zeta.
  rewrite <- (Z2Nat.id (njnt m)) by lia.
  apply integrate_launch_unit.
  - by rewrite qpos_before_integrate.
  - rewrite Z2Nat.id; lia.
  - rewrite Z2Nat.id; lia.
  - assumption.
Qed.

Lemma advance_quaternions_unit_witness :
  exists w',
    worlds (_advance fixtures.ball_model (mkData 0 [fixtures.ball_world_zero])
              [[]] [[0; 0; 0]] None) !! 0%nat = Some w'
    /\ lengthq (stored_quat fixtures.ball_model (qpos w') 0) = 1.
Proof.
  apply (advance_quaternions_unit fixtures.ball_model
           (mkData 0 [fixtures.ball_world_zero]) [[]] [[0; 0; 0]] None
           0%nat fixtures.ball_world_zero 0).
  - reflexivity.
  - split.
    + intros j Hj. simpl in Hj. assert (j = 0%Z) as -> by lia.
      unfold qpos_width. arr_eval. lia.
    + intros j k Hj Hk Hne. simpl in Hj, Hk. lia.
  - simpl. lia.
  - right. reflexivity.
Defined.

(** *** Implicit damping *)

(** C2, on the code: with the sparse representation [euler] launches the
    kernel that reads the damping at the matrix address.  In a model
    where DOF 2 has address [dof_Madr[2] = 3], the thread of DOF 2 adds
    [timestep * dof_damping[3] = 4] to the diagonal entry of DOF 2, where
    [timestep * dof_damping[2]] is [3]. *)
Lemma add_damping_sparse_representation_wrong_dof :
  let m := fixtures.damping_model in
  let w := fixtures.damping_world in
  is_sparse m = true
  /\ aget (dof_Madr m) 2 = 3%Z
  /\ timestep m * aget (dof_damping m) 2 = 3
  /\ aget2 (qM (add_damping_dense m 0 2 w)) 0 3 = aget2 (qM w) 0 3 + 4
  /\ forall MJ_DSBL_EULERDAMP : Z,
       exists d' w',
         euler MJ_DSBL_EULERDAMP m (mkData 0 [w]) = Raises TypeError d'
         /\ worlds d' !! 0%nat = Some w'
         /\ aget2 (qM w') 0 3 = 4.
Proof.
  cbv zeta. split; [reflexivity |]. split; [reflexivity |].
  split; [arr_eval; lra |]. split.
  - unfold add_damping_dense. arr_eval. lra.
  - intros MJ. unfold euler. cbv zeta.
    replace (Z.land (disable_flags fixtures.damping_model) MJ) with 0%Z
      by reflexivity.
    simpl (0 =? 0)%Z. cbv iota. eexists. eexists.
    split; [reflexivity |].
    unfold euler_damping. simpl is_sparse. cbv iota.
    rewrite worlds_launch_worlds, worlds_launch_worlds.
    split; [reflexivity |].
    unfold launch. simpl. unfold add_damping_dense, sum_qfrc.
    arr_eval. lra.
Qed.

(** On the dense representation every diagonal entry [M(i, i)] gets
    [timestep * dof_damping[i]] and nothing else changes. *)
Lemma add_damping_dense_representation (m : Model) (worldId : Z) (w : World)
    (i j : Z) :
  in_range (qM w) i -> in_range (aget (qM w) i) j ->
  aget2 (qM (launch (nv m) (add_damping_sparse m worldId) w)) i j
  = if decide (i = j /\ i < nv m)%Z
    then aget2 (qM w) i j + timestep m * aget (dof_damping m) i
    else aget2 (qM w) i j.
Proof.
  intros Hi Hj. destruct (decide (nv m <= 0)%Z) as [Hn | Hn].
  - rewrite launch_nonpos by assumption.
    rewrite decide_False; [reflexivity | destruct Hi; lia].
  - rewrite <- (Z2Nat.id (nv m)) by lia.
    induction (Z.to_nat (nv m)) as [| p IH].
    + rewrite launch_nonpos by reflexivity.
      rewrite decide_False; [reflexivity | destruct Hi; simpl; lia].
    + rewrite Nat2Z.inj_succ, <- Z.add_1_r, launch_succ by lia.
      set (w' := launch (Z.of_nat p) _ w) in *.
      assert (Hw' : in_range (qM w') i /\ in_range (aget (qM w') i) j).
      { unfold w'.
        apply (launch_invariant
                 (fun s => in_range (qM s) i /\ in_range (aget (qM s) i) j));
          [by split |].
        intros tid s _ [Hs1 Hs2]. unfold add_damping_sparse.
        cbn [qM set_qM]. split.
        - by apply in_range_aset2_row.
        - by apply in_range_aset2_col. }
      destruct Hw' as [Hi' Hj'].
      unfold add_damping_sparse at 1. cbn [qM set_qM].
      destruct (decide (i = Z.of_nat p /\ j = Z.of_nat p)) as [[-> ->] | Hne].
      * rewrite aget2_aset2_eq by assumption. rewrite IH.
        rewrite decide_False by lia. rewrite decide_True by lia. reflexivity.
      * rewrite aget2_aset2_ne by lia. rewrite IH.
        destruct (decide (i = j /\ i < Z.of_nat p)%Z),
                 (decide (i = j /\ i < Z.of_nat p + 1)%Z);
          try reflexivity; lia.
Qed.

End forward_props.

(** ** smooth.py: kinematics *)

Module kinematics_props.
Import array_facts smooth.
Local Open Scope R_scope.

Lemma vadd_vsub (r a : vec3) : vadd r (vsub a r) = a.
Proof. destruct r, a. unfold vadd, vsub. simpl. f_equal; ring. Qed.

(** C8: one pass of the joint loop of [_level] on a hinge joint.  The
    orientation is composed with the axis-angle rotation, and the world
    anchor computed before the rotation and stored in [d.xanchor] is
    where the updated orientation and position put the local anchor:
    [xanchor = rot_vec_quat(jnt_pos, xquat_new) + xpos_new]. *)
Theorem hinge_anchor_preserved (m : Model) (xpos : vec3) (xquat : quat)
    (jntadr : Z) (w : World) :
  aget (jnt_type m) jntadr = 3%Z ->
  in_range (xanchor w) jntadr ->
  let xanchor_before :=
    vadd (math.rot_vec_quat (aget (jnt_pos m) jntadr) xquat) xpos in
  let '(xpos_new, xquat_new, _, w') := _level_joint m (xpos, xquat, jntadr, w) in
  xquat_new
  = math.mul_quat xquat
      (math.axis_angle_to_quat (aget (jnt_axis m) jntadr)
         (aget (qpos w) (aget (jnt_qposadr m) jntadr)
          - aget (qpos0 m) (aget (jnt_qposadr m) jntadr)))
  /\ aget (xanchor w') jntadr = xanchor_before
  /\ vadd (math.rot_vec_quat (aget (jnt_pos m) jntadr) xquat_new) xpos_new
     = xanchor_before.
Proof.
  intros Hty Hin. unfold _level_joint. cbv zeta. rewrite Hty.
  cbn [Z.eqb Pos.eqb]. cbn [xanchor set_xanchor set_xaxis].
  split; [reflexivity |]. split.
  - by rewrite aget_aset_eq.
  - apply vadd_vsub.
Qed.

Lemma hinge_anchor_preserved_witness :
  let m := fixtures.hinge_model in
  let w := fixtures.hinge_world in
  let xanchor_before :=
    vadd (math.rot_vec_quat (mkvec3 1 0 0) (mkquat 1 0 0 0)) (mkvec3 0 0 1) in
  let '(xpos_new, xquat_new, _, w') :=
    _level_joint m (mkvec3 0 0 1, mkquat 1 0 0 0, 0%Z, w) in
  xquat_new
  = math.mul_quat (mkquat 1 0 0 0)
      (math.axis_angle_to_quat (mkvec3 0 0 1) (1 - 0))
  /\ aget (xanchor w') 0 = xanchor_before
  /\ vadd (math.rot_vec_quat (mkvec3 1 0 0) xquat_new) xpos_new
     = xanchor_before.
Proof.
  apply (hinge_anchor_preserved fixtures.hinge_model (mkvec3 0 0 1)
           (mkquat 1 0 0 0) 0 fixtures.hinge_world).
  - reflexivity.
  - arr_eval. lia.
Defined.

Lemma normalizeq_identity : normalizeq (mkquat 1 0 0 0) = mkquat 1 0 0 0.
Proof.
  unfold normalizeq, lengthq, qdot. simpl.
  replace (1 * 1 + 0 * 0 + 0 * 0 + 0 * 0) with 1 by ring.
  rewrite sqrt_1. destruct (Rlt_dec 0 1) as [_ | Hn]; [| exfalso; lra].
  f_equal; field.
Qed.

Lemma mul_quat_identity :
  math.mul_quat (mkquat 1 0 0 0) (mkquat 1 0 0 0) = mkquat 1 0 0 0.
Proof. unfold math.mul_quat. simpl. f_equal; ring. Qed.

(** C1, on the code: the joint loop of [_level] has a branch for hinge
    joints only.  For a body on a ball joint under the world body the
    orientation written by [kinematics] is the parent-derived one,
    [(1, 0, 0, 0)], whatever quaternion [q] the joint has in [qpos];
    composing it with [q = (0, 1, 0, 0)] gives [(0, 1, 0, 0)]. *)
Lemma kinematics_ball_joint_ignored :
  let m := fixtures.ball_model in
  aget (jnt_type m) (aget (body_jntadr m) 1) = 1%Z
  /\ (forall q : quat,
        exists w',
          worlds (kinematics m (mkData 0 [fixtures.ball_world q])) !! 0%nat
          = Some w'
          /\ aget (xquat w') 0 = mkquat 1 0 0 0
          /\ aget (xquat w') 1 = mkquat 1 0 0 0)
  /\ math.mul_quat
       (math.mul_quat (mkquat 1 0 0 0) (aget (body_quat m) 1))
       (mkquat 0 1 0 0)
     = mkquat 0 1 0 0.
Proof.
  cbv zeta. split; [reflexivity |]. split.
  - intros q. eexists. split; [reflexivity |].
    unfold launch, _level, _root. arr_eval.
    repeat (rewrite mul_quat_identity, normalizeq_identity).
    split; reflexivity.
  - unfold math.mul_quat. arr_eval. f_equal; ring.
Qed.

End kinematics_props.

(** ** The DOF tree and the packed mass matrix *)

Module dof_tree.
Import array_facts.
Local Open Scope Z_scope.

(** The chains of DOF parents end: the parent of a DOF is [-1] or a DOF
    with a smaller id. *)
Definition dof_chains (m : Model) : Prop :=
  forall i, 0 <= i < nv m -> -1 <= aget (dof_parentid m) i < i.

(** The entries of the packed matrix met by a walk that starts at DOF [j]
    with the address [adr] and follows the parents, the way the loops
    [while j >= 0] do: pairs of an address and a column. *)
Fixpoint walk_fuel (fuel : nat) (m : Model) (adr j : Z) : list (Z * Z) :=
  if 0 <=? j then
    match fuel with
    | O => []
    | S fuel =>
        (adr, j) :: walk_fuel fuel m (adr + 1) (aget (dof_parentid m) j)
    end
  else [].

Definition walk (m : Model) (adr j : Z) : list (Z * Z) :=
  walk_fuel (Z.to_nat (j + 1)) m adr j.

(** Row [i] of the packed matrix: the diagonal entry at [dof_Madr[i]],
    then one entry for each ancestor of [i]. *)
Definition row (m : Model) (i : Z) : list (Z * Z) :=
  walk m (aget (dof_Madr m) i) i.

(** The entries of row [i] off the diagonal. *)
Definition chain (m : Model) (i : Z) : list (Z * Z) :=
  walk m (aget (dof_Madr m) i + 1) (aget (dof_parentid m) i).

Lemma walk_fuel_enough (m : Model) (fuel fuel' : nat) :
  dof_chains m ->
  forall adr j, j < nv m ->
    (Z.to_nat (j + 1) <= fuel)%nat -> (Z.to_nat (j + 1) <= fuel')%nat ->
    walk_fuel fuel m adr j = walk_fuel fuel' m adr j.
Proof.
  intros Hch. revert fuel'.
  induction fuel as [| fuel IH]; intros fuel' adr j Hnv Hf Hf'.
  - destruct fuel'; simpl; [reflexivity |].
    replace (0 <=? j) with false by lia. reflexivity.
  - destruct fuel' as [| fuel']; simpl.
    + replace (0 <=? j) with false by lia. reflexivity.
    + destruct (Z.leb_spec 0 j) as [Hge | Hlt]; [| reflexivity].
      pose proof (Hch j ltac:(lia)). f_equal. apply IH; lia.
Qed.

Lemma walk_neg (m : Model) (adr j : Z) : j < 0 -> walk m adr j = [].
Proof.
  intros Hj. unfold walk. replace (Z.to_nat (j + 1)) with 0%nat by lia.
  simpl. replace (0 <=? j) with false by lia. reflexivity.
Qed.

Lemma walk_unfold (m : Model) (adr j : Z) :
  dof_chains m -> 0 <= j < nv m ->
  walk m adr j = (adr, j) :: walk m (adr + 1) (aget (dof_parentid m) j).
Proof.
  intros Hch Hj. unfold walk.
  destruct (Z.to_nat (j + 1)) as [| k] eqn:Hk; [lia |]. simpl.
  replace (0 <=? j) with true by lia. f_equal.
  pose proof (Hch j Hj).
  apply walk_fuel_enough; [assumption | lia | lia | lia].
Qed.

Lemma row_unfold (m : Model) (i : Z) :
  dof_chains m -> 0 <= i < nv m ->
  row m i = (aget (dof_Madr m) i, i) :: chain m i.
Proof. intros Hch Hi. unfold row, chain. by apply walk_unfold. Qed.

(** Induction along the parent links of the DOFs. *)
Lemma dof_ind (m : Model) (P : Z -> Prop) :
  dof_chains m ->
  (forall j, j < 0 -> P j) ->
  (forall j, 0 <= j < nv m -> P (aget (dof_parentid m) j) -> P j) ->
  forall j, j < nv m -> P j.
Proof.
  intros Hch Hneg Hstep j.
  remember (Z.to_nat (j + 1)) as k eqn:Hk.
  revert j Hk. induction k as [k IH] using lt_wf_ind. intros j Hk Hj.
  destruct (decide (j < 0)) as [Hlt | Hge]; [by apply Hneg |].
  pose proof (Hch j ltac:(lia)) as Hp.
  apply Hstep; [lia |].
  apply (IH (Z.to_nat (aget (dof_parentid m) j + 1))); [lia | reflexivity | lia].
Qed.

(** The columns of a walk from [j] are DOFs up to [j]; the addresses run
    from [adr] on. *)
Lemma walk_columns (m : Model) (j : Z) :
  dof_chains m -> j < nv m ->
  forall adr c a, (c, a) ∈ walk m adr j -> 0 <= a <= j /\ adr <= c.
Proof.
  intros Hch. revert j.
  apply (dof_ind m (fun j => forall adr c a, (c, a) ∈ walk m adr j
                            -> 0 <= a <= j /\ adr <= c) Hch).
  - intros j Hj adr c a Hin. rewrite walk_neg in Hin by assumption.
    by apply elem_of_nil in Hin.
  - intros j Hj IH adr c a Hin. rewrite walk_unfold in Hin by assumption.
    pose proof (Hch j Hj).
    apply elem_of_cons in Hin as [Heq | Hin].
    + injection Heq as -> ->. lia.
    + apply IH in Hin. lia.
Qed.

Lemma chain_columns (m : Model) (i c a : Z) :
  dof_chains m -> 0 <= i < nv m -> (c, a) ∈ chain m i ->
  0 <= a < i /\ aget (dof_Madr m) i < c.
Proof.
  intros Hch Hi Hin. pose proof (Hch i Hi).
  apply walk_columns in Hin; [lia | assumption | lia].
Qed.

(** Another start address shifts the addresses of a walk. *)
Lemma walk_shift (m : Model) (j : Z) :
  dof_chains m -> j < nv m ->
  forall adr adr',
    walk m adr' j = (fun ca : Z * Z => (ca.1 + (adr' - adr), ca.2)) <$> walk m adr j.
Proof.
  intros Hch. revert j.
  apply (dof_ind m (fun j => forall adr adr', walk m adr' j =
           (fun ca : Z * Z => (ca.1 + (adr' - adr), ca.2)) <$> walk m adr j) Hch).
  - intros j Hj adr adr'. by rewrite !walk_neg by assumption.
  - intros j Hj IH adr adr'.
    rewrite (walk_unfold m adr j), (walk_unfold m adr' j) by assumption.
    csimpl. f_equal; [f_equal; lia |].
    rewrite (IH (adr + 1) (adr' + 1)). apply list_fmap_ext.
    intros _ [c a] _. simpl. f_equal. lia.
Qed.

(** A walk that meets the DOF [a] goes on as the walk from [a]. *)
Lemma walk_suffix (m : Model) (j : Z) :
  dof_chains m -> j < nv m ->
  forall adr c a, (c, a) ∈ walk m adr j ->
    exists pre, walk m adr j = pre ++ walk m c a
                /\ forall c' a', (c', a') ∈ pre -> a < a' /\ c' < c.
Proof.
  intros Hch. revert j.
  apply (dof_ind m (fun j => forall adr c a, (c, a) ∈ walk m adr j ->
           exists pre, walk m adr j = pre ++ walk m c a
                       /\ forall c' a', (c', a') ∈ pre -> a < a' /\ c' < c) Hch).
  - intros j Hj adr c a Hin. rewrite walk_neg in Hin by assumption.
    by apply elem_of_nil in Hin.
  - intros j Hj IH adr c a Hin. pose proof (Hch j Hj) as Hp.
    rewrite (walk_unfold m adr j) in Hin |- * by assumption.
    apply elem_of_cons in Hin as [Heq | Hin].
    + injection Heq as -> ->. exists []. split.
      * simpl. symmetry. by apply walk_unfold.
      * intros c' a' Hin'. by apply elem_of_nil in Hin'.
    + destruct (IH _ _ _ Hin) as (pre & Hpre & Hlt).
      exists ((adr, j) :: pre). split.
      * by rewrite Hpre.
      * intros c' a' Hin'. apply elem_of_cons in Hin' as [Heq | Hin'].
        -- injection Heq as -> ->.
           apply walk_columns in Hin; [lia | assumption | lia].
        -- by apply Hlt.
Qed.

(** The columns of a walk decrease and its addresses increase. *)
Lemma walk_functional (m : Model) (j : Z) :
  dof_chains m -> j < nv m ->
  forall adr c a c' a', (c, a) ∈ walk m adr j -> (c', a') ∈ walk m adr j ->
    (a = a' <-> c = c').
Proof.
  intros Hch Hj adr c a c' a' Hin Hin'.
  destruct (walk_suffix m j Hch Hj adr c a Hin) as (pre & Hpre & Hlt).
  assert (Ha : 0 <= a <= j).
  { apply walk_columns in Hin; [lia | assumption | assumption]. }
  rewrite Hpre in Hin'. apply elem_of_app in Hin' as [Hin' | Hin'].
  - apply Hlt in Hin'. lia.
  - rewrite walk_unfold in Hin' by (assumption || lia).
    apply elem_of_cons in Hin' as [Heq | Hin'].
    + injection Heq as -> ->. tauto.
    + pose proof (Hch a ltac:(lia)).
      apply walk_columns in Hin'; [lia | assumption | lia].
Qed.

Lemma walk_NoDup (m : Model) (j : Z) :
  dof_chains m -> j < nv m -> forall adr, NoDup (walk m adr j).
Proof.
  intros Hch. revert j.
  apply (dof_ind m (fun j => forall adr, NoDup (walk m adr j)) Hch).
  - intros j Hj adr. rewrite walk_neg by assumption. constructor.
  - intros j Hj IH adr. rewrite walk_unfold by assumption.
    pose proof (Hch j Hj). constructor; [| apply IH].
    intros Hin. apply walk_columns in Hin; [lia | assumption | lia].
Qed.

Lemma walk_addresses (m : Model) (j : Z) :
  dof_chains m -> j < nv m ->
  forall adr c a, (c, a) ∈ walk m adr j ->
    adr <= c < adr + Z.of_nat (length (walk m adr j)).
Proof.
  intros Hch. revert j.
  apply (dof_ind m (fun j => forall adr c a, (c, a) ∈ walk m adr j ->
           adr <= c < adr + Z.of_nat (length (walk m adr j))) Hch).
  - intros j Hj adr c a Hin. rewrite walk_neg in Hin by assumption.
    by apply elem_of_nil in Hin.
  - intros j Hj IH adr c a Hin.
    rewrite (walk_unfold m adr j) in Hin |- * by assumption. simpl.
    apply elem_of_cons in Hin as [Heq | Hin].
    + injection Heq as -> ->. lia.
    + apply IH in Hin. lia.
Qed.

(** Row [i] lists its addresses from [dof_Madr[i]] on, one by one. *)
Lemma walk_fst (m : Model) (j : Z) :
  dof_chains m -> j < nv m ->
  forall adr,
    (walk m adr j).*1 = seqZ adr (Z.of_nat (length (walk m adr j))).
Proof.
  intros Hch. revert j.
  apply (dof_ind m (fun j => forall adr,
           (walk m adr j).*1 = seqZ adr (Z.of_nat (length (walk m adr j)))) Hch).
  - intros j Hj adr. by rewrite walk_neg by assumption.
  - intros j Hj IH adr. rewrite (walk_unfold m adr j) by assumption.
    csimpl.
    rewrite (seqZ_cons adr) by lia. f_equal.
    rewrite IH. f_equal; lia.
Qed.

End dof_tree.

(** ** smooth.py: composite rigid body inertia *)

Module crb_props.
Import array_facts dof_tree smooth.
Local Open Scope Z_scope.

(** *** Sums of [vec10] *)

Lemma vec10_add_comm (a b : vec10) : vec10_add a b = vec10_add b a.
Proof. unfold vec10_add. f_equal; apply Rplus_comm. Qed.

Lemma vec10_add_assoc (a b c : vec10) :
  vec10_add a (vec10_add b c) = vec10_add (vec10_add a b) c.
Proof. unfold vec10_add. simpl. f_equal; symmetry; apply Rplus_assoc. Qed.

Lemma vec10_add_zero_l (a : vec10) : vec10_add vec10_zero a = a.
Proof. destruct a. unfold vec10_add. simpl. f_equal; apply Rplus_0_l. Qed.

Lemma vec10_add_zero_r (a : vec10) : vec10_add a vec10_zero = a.
Proof. by rewrite vec10_add_comm, vec10_add_zero_l. Qed.

(** The sum of [g x] over the bodies [x] of [l]. *)
Definition vsum (g : Z -> vec10) (l : list Z) : vec10 :=
  foldr (fun x acc => vec10_add (g x) acc) vec10_zero l.

Lemma vsum_ext (g h : Z -> vec10) (l : list Z) :
  (forall x, x ∈ l -> g x = h x) -> vsum g l = vsum h l.
Proof.
  induction l as [| x l IH]; intros Hgh; [reflexivity |]. simpl.
  rewrite Hgh by left. rewrite IH; [reflexivity |].
  intros y Hy. apply Hgh. by right.
Qed.

Lemma vsum_add (g h : Z -> vec10) (l : list Z) :
  vec10_add (vsum g l) (vsum h l) = vsum (fun x => vec10_add (g x) (h x)) l.
Proof.
  induction l as [| x l IH]; simpl; [apply vec10_add_zero_l |].
  rewrite <- IH.
  rewrite !vec10_add_assoc. f_equal.
  rewrite <- !vec10_add_assoc. f_equal. apply vec10_add_comm.
Qed.

Lemma vsum_none (F : Z -> bool) (g : Z -> vec10) (l : list Z) :
  (forall x, x ∈ l -> F x = false) ->
  vsum (fun x => if F x then g x else vec10_zero) l = vec10_zero.
Proof.
  induction l as [| y l IH]; intros HF; simpl; [reflexivity |].
  rewrite HF by left. rewrite IH by (intros x Hx; apply HF; by right).
  apply vec10_add_zero_l.
Qed.

Lemma vsum_only (F : Z -> bool) (g : Z -> vec10) (l : list Z) (b : Z) :
  NoDup l -> b ∈ l -> (forall x, x ∈ l -> F x = true <-> x = b) ->
  vsum (fun x => if F x then g x else vec10_zero) l = g b.
Proof.
  induction l as [| y l IH]; intros Hnd Hb HF; [by apply elem_of_nil in Hb |].
  apply NoDup_cons in Hnd as [Hy Hnd]. simpl.
  destruct (decide (y = b)) as [-> | Hne].
  - rewrite (proj2 (HF b ltac:(left))) by reflexivity.
    rewrite vsum_none; [apply vec10_add_zero_r |].
    intros x Hx. apply not_true_is_false. intros HFx.
    apply HF in HFx; [| by right]. congruence.
  - destruct (F y) eqn:HFy.
    { apply HF in HFy; [contradiction | by left]. }
    rewrite vec10_add_zero_l. apply IH; [assumption | |].
    + apply elem_of_cons in Hb as [? | ?]; [congruence | assumption].
    + intros x Hx. apply HF. by right.
Qed.

(** *** The body tree *)

(** [x] lies in the subtree of [b]: [b] is reached from [x] by parent
    links.  The walk stops at body [0]; parents have smaller ids, so
    [x] steps are enough. *)
Fixpoint in_subtree_fuel (fuel : nat) (m : Model) (b x : Z) : bool :=
  (x =? b)
  || match fuel with
     | O => false
     | S fuel => (0 <? x) && in_subtree_fuel fuel m b (aget (body_parentid m) x)
     end.

Definition in_subtree (m : Model) (b x : Z) : bool :=
  in_subtree_fuel (Z.to_nat x) m b x.

(** The sum of the entries of [f] over the subtree of [b]. *)
Definition subtree_sum (m : Model) (f : list vec10) (b : Z) : vec10 :=
  vsum (fun x => if in_subtree m b x then aget f x else vec10_zero)
       (seqZ 0 (nbody m)).

(** Every body but the world has a parent with a smaller id. *)
Definition parents_below (m : Model) : Prop :=
  forall x, 0 < x -> 0 <= aget (body_parentid m) x < x.

Lemma body_ind (m : Model) (P : Z -> Prop) :
  parents_below m ->
  (forall x, x <= 0 -> P x) ->
  (forall x, 0 < x -> P (aget (body_parentid m) x) -> P x) ->
  forall x, P x.
Proof.
  intros Hpar H0 Hstep x.
  remember (Z.to_nat x) as k eqn:Hk.
  revert x Hk. induction k as [k IH] using lt_wf_ind. intros x Hk.
  destruct (decide (x <= 0)) as [Hx | Hx]; [by apply H0 |].
  apply Hstep; [lia |].
  apply (IH (Z.to_nat (aget (body_parentid m) x))); [| reflexivity].
  specialize (Hpar x). lia.
Qed.

Lemma in_subtree_fuel_enough (m : Model) (b : Z) (fuel fuel' : nat) :
  parents_below m ->
  forall x, (Z.to_nat x <= fuel)%nat -> (Z.to_nat x <= fuel')%nat ->
  in_subtree_fuel fuel m b x = in_subtree_fuel fuel' m b x.
Proof.
  intros Hpar. revert fuel'.
  induction fuel as [| fuel IH]; intros fuel' x Hx Hx'.
  - destruct fuel'; simpl; [reflexivity |].
    replace (0 <? x) with false by lia. reflexivity.
  - destruct fuel' as [| fuel']; simpl.
    + replace (0 <? x) with false by lia. reflexivity.
    + destruct (Z.ltb_spec 0 x) as [Hgt | Hle]; [| reflexivity]. simpl.
      specialize (Hpar x Hgt). f_equal. apply IH; lia.
Qed.

Lemma in_subtree_unfold (m : Model) (b x : Z) :
  parents_below m ->
  in_subtree m b x
  = (x =? b) || ((0 <? x) && in_subtree m b (aget (body_parentid m) x)).
Proof.
  intros Hpar. unfold in_subtree.
  destruct (decide (x <= 0)) as [Hle | Hgt].
  - replace (Z.to_nat x) with 0%nat by lia. simpl.
    replace (0 <? x) with false by lia. reflexivity.
  - destruct (Z.to_nat x) as [| k] eqn:Hk; [lia |]. simpl.
    pose proof (Hpar x) as Hx.
    by rewrite (in_subtree_fuel_enough m b k (Z.to_nat (aget (body_parentid m) x)))
      by (assumption || lia).
Qed.

Lemma in_subtree_self (m : Model) (b : Z) : in_subtree m b b = true.
Proof.
  unfold in_subtree. destruct (Z.to_nat b); simpl; by rewrite Z.eqb_refl.
Qed.

Lemma in_subtree_le (m : Model) (b x : Z) :
  parents_below m -> in_subtree m b x = true -> b <= x.
Proof.
  intros Hpar. revert x.
  apply (body_ind m (fun x => in_subtree m b x = true -> b <= x));
    [assumption | |].
  - intros x Hx. rewrite in_subtree_unfold by assumption.
    replace (0 <? x) with false by lia. simpl. lia.
  - intros x Hx IH. rewrite in_subtree_unfold by assumption.
    specialize (Hpar x). destruct (Z.eqb_spec x b); [lia |]. simpl.
    replace (0 <? x) with true by lia. simpl. intros Hin.
    specialize (IH Hin). lia.
Qed.

(** The subtree of [c] lies in the subtree of the parent of [c]. *)
Lemma in_subtree_parent (m : Model) (c x : Z) :
  parents_below m -> 0 < c ->
  in_subtree m c x = true -> in_subtree m (aget (body_parentid m) c) x = true.
Proof.
  intros Hpar Hc. revert x.
  apply (body_ind m
           (fun x => in_subtree m c x = true
                     -> in_subtree m (aget (body_parentid m) c) x = true));
    [assumption | |].
  - intros x Hx. rewrite in_subtree_unfold by assumption.
    replace (0 <? x) with false by lia.
    destruct (Z.eqb_spec x c); [lia | discriminate].
  - intros x Hx IH. rewrite (in_subtree_unfold m c) by assumption.
    rewrite (in_subtree_unfold m (aget (body_parentid m) c) x) by assumption.
    replace (0 <? x) with true by lia. simpl.
    destruct (Z.eqb_spec x c) as [-> | Hne]; simpl.
    + intros _. rewrite in_subtree_self. apply orb_true_r.
    + intros Hin. rewrite (IH Hin). apply orb_true_r.
Qed.

(** Two bodies with the same parent have disjoint subtrees. *)
Lemma in_subtree_sibling (m : Model) (c c' x : Z) :
  parents_below m -> 0 < c -> 0 < c' ->
  aget (body_parentid m) c = aget (body_parentid m) c' ->
  in_subtree m c x = true -> in_subtree m c' x = true -> c = c'.
Proof.
  intros Hpar Hc Hc' Hp. revert x.
  apply (body_ind m
           (fun x => in_subtree m c x = true -> in_subtree m c' x = true
                     -> c = c'));
    [assumption | |].
  - intros x Hx Hin. apply in_subtree_le in Hin; [lia | assumption].
  - intros x Hx IH.
    rewrite (in_subtree_unfold m c) by assumption.
    rewrite (in_subtree_unfold m c') by assumption.
    replace (0 <? x) with true by lia. simpl.
    destruct (Z.eqb_spec x c) as [-> | Hne]; simpl.
    + destruct (Z.eqb_spec c c') as [| Hne']; [done |]. simpl.
      intros _ Hin. apply in_subtree_le in Hin; [| assumption].
      pose proof (Hpar c' Hc'). lia.
    + destruct (Z.eqb_spec x c') as [-> | Hne']; simpl.
      * intros Hin _. apply in_subtree_le in Hin; [| assumption].
        pose proof (Hpar c Hc). lia.
      * apply IH.
Qed.

(** A body of the subtree of [b], other than [b], lies under a child of
    [b]. *)
Lemma in_subtree_child (m : Model) (b x : Z) :
  parents_below m -> x <> b -> in_subtree m b x = true ->
  exists c, 0 < c <= x /\ aget (body_parentid m) c = b
            /\ in_subtree m c x = true.
Proof.
  intros Hpar. revert x.
  apply (body_ind m
           (fun x => x <> b -> in_subtree m b x = true ->
                     exists c, 0 < c <= x /\ aget (body_parentid m) c = b
                               /\ in_subtree m c x = true));
    [assumption | |].
  - intros x Hx Hne. rewrite in_subtree_unfold by assumption.
    replace (0 <? x) with false by lia.
    destruct (Z.eqb_spec x b); [done | discriminate].
  - intros x Hx IH Hne. rewrite in_subtree_unfold by assumption.
    replace (0 <? x) with true by lia.
    destruct (Z.eqb_spec x b); [done |]. simpl. intros Hin.
    destruct (decide (aget (body_parentid m) x = b)) as [Hpb | Hpb].
    + exists x. split; [lia |]. split; [assumption |]. apply in_subtree_self.
    + destruct (IH Hpb Hin) as (c & Hc & Hpc & Hcx).
      exists c. pose proof (Hpar x Hx).
      split; [lia |]. split; [assumption |].
      rewrite in_subtree_unfold by assumption.
      replace (0 <? x) with true by lia. rewrite Hcx. apply orb_true_r.
Qed.

(** *** The accumulation, one body after the other *)

(** What the thread of body [b] does to the [crb] array. *)
Definition acc_step (m : Model) (c : list vec10) (b : Z) : list vec10 :=
  let pid := aget (body_parentid m) b in
  if pid =? 0 then c
  else aset c pid (vec10_add (aget c pid) (aget c b)).

(** Once the threads of the bodies [P] have run, the entry of [b] holds
    the inertia of [x] when [x] is [b] or lies under a child of [b] whose
    thread has run. *)
Definition gathered (m : Model) (P : list Z) (b x : Z) : bool :=
  in_subtree m b x
  && ((x =? b)
      || existsb
           (fun c =>
              negb (aget (body_parentid m) c =? 0)
              && (aget (body_parentid m) c =? b)
              && in_subtree m c x) P).

Lemma gathered_complete (m : Model) (P : list Z) (c x : Z) :
  parents_below m -> c <> 0 ->
  (forall c', 0 < c' <= x -> aget (body_parentid m) c' = c -> c' ∈ P) ->
  gathered m P c x = in_subtree m c x.
Proof.
  intros Hpar Hc Hchildren. unfold gathered.
  destruct (in_subtree m c x) eqn:Hin; [| reflexivity]. simpl.
  destruct (Z.eqb_spec x c) as [| Hne]; [reflexivity |]. simpl.
  destruct (in_subtree_child m c x Hpar Hne Hin) as (c' & Hc' & Hpc' & Hc'x).
  apply existsb_exists. exists c'. split.
  - apply list_elem_of_In. by apply Hchildren.
  - rewrite Hpc', Hc'x, Z.eqb_refl.
    destruct (Z.eqb_spec c 0); [done | reflexivity].
Qed.

Lemma parent_nonpos (m : Model) (x : Z) :
  aget (body_parentid m) 0 = 0 -> x <= 0 -> aget (body_parentid m) x = 0.
Proof.
  intros Hroot Hx. destruct (decide (x = 0)) as [-> | Hne]; [assumption |].
  unfold aget. rewrite decide_False by lia. reflexivity.
Qed.

Lemma gathered_not_yet (m : Model) (P : list Z) (c x : Z) :
  parents_below m -> aget (body_parentid m) 0 = 0 -> 0 < c -> c ∉ P ->
  in_subtree m c x = true ->
  gathered m P (aget (body_parentid m) c) x = false.
Proof.
  intros Hpar Hroot Hc HcP Hin. unfold gathered.
  apply andb_false_iff. right. apply orb_false_iff. split.
  - apply in_subtree_le in Hin; [| assumption].
    pose proof (Hpar c Hc). lia.
  - apply not_true_is_false. intros Hex.
    apply existsb_exists in Hex as (c' & Hc'P & Hc').
    apply andb_true_iff in Hc' as [Hc' Hc'x].
    apply andb_true_iff in Hc' as [Hnz Hpc'].
    apply Z.eqb_eq in Hpc'.
    assert (Hc'pos : 0 < c').
    { destruct (decide (0 < c')); [assumption |].
      rewrite parent_nonpos in Hnz by (assumption || lia). discriminate. }
    assert (c = c').
    { apply (in_subtree_sibling m c c' x); try assumption. by symmetry. }
    subst c'. apply HcP. by apply list_elem_of_In.
Qed.

Lemma gathered_snoc (m : Model) (P : list Z) (c b x : Z) :
  parents_below m -> 0 < c ->
  gathered m (P ++ [c]) b x
  = if (aget (body_parentid m) c =? b) && negb (b =? 0)
    then gathered m P b x || in_subtree m c x
    else gathered m P b x.
Proof.
  intros Hpar Hc. unfold gathered. rewrite existsb_app. simpl.
  rewrite orb_false_r.
  destruct (Z.eqb_spec (aget (body_parentid m) c) b) as [Hpb | Hpb]; simpl.
  - rewrite Hpb. destruct (Z.eqb_spec b 0) as [Hb0 | Hb0]; simpl.
    + by rewrite orb_false_r.
    + destruct (in_subtree m c x) eqn:Hin.
      * apply (in_subtree_parent m c x Hpar Hc) in Hin. rewrite Hpb in Hin.
        rewrite Hin. simpl. rewrite !orb_true_r. reflexivity.
      * by rewrite !orb_false_r.
  - by rewrite andb_false_r, orb_false_r.
Qed.

(** An order of the bodies in which the threads may be run: every body
    but the world once, children before their parents. *)
Record accumulation_order (m : Model) (order : list Z) : Prop := {
  order_nodup : NoDup order;
  order_range : forall b, b ∈ order -> 0 <= b < nbody m;
  order_cover : forall b, 0 < b < nbody m -> b ∈ order;
  order_children_first :
    forall i j c' c,
      order !! i = Some c' -> order !! j = Some c ->
      0 < c' -> aget (body_parentid m) c' = c -> (i < j)%nat
}.

Lemma acc_steps_invariant (m : Model) (f : list vec10) (order : list Z) :
  parents_below m -> aget (body_parentid m) 0 = 0 ->
  Z.of_nat (length f) = nbody m ->
  accumulation_order m order ->
  forall k, (k <= length order)%nat ->
  let cur := foldl (acc_step m) f (take k order) in
  length cur = length f
  /\ aget cur 0 = aget f 0
  /\ forall b, 0 < b < nbody m ->
       aget cur b
       = vsum (fun x => if gathered m (take k order) b x
                        then aget f x else vec10_zero)
              (seqZ 0 (nbody m)).
Proof.
  intros Hpar Hroot Hlen [Hnd Hrange Hcover Hfirst]. cbv zeta.
  induction k as [| k IH]; intros Hk.
  - simpl. split; [reflexivity |]. split; [reflexivity |].
    intros b Hb. unfold gathered. simpl.
    symmetry.
    apply (vsum_only (fun x => in_subtree m b x && ((x =? b) || false))
             (aget f)).
    + apply NoDup_seqZ.
    + apply elem_of_seqZ. lia.
    + intros x _. rewrite orb_false_r. split.
      * intros Hx. apply andb_true_iff in Hx as [_ Hx]. by apply Z.eqb_eq.
      * intros ->. by rewrite in_subtree_self, Z.eqb_refl.
  - destruct (lookup_lt_is_Some_2 order k) as [c Hc]; [lia |].
    rewrite (take_S_r _ _ _ Hc), foldl_app. simpl.
    destruct IH as (IHlen & IH0 & IHsum); [lia |].
    set (P := take k order) in *.
    set (cur := foldl (acc_step m) f P) in *.
    assert (HcR : 0 <= c < nbody m).
    { apply Hrange. by eapply list_elem_of_lookup_2. }
    assert (HcP : c ∉ P).
    { unfold P. intros Hin. apply list_elem_of_lookup in Hin as [i Hi].
      apply lookup_take_Some in Hi as [Hi Hik].
      pose proof (NoDup_lookup _ _ _ _ Hnd Hi Hc). lia. }
    unfold acc_step. cbv zeta.
    destruct (Z.eqb_spec (aget (body_parentid m) c) 0) as [Hp0 | Hp0].
    + split; [assumption |]. split; [assumption |].
      intros b Hb. rewrite IHsum by assumption.
      apply vsum_ext. intros x _. unfold gathered.
      rewrite existsb_app. simpl. rewrite Hp0. simpl.
      by rewrite !orb_false_r.
    + assert (Hcpos : 0 < c).
      { destruct (decide (c = 0)) as [-> | ?]; [contradiction | lia]. }
      pose proof (Hpar c Hcpos) as Hp.
      set (p := aget (body_parentid m) c) in *.
      split; [by rewrite length_aset |].
      split; [by rewrite aget_aset_ne |].
      intros b Hb. destruct (decide (b = p)) as [-> | Hbp].
      * rewrite aget_aset_eq by (unfold in_range; lia).
        rewrite (IHsum p) by lia. rewrite (IHsum c) by lia.
        rewrite vsum_add. apply vsum_ext. intros x Hx.
        apply elem_of_seqZ in Hx.
        rewrite (gathered_snoc m P c p x Hpar Hcpos). fold p.
        rewrite Z.eqb_refl. destruct (Z.eqb_spec p 0); [done |]. simpl.
        assert (Hchildren : forall c', 0 < c' <= x ->
                  aget (body_parentid m) c' = c -> c' ∈ P).
        { intros c' Hc' Hpc'.
          assert (Hc'o : c' ∈ order) by (apply Hcover; lia).
          apply list_elem_of_lookup in Hc'o as [i Hi].
          assert (i < k)%nat by (eapply Hfirst; eauto; lia).
          unfold P. apply list_elem_of_lookup. exists i.
          apply lookup_take_Some. split; [assumption | lia]. }
        rewrite (gathered_complete m P c x Hpar) by (assumption || lia).
        destruct (in_subtree m c x) eqn:Hin.
        -- unfold p. rewrite gathered_not_yet by assumption. simpl.
           apply vec10_add_zero_l.
        -- rewrite orb_false_r. apply vec10_add_zero_r.
      * rewrite aget_aset_ne by congruence. rewrite IHsum by assumption.
        apply vsum_ext. intros x _.
        rewrite (gathered_snoc m P c b x Hpar Hcpos). fold p.
        destruct (Z.eqb_spec p b); [congruence | reflexivity].
Qed.

(** *** The level schedule *)

(** The bodies of the level at [adr] of [size] entries, in thread order,
    and the levels of the model. *)
Definition level_bodies (m : Model) (adr size : Z) : list Z :=
  (fun k => aget (body_tree m) (adr + k)) <$> seqZ 0 size.

Definition body_levels (m : Model) : list (list Z) :=
  (fun l : Z * Z => level_bodies m l.1 l.2)
    <$> zip (body_leveladr m) (body_levelsize m).

(** A well-formed body tree with its level schedule: body [0] is the
    world and its own parent, parents have smaller ids, every other body
    is in exactly one level, and the level of a body comes after the
    level of its parent. *)
Record wf_body_tree (m : Model) : Prop := {
  wf_nbody : 0 < nbody m;
  wf_parent_length : Z.of_nat (length (body_parentid m)) = nbody m;
  wf_parent_root : aget (body_parentid m) 0 = 0;
  wf_parent_below :
    forall b, 0 < b < nbody m -> 0 <= aget (body_parentid m) b < b;
  wf_level_length : length (body_leveladr m) = length (body_levelsize m);
  wf_level_nodup : NoDup (mjoin (body_levels m));
  wf_level_range : forall b, b ∈ mjoin (body_levels m) -> 0 <= b < nbody m;
  wf_level_cover : forall b, 0 < b < nbody m -> b ∈ mjoin (body_levels m);
  wf_level_strict :
    forall i j bs cs b c,
      body_levels m !! i = Some bs -> body_levels m !! j = Some cs ->
      b ∈ bs -> c ∈ cs -> 0 < c -> aget (body_parentid m) c = b ->
      (i < j)%nat
}.

Lemma wf_parents_below (m : Model) : wf_body_tree m -> parents_below m.
Proof.
  intros Hwf x Hx. destruct (decide (x < nbody m)) as [Hlt | Hge].
  - apply Hwf. lia.
  - unfold aget. rewrite decide_True by lia.
    rewrite lookup_ge_None_2; [simpl; unfold blank, Z_blank; lia |].
    pose proof (wf_parent_length m Hwf). lia.
Qed.

Lemma levels_backward_Some (la ls : list Z) :
  length la = length ls ->
  levels_backward la ls = Some (reverse (zip la ls)).
Proof.
  intros Hlen. unfold levels_backward. apply mapM_Some_2.
  apply Forall2_same_length_lookup_2.
  - by rewrite !length_reverse, length_seq, length_zip_with_l by lia.
  - intros i k [adr size] Hk Hz.
    assert (Hi : (i < length la)%nat).
    { apply lookup_lt_Some in Hk. by rewrite length_reverse, length_seq in Hk. }
    rewrite reverse_lookup in Hk by (by rewrite length_seq).
    rewrite length_seq in Hk. apply lookup_seq in Hk as [-> _].
    rewrite reverse_lookup in Hz by (rewrite length_zip_with_l; lia).
    rewrite length_zip_with_l in Hz by lia.
    apply lookup_zip_with_Some in Hz as (a & b & Heq & Ha & Hb).
    injection Heq as -> ->. simpl. by rewrite Hb, Ha.
Qed.

Lemma concat_lookup_order {A : Type} (ls : list (list A)) (i j : nat) (x y : A) :
  (forall a b xs ys, ls !! a = Some xs -> ls !! b = Some ys ->
     x ∈ xs -> y ∈ ys -> (a < b)%nat) ->
  mjoin ls !! i = Some x -> mjoin ls !! j = Some y -> (i < j)%nat.
Proof.
  revert i j. induction ls as [| l ls IH]; intros i j Hord Hi Hj;
    [discriminate |].
  csimpl in *.
  destruct (decide (i < length l)%nat) as [Hil | Hil].
  - rewrite lookup_app_l in Hi by assumption.
    destruct (decide (j < length l)%nat) as [Hjl | Hjl]; [| lia].
    rewrite lookup_app_l in Hj by assumption.
    exfalso.
    assert (0 < 0)%nat; [| lia].
    apply (Hord 0%nat 0%nat l l); try reflexivity;
      by eapply list_elem_of_lookup_2.
  - rewrite lookup_app_r in Hi by lia.
    destruct (decide (j < length l)%nat) as [Hjl | Hjl].
    + rewrite lookup_app_l in Hj by assumption. exfalso.
      assert (Hx : x ∈ mjoin ls) by (by eapply list_elem_of_lookup_2).
      apply list_elem_of_join in Hx as (xs & Hxs & Hxsl).
      apply list_elem_of_lookup in Hxsl as [a Ha].
      assert (S a < 0)%nat; [| lia].
      apply (Hord (S a) 0%nat xs l); try done.
      by eapply list_elem_of_lookup_2.
    + rewrite lookup_app_r in Hj by lia.
      assert (i - length l < j - length l)%nat; [| lia].
      apply IH; [| assumption | assumption].
      intros a b xs ys Ha Hb Hx Hy.
      assert (S a < S b)%nat; [| lia].
      by apply (Hord (S a) (S b) xs ys).
Qed.

Lemma wf_accumulation_order (m : Model) :
  wf_body_tree m -> accumulation_order m (mjoin (reverse (body_levels m))).
Proof.
  intros Hwf.
  assert (Hperm : mjoin (reverse (body_levels m)) ≡ₚ mjoin (body_levels m)).
  { by rewrite reverse_Permutation. }
  split.
  - rewrite Hperm. apply Hwf.
  - intros b Hb. rewrite Hperm in Hb. by apply Hwf.
  - intros b Hb. rewrite Hperm. by apply Hwf.
  - intros i j c' c Hi Hj Hc' Hpc'.
    apply (concat_lookup_order (reverse (body_levels m)) i j c' c);
      [| assumption | assumption].
    intros a b xs ys Ha Hb Hx Hy.
    assert (Hal : (a < length (body_levels m))%nat).
    { apply lookup_lt_Some in Ha. by rewrite length_reverse in Ha. }
    assert (Hbl : (b < length (body_levels m))%nat).
    { apply lookup_lt_Some in Hb. by rewrite length_reverse in Hb. }
    rewrite reverse_lookup in Ha by assumption.
    rewrite reverse_lookup in Hb by assumption.
    pose proof (wf_level_strict m Hwf _ _ _ _ _ _ Hb Ha Hy Hx Hc' Hpc').
    lia.
Qed.

(** *** The kernels on the [crb] array *)

Lemma crb_launch_level (m : Model) (adr size worldid : Z) (w : World) :
  types.crb (launch size (crb_accumulate m adr worldid) w)
  = foldl (acc_step m) (types.crb w) (level_bodies m adr size).
Proof.
  rewrite (launch_proj types.crb _ _
             (fun tid c => acc_step m c (aget (body_tree m) (adr + tid)))).
  - unfold launch, level_bodies. by rewrite foldl_fmap.
  - intros tid s _. unfold crb_accumulate, acc_step. cbv zeta.
    by destruct (aget (body_parentid m) (aget (body_tree m) (adr + tid)) =? 0).
Qed.

Lemma crb_launch_levels (m : Model) (levels : list (Z * Z)) (worldid : Z)
    (w : World) :
  types.crb
    (foldl (fun w '(adr, size) => launch size (crb_accumulate m adr worldid) w)
           w levels)
  = foldl (acc_step m) (types.crb w)
          (mjoin ((fun l : Z * Z => level_bodies m l.1 l.2) <$> levels)).
Proof.
  revert w. induction levels as [| [adr size] levels IH]; intros w;
    [reflexivity |].
  csimpl. rewrite foldl_app, IH. f_equal. apply crb_launch_level.
Qed.

Lemma worlds_launch_levels (levels : list (Z * Z))
    (k : Z -> Z -> Z -> World -> World) (d : Data) (i : nat) :
  worlds (foldl (fun d '(adr, size) => launch_worlds size (k adr) d) d levels)
    !! i
  = (fun w => foldl (fun w '(adr, size) => launch size (k adr (Z.of_nat i)) w)
                    w levels)
      <$> worlds d !! i.
Proof.
  revert d. induction levels as [| [adr size] levels IH]; intros d; simpl.
  - by destruct (worlds d !! i).
  - rewrite IH, worlds_launch_worlds. by destruct (worlds d !! i).
Qed.

Lemma qM_sparse_ancestors_returns (m : Model) (buf : spatial_vector)
    (fuel : nat) :
  dof_chains m ->
  forall dofid madr_ij w,
    dofid < nv m -> (Z.to_nat (dofid + 1) <= fuel)%nat ->
    exists w',
      qM_sparse_ancestors fuel m buf dofid madr_ij w = Some w'
      /\ types.crb w' = types.crb w.
Proof.
  intros Hch. induction fuel as [| fuel IH]; intros dofid madr_ij w Hnv Hfuel.
  - exists w. simpl. replace (0 <=? dofid) with false by lia. by split.
  - simpl. destruct (Z.leb_spec 0 dofid) as [Hge | Hlt].
    + pose proof (Hch dofid ltac:(lia)) as Hp.
      edestruct (IH (aget (dof_parentid m) dofid)) as (w' & Hw' & Hcrb);
        [lia | lia |].
      exists w'. split; [exact Hw' |]. by rewrite Hcrb.
    + exists w. by split.
Qed.

Lemma qM_sparse_returns (m : Model) (fuel : nat) (worldid dofid : Z) (w : World) :
  dof_chains m -> 0 <= dofid < nv m -> (Z.to_nat (nv m) <= fuel)%nat ->
  exists w', qM_sparse fuel m worldid dofid w = Some w'
             /\ types.crb w' = types.crb w.
Proof.
  intros Hch Hd Hfuel. unfold qM_sparse. cbv zeta.
  edestruct (qM_sparse_ancestors_returns m) as (w' & Hw' & Hcrb);
    [exact Hch | | | exists w'; split; [exact Hw' | by rewrite Hcrb]]; lia.
Qed.

(** C10: [crb] returns and, in every world, the entry of the world body
    is its own [cinert] (no thread adds into body [0]: the bodies whose
    parent is body [0] return before the atomic add), while the entry of
    every other body is the sum of [cinert] over its subtree. *)
Theorem crb_subtree_inertia (fuel : nat) (m : Model) (d : Data) :
  wf_body_tree m -> dof_chains m -> (Z.to_nat (nv m) <= fuel)%nat ->
  (forall w, w ∈ worlds d -> Z.of_nat (length (cinert w)) = nbody m) ->
  exists d',
    crb fuel m d = Some d'
    /\ forall (worldid : nat) (w : World),
         worlds d !! worldid = Some w ->
         exists w',
           worlds d' !! worldid = Some w'
           /\ aget (types.crb w') 0 = aget (cinert w) 0
           /\ forall b, 0 < b < nbody m ->
                aget (types.crb w') b = subtree_sum m (cinert w) b.
Proof.
  intros Hwf Hch Hfuel Hlen. unfold crb. cbv zeta.
  rewrite levels_backward_Some by apply Hwf.
  set (order := mjoin (reverse (body_levels m))).
  pose proof (wf_accumulation_order m Hwf) as Hord. fold order in Hord.
  pose proof (wf_parents_below m Hwf) as Hpar.
  match goal with
  | |- exists d', launch_worlds_opt _ _ ?d3 = _ /\ _ =>
      destruct (launch_worlds_opt_Some (nv m) (qM_sparse fuel m) d3
                  (fun w3 w' => types.crb w' = types.crb w3))
        as (d' & Hd' & _ & Hws)
  end.
  { intros i w3 _.
    apply (launch_opt_invariant (fun s => types.crb s = types.crb w3));
      [reflexivity |].
    intros tid s Ht Hs.
    destruct (qM_sparse_returns m fuel (Z.of_nat i) tid s Hch Ht Hfuel)
      as (s' & Hs' & Hcrb).
    exists s'. split; [assumption | congruence]. }
  exists d'. split; [exact Hd' |].
  intros worldid w Hw.
  edestruct (Hws worldid) as (w' & Hw' & Hcrb).
  { cbn [worlds set_worlds]. rewrite list_lookup_fmap, worlds_launch_levels.
    cbn [worlds set_worlds]. rewrite list_lookup_fmap, Hw. reflexivity. }
  exists w'. split; [exact Hw' |].
  rewrite Hcrb. cbn [types.crb set_qM].
  rewrite crb_launch_levels. cbn [types.crb set_crb].
  rewrite fmap_reverse. fold (body_levels m). fold order.
  assert (Hf : Z.of_nat (length (cinert w)) = nbody m).
  { apply Hlen. by eapply list_elem_of_lookup_2. }
  destruct (acc_steps_invariant m (cinert w) order Hpar
              (wf_parent_root m Hwf) Hf Hord (length order) (le_n _))
    as (_ & H0 & Hsum).
  rewrite firstn_all in H0, Hsum.
  split; [exact H0 |].
  intros b Hb. rewrite (Hsum b Hb). unfold subtree_sum.
  apply vsum_ext. intros x Hx. apply elem_of_seqZ in Hx.
  rewrite (gathered_complete m order b x Hpar); [reflexivity | lia |].
  intros c' Hc' _. apply Hord. lia.
Qed.

Lemma tree_model_wf : wf_body_tree fixtures.tree_model.
Proof.
  assert (Hlev : body_levels fixtures.tree_model = [[0]; [1]; [2]; [3; 4]])
    by reflexivity.
  split; rewrite ?Hlev.
  - reflexivity.
  - reflexivity.
  - reflexivity.
  - intros b Hb. simpl in Hb.
    assert (Hcases : b = 1 \/ b = 2 \/ b = 3 \/ b = 4) by lia.
    destruct Hcases as [-> | [-> | [-> | ->]]]; arr_eval; lia.
  - reflexivity.
  - apply (bool_decide_unpack _). by vm_compute.
  - intros b Hb. simpl. csimpl in Hb. set_unfold. lia.
  - intros b Hb. simpl in Hb. csimpl. set_unfold. lia.
  - intros i j bs cs b c Hi Hj Hb Hc Hpos Hpar.
    destruct i as [| [| [| [| i]]]]; simpl in Hi; try discriminate;
      injection Hi as <-;
      (destruct j as [| [| [| [| j]]]]; simpl in Hj; try discriminate;
       injection Hj as <-);
      try lia; set_unfold; exfalso;
      repeat match goal with
             | H : _ \/ _ |- _ => destruct H
             end;
      try done; try lia; subst b c; revert Hpar; arr_eval; lia.
Qed.

Lemma crb_subtree_inertia_witness :
  exists d',
    crb 4 fixtures.tree_model (mkData 0 [fixtures.tree_world]) = Some d'
    /\ forall (worldid : nat) (w : World),
         worlds (mkData 0 [fixtures.tree_world]) !! worldid = Some w ->
         exists w',
           worlds d' !! worldid = Some w'
           /\ aget (types.crb w') 0 = aget (cinert w) 0
           /\ forall b, 0 < b < nbody fixtures.tree_model ->
                aget (types.crb w') b
                = subtree_sum fixtures.tree_model (cinert w) b.
Proof.
  apply (crb_subtree_inertia 4 fixtures.tree_model
           (mkData 0 [fixtures.tree_world])).
  - exact tree_model_wf.
  - intros i Hi. simpl in Hi.
    assert (Hcases : i = 0 \/ i = 1 \/ i = 2 \/ i = 3) by lia.
    destruct Hcases as [-> | [-> | [-> | ->]]]; arr_eval; lia.
  - simpl. lia.
  - intros w Hw. apply list_elem_of_singleton in Hw as ->. reflexivity.
Defined.

End crb_props.

(** ** Finite sums of reals *)

Module linalg.
Local Open Scope R_scope.

(** The sum of [f a] over the entries [a] of [l]. *)
Definition rsum {A : Type} (f : A -> R) (l : list A) : R :=
  foldr (fun a acc => f a + acc) 0 l.

Arguments rsum : simpl never.

Section Sums.
Context {A : Type}.
Implicit Types (f g : A -> R) (l : list A).

Lemma rsum_nil f : rsum f [] = 0.
Proof. reflexivity. Qed.

Lemma rsum_cons f a l : rsum f (a :: l) = f a + rsum f l.
Proof. reflexivity. Qed.

Lemma rsum_app f l l' : rsum f (l ++ l') = rsum f l + rsum f l'.
Proof.
  induction l as [| a l IH]; [rewrite rsum_nil; simpl; lra |].
  rewrite <- app_comm_cons, !rsum_cons, IH. lra.
Qed.

Lemma rsum_snoc f l a : rsum f (l ++ [a]) = rsum f l + f a.
Proof. rewrite rsum_app, rsum_cons, rsum_nil. lra. Qed.

Lemma rsum_ext f g l : (forall a, a ∈ l -> f a = g a) -> rsum f l = rsum g l.
Proof.
  induction l as [| a l IH]; intros Hfg; [reflexivity |].
  rewrite !rsum_cons, Hfg by left. f_equal. apply IH.
  intros b Hb. apply Hfg. by right.
Qed.

Lemma rsum_zero l : rsum (fun _ : A => 0) l = 0.
Proof. induction l as [| a l IH]; [reflexivity |]. rewrite rsum_cons, IH. lra. Qed.

Lemma rsum_zero_ext f l : (forall a, a ∈ l -> f a = 0) -> rsum f l = 0.
Proof. intros Hf. rewrite (rsum_ext f (fun _ => 0)) by assumption. apply rsum_zero. Qed.

Lemma rsum_plus f g l : rsum (fun a => f a + g a) l = rsum f l + rsum g l.
Proof.
  induction l as [| a l IH]; [rewrite !rsum_nil; lra |]. rewrite !rsum_cons, IH. lra.
Qed.

Lemma rsum_minus f g l : rsum (fun a => f a - g a) l = rsum f l - rsum g l.
Proof.
  induction l as [| a l IH]; [rewrite !rsum_nil; lra |]. rewrite !rsum_cons, IH. lra.
Qed.

Lemma rsum_scal_l (c : R) f l : rsum (fun a => c * f a) l = c * rsum f l.
Proof.
  induction l as [| a l IH]; [rewrite !rsum_nil; lra |]. rewrite !rsum_cons, IH. lra.
Qed.

Lemma rsum_scal_r (c : R) f l : rsum (fun a => f a * c) l = rsum f l * c.
Proof.
  induction l as [| a l IH]; [rewrite !rsum_nil; lra |]. rewrite !rsum_cons, IH. lra.
Qed.

Lemma rsum_perm f l l' : l ≡ₚ l' -> rsum f l = rsum f l'.
Proof.
  induction 1 as [| a l l' _ IH | a b l | l l' l'' _ IH1 _ IH2].
  - reflexivity.
  - by rewrite !rsum_cons, IH.
  - rewrite !rsum_cons. lra.
  - by rewrite IH1.
Qed.

Lemma rsum_fmap {B : Type} (h : B -> A) f (l : list B) :
  rsum f (h <$> l) = rsum (fun b => f (h b)) l.
Proof.
  induction l as [| b l IH]; [reflexivity |].
  by rewrite fmap_cons, !rsum_cons, IH.
Qed.

Lemma rsum_nonneg f l : (forall a, a ∈ l -> 0 <= f a) -> 0 <= rsum f l.
Proof.
  induction l as [| a l IH]; intros Hf; [rewrite rsum_nil; lra |].
  rewrite rsum_cons.
  assert (0 <= f a) by (apply Hf; left).
  assert (0 <= rsum f l) by (apply IH; intros b Hb; apply Hf; by right).
  lra.
Qed.

End Sums.

Lemma rsum_swap {A B : Type} (f : A -> B -> R) (l : list A) (l' : list B) :
  rsum (fun a => rsum (fun b => f a b) l') l
  = rsum (fun b => rsum (fun a => f a b) l) l'.
Proof.
  induction l as [| a l IH].
  - by rewrite rsum_nil, rsum_zero.
  - rewrite rsum_cons, IH, <- rsum_plus. reflexivity.
Qed.

(** A sum with one term that counts. *)
Lemma rsum_only (F : Z -> bool) (g : Z -> R) (l : list Z) (b : Z) :
  NoDup l -> b ∈ l -> (forall x, x ∈ l -> F x = true <-> x = b) ->
  rsum (fun x => if F x then g x else 0) l = g b.
Proof.
  induction l as [| y l IH]; intros Hnd Hb HF; [by apply elem_of_nil in Hb |].
  apply NoDup_cons in Hnd as [Hy Hnd]. rewrite rsum_cons.
  destruct (decide (y = b)) as [-> | Hne].
  - rewrite (proj2 (HF b ltac:(left))) by reflexivity.
    rewrite rsum_zero_ext; [lra |].
    intros x Hx. destruct (F x) eqn:HFx; [| reflexivity].
    apply HF in HFx; [| by right]. congruence.
  - destruct (F y) eqn:HFy.
    { apply HF in HFy; [contradiction | by left]. }
    rewrite IH; [lra | assumption | |].
    + apply elem_of_cons in Hb as [? | ?]; [congruence | assumption].
    + intros x Hx. apply HF. by right.
Qed.

Lemma rsum_pick (g : Z -> R) (n b : Z) :
  (0 <= b < n)%Z ->
  rsum (fun x => if (x =? b)%Z then g x else 0) (seqZ 0 n) = g b.
Proof.
  intros Hb. apply (rsum_only (fun x => (x =? b)%Z)).
  - apply NoDup_seqZ.
  - apply elem_of_seqZ. lia.
  - intros x _. apply Z.eqb_eq.
Qed.

Lemma rsum_seqZ_succ (f : Z -> R) (n : Z) :
  (0 <= n)%Z -> rsum f (seqZ 0 (n + 1)) = rsum f (seqZ 0 n) + f n.
Proof.
  intros Hn. rewrite (seqZ_app 0 n 1) by lia. rewrite rsum_app.
  rewrite (seqZ_cons _ 1), (seqZ_nil _ (Z.pred 1)) by lia.
  rewrite rsum_cons, rsum_nil, Z.add_0_l. lra.
Qed.

Lemma rsum_seqZ_split (f : Z -> R) (n k : Z) :
  (0 <= k <= n)%Z ->
  rsum f (seqZ 0 n) = rsum f (seqZ 0 k) + rsum f (seqZ k (n - k)).
Proof.
  intros Hk. replace n with (k + (n - k))%Z at 1 by lia.
  rewrite seqZ_app by lia. by rewrite rsum_app.
Qed.

(** *** Quadratic forms and positive definite matrices

    A matrix is a function of two indices, a vector a function of one;
    [S] lists the indices that count. *)

Definition qform (M : Z -> Z -> R) (S : list Z) (v : Z -> R) : R :=
  rsum (fun i => rsum (fun j => v i * M i j * v j) S) S.

Definition pos_def (M : Z -> Z -> R) (S : list Z) : Prop :=
  forall v, (exists i, i ∈ S /\ v i <> 0) -> 0 < qform M S v.

Definition sym_on (M : Z -> Z -> R) (S : list Z) : Prop :=
  forall i j, i ∈ S -> j ∈ S -> M i j = M j i.

(** One step of elimination at the index [k]. *)
Definition schur (M : Z -> Z -> R) (k : Z) (i j : Z) : R :=
  M i j - M i k * M k j / M k k.

Lemma qform_ext (M M' : Z -> Z -> R) (S : list Z) (v v' : Z -> R) :
  (forall i j, i ∈ S -> j ∈ S -> M i j = M' i j) ->
  (forall i, i ∈ S -> v i = v' i) ->
  qform M S v = qform M' S v'.
Proof.
  intros HM Hv. unfold qform. apply rsum_ext. intros i Hi.
  apply rsum_ext. intros j Hj. by rewrite HM, !Hv.
Qed.

Lemma qform_perm (M : Z -> Z -> R) (S S' : list Z) (v : Z -> R) :
  S ≡ₚ S' -> qform M S v = qform M S' v.
Proof.
  intros HS. unfold qform. rewrite (rsum_perm _ S S' HS).
  apply rsum_ext. intros i _. by apply rsum_perm.
Qed.

Lemma pos_def_ext (M M' : Z -> Z -> R) (S : list Z) :
  (forall i j, i ∈ S -> j ∈ S -> M i j = M' i j) ->
  pos_def M S -> pos_def M' S.
Proof.
  intros HM Hpd v Hv. rewrite <- (qform_ext M M' S v v); auto.
Qed.

Lemma pos_def_perm (M : Z -> Z -> R) (S S' : list Z) :
  S ≡ₚ S' -> pos_def M S -> pos_def M S'.
Proof.
  intros HS Hpd v (i & Hi & Hvi). rewrite <- (qform_perm M S S') by assumption.
  apply Hpd. exists i. by rewrite HS.
Qed.

Lemma qform_cons (M : Z -> Z -> R) (k : Z) (S : list Z) (v : Z -> R) :
  qform M (k :: S) v
  = v k * M k k * v k
    + v k * rsum (fun j => M k j * v j) S
    + rsum (fun i => v i * M i k) S * v k
    + qform M S v.
Proof.
  unfold qform. rewrite !rsum_cons.
  rewrite (rsum_ext (fun i => rsum _ (k :: S))
             (fun i => v i * M i k * v k + rsum (fun j => v i * M i j * v j) S))
    by (intros i _; by rewrite rsum_cons).
  rewrite rsum_plus, rsum_scal_r.
  rewrite (rsum_ext (fun j => v k * M k j * v j)
             (fun j => v k * (M k j * v j))) by (intros; ring).
  rewrite rsum_scal_l. ring.
Qed.

Lemma pos_def_diag (M : Z -> Z -> R) (k : Z) (S : list Z) :
  k ∉ S -> pos_def M (k :: S) -> 0 < M k k.
Proof.
  intros Hout Hpd.
  specialize (Hpd (fun i => if (i =? k)%Z then 1 else 0)).
  rewrite qform_cons in Hpd. rewrite Z.eqb_refl in Hpd.
  rewrite !rsum_zero_ext in Hpd.
  - unfold qform in Hpd. rewrite rsum_zero_ext in Hpd.
    + assert (0 < 1 * M k k * 1 + 1 * 0 + 0 * 1 + 0); [| lra].
      apply Hpd. exists k. split; [left |]. rewrite Z.eqb_refl. lra.
    + intros i Hi. apply rsum_zero_ext. intros j Hj.
      destruct (Z.eqb_spec i k) as [-> | _]; [contradiction | ring].
  - intros i Hi. destruct (Z.eqb_spec i k) as [-> | _]; [contradiction | ring].
  - intros j Hj. destruct (Z.eqb_spec j k) as [-> | _]; [contradiction | ring].
Qed.

(** Elimination at [k] keeps a symmetric positive definite matrix
    symmetric positive definite on the other indices. *)
Lemma schur_pos_def (M : Z -> Z -> R) (k : Z) (S : list Z) :
  k ∉ S -> sym_on M (k :: S) -> pos_def M (k :: S) ->
  sym_on (schur M k) S /\ pos_def (schur M k) S.
Proof.
  intros Hout Hsym Hpd.
  pose proof (pos_def_diag M k S Hout Hpd) as Hkk.
  split.
  - intros i j Hi Hj. unfold schur.
    rewrite (Hsym i j), (Hsym i k), (Hsym k j)
      by (try (by left); by right).
    field. lra.
  - intros v (i0 & Hi0 & Hvi0).
    set (s := rsum (fun j => M k j * v j) S).
    set (w := fun i => if (i =? k)%Z then - s / M k k else v i).
    assert (Hw : forall i, i ∈ S -> w i = v i).
    { intros i Hi. unfold w.
      destruct (Z.eqb_spec i k) as [-> | _]; [contradiction | reflexivity]. }
    assert (Hpos : 0 < qform M (k :: S) w).
    { apply Hpd. exists i0. split; [by right |]. by rewrite Hw. }
    rewrite qform_cons in Hpos.
    rewrite (qform_ext M M S w v) in Hpos by auto.
    rewrite (rsum_ext (fun j => M k j * w j) (fun j => M k j * v j)) in Hpos
      by (intros j Hj; by rewrite Hw).
    rewrite (rsum_ext (fun i => w i * M i k) (fun j => M k j * v j)) in Hpos
      by (intros j Hj; rewrite Hw by assumption;
          rewrite (Hsym j k) by ((by right) || (by left)); ring).
    fold s in Hpos.
    replace (w k) with (- s / M k k) in Hpos
      by (unfold w; by rewrite Z.eqb_refl).
    assert (Hq : qform (schur M k) S v = qform M S v - s * s / M k k).
    { unfold qform, schur.
      rewrite (rsum_ext _ (fun i =>
                 rsum (fun j => v i * M i j * v j) S
                 - v i * M i k / M k k * s)).
      - rewrite rsum_minus. f_equal.
        rewrite (rsum_ext _ (fun i => M k i * v i * (s / M k k))).
        + rewrite rsum_scal_r. fold s. field. lra.
        + intros i Hi. rewrite (Hsym i k) by ((by right) || (by left)).
          field. lra.
      - intros i _. unfold s. rewrite <- rsum_scal_l, <- rsum_minus.
        apply rsum_ext. intros j _. field. lra. }
    rewrite Hq.
    replace (- s / M k k * M k k * (- s / M k k) + - s / M k k * s
             + s * (- s / M k k) + qform M S v)
      with (qform M S v - s * s / M k k) in Hpos by (field; lra).
    exact Hpos.
Qed.

End linalg.

(** ** smooth.py: the sparse solve *)

Module solve_props.
Import array_facts dof_tree linalg smooth.
Local Open Scope R_scope.

(** The loops over the ancestors, as folds over the chain of the row. *)
Definition up_step (q : list R) (i : Z) (y : list R) (ca : Z * Z) : list R :=
  aset y ca.2 (aget y ca.2 - aget q ca.1 * aget y i).

Definition down_step (q : list R) (i : Z) (y : list R) (ca : Z * Z) : list R :=
  aset y i (aget y i - aget q ca.1 * aget y ca.2).

Lemma solve_chain_up_walk (m : Model) (qLD : list (list R)) (i : Z)
    (fuel : nat) :
  dof_chains m ->
  forall madr j y, (j < nv m)%Z -> (Z.to_nat (j + 1) <= fuel)%nat ->
    solve_chain_up fuel m qLD i madr j y
    = Some (foldl (up_step (aget qLD 0) i) y (walk m madr j)).
Proof.
  intros Hch. induction fuel as [| fuel IH]; intros madr j y Hj Hfuel.
  - simpl. replace (0 <=? j)%Z with false by lia.
    by rewrite walk_neg by lia.
  - simpl. destruct (Z.leb_spec 0 j) as [Hge | Hlt].
    + rewrite walk_unfold by (assumption || lia). simpl.
      pose proof (Hch j ltac:(lia)). rewrite IH by lia. reflexivity.
    + by rewrite walk_neg by lia.
Qed.

Lemma solve_chain_down_walk (m : Model) (qLD : list (list R)) (i : Z)
    (fuel : nat) :
  dof_chains m ->
  forall madr j y, (j < nv m)%Z -> (Z.to_nat (j + 1) <= fuel)%nat ->
    solve_chain_down fuel m qLD i madr j y
    = Some (foldl (down_step (aget qLD 0) i) y (walk m madr j)).
Proof.
  intros Hch. induction fuel as [| fuel IH]; intros madr j y Hj Hfuel.
  - simpl. replace (0 <=? j)%Z with false by lia.
    by rewrite walk_neg by lia.
  - simpl. destruct (Z.leb_spec 0 j) as [Hge | Hlt].
    + rewrite walk_unfold by (assumption || lia). simpl.
      pose proof (Hch j ltac:(lia)). rewrite IH by lia. reflexivity.
    + by rewrite walk_neg by lia.
Qed.

(** The coefficient that the entries [es] give to column [j]. *)
Definition coef (q : list R) (es : list (Z * Z)) (j : Z) : R :=
  rsum (fun ca => if (ca.2 =? j)%Z then aget q ca.1 else 0) es.

Lemma up_fold_effect (q : list R) (i : Z) (es : list (Z * Z)) (y : list R) :
  (forall c a, (c, a) ∈ es -> a <> i /\ in_range y a) ->
  let y' := foldl (up_step q i) y es in
  length y' = length y
  /\ forall j, aget y' j = aget y j - coef q es j * aget y i.
Proof.
  revert y. induction es as [| [c a] es IH]; intros y Hes; cbv zeta.
  - simpl. split; [reflexivity |]. intros j. unfold coef. rewrite rsum_nil. lra.
  - simpl.
    destruct (Hes c a ltac:(left)) as [Hai Ha].
    destruct (IH (up_step q i y (c, a))) as [Hlen Hval].
    { intros c' a' Hin. destruct (Hes c' a' ltac:(by right)) as [? ?].
      split; [assumption |]. by apply in_range_aset. }
    split.
    + rewrite Hlen. apply length_aset.
    + intros j. rewrite Hval. unfold up_step, coef. simpl.
      rewrite rsum_cons. simpl.
      rewrite (aget_aset_ne _ a i) by assumption.
      destruct (Z.eqb_spec a j) as [-> | Hne].
      * rewrite aget_aset_eq by assumption. lra.
      * rewrite aget_aset_ne by assumption. lra.
Qed.

Lemma down_fold_effect (q : list R) (i : Z) (es : list (Z * Z)) (y : list R) :
  (forall c a, (c, a) ∈ es -> a <> i) -> in_range y i ->
  let y' := foldl (down_step q i) y es in
  length y' = length y
  /\ aget y' i = aget y i - rsum (fun ca => aget q ca.1 * aget y ca.2) es
  /\ forall j, j <> i -> aget y' j = aget y j.
Proof.
  revert y. induction es as [| [c a] es IH]; intros y Hes Hi; cbv zeta.
  - simpl. split; [reflexivity |]. split; [rewrite rsum_nil; lra | done].
  - simpl.
    pose proof (Hes c a ltac:(left)) as Hai.
    destruct (IH (down_step q i y (c, a))) as (Hlen & Hval & Hframe).
    { intros c' a' Hin. apply (Hes c' a'). by right. }
    { by apply in_range_aset. }
    split; [rewrite Hlen; apply length_aset |]. split.
    + rewrite Hval, rsum_cons. unfold down_step. simpl.
      rewrite aget_aset_eq by assumption.
      rewrite (rsum_ext _ (fun ca => aget q ca.1 * aget y ca.2)); [lra |].
      intros [c' a'] Hin. simpl.
      rewrite aget_aset_ne; [reflexivity |].
      intros ->. by apply (Hes c' a'); [right |].
    + intros j Hj. rewrite Hframe by assumption.
      unfold down_step. simpl. by rewrite aget_aset_ne.
Qed.

(** The strictly lower part of the factor: the entry of row [i] in column
    [j], zero when [j] is no ancestor of [i]. *)
Definition Lsp (m : Model) (q : list R) (i j : Z) : R := coef q (chain m i) j.

(** The unit lower-triangular factor. *)
Definition Lfull (m : Model) (q : list R) (i j : Z) : R :=
  (if (i =? j)%Z then 1 else 0) + Lsp m q i j.

Lemma Lsp_zero (m : Model) (q : list R) (i j : Z) :
  dof_chains m -> (0 <= i < nv m)%Z -> (j < 0 \/ i <= j)%Z ->
  Lsp m q i j = 0.
Proof.
  intros Hch Hi Hj. unfold Lsp, coef. apply rsum_zero_ext.
  intros [c a] Hin. simpl.
  apply chain_columns in Hin; [| assumption | assumption].
  destruct (Z.eqb_spec a j); [lia | reflexivity].
Qed.

Lemma chain_sum (m : Model) (q y : list R) (i : Z) :
  dof_chains m -> (0 <= i < nv m)%Z ->
  rsum (fun ca => aget q ca.1 * aget y ca.2) (chain m i)
  = rsum (fun j => Lsp m q i j * aget y j) (seqZ 0 (nv m)).
Proof.
  intros Hch Hi. unfold Lsp, coef.
  rewrite (rsum_ext (fun j => _ * aget y j)
             (fun j => rsum (fun ca : Z * Z =>
                               if (ca.2 =? j)%Z then aget q ca.1 * aget y ca.2
                               else 0) (chain m i))).
  2:{ intros j _. rewrite <- rsum_scal_r. apply rsum_ext.
      intros [c a] _. simpl.
      destruct (Z.eqb_spec a j) as [-> | _]; lra. }
  rewrite rsum_swap. apply rsum_ext. intros [c a] Hin. simpl.
  apply chain_columns in Hin; [| assumption | assumption].
  symmetry.
  rewrite (rsum_ext _ (fun j => if (j =? a)%Z
                                then (fun _ => aget q c * aget y a) j else 0)).
  - apply (rsum_pick (fun _ => aget q c * aget y a)). lia.
  - intros j _. by rewrite (Z.eqb_sym a j).
Qed.

Definition up_row (m : Model) (q : list R) (y : list R) (i : Z) : list R :=
  foldl (up_step q i) y (chain m i).

Definition down_row (m : Model) (q : list R) (y : list R) (i : Z) : list R :=
  foldl (down_step q i) y (chain m i).

Lemma up_sweep_pure (fuel : nat) (m : Model) (qLD : list (list R))
    (l : list Z) (y : list R) :
  dof_chains m -> (Z.to_nat (nv m) <= fuel)%nat ->
  (forall i, i ∈ l -> (0 <= i < nv m)%Z) ->
  foldl (fun y i =>
           y ≫= solve_chain_up fuel m qLD i (aget (dof_Madr m) i + 1)%Z
                  (aget (dof_parentid m) i))
        (Some y) l
  = Some (foldl (up_row m (aget qLD 0)) y l).
Proof.
  intros Hch Hfuel. revert y. induction l as [| i l IH]; intros y Hl;
    [reflexivity |].
  simpl. pose proof (Hl i ltac:(left)) as Hi. pose proof (Hch i Hi).
  rewrite solve_chain_up_walk by (assumption || lia).
  apply IH. intros i' Hi'. apply Hl. by right.
Qed.

Lemma down_sweep_pure (fuel : nat) (m : Model) (qLD : list (list R))
    (l : list Z) (y : list R) :
  dof_chains m -> (Z.to_nat (nv m) <= fuel)%nat ->
  (forall i, i ∈ l -> (0 <= i < nv m)%Z) ->
  foldl (fun y i =>
           y ≫= solve_chain_down fuel m qLD i (aget (dof_Madr m) i + 1)%Z
                  (aget (dof_parentid m) i))
        (Some y) l
  = Some (foldl (down_row m (aget qLD 0)) y l).
Proof.
  intros Hch Hfuel. revert y. induction l as [| i l IH]; intros y Hl;
    [reflexivity |].
  simpl. pose proof (Hl i ltac:(left)) as Hi. pose proof (Hch i Hi).
  rewrite solve_chain_down_walk by (assumption || lia).
  apply IH. intros i' Hi'. apply Hl. by right.
Qed.

Lemma up_row_effect (m : Model) (q y : list R) (i : Z) :
  dof_chains m -> (0 <= i < nv m)%Z -> Z.of_nat (length y) = nv m ->
  length (up_row m q y i) = length y
  /\ forall j, aget (up_row m q y i) j = aget y j - Lsp m q i j * aget y i.
Proof.
  intros Hch Hi Hlen. apply up_fold_effect.
  intros c a Hin. apply chain_columns in Hin; [| assumption | assumption].
  unfold in_range. lia.
Qed.

Lemma down_row_effect (m : Model) (q y : list R) (i : Z) :
  dof_chains m -> (0 <= i < nv m)%Z -> Z.of_nat (length y) = nv m ->
  length (down_row m q y i) = length y
  /\ aget (down_row m q y i) i
     = aget y i - rsum (fun j => Lsp m q i j * aget y j) (seqZ 0 (nv m))
  /\ forall j, j <> i -> aget (down_row m q y i) j = aget y j.
Proof.
  intros Hch Hi Hlen.
  rewrite <- chain_sum by assumption. apply down_fold_effect.
  - intros c a Hin. apply chain_columns in Hin; [lia | assumption | assumption].
  - unfold in_range. lia.
Qed.

(** *** The three sweeps *)

Lemma reverse_seqZ_succ (t : Z) (s : nat) :
  reverse (seqZ t (Z.of_nat (S s)))
  = reverse (seqZ (t + 1) (Z.of_nat s)) ++ [t].
Proof.
  rewrite seqZ_cons by lia. rewrite reverse_cons. do 3 f_equal; lia.
Qed.

(** After the rows [n - s .. n - 1] of the first sweep: [y = y0 - Lsp^T y]
    as far as those rows go. *)
Lemma up_sweep_inv (m : Model) (q y0 : list R) (s : nat) :
  dof_chains m -> Z.of_nat (length y0) = nv m -> (Z.of_nat s <= nv m)%Z ->
  let y := foldl (up_row m q) y0 (reverse (seqZ (nv m - Z.of_nat s) (Z.of_nat s))) in
  length y = length y0
  /\ forall j,
       aget y j
       = aget y0 j
         - rsum (fun i => Lsp m q i j * aget y i)
                (seqZ (nv m - Z.of_nat s) (Z.of_nat s)).
Proof.
  intros Hch Hlen. cbv zeta. induction s as [| s IH]; intros Hs.
  - change (Z.of_nat 0) with 0%Z. rewrite !seqZ_nil by lia.
    split; [reflexivity |]. intros j. rewrite rsum_nil. simpl. lra.
  - destruct IH as [IHlen IHval]; [lia |].
    set (t := (nv m - Z.of_nat (S s))%Z).
    replace (nv m - Z.of_nat s)%Z with (t + 1)%Z in * by lia.
    rewrite reverse_seqZ_succ, foldl_app. simpl.
    set (y := foldl (up_row m q) y0 (reverse (seqZ (t + 1) (Z.of_nat s)))) in *.
    destruct (up_row_effect m q y t Hch ltac:(lia) ltac:(lia)) as [Hlen' Hval'].
    split; [lia |]. intros j.
    rewrite seqZ_cons by lia. rewrite rsum_cons.
    replace (Z.succ t) with (t + 1)%Z by lia.
    replace (Z.pred (Z.of_nat (S s))) with (Z.of_nat s) by lia.
    rewrite (rsum_ext _ (fun i => Lsp m q i j * aget y i)).
    2:{ intros i Hi. apply elem_of_seqZ in Hi. rewrite Hval'.
        rewrite (Lsp_zero m q t i) by (assumption || lia). lra. }
    rewrite !Hval', IHval.
    rewrite (Lsp_zero m q t t) by (assumption || lia). lra.
Qed.

(** After the rows [0 .. t - 1] of the third sweep: [y = v - Lsp y] on
    those rows, [y = v] on the others. *)
Lemma down_sweep_inv (m : Model) (q v : list R) (t : nat) :
  dof_chains m -> Z.of_nat (length v) = nv m -> (Z.of_nat t <= nv m)%Z ->
  let y := foldl (down_row m q) v (seqZ 0 (Z.of_nat t)) in
  length y = length v
  /\ (forall i, (0 <= i < Z.of_nat t)%Z ->
        aget y i
        = aget v i - rsum (fun j => Lsp m q i j * aget y j) (seqZ 0 (nv m)))
  /\ (forall i, (Z.of_nat t <= i)%Z -> aget y i = aget v i).
Proof.
  intros Hch Hlen. cbv zeta. induction t as [| t IH]; intros Ht.
  - simpl. split; [reflexivity |]. split; [lia | done].
  - destruct IH as (IHlen & IHlow & IHhigh); [lia |].
    rewrite Nat2Z.inj_succ, <- Z.add_1_r, (seqZ_app 0) by lia.
    rewrite foldl_app, (seqZ_cons _ 1), (seqZ_nil _ (Z.pred 1)) by lia.
    simpl. rewrite Z.add_0_l.
    set (y := foldl (down_row m q) v (seqZ 0 (Z.of_nat t))) in *.
    destruct (down_row_effect m q y (Z.of_nat t) Hch ltac:(lia) ltac:(lia))
      as (Hlen' & Hval' & Hframe').
    assert (Hsum : forall i, (0 <= i <= Z.of_nat t)%Z ->
              rsum (fun j => Lsp m q i j * aget (down_row m q y (Z.of_nat t)) j)
                   (seqZ 0 (nv m))
              = rsum (fun j => Lsp m q i j * aget y j) (seqZ 0 (nv m))).
    { intros i Hi. apply rsum_ext. intros j _.
      destruct (decide (j = Z.of_nat t)) as [-> | Hne].
      - rewrite (Lsp_zero m q i) by (assumption || lia). lra.
      - by rewrite Hframe'. }
    split; [lia |]. split.
    + intros i Hi. rewrite Hsum by lia.
      destruct (decide (i = Z.of_nat t)) as [-> | Hne].
      * rewrite Hval', IHhigh by lia. reflexivity.
      * rewrite Hframe' by assumption. apply IHlow. lia.
    + intros i Hi. rewrite Hframe' by lia. apply IHhigh. lia.
Qed.

(** [((L^T D L) y)[a]] for the factor read from the packed array [q] and
    the diagonal [D]. *)
Definition LtDL (m : Model) (q : list R) (D : Z -> R) (y : list R) (a : Z) : R :=
  rsum (fun k =>
          Lfull m q k a
          * (D k * rsum (fun b => Lfull m q k b * aget y b) (seqZ 0 (nv m))))
       (seqZ 0 (nv m)).

Lemma Lfull_row_sum (m : Model) (q y : list R) (k : Z) :
  (0 <= k < nv m)%Z ->
  rsum (fun b => Lfull m q k b * aget y b) (seqZ 0 (nv m))
  = aget y k + rsum (fun b => Lsp m q k b * aget y b) (seqZ 0 (nv m)).
Proof.
  intros Hk. unfold Lfull.
  rewrite (rsum_ext _ (fun b => (if (b =? k)%Z then aget y b else 0)
                                + Lsp m q k b * aget y b)).
  - rewrite rsum_plus, rsum_pick by assumption. reflexivity.
  - intros b _. rewrite (Z.eqb_sym k b).
    destruct (b =? k)%Z; lra.
Qed.

Lemma Lfull_col_sum (m : Model) (q : list R) (u : Z -> R) (a : Z) :
  (0 <= a < nv m)%Z ->
  rsum (fun k => Lfull m q k a * u k) (seqZ 0 (nv m))
  = u a + rsum (fun k => Lsp m q k a * u k) (seqZ 0 (nv m)).
Proof.
  intros Ha. unfold Lfull.
  rewrite (rsum_ext _ (fun k => (if (k =? a)%Z then u k else 0)
                                + Lsp m q k a * u k)).
  - rewrite rsum_plus, rsum_pick by assumption. reflexivity.
  - intros k _. destruct (k =? a)%Z; lra.
Qed.

(** The sparse kernel returns, and what it leaves in [y] solves
    [(L^T D L) y = x] for the [x] it found there. *)
Lemma solve_m_sparse_solves (fuel : nat) (m : Model) (qLD : list (list R))
    (qLDiagInv x : list R) (D : Z -> R) :
  dof_chains m -> (Z.to_nat (nv m) <= fuel)%nat -> (0 <= nv m)%Z ->
  Z.of_nat (length x) = nv m ->
  (forall k, (0 <= k < nv m)%Z -> D k * aget qLDiagInv k = 1) ->
  exists y,
    solve_m_sparse fuel m qLD qLDiagInv x = Some y
    /\ length y = length x
    /\ forall a, (0 <= a < nv m)%Z -> LtDL m (aget qLD 0) D y a = aget x a.
Proof.
  intros Hch Hfuel Hnv Hlen HD. unfold solve_m_sparse.
  set (q := aget qLD 0).
  rewrite up_sweep_pure; try assumption.
  2:{ intros i Hi. apply elem_of_reverse, elem_of_seqZ in Hi. lia. }
  fold q. set (u := foldl (up_row m q) x (reverse (seqZ 0 (nv m)))).
  destruct (up_sweep_inv m q x (Z.to_nat (nv m)) Hch Hlen ltac:(lia))
    as [Hulen Hu].
  rewrite Z2Nat.id, Z.sub_diag in Hulen, Hu by lia. fold u in Hulen, Hu.
  set (v := foldl (fun y i => aset y i (aget y i * aget qLDiagInv i)) u
                  (seqZ 0 (nv m))).
  assert (Hvlen : length v = length u).
  { unfold v. fold (launch (nv m)
                      (fun i y => aset y i (aget y i * aget qLDiagInv i)) u).
    apply (launch_invariant (fun y => length y = length u)); [reflexivity |].
    intros tid y _ Hy. by rewrite length_aset. }
  assert (Hv : forall i, (0 <= i < nv m)%Z ->
            aget v i = aget u i * aget qLDiagInv i).
  { intros i Hi. unfold v.
    fold (launch (nv m)
            (fun i y => aset y i
                          ((fun i0 x0 => x0 * aget qLDiagInv i0) i (aget y i))) u).
    rewrite launch_pointwise by (unfold in_range; lia).
    by rewrite decide_True by lia. }
  rewrite down_sweep_pure; try assumption.
  2:{ intros i Hi. apply elem_of_seqZ in Hi. lia. }
  fold q. set (w := foldl (down_row m q) v (seqZ 0 (nv m))).
  destruct (down_sweep_inv m q v (Z.to_nat (nv m)) Hch ltac:(lia) ltac:(lia))
    as (Hwlen & Hw & _).
  rewrite Z2Nat.id in Hwlen, Hw by lia. fold w in Hwlen, Hw.
  exists w. split; [reflexivity |]. split; [lia |].
  intros a Ha. unfold LtDL.
  rewrite (rsum_ext _ (fun k => Lfull m q k a * aget u k)).
  - rewrite (Lfull_col_sum m q (aget u)) by assumption.
    rewrite (Hu a). lra.
  - intros k Hk. apply elem_of_seqZ in Hk. f_equal.
    rewrite Lfull_row_sum by lia.
    pose proof (Hw k ltac:(lia)) as Hwk. pose proof (Hv k ltac:(lia)) as Hvk.
    pose proof (HD k ltac:(lia)) as HDk.
    replace (aget w k + rsum (fun b => Lsp m q k b * aget w b) (seqZ 0 (nv m)))
      with (aget v k) by lra.
    rewrite Hvk.
    transitivity (D k * aget qLDiagInv k * aget u k); [ring |].
    rewrite HDk. ring.
Qed.

End solve_props.

(** ** The tiled Cholesky solve *)

Module dense_props.
Import array_facts linalg.
Local Open Scope R_scope.

Lemma foldl_one {A B : Type} (f : A -> B -> A) (a : A) (b : B) :
  foldl f a [b] = f a b.
Proof. reflexivity. Qed.

Lemma aget_cons_succ {A : Type} `{Blank A} (a : A) (l : list A) (k : Z) :
  (0 <= k)%Z -> aget (a :: l) (k + 1) = aget l k.
Proof.
  intros Hk. unfold aget. rewrite !decide_True by lia.
  replace (Z.to_nat (k + 1)) with (S (Z.to_nat k)) by lia. reflexivity.
Qed.

Lemma aget_app_l {A : Type} `{Blank A} (l l' : list A) (k : Z) :
  (k < Z.of_nat (length l))%Z -> aget (l ++ l') k = aget l k.
Proof.
  intros Hk. unfold aget. destruct (decide (0 <= k)%Z); [| reflexivity].
  by rewrite lookup_app_l by lia.
Qed.

Lemma aget_app_r {A : Type} `{Blank A} (l l' : list A) (k : Z) :
  (Z.of_nat (length l) <= k)%Z ->
  aget (l ++ l') k = aget l' (k - Z.of_nat (length l)).
Proof.
  intros Hk. unfold aget. rewrite !decide_True by lia.
  rewrite lookup_app_r by lia. do 2 f_equal. lia.
Qed.

Lemma rsum_seqZ_shift (f : Z -> R) (a n : Z) :
  rsum f (seqZ (a + 1) n) = rsum (fun k => f (k + 1)%Z) (seqZ a n).
Proof.
  rewrite (Z.add_comm a 1), <- fmap_add_seqZ.
  rewrite rsum_fmap. apply rsum_ext. intros k _. f_equal. lia.
Qed.

Lemma rsum_seqZ_cons (f : Z -> R) (a n : Z) :
  (0 <= n)%Z ->
  rsum f (seqZ a (n + 1)) = f a + rsum f (seqZ (a + 1) n).
Proof.
  intros Hn. rewrite seqZ_cons by lia. rewrite rsum_cons.
  do 3 f_equal; lia.
Qed.

(** [dotl] as a sum over the indices of the shorter list. *)
Lemma dotl_rsum (u v : list R) :
  (length u <= length v)%nat ->
  dotl u v = rsum (fun k => aget u k * aget v k) (seqZ 0 (Z.of_nat (length u))).
Proof.
  revert v. induction u as [| a u IH]; intros v Hlen.
  - reflexivity.
  - destruct v as [| b v]; [simpl in Hlen; lia |].
    unfold dotl. simpl zip_with. simpl foldr. fold (dotl u v).
    rewrite IH by (simpl in Hlen; lia).
    replace (Z.of_nat (length (a :: u))) with (Z.of_nat (length u) + 1)%Z
      by (simpl; lia).
    rewrite rsum_seqZ_cons by lia. f_equal.
    rewrite rsum_seqZ_shift. apply rsum_ext. intros k Hk.
    apply elem_of_seqZ in Hk. by rewrite !aget_cons_succ by lia.
Qed.

(** The lower triangle of a matrix. *)
Definition low (L : list (list R)) (i k : Z) : R :=
  if (k <=? i)%Z then aget2 L i k else 0.

(** [((L L^T) y)[a]] for the lower triangle of [L]. *)
Definition LLt (L : list (list R)) (n : Z) (y : list R) (a : Z) : R :=
  rsum (fun k => low L a k * rsum (fun b => low L b k * aget y b) (seqZ 0 n))
       (seqZ 0 n).

(** The forward substitution. *)
Definition forward_subst (L : list (list R)) (x : list R) (t : Z) : list R :=
  foldl (fun z i => z ++ [(aget x i - dotl z (aget L i)) / aget2 L i i])
        [] (seqZ 0 t).

Lemma forward_subst_spec (L : list (list R)) (x : list R) (n : Z) (t : nat) :
  (forall i, (0 <= i < n)%Z -> Z.of_nat (length (aget L i)) = n) ->
  (forall i, (0 <= i < n)%Z -> aget2 L i i <> 0) ->
  (Z.of_nat t <= n)%Z ->
  let z := forward_subst L x (Z.of_nat t) in
  length z = t
  /\ forall i, (0 <= i < Z.of_nat t)%Z ->
       rsum (fun k => low L i k * aget z k) (seqZ 0 n) = aget x i.
Proof.
  intros Hrows Hdiag. cbv zeta. induction t as [| t IH]; intros Ht.
  - split; [reflexivity | lia].
  - destruct IH as [IHlen IHval]; [lia |].
    unfold forward_subst in *.
    rewrite Nat2Z.inj_succ, <- Z.add_1_r, (seqZ_app 0) by lia.
    rewrite foldl_app, (seqZ_cons _ 1), (seqZ_nil _ (Z.pred 1)) by lia.
    rewrite foldl_one, Z.add_0_l.
    set (z := foldl _ [] (seqZ 0 (Z.of_nat t))) in *.
    split; [rewrite length_app; simpl; lia |].
    intros i Hi.
    assert (Hlow : forall k, (Z.of_nat t < k)%Z -> forall a,
              aget (z ++ [a]) k = 0).
    { intros k Hk a. unfold aget. rewrite decide_True by lia.
      rewrite lookup_ge_None_2; [reflexivity |].
      rewrite length_app. simpl. lia. }
    destruct (decide (i = Z.of_nat t)) as [-> | Hne].
    + (* the new row *)
      rewrite (rsum_seqZ_split _ n (Z.of_nat t)) by lia.
      replace (n - Z.of_nat t)%Z with ((n - Z.of_nat t - 1) + 1)%Z by lia.
      rewrite rsum_seqZ_cons by lia.
      rewrite (rsum_zero_ext _ (seqZ (Z.of_nat t + 1) _)).
      2:{ intros k Hk. apply elem_of_seqZ in Hk. unfold low.
          replace (k <=? Z.of_nat t)%Z with false by lia. lra. }
      rewrite aget_app_r by lia. rewrite IHlen, Z.sub_diag.
      unfold low at 2. rewrite Z.leb_refl.
      rewrite (rsum_ext _ (fun k => aget z k * aget (aget L (Z.of_nat t)) k)).
      2:{ intros k Hk. apply elem_of_seqZ in Hk. unfold low.
          replace (k <=? Z.of_nat t)%Z with true by lia.
          rewrite aget_app_l by lia. unfold aget2. lra. }
      rewrite <- IHlen at 1.
      rewrite <- dotl_rsum by (specialize (Hrows (Z.of_nat t)); lia).
      change (aget [?a] 0) with a.
      specialize (Hdiag (Z.of_nat t) ltac:(lia)). field. exact Hdiag.
    + rewrite <- (IHval i) by lia. apply rsum_ext. intros k Hk.
      apply elem_of_seqZ in Hk. unfold low.
      destruct (Z.leb_spec k i); [| lra].
      by rewrite aget_app_l by lia.
Qed.

Lemma aget_fmap_seqZ {A : Type} `{Blank A} (f : Z -> A) (a n k : Z) :
  (0 <= k < n)%Z -> aget (f <$> seqZ a n) k = f (a + k)%Z.
Proof.
  intros Hk. unfold aget. rewrite decide_True by lia.
  rewrite list_lookup_fmap, lookup_seqZ_lt by lia. simpl.
  do 2 f_equal. lia.
Qed.

(** The backward substitution, for the rows from [t] on. *)
Definition backward_subst (L : list (list R)) (z : list R) (n t : Z) : list R :=
  foldr (fun i y =>
           (aget z i
            - dotl ((fun k => aget2 L k i) <$> seqZ (i + 1) (n - i - 1)) y)
           / aget2 L i i :: y)
        [] (seqZ t (n - t)).

Lemma backward_subst_spec (L : list (list R)) (z : list R) (n : Z) (s : nat) :
  (forall i, (0 <= i < n)%Z -> aget2 L i i <> 0) ->
  (Z.of_nat s <= n)%Z ->
  let t := (n - Z.of_nat s)%Z in
  let y := backward_subst L z n t in
  length y = s
  /\ forall i, (t <= i < n)%Z ->
       rsum (fun k => low L k i * aget y (k - t)) (seqZ t (Z.of_nat s))
       = aget z i.
Proof.
  intros Hdiag. cbv zeta. induction s as [| s IH]; intros Hs.
  - unfold backward_subst. rewrite seqZ_nil by lia.
    split; [reflexivity | lia].
  - destruct IH as [IHlen IHval]; [lia |].
    set (t := (n - Z.of_nat (S s))%Z).
    replace (n - Z.of_nat s)%Z with (t + 1)%Z in * by lia.
    unfold backward_subst in *.
    replace (n - t)%Z with ((n - t - 1) + 1)%Z by lia.
    rewrite (seqZ_cons t) by lia.
    replace (Z.succ t) with (t + 1)%Z by lia.
    replace (Z.pred (n - t - 1 + 1)) with (n - (t + 1))%Z by lia.
    simpl foldr.
    set (y' := foldr _ [] (seqZ (t + 1) (n - (t + 1)))) in *.
    split; [simpl; lia |].
    intros i Hi.
    replace (Z.of_nat (S s)) with (Z.of_nat s + 1)%Z by lia.
    rewrite rsum_seqZ_cons by lia. rewrite Z.sub_diag.
    assert (Htail : forall h j,
              rsum (fun k => low L k j * aget (h :: y') (k - t))
                   (seqZ (t + 1) (Z.of_nat s))
              = rsum (fun k => low L k j * aget y' (k - (t + 1)))
                     (seqZ (t + 1) (Z.of_nat s))).
    { intros h j. apply rsum_ext. intros k Hk. apply elem_of_seqZ in Hk.
      replace (k - t)%Z with ((k - (t + 1)) + 1)%Z by lia.
      by rewrite aget_cons_succ by lia. }
    rewrite Htail. change (aget (?a :: y') 0) with a.
    destruct (decide (i = t)) as [-> | Hne].
    + unfold low at 1. rewrite Z.leb_refl.
      rewrite dotl_rsum by (rewrite length_fmap, length_seqZ; lia).
      rewrite length_fmap, length_seqZ.
      replace (Z.of_nat (Z.to_nat (n - t - 1))) with (Z.of_nat s) by lia.
      rewrite (rsum_ext (fun k => low L k t * _)
                 (fun k => (fun k' => aget2 L (k' + (t + 1)) t * aget y' k')
                             (k - (t + 1))%Z)).
      2:{ intros k Hk. apply elem_of_seqZ in Hk. unfold low.
          replace (t <=? k)%Z with true by lia. do 2 f_equal. lia. }
      rewrite <- (rsum_fmap (fun k => (k - (t + 1))%Z)
                    (fun k' => aget2 L (k' + (t + 1)) t * aget y' k')).
      replace ((fun k => (k - (t + 1))%Z) <$> seqZ (t + 1) (Z.of_nat s))
        with (seqZ 0 (Z.of_nat s)).
      2:{ assert (Hshift : seqZ (t + 1) (Z.of_nat s)
                           = Z.add (t + 1) <$> seqZ 0 (Z.of_nat s)).
          { rewrite fmap_add_seqZ. f_equal. lia. }
          rewrite Hshift, <- list_fmap_compose.
          rewrite <- (list_fmap_id (seqZ 0 (Z.of_nat s))) at 1.
          apply list_fmap_ext. intros _ k _. simpl. lia. }
      rewrite (rsum_ext (fun k => aget (_ <$> _) k * aget y' k)
                 (fun k' => aget2 L (k' + (t + 1)) t * aget y' k')).
      2:{ intros k Hk. apply elem_of_seqZ in Hk.
          rewrite aget_fmap_seqZ by lia. do 2 f_equal. lia. }
      specialize (Hdiag t ltac:(lia)). field. exact Hdiag.
    + unfold low at 1. replace (i <=? t)%Z with false by lia.
      rewrite IHval by lia. lra.
Qed.

Lemma tile_cholesky_solve_solves (L : list (list R)) (x : list R) (n : Z) :
  Z.of_nat (length x) = n ->
  (forall i, (0 <= i < n)%Z -> Z.of_nat (length (aget L i)) = n) ->
  (forall i, (0 <= i < n)%Z -> aget2 L i i <> 0) ->
  let y := tile_cholesky_solve L x in
  length y = length x
  /\ forall a, (0 <= a < n)%Z -> LLt L n y a = aget x a.
Proof.
  intros Hlen Hrows Hdiag. cbv zeta.
  assert (Hdef : tile_cholesky_solve L x
                 = backward_subst L (forward_subst L x (Z.of_nat (length x)))
                     (Z.of_nat (length x)) 0).
  { unfold tile_cholesky_solve, backward_subst, forward_subst.
    by rewrite Z.sub_0_r. }
  rewrite Hdef, Hlen.
  destruct (forward_subst_spec L x n (Z.to_nat n) Hrows Hdiag ltac:(lia))
    as [Hzlen Hz].
  destruct (backward_subst_spec L (forward_subst L x n) n (Z.to_nat n) Hdiag
              ltac:(lia)) as [Hylen Hy].
  rewrite Z2Nat.id in * by lia. rewrite Z.sub_diag in *.
  split; [lia |].
  intros a Ha. unfold LLt. rewrite <- (Hz a) by lia.
  apply rsum_ext. intros k Hk. apply elem_of_seqZ in Hk. f_equal.
  rewrite <- (Hy k) by lia. apply rsum_ext. intros b _.
  by rewrite Z.sub_0_r.
Qed.

(** *** The tiled Cholesky factorisation *)

(** The first [b] entries of row [i], and the first [t] rows. *)
Definition chol_prefix (A L : list (list R)) (i b : Z) : list R :=
  foldl (fun r j => r ++ [(aget2 A i j - dotl r (aget L j)) / aget2 L j j])
        [] (seqZ 0 b).

Definition chol_rows (A : list (list R)) (n t : Z) : list (list R) :=
  foldl (fun L i => L ++ [cholesky_row A L n i]) [] (seqZ 0 t).

Lemma seqZ_snoc (t : nat) :
  seqZ 0 (Z.of_nat (S t)) = seqZ 0 (Z.of_nat t) ++ [Z.of_nat t].
Proof. rewrite seqZ_S. by rewrite Z.add_0_l. Qed.

Lemma chol_prefix_spec (A L : list (list R)) (i : Z) (b : nat) :
  (forall j, (0 <= j < Z.of_nat b)%Z -> (j <= Z.of_nat (length (aget L j)))%Z) ->
  let r := chol_prefix A L i (Z.of_nat b) in
  length r = b
  /\ forall j, (0 <= j < Z.of_nat b)%Z ->
       aget r j
       = (aget2 A i j - rsum (fun k => aget r k * aget2 L j k) (seqZ 0 j))
         / aget2 L j j.
Proof.
  cbv zeta. induction b as [| b IH]; intros Hrows.
  - split; [reflexivity | lia].
  - destruct IH as [IHlen IHval]; [intros j Hj; apply Hrows; lia |].
    unfold chol_prefix in *. rewrite seqZ_snoc, foldl_app, foldl_one.
    set (r := foldl _ [] (seqZ 0 (Z.of_nat b))) in *.
    split; [rewrite length_app; simpl; lia |].
    intros j Hj.
    assert (Hpre : forall k, (k < Z.of_nat b)%Z -> forall a,
              aget (r ++ [a]) k = aget r k).
    { intros k Hk a. apply aget_app_l. lia. }
    rewrite (rsum_ext (fun k => aget (r ++ _) k * aget2 L j k)
               (fun k => aget r k * aget2 L j k)).
    2:{ intros k Hk. apply elem_of_seqZ in Hk. by rewrite Hpre by lia. }
    destruct (decide (j = Z.of_nat b)) as [-> | Hne].
    + rewrite aget_app_r by lia. rewrite IHlen, Z.sub_diag.
      change (aget [?a] 0) with a.
      rewrite dotl_rsum by (specialize (Hrows (Z.of_nat b)); lia).
      rewrite IHlen. reflexivity.
    + rewrite Hpre by lia. apply IHval. lia.
Qed.

Lemma length_cholesky_row (A L : list (list R)) (n : Z) (i : nat) :
  (forall j, (0 <= j < Z.of_nat i)%Z -> (j <= Z.of_nat (length (aget L j)))%Z) ->
  (Z.of_nat i < n)%Z ->
  Z.of_nat (length (cholesky_row A L n (Z.of_nat i))) = n.
Proof.
  intros Hrows Hi. unfold cholesky_row. cbv zeta.
  fold (chol_prefix A L (Z.of_nat i) (Z.of_nat i)).
  destruct (chol_prefix_spec A L (Z.of_nat i) i Hrows) as [Hlen _].
  rewrite !length_app, Hlen, length_replicate. simpl. lia.
Qed.

(** The entries of the factor, row by row: below the diagonal the
    quotient by the pivot of the column, on the diagonal the square root
    of what is left. *)
Lemma chol_rows_spec (A : list (list R)) (n : Z) (t : nat) :
  (Z.of_nat t <= n)%Z ->
  let L := chol_rows A n (Z.of_nat t) in
  length L = t
  /\ (forall i, (0 <= i < Z.of_nat t)%Z -> Z.of_nat (length (aget L i)) = n)
  /\ (forall i j, (0 <= j < i)%Z -> (i < Z.of_nat t)%Z ->
        aget2 L i j
        = (aget2 A i j - rsum (fun k => aget2 L i k * aget2 L j k) (seqZ 0 j))
          / aget2 L j j)
  /\ (forall i, (0 <= i < Z.of_nat t)%Z ->
        aget2 L i i
        = sqrt (aget2 A i i
                - rsum (fun k => aget2 L i k * aget2 L i k) (seqZ 0 i))).
Proof.
  cbv zeta. induction t as [| t IH]; intros Ht.
  - split; [reflexivity |]. repeat split; intros; lia.
  - destruct IH as (IHlen & IHrow & IHlow & IHdiag); [lia |].
    unfold chol_rows in *. rewrite seqZ_snoc, foldl_app, foldl_one.
    set (L := foldl _ [] (seqZ 0 (Z.of_nat t))) in *.
    set (row := cholesky_row A L n (Z.of_nat t)).
    assert (Hold : forall i, (i < Z.of_nat t)%Z -> aget (L ++ [row]) i = aget L i).
    { intros i Hi. apply aget_app_l. lia. }
    assert (Hnew : aget (L ++ [row]) (Z.of_nat t) = row).
    { rewrite aget_app_r by lia. by rewrite IHlen, Z.sub_diag. }
    assert (HrowsL : forall j, (0 <= j < Z.of_nat t)%Z ->
              (j <= Z.of_nat (length (aget L j)))%Z).
    { intros j Hj. rewrite IHrow by lia. lia. }
    destruct (chol_prefix_spec A L (Z.of_nat t) t HrowsL) as [Hrlen Hrval].
    set (r := chol_prefix A L (Z.of_nat t) (Z.of_nat t)) in *.
    assert (Hrow : row = r ++ [sqrt (aget2 A (Z.of_nat t) (Z.of_nat t) - dotl r r)]
                         ++ replicate (Z.to_nat (n - Z.of_nat t - 1)) 0)
      by reflexivity.
    assert (Hrow_low : forall j, (0 <= j < Z.of_nat t)%Z -> aget row j = aget r j).
    { intros j Hj. rewrite Hrow. apply aget_app_l. lia. }
    assert (Hrow_diag : aget row (Z.of_nat t)
                        = sqrt (aget2 A (Z.of_nat t) (Z.of_nat t) - dotl r r)).
    { rewrite Hrow, aget_app_r by lia. rewrite Hrlen, Z.sub_diag. reflexivity. }
    split; [rewrite length_app; simpl; lia |]. split; [| split].
    + intros i Hi. destruct (decide (i = Z.of_nat t)) as [-> | Hne].
      * rewrite Hnew. apply length_cholesky_row; [assumption | lia].
      * rewrite Hold by lia. apply IHrow. lia.
    + intros i j Hj Hi. unfold aget2.
      rewrite (Hold j) by lia.
      destruct (decide (i = Z.of_nat t)) as [-> | Hne].
      * rewrite Hnew, Hrow_low, Hrval by lia. do 2 f_equal.
        apply rsum_ext. intros k Hk. apply elem_of_seqZ in Hk.
        rewrite Hrow_low by lia. reflexivity.
      * rewrite (Hold i) by lia. apply IHlow; lia.
    + intros i Hi. unfold aget2.
      destruct (decide (i = Z.of_nat t)) as [-> | Hne].
      * rewrite Hnew, Hrow_diag. do 2 f_equal.
        rewrite dotl_rsum, Hrlen by lia.
        apply rsum_ext. intros k Hk. apply elem_of_seqZ in Hk.
        by rewrite Hrow_low by lia.
      * rewrite (Hold i) by lia. apply IHdiag. lia.
Qed.

(** *** The factor of a positive definite matrix *)

(** The equations of [chol_rows_spec], for matrices given as functions. *)
Definition chol_eqs (A L : Z -> Z -> R) (n : Z) : Prop :=
  (forall i j, (0 <= j < i)%Z -> (i < n)%Z ->
     L i j = (A i j - rsum (fun k => L i k * L j k) (seqZ 0 j)) / L j j)
  /\ (forall i, (0 <= i < n)%Z ->
       L i i = sqrt (A i i - rsum (fun k => L i k * L i k) (seqZ 0 i))).

(** What is left of [A] once the columns before [j] are eliminated. *)
Definition chol_rest (A L : Z -> Z -> R) (j : Z) (a b : Z) : R :=
  A a b - rsum (fun k => L a k * L b k) (seqZ 0 j).

Lemma chol_rest_sym (A L : Z -> Z -> R) (j : Z) (a b : Z) :
  A a b = A b a -> chol_rest A L j a b = chol_rest A L j b a.
Proof.
  intros Hab. unfold chol_rest. rewrite Hab. f_equal.
  apply rsum_ext. intros k _. ring.
Qed.

Lemma chol_rest_succ (A L : Z -> Z -> R) (j : Z) (a b : Z) :
  (0 <= j)%Z ->
  chol_rest A L (j + 1) a b = chol_rest A L j a b - L a j * L b j.
Proof. intros Hj. unfold chol_rest. rewrite rsum_seqZ_succ by lia. ring. Qed.

Lemma chol_pivot (A L : Z -> Z -> R) (n j : Z) :
  chol_eqs A L n -> (0 <= j < n)%Z -> 0 < chol_rest A L j j j ->
  0 < L j j /\ L j j * L j j = chol_rest A L j j j.
Proof.
  intros [_ Hdiag] Hj Hpos. rewrite (Hdiag j Hj). fold (chol_rest A L j j j).
  split; [by apply sqrt_lt_R0 | apply sqrt_sqrt; lra].
Qed.

Lemma chol_rest_schur (A L : Z -> Z -> R) (n j a b : Z) :
  chol_eqs A L n -> (0 <= j)%Z -> (j < a < n)%Z -> (j < b < n)%Z ->
  A j b = A b j ->
  0 < chol_rest A L j j j ->
  chol_rest A L (j + 1) a b = schur (chol_rest A L j) j a b.
Proof.
  intros Heqs Hj Ha Hb Hsym Hpos.
  destruct (chol_pivot A L n j Heqs ltac:(lia) Hpos) as [Hljj Hsq].
  destruct Heqs as [Hlow _].
  rewrite chol_rest_succ by lia. unfold schur.
  rewrite (chol_rest_sym A L j j b Hsym).
  assert (HLa : L a j * L j j = chol_rest A L j a j).
  { rewrite (Hlow a j) by lia. fold (chol_rest A L j a j). field. lra. }
  assert (HLb : L b j * L j j = chol_rest A L j b j).
  { rewrite (Hlow b j) by lia. fold (chol_rest A L j b j). field. lra. }
  rewrite <- HLa, <- HLb, <- Hsq. field. lra.
Qed.

Lemma chol_rest_pos_def (A L : Z -> Z -> R) (n : Z) (j : nat) :
  chol_eqs A L n ->
  sym_on A (seqZ 0 n) -> pos_def A (seqZ 0 n) ->
  (Z.of_nat j <= n)%Z ->
  pos_def (chol_rest A L (Z.of_nat j)) (seqZ (Z.of_nat j) (n - Z.of_nat j)).
Proof.
  intros Heqs Hsym Hpd. induction j as [| j IH]; intros Hj.
  - change (Z.of_nat 0) with 0%Z. rewrite Z.sub_0_r.
    apply (pos_def_ext A); [| assumption].
    intros a b _ _. unfold chol_rest. rewrite seqZ_nil, rsum_nil by lia. lra.
  - specialize (IH ltac:(lia)).
    replace (n - Z.of_nat j)%Z with ((n - Z.of_nat (S j)) + 1)%Z in IH by lia.
    rewrite seqZ_cons in IH by lia.
    replace (Z.succ (Z.of_nat j)) with (Z.of_nat (S j)) in IH by lia.
    replace (Z.pred (n - Z.of_nat (S j) + 1)) with (n - Z.of_nat (S j))%Z in IH
      by lia.
    set (S' := seqZ (Z.of_nat (S j)) (n - Z.of_nat (S j))) in *.
    assert (Hout : Z.of_nat j ∉ S').
    { unfold S'. intros Hin. apply elem_of_seqZ in Hin. lia. }
    assert (HS' : forall a, a ∈ S' -> (Z.of_nat j < a < n)%Z).
    { intros a Ha. unfold S' in Ha. apply elem_of_seqZ in Ha. lia. }
    assert (HA : forall a b, (0 <= a < n)%Z -> (0 <= b < n)%Z -> A a b = A b a).
    { intros a b Ha Hb. apply Hsym; apply elem_of_seqZ; lia. }
    destruct (schur_pos_def (chol_rest A L (Z.of_nat j)) (Z.of_nat j) S' Hout)
      as [_ Hpd'].
    + intros a b Ha Hb. apply chol_rest_sym, HA.
      * apply elem_of_cons in Ha as [-> | Ha]; [lia | apply HS' in Ha; lia].
      * apply elem_of_cons in Hb as [-> | Hb]; [lia | apply HS' in Hb; lia].
    + exact IH.
    + apply (pos_def_ext (schur (chol_rest A L (Z.of_nat j)) (Z.of_nat j)));
        [| exact Hpd'].
      intros a b Ha Hb. apply HS' in Ha, Hb. symmetry.
      replace (Z.of_nat (S j)) with (Z.of_nat j + 1)%Z by lia.
      apply (chol_rest_schur A L n); try assumption; try lia.
      * apply HA; lia.
      * apply (pos_def_diag _ _ S' Hout IH).
Qed.

(** The pivots of a symmetric positive definite matrix are positive. *)
Lemma chol_pivots_pos (A L : Z -> Z -> R) (n j : Z) :
  chol_eqs A L n ->
  sym_on A (seqZ 0 n) -> pos_def A (seqZ 0 n) ->
  (0 <= j < n)%Z ->
  0 < L j j /\ L j j * L j j = chol_rest A L j j j.
Proof.
  intros Heqs Hsym Hpd Hj.
  apply (chol_pivot A L n j Heqs Hj).
  pose proof (chol_rest_pos_def A L n (Z.to_nat j) Heqs Hsym Hpd ltac:(lia))
    as Hrest.
  rewrite Z2Nat.id in Hrest by lia.
  replace (n - j)%Z with ((n - j - 1) + 1)%Z in Hrest by lia.
  rewrite seqZ_cons in Hrest by lia.
  apply (pos_def_diag _ j (seqZ (Z.succ j) (Z.pred (n - j - 1 + 1))));
    [| exact Hrest].
  intros Hin. apply elem_of_seqZ in Hin. lia.
Qed.

(** [L L^T = A] on the lower triangle. *)
Lemma chol_product (A L : Z -> Z -> R) (n a b : Z) :
  chol_eqs A L n ->
  sym_on A (seqZ 0 n) -> pos_def A (seqZ 0 n) ->
  (0 <= b <= a)%Z -> (a < n)%Z ->
  rsum (fun k => L a k * L b k) (seqZ 0 (b + 1)) = A a b.
Proof.
  intros Heqs Hsym Hpd Hb Ha.
  destruct (chol_pivots_pos A L n b Heqs Hsym Hpd ltac:(lia)) as [Hpos Hsq].
  rewrite rsum_seqZ_succ by lia.
  destruct (decide (a = b)) as [-> | Hne].
  - rewrite Hsq. unfold chol_rest. lra.
  - destruct Heqs as [Hlow _]. rewrite (Hlow a b) by lia. field. lra.
Qed.

End dense_props.

(** ** smooth.py: solve_m *)

Module solve_m_props.
Import array_facts dof_tree linalg smooth solve_props dense_props.
Local Open Scope R_scope.

Lemma length_tile_load (n : Z) (a : list R) :
  length (tile_load n a) = Z.to_nat n.
Proof. unfold tile_load. by rewrite length_fmap, length_seqZ. Qed.

Lemma aget_tile_load (n : Z) (a : list R) (i : Z) :
  (0 <= i < n)%Z -> aget (tile_load n a) i = aget a i.
Proof. intros Hi. unfold tile_load. by rewrite aget_fmap_seqZ by lia. Qed.

Lemma tile_load_full (n : Z) (a : list R) :
  Z.of_nat (length a) = n -> tile_load n a = a.
Proof.
  intros Hlen. apply list_eq. intros i. unfold tile_load.
  rewrite list_lookup_fmap.
  destruct (decide (i < length a)%nat) as [Hi | Hi].
  - rewrite lookup_seqZ_lt by lia. simpl. unfold aget.
    rewrite decide_True by lia. rewrite Z.add_0_l, Nat2Z.id.
    destruct (lookup_lt_is_Some_2 a i Hi) as [v Hv]. by rewrite Hv.
  - rewrite lookup_seqZ_ge by lia. by rewrite lookup_ge_None_2 by lia.
Qed.

Lemma aget2_tile_load2 (n : Z) (a : list (list R)) (i k : Z) :
  (0 <= i < n)%Z -> (0 <= k < n)%Z ->
  aget2 (tile_load2 n a) i k = aget2 a i k.
Proof.
  intros Hi Hk. unfold aget2, tile_load2.
  rewrite aget_fmap_seqZ by lia. rewrite Z.add_0_l. by apply aget_tile_load.
Qed.

Lemma length_row_tile_load2 (n : Z) (a : list (list R)) (i : Z) :
  (0 <= i < n)%Z -> Z.of_nat (length (aget (tile_load2 n a) i)) = n.
Proof.
  intros Hi. unfold tile_load2. rewrite aget_fmap_seqZ by lia.
  rewrite length_tile_load. lia.
Qed.

Lemma tile_store_spec (a tile : list R) :
  length (tile_store a tile) = length a
  /\ forall i, in_range a i ->
       aget (tile_store a tile) i
       = if decide (i < Z.of_nat (length tile))%Z then aget tile i else aget a i.
Proof.
  unfold tile_store.
  fold (launch (Z.of_nat (length tile))
          (fun i a => aset a i ((fun i0 _ => aget tile i0) i (aget a i))) a).
  split.
  - apply (launch_invariant (fun b => length b = length a)); [reflexivity |].
    intros tid b _ Hb. by rewrite length_aset.
  - intros i Hi.
    exact (launch_pointwise (fun i0 _ => aget tile i0) _ a i Hi).
Qed.

Lemma tile_store2_spec (a tile : list (list R)) (i k : Z) :
  in_range a i -> (i < Z.of_nat (length tile))%Z ->
  in_range (aget a i) k -> (k < Z.of_nat (length (aget tile i)))%Z ->
  aget2 (tile_store2 a tile) i k = aget2 tile i k.
Proof.
  intros Hi Hit Hk Hkt. unfold aget2, tile_store2.
  etransitivity;
    [apply f_equal2; [| reflexivity];
     exact (launch_pointwise (fun i0 row => tile_store row (aget tile i0))
              _ a i Hi) |].
  rewrite decide_True by assumption.
  destruct (tile_store_spec (aget a i) (aget tile i)) as [_ Hval].
  rewrite Hval by assumption. by rewrite decide_True.
Qed.

(** What [solve_m_dense] leaves in [y] solves [(L L^T) y = x] for the
    lower triangle [L] of [qLD]. *)
Lemma solve_m_dense_solves (m : Model) (qLD : list (list R)) (x y : list R) :
  (0 <= nv m)%Z ->
  Z.of_nat (length x) = nv m -> Z.of_nat (length y) = nv m ->
  (forall k, (0 <= k < nv m)%Z -> aget2 qLD k k <> 0) ->
  length (solve_m_dense m qLD x y) = length y
  /\ forall a, (0 <= a < nv m)%Z ->
       LLt qLD (nv m) (solve_m_dense m qLD x y) a = aget x a.
Proof.
  intros Hnv Hx Hy Hdiag. unfold solve_m_dense. cbv zeta.
  rewrite (tile_load_full _ x) by assumption.
  set (L := tile_load2 (nv m) qLD).
  destruct (tile_cholesky_solve_solves L x (nv m) Hx) as [Hlen Hsol].
  { intros i Hi. by apply length_row_tile_load2. }
  { intros i Hi. unfold L. rewrite aget2_tile_load2 by lia. by apply Hdiag. }
  destruct (tile_store_spec y (tile_cholesky_solve L x)) as [Hslen Hsval].
  split; [assumption |].
  intros a Ha. rewrite <- (Hsol a Ha). unfold LLt.
  apply rsum_ext. intros k Hk. apply elem_of_seqZ in Hk.
  assert (Hlow : forall i j, (0 <= i < nv m)%Z -> (0 <= j < nv m)%Z ->
            low qLD i j = low L i j).
  { intros i j Hi Hj. unfold low, L. by rewrite aget2_tile_load2. }
  rewrite Hlow by lia. f_equal.
  apply rsum_ext. intros b Hb. apply elem_of_seqZ in Hb.
  rewrite Hlow by lia. f_equal.
  rewrite Hsval by (unfold in_range; lia).
  rewrite decide_True; [reflexivity | lia].
Qed.

(** C7: [solve_m] returns; it leaves the array [x] as it was and puts
    into the array [y] the solution of the factored system with the
    right-hand side [x]: [(L^T D L) y = x] on the sparse path, with the
    unit triangular [L] and the diagonal [D] packed in [qLD], and
    [(L L^T) y = x] on the dense path, with the lower triangle [L] of
    [qLD].  [x] and [y] are two arrays; no other array changes. *)
Theorem solve_m_overwrites_y_only (fuel : nat) (m : Model)
    (qLD : list (list R)) (qLDiagInv : list R) (x y : nat)
    (arrays : gmap nat (list R)) (xv yv : list R) :
  x <> y ->
  arrays !! x = Some xv -> arrays !! y = Some yv ->
  Z.of_nat (length xv) = nv m -> Z.of_nat (length yv) = nv m ->
  dof_chains m -> (Z.to_nat (nv m) <= fuel)%nat ->
  (if opt_is_sparse m
   then forall k, (0 <= k < nv m)%Z ->
          aget2 qLD 0 (aget (dof_Madr m) k) * aget qLDiagInv k = 1
   else forall k, (0 <= k < nv m)%Z -> aget2 qLD k k <> 0) ->
  exists arrays' ysol,
    solve_m fuel m qLD qLDiagInv x y arrays = Some arrays'
    /\ arrays' !! x = Some xv
    /\ arrays' !! y = Some ysol
    /\ (forall z, z <> y -> arrays' !! z = arrays !! z)
    /\ length ysol = length yv
    /\ forall a, (0 <= a < nv m)%Z ->
         (if opt_is_sparse m
          then LtDL m (aget qLD 0)
                 (fun k => aget2 qLD 0 (aget (dof_Madr m) k)) ysol a
          else LLt qLD (nv m) ysol a)
         = aget xv a.
Proof.
  intros Hxy Hx Hy Hxlen Hylen Hch Hfuel Hfac. unfold solve_m.
  rewrite Hx, Hy. destruct (opt_is_sparse m).
  - cbv zeta. rewrite lookup_insert_eq. simpl.
    destruct (solve_m_sparse_solves fuel m qLD qLDiagInv xv
                (fun k => aget2 qLD 0 (aget (dof_Madr m) k))
                Hch Hfuel ltac:(lia) Hxlen Hfac) as (ysol & -> & Hlen & Hsol).
    exists (<[y := ysol]> (<[y := xv]> arrays)), ysol.
    split; [reflexivity |].
    split; [by rewrite !lookup_insert_ne by done |].
    split; [by rewrite lookup_insert_eq |].
    split; [intros z Hz; by rewrite !lookup_insert_ne by done |].
    split; [lia | exact Hsol].
  - destruct (solve_m_dense_solves m qLD xv yv ltac:(lia) Hxlen Hylen Hfac)
      as [Hlen Hsol].
    exists (<[y := solve_m_dense m qLD xv yv]> arrays),
           (solve_m_dense m qLD xv yv).
    split; [reflexivity |].
    split; [by rewrite lookup_insert_ne by done |].
    split; [by rewrite lookup_insert_eq |].
    split; [intros z Hz; by rewrite lookup_insert_ne by done |].
    split; [exact Hlen | exact Hsol].
Qed.

Lemma tree_model_dof_chains : dof_chains fixtures.tree_model.
Proof.
  intros i Hi. simpl in Hi.
  assert (Hcases : (i = 0 \/ i = 1 \/ i = 2 \/ i = 3)%Z) by lia.
  destruct Hcases as [-> | [-> | [-> | ->]]]; arr_eval; lia.
Qed.

Lemma solve_m_overwrites_y_only_witness :
  exists arrays' ysol,
    solve_m 4 fixtures.tree_model fixtures.tree_qLD fixtures.tree_qLDiagInv
      0 1 fixtures.tree_arrays = Some arrays'
    /\ arrays' !! 0%nat = Some [1; 2; 3; 4]
    /\ arrays' !! 1%nat = Some ysol
    /\ (forall z, z <> 1%nat -> arrays' !! z = fixtures.tree_arrays !! z)
    /\ length ysol = 4%nat
    /\ forall a, (0 <= a < 4)%Z ->
         LtDL fixtures.tree_model (aget fixtures.tree_qLD 0)
           (fun k => aget2 fixtures.tree_qLD 0
                       (aget (dof_Madr fixtures.tree_model) k)) ysol a
         = aget [1; 2; 3; 4] a.
Proof.
  apply (solve_m_overwrites_y_only 4 fixtures.tree_model fixtures.tree_qLD
           fixtures.tree_qLDiagInv 0 1 fixtures.tree_arrays
           [1; 2; 3; 4] [0; 0; 0; 0]).
  - discriminate.
  - reflexivity.
  - reflexivity.
  - reflexivity.
  - reflexivity.
  - exact tree_model_dof_chains.
  - simpl. lia.
  - simpl. intros k Hk.
    assert (Hcases : (k = 0 \/ k = 1 \/ k = 2 \/ k = 3)%Z) by lia.
    destruct Hcases as [-> | [-> | [-> | ->]]]; arr_eval; lra.
Defined.

End solve_m_props.

(** ** The dense path: tiled Cholesky factorisation and solve *)

Module dense_path.
Import array_facts linalg smooth dense_props solve_m_props.
Local Open Scope R_scope.

(** [array] is an [n] by [n] array. *)
Definition square (n : Z) (array : list (list R)) : Prop :=
  Z.of_nat (length array) = n
  /\ forall i, (0 <= i < n)%Z -> Z.of_nat (length (aget array i)) = n.

Lemma length_tile_load2 (n : Z) (a : list (list R)) :
  length (tile_load2 n a) = Z.to_nat n.
Proof. unfold tile_load2. by rewrite length_fmap, length_seqZ. Qed.

Lemma tile_cholesky_rows (A : list (list R)) :
  tile_cholesky A = chol_rows A (Z.of_nat (length A)) (Z.of_nat (length A)).
Proof. reflexivity. Qed.

(** The product of the lower triangles of two rows of the factor. *)
Lemma low_product (A : Z -> Z -> R) (L : list (list R)) (n a b : Z) :
  chol_eqs A (aget2 L) n ->
  sym_on A (seqZ 0 n) -> pos_def A (seqZ 0 n) ->
  (0 <= a < n)%Z -> (0 <= b < n)%Z ->
  rsum (fun k => low L a k * low L b k) (seqZ 0 n) = A a b.
Proof.
  intros Heqs Hsym Hpd Ha Hb.
  assert (Hle : forall a b, (0 <= b <= a)%Z -> (a < n)%Z ->
            rsum (fun k => low L a k * low L b k) (seqZ 0 n) = A a b).
  { clear a b Ha Hb. intros a b Hb Ha.
    rewrite (rsum_seqZ_split _ n (b + 1)) by lia.
    rewrite (rsum_zero_ext _ (seqZ (b + 1) _)).
    2:{ intros k Hk. apply elem_of_seqZ in Hk. unfold low.
        replace (k <=? b)%Z with false by lia. ring. }
    rewrite <- (chol_product A (aget2 L) n a b) by (assumption || lia).
    rewrite Rplus_0_r. apply rsum_ext. intros k Hk.
    apply elem_of_seqZ in Hk. unfold low.
    replace (k <=? a)%Z with true by lia.
    replace (k <=? b)%Z with true by lia. reflexivity. }
  destruct (decide (b <= a)%Z) as [Hba | Hab].
  - apply Hle; lia.
  - rewrite (Hsym a b) by (apply elem_of_seqZ; lia).
    rewrite <- (Hle b a) by lia. apply rsum_ext. intros k _. ring.
Qed.

(** The dense path returns the solution of [M y = x] for a symmetric
    positive definite [M] held in the square array [qM]. *)
Lemma dense_path_solves (m : Model) (qM qLD : list (list R)) (x y : list R) :
  (0 <= nv m)%Z ->
  square (nv m) qLD ->
  Z.of_nat (length x) = nv m -> Z.of_nat (length y) = nv m ->
  sym_on (aget2 qM) (seqZ 0 (nv m)) -> pos_def (aget2 qM) (seqZ 0 (nv m)) ->
  let qLD' := _factor_m_dense m qM qLD in
  let y' := solve_m_dense m qLD' x y in
  length y' = length y
  /\ forall a, (0 <= a < nv m)%Z ->
       rsum (fun b => aget2 qM a b * aget y' b) (seqZ 0 (nv m)) = aget x a.
Proof.
  intros Hnv [HqLD HqLDrow] Hx Hy Hsym Hpd. cbv zeta.
  unfold _factor_m_dense. cbv zeta.
  set (n := nv m) in *.
  set (T := tile_load2 n qM).
  assert (HTlen : Z.of_nat (length T) = n).
  { unfold T. rewrite length_tile_load2. lia. }
  set (Lc := tile_cholesky T).
  destruct (chol_rows_spec T n (Z.to_nat n) ltac:(lia))
    as (HLlen & HLrow & HLlow & HLdiag).
  rewrite Z2Nat.id in * by lia.
  assert (HLc : Lc = chol_rows T n n).
  { unfold Lc. by rewrite tile_cholesky_rows, HTlen. }
  rewrite <- HLc in *.
  assert (HT : forall i k, (0 <= i < n)%Z -> (0 <= k < n)%Z ->
            aget2 T i k = aget2 qM i k).
  { intros i k Hi Hk. unfold T. by apply aget2_tile_load2. }
  assert (Heqs : chol_eqs (aget2 qM) (aget2 Lc) n).
  { split.
    - intros i j Hj Hi. rewrite HLlow, HT by lia. reflexivity.
    - intros i Hi. rewrite HLdiag, HT by lia. reflexivity. }
  set (qLD' := tile_store2 qLD Lc).
  assert (HqLD' : forall i k, (0 <= i < n)%Z -> (0 <= k < n)%Z ->
            aget2 qLD' i k = aget2 Lc i k).
  { intros i k Hi Hk. unfold qLD'. apply tile_store2_spec.
    - unfold in_range. lia.
    - lia.
    - unfold in_range. rewrite HqLDrow by lia. lia.
    - rewrite HLrow by lia. lia. }
  assert (Hlow : forall i k, (0 <= i < n)%Z -> (0 <= k < n)%Z ->
            low qLD' i k = low Lc i k).
  { intros i k Hi Hk. unfold low. by rewrite HqLD'. }
  destruct (solve_m_dense_solves m qLD' x y Hnv Hx Hy) as [Hlen Hsol].
  { intros k Hk. fold n in Hk. rewrite HqLD' by lia.
    destruct (chol_pivots_pos (aget2 qM) (aget2 Lc) n k Heqs Hsym Hpd Hk). lra. }
  split; [exact Hlen |].
  intros a Ha. rewrite <- (Hsol a Ha). unfold LLt. fold n.
  set (y' := solve_m_dense m qLD' x y).
  rewrite (rsum_ext (fun k => low qLD' a k * _)
             (fun k => rsum (fun b => low Lc a k * low Lc b k * aget y' b)
                            (seqZ 0 n))).
  2:{ intros k Hk. apply elem_of_seqZ in Hk. rewrite Hlow by lia.
      rewrite <- rsum_scal_l. apply rsum_ext. intros b Hb.
      apply elem_of_seqZ in Hb. rewrite Hlow by lia. ring. }
  rewrite rsum_swap. apply rsum_ext. intros b Hb. apply elem_of_seqZ in Hb.
  rewrite rsum_scal_r. f_equal. symmetry.
  apply (low_product (aget2 qM) Lc n); (assumption || lia).
Qed.

End dense_path.

(** ** smooth.py: the sparse factorisation

    [_factor_m_sparse] works on the packed lower triangle of the mass
    matrix: row [i] holds the entries [(i, j)] for [j] equal to [i] and to
    the ancestors of [i], from the address [dof_Madr[i]] on. *)

Module sparse_factor.
Import array_facts dof_tree linalg smooth solve_props.
Local Open Scope R_scope.

(** The entry [(i, j)] of the packed lower triangle [q]. *)
Definition sp (m : Model) (q : list R) (i j : Z) : R := coef q (row m i) j.

(** The symmetric matrix that the packed array [q] stands for. *)
Definition Mfull (m : Model) (q : list R) (a b : Z) : R :=
  if (b <=? a)%Z then sp m q a b else sp m q b a.

(** [a] is the DOF [k] or one of its ancestors. *)
Definition anc (m : Model) (a k : Z) : bool :=
  bool_decide (a ∈ (row m k).*2).

(** The layout of the packed array: the rows follow each other and lie
    inside the [nM] addresses. *)
Record wf_Madr (m : Model) : Prop := {
  Madr_nonneg : forall i, (0 <= i < nv m)%Z -> (0 <= aget (dof_Madr m) i)%Z;
  Madr_next : forall i, (0 <= i)%Z -> (i + 1 < nv m)%Z ->
    aget (dof_Madr m) (i + 1)
    = (aget (dof_Madr m) i + Z.of_nat (length (row m i)))%Z;
  Madr_bound : forall i, (0 <= i < nv m)%Z ->
    (aget (dof_Madr m) i + Z.of_nat (length (row m i)) <= nM m)%Z
}.

(** An update [(i, k, Madr_ki)] of [qLD_updates]: row [k] is subtracted
    from the row of its ancestor [i]. *)
Definition target (u : Z * Z * Z) : Z := u.1.1.
Definition pivot (u : Z * Z * Z) : Z := u.1.2.

(** The updates a factorisation needs: one for every entry below the
    diagonal. *)
Definition expected_updates (m : Model) : list (Z * Z * Z) :=
  k ← seqZ 0 (nv m); (fun ca : Z * Z => (ca.2, k, ca.1)) <$> chain m k.

(** The updates of the levels, as the launches read them. *)
Definition update_levels (m : Model) : list (list (Z * Z * Z)) :=
  (fun l : Z * Z =>
     (fun node => aget (qLD_updates m) (l.1 + node)%Z) <$> seqZ 0 l.2)
    <$> zip (qLD_leveladr m) (qLD_levelsize m).

(** The schedule of the updates: every expected update once, and an update
    whose target is a proper ancestor of the target of another one lies in
    a level of smaller index. *)
Record wf_schedule (m : Model) : Prop := {
  sched_lengths : length (qLD_leveladr m) = length (qLD_levelsize m);
  sched_NoDup : NoDup (mjoin (update_levels m));
  sched_elems : forall u,
    u ∈ mjoin (update_levels m) <-> u ∈ expected_updates m;
  sched_levels : forall (a b : nat) us vs u v,
    update_levels m !! a = Some us -> update_levels m !! b = Some vs ->
    u ∈ us -> v ∈ vs ->
    anc m (target v) (target u) = true -> target v <> target u ->
    (b < a)%nat
}.

(** The order in which the threads run. *)
Record update_order (m : Model) (order : list (Z * Z * Z)) : Prop := {
  ord_NoDup : NoDup order;
  ord_elems : forall u, u ∈ order <-> u ∈ expected_updates m;
  ord_anc : forall (s t : nat) u v,
    order !! s = Some u -> order !! t = Some v ->
    anc m (target v) (target u) = true -> target v <> target u ->
    (s < t)%nat
}.

(** One thread of [qLD_acc] on the row [qLD[worldid, 0]]. *)
Definition acc_update (m : Model) (q : list R) (u : Z * Z * Z) : list R :=
  let i := u.1.1 in
  let k := u.1.2 in
  let Madr_ki := u.2 in
  let Madr_i := aget (dof_Madr m) i in
  let tmp := aget q Madr_ki / aget q (aget (dof_Madr m) k) in
  let q :=
    foldl (fun q j =>
             aset q (Madr_i + j)
                  (aget q (Madr_i + j) - aget q (Madr_ki + j) * tmp))
          q (seqZ 0 (aget (dof_Madr m) (i + 1) - Madr_i)) in
  aset q Madr_ki tmp.

(** The rows of the factor before their division by the pivot: row [k]
    of the matrix less the contributions of the rows below it. *)
Fixpoint Uh_fuel (fuel : nat) (m : Model) (q : list R) (k a : Z) : R :=
  match fuel with
  | O => 0
  | S fuel =>
      if anc m a k then
        sp m q k a
        - rsum (fun k' => Uh_fuel fuel m q k' k * Uh_fuel fuel m q k' a
                          / Uh_fuel fuel m q k' k')
               (seqZ (k + 1) (nv m - k - 1))
      else 0
  end.

Definition Uh (m : Model) (q : list R) (k a : Z) : R :=
  Uh_fuel (Z.to_nat (nv m - k)) m q k a.

(** *** The tree of the DOFs and the addresses *)

Lemma anc_true (m : Model) (a k : Z) :
  anc m a k = true <-> exists c, (c, a) ∈ row m k.
Proof.
  unfold anc. rewrite bool_decide_eq_true, list_elem_of_fmap. split.
  - intros ([c a'] & -> & Hin). by exists c.
  - intros (c & Hin). by exists (c, a).
Qed.

Lemma anc_le (m : Model) (a k : Z) :
  dof_chains m -> (k < nv m)%Z -> anc m a k = true -> (0 <= a <= k)%Z.
Proof.
  intros Hch Hk Ha. apply anc_true in Ha as (c & Hin).
  apply walk_columns in Hin; [lia | assumption | assumption].
Qed.

Lemma anc_refl (m : Model) (k : Z) :
  dof_chains m -> (0 <= k < nv m)%Z -> anc m k k = true.
Proof.
  intros Hch Hk. apply anc_true. exists (aget (dof_Madr m) k).
  rewrite row_unfold by assumption. left.
Qed.

Lemma row_chain (m : Model) (i c j : Z) :
  dof_chains m -> (0 <= i < nv m)%Z ->
  (c, j) ∈ row m i <->
  (c = aget (dof_Madr m) i /\ j = i) \/ (c, j) ∈ chain m i.
Proof.
  intros Hch Hi. rewrite row_unfold by assumption.
  rewrite elem_of_cons. split; intros [H | H]; try (by right).
  - injection H as -> ->. by left.
  - destruct H as [-> ->]. by left.
Qed.

(** Two ancestors of one DOF: the smaller one is an ancestor of the
    other one. *)
Lemma anc_chain (m : Model) (a k k' : Z) :
  dof_chains m -> (k' < nv m)%Z ->
  anc m a k' = true -> anc m k k' = true -> (a <= k)%Z ->
  anc m a k = true.
Proof.
  intros Hch Hk' Ha Hk Hle.
  apply anc_true in Ha as (ca & Ha). apply anc_true in Hk as (ck & Hk).
  destruct (walk_suffix m k' Hch Hk' _ _ _ Hk) as (pre & Hpre & Hlt).
  unfold row in Ha. rewrite Hpre in Ha.
  apply elem_of_app in Ha as [Ha | Ha].
  - apply Hlt in Ha. lia.
  - apply anc_true.
    assert (Hkn : (k < nv m)%Z).
    { apply walk_columns in Hk; [lia | assumption | assumption]. }
    unfold row. rewrite (walk_shift m k Hch Hkn ck (aget (dof_Madr m) k)).
    exists (ca + (aget (dof_Madr m) k - ck))%Z.
    apply list_elem_of_fmap. by exists (ca, a).
Qed.

(** The entry of row [k] in the column [j] of an ancestor [i] lies as far
    behind the entry in column [i] as the entry [(i, j)] lies behind the
    start of row [i]. *)
Lemma row_shift (m : Model) (i k Madr_ki c j : Z) :
  dof_chains m -> (k < nv m)%Z ->
  (Madr_ki, i) ∈ row m k -> (c, j) ∈ row m i ->
  (c + (Madr_ki - aget (dof_Madr m) i), j)%Z ∈ row m k.
Proof.
  intros Hch Hk Hki Hij.
  destruct (walk_suffix m k Hch Hk _ _ _ Hki) as (pre & Hpre & _).
  assert (Hin : (i < nv m)%Z).
  { apply walk_columns in Hki; [lia | assumption | assumption]. }
  unfold row. rewrite Hpre. apply elem_of_app. right.
  rewrite (walk_shift m i Hch Hin (aget (dof_Madr m) i) Madr_ki).
  apply list_elem_of_fmap. by exists (c, j).
Qed.

Lemma row_length_pos (m : Model) (i : Z) :
  dof_chains m -> (0 <= i < nv m)%Z -> (0 < Z.of_nat (length (row m i)))%Z.
Proof.
  intros Hch Hi. rewrite row_unfold by assumption. simpl. lia.
Qed.

Lemma Madr_mono (m : Model) (i i' : Z) :
  dof_chains m -> wf_Madr m -> (0 <= i < i')%Z -> (i' < nv m)%Z ->
  (aget (dof_Madr m) i + Z.of_nat (length (row m i)) <= aget (dof_Madr m) i')%Z.
Proof.
  intros Hch Hwf Hi Hi'.
  assert (H : forall d : nat, (i + 1 + Z.of_nat d < nv m)%Z ->
            (aget (dof_Madr m) i + Z.of_nat (length (row m i))
             <= aget (dof_Madr m) (i + 1 + Z.of_nat d))%Z).
  { induction d as [| d IH]; intros Hd.
    - rewrite Z.add_0_r. rewrite (Madr_next m Hwf) by lia. lia.
    - replace (i + 1 + Z.of_nat (S d))%Z with (i + 1 + Z.of_nat d + 1)%Z by lia.
      rewrite (Madr_next m Hwf) by lia.
      specialize (IH ltac:(lia)). lia. }
  replace i' with (i + 1 + Z.of_nat (Z.to_nat (i' - i - 1)))%Z by lia.
  apply H. lia.
Qed.

Lemma row_addresses (m : Model) (i c j : Z) :
  dof_chains m -> (i < nv m)%Z -> (c, j) ∈ row m i ->
  (aget (dof_Madr m) i <= c
   < aget (dof_Madr m) i + Z.of_nat (length (row m i)))%Z.
Proof. intros Hch Hi Hin. by apply (walk_addresses m i Hch Hi _ c j). Qed.

Lemma row_address_elem (m : Model) (i c : Z) :
  dof_chains m -> (i < nv m)%Z ->
  (aget (dof_Madr m) i <= c
   < aget (dof_Madr m) i + Z.of_nat (length (row m i)))%Z ->
  exists j, (c, j) ∈ row m i.
Proof.
  intros Hch Hi Hc.
  assert (Hin : c ∈ (row m i).*1).
  { unfold row at 1. rewrite walk_fst by assumption.
    apply elem_of_seqZ. unfold row in Hc. lia. }
  apply list_elem_of_fmap in Hin as ([c' j] & -> & Hin). by exists j.
Qed.

(** An address belongs to one entry. *)
Lemma address_inj (m : Model) (i i' c j j' : Z) :
  dof_chains m -> wf_Madr m -> (i < nv m)%Z -> (i' < nv m)%Z ->
  (c, j) ∈ row m i -> (c, j') ∈ row m i' -> i = i' /\ j = j'.
Proof.
  intros Hch Hwf Hi Hi' Hin Hin'.
  pose proof (row_addresses m i c j Hch Hi Hin) as Hc.
  pose proof (row_addresses m i' c j' Hch Hi' Hin') as Hc'.
  assert (H0 : (0 <= i)%Z).
  { apply walk_columns in Hin; [lia | assumption | assumption]. }
  assert (H0' : (0 <= i')%Z).
  { apply walk_columns in Hin'; [lia | assumption | assumption]. }
  assert (Heq : i = i').
  { destruct (Z.lt_trichotomy i i') as [Hlt | [Heq | Hgt]]; [| assumption |].
    - pose proof (Madr_mono m i i' Hch Hwf ltac:(lia) Hi'). lia.
    - pose proof (Madr_mono m i' i Hch Hwf ltac:(lia) Hi). lia. }
  subst i'. split; [reflexivity |].
  by apply (walk_functional m i Hch Hi (aget (dof_Madr m) i) c j c j' Hin Hin').
Qed.

Lemma row_in_range (m : Model) (q : list R) (i c j : Z) :
  dof_chains m -> wf_Madr m -> Z.of_nat (length q) = nM m ->
  (0 <= i < nv m)%Z -> (c, j) ∈ row m i -> in_range q c.
Proof.
  intros Hch Hwf Hlen Hi Hin.
  pose proof (row_addresses m i c j Hch ltac:(lia) Hin).
  pose proof (Madr_nonneg m Hwf i Hi). pose proof (Madr_bound m Hwf i Hi).
  unfold in_range. lia.
Qed.

(** A sum over the entries of a row that picks one column. *)
Lemma rsum_column (m : Model) (f : Z -> R) (i adr c j : Z) :
  dof_chains m -> (i < nv m)%Z -> (c, j) ∈ walk m adr i ->
  rsum (fun ca : Z * Z => if (ca.2 =? j)%Z then f ca.1 else 0) (walk m adr i)
  = f c.
Proof.
  intros Hch Hi Hin.
  pose proof (walk_NoDup m i Hch Hi adr) as Hnd.
  assert (H : forall l : list (Z * Z), NoDup l -> (c, j) ∈ l ->
            (forall c' j', (c', j') ∈ l -> j' = j -> c' = c) ->
            rsum (fun ca : Z * Z => if (ca.2 =? j)%Z then f ca.1 else 0) l
            = f c).
  { clear. induction l as [| [c' j'] l IH]; intros Hnd Hin Hfun;
      [by apply elem_of_nil in Hin |].
    apply NoDup_cons in Hnd as [Hn Hnd]. rewrite rsum_cons. simpl.
    apply elem_of_cons in Hin as [Heq | Hin].
    - injection Heq as <- <-. rewrite Z.eqb_refl.
      rewrite rsum_zero_ext; [lra |].
      intros [c' j'] Hin'. simpl. destruct (Z.eqb_spec j' j) as [-> | ?];
        [| reflexivity].
      rewrite (Hfun c' j) in Hin' by (by right || reflexivity).
      contradiction.
    - destruct (Z.eqb_spec j' j) as [-> | ?].
      + rewrite (Hfun c' j) in Hn by (by left || reflexivity). contradiction.
      + rewrite IH; [lra | assumption | assumption |].
        intros c'' j'' Hin'' Hj. apply (Hfun c'' j''); [by right | assumption]. }
  apply H; [assumption | assumption |].
  intros c' j' Hin' ->. symmetry.
  by apply (walk_functional m i Hch Hi adr c j c' j Hin Hin').
Qed.

(** The packed entry of a column of the row. *)
Lemma sp_entry (m : Model) (q : list R) (i c j : Z) :
  dof_chains m -> (i < nv m)%Z -> (c, j) ∈ row m i -> sp m q i j = aget q c.
Proof.
  intros Hch Hi Hin. unfold sp, coef, row.
  by apply (rsum_column m (aget q) i _ c j).
Qed.

Lemma sp_zero (m : Model) (q : list R) (i j : Z) :
  anc m j i = false -> sp m q i j = 0.
Proof.
  intros Hanc. unfold sp, coef. apply rsum_zero_ext. intros [c a] Hin. simpl.
  destruct (Z.eqb_spec a j) as [-> | ?]; [| reflexivity].
  assert (anc m j i = true) by (apply anc_true; by exists c). congruence.
Qed.

Lemma Mfull_sym (m : Model) (q : list R) (a b : Z) :
  Mfull m q a b = Mfull m q b a.
Proof.
  unfold Mfull. destruct (Z.leb_spec b a), (Z.leb_spec a b);
    try reflexivity; try lia.
  by replace b with a by lia.
Qed.

(** *** The reference factor *)

Lemma Uh_fuel_enough (m : Model) (q : list R) (fuel fuel' : nat) :
  forall k a, (0 <= k < nv m)%Z ->
    (Z.to_nat (nv m - k) <= fuel)%nat -> (Z.to_nat (nv m - k) <= fuel')%nat ->
    Uh_fuel fuel m q k a = Uh_fuel fuel' m q k a.
Proof.
  revert fuel'. induction fuel as [| fuel IH]; intros fuel' k a Hk Hf Hf';
    [lia |].
  destruct fuel' as [| fuel']; [lia |]. simpl.
  destruct (anc m a k); [| reflexivity]. f_equal.
  apply rsum_ext. intros k' Hk'. apply elem_of_seqZ in Hk'.
  by rewrite !(IH fuel') by lia.
Qed.

Lemma Uh_unfold (m : Model) (q : list R) (k a : Z) :
  (0 <= k < nv m)%Z ->
  Uh m q k a
  = if anc m a k then
      sp m q k a
      - rsum (fun k' => Uh m q k' k * Uh m q k' a / Uh m q k' k')
             (seqZ (k + 1) (nv m - k - 1))
    else 0.
Proof.
  intros Hk. unfold Uh at 1.
  replace (Z.to_nat (nv m - k)) with (S (Z.to_nat (nv m - k - 1))) by lia.
  simpl. destruct (anc m a k); [| reflexivity]. f_equal.
  apply rsum_ext. intros k' Hk'. apply elem_of_seqZ in Hk'. unfold Uh.
  by rewrite !(Uh_fuel_enough m q (Z.to_nat (nv m - k - 1))
                 (Z.to_nat (nv m - k'))) by lia.
Qed.

Lemma Uh_zero (m : Model) (q : list R) (k a : Z) :
  (0 <= k < nv m)%Z -> anc m a k = false -> Uh m q k a = 0.
Proof. intros Hk Ha. rewrite Uh_unfold by assumption. by rewrite Ha. Qed.

(** What is left of the matrix once the rows from [t] on are eliminated. *)
Definition T (m : Model) (q : list R) (t : Z) (a b : Z) : R :=
  Mfull m q a b
  - rsum (fun k => Uh m q k a * Uh m q k b / Uh m q k k) (seqZ t (nv m - t)).

Lemma T_sym (m : Model) (q : list R) (t a b : Z) : T m q t a b = T m q t b a.
Proof.
  unfold T. rewrite Mfull_sym. f_equal. apply rsum_ext. intros k _.
  unfold Rdiv. ring.
Qed.

(** Row [k] of the factor is row [k] of what the rows below it leave. *)
Lemma T_row (m : Model) (q : list R) (k a : Z) :
  dof_chains m -> (0 <= a <= k)%Z -> (k < nv m)%Z ->
  T m q (k + 1) k a = Uh m q k a.
Proof.
  intros Hch Ha Hk. unfold T, Mfull.
  replace (a <=? k)%Z with true by lia.
  replace (nv m - (k + 1))%Z with (nv m - k - 1)%Z by lia.
  rewrite (Uh_unfold m q k a) by lia.
  destruct (anc m a k) eqn:Hanc; [reflexivity |].
  rewrite sp_zero by assumption.
  rewrite rsum_zero_ext; [lra |].
  intros k' Hk'. apply elem_of_seqZ in Hk'.
  destruct (anc m k k') eqn:Hkk'.
  - destruct (anc m a k') eqn:Hak'.
    + rewrite (anc_chain m a k k') in Hanc by (assumption || lia).
      discriminate.
    + rewrite (Uh_zero m q k' a) by (assumption || lia). unfold Rdiv. ring.
  - rewrite (Uh_zero m q k' k) by (assumption || lia). unfold Rdiv. ring.
Qed.

(** Eliminating one more row is one step of elimination. *)
Lemma T_schur (m : Model) (q : list R) (k a b : Z) :
  dof_chains m -> (0 <= a <= k)%Z -> (0 <= b <= k)%Z -> (k < nv m)%Z ->
  T m q k a b = schur (T m q (k + 1)) k a b.
Proof.
  intros Hch Ha Hb Hk. unfold schur.
  rewrite (T_sym m q (k + 1) a k).
  rewrite !T_row by (assumption || lia).
  unfold T. rewrite (seqZ_cons k) by lia. rewrite rsum_cons.
  replace (Z.succ k) with (k + 1)%Z by lia.
  replace (Z.pred (nv m - k)) with (nv m - (k + 1))%Z by lia.
  lra.
Qed.

Lemma T_pos_def (m : Model) (q : list R) :
  dof_chains m -> pos_def (Mfull m q) (seqZ 0 (nv m)) ->
  forall d : nat, (Z.of_nat d <= nv m)%Z ->
    pos_def (T m q (nv m - Z.of_nat d)) (seqZ 0 (nv m - Z.of_nat d)).
Proof.
  intros Hch Hpd. induction d as [| d IH]; intros Hd.
  - rewrite Z.sub_0_r. apply (pos_def_ext (Mfull m q)); [| assumption].
    intros i j _ _. unfold T. rewrite Z.sub_diag.
    rewrite (seqZ_nil (nv m) 0) by lia. rewrite rsum_nil. lra.
  - specialize (IH ltac:(lia)).
    set (t := (nv m - Z.of_nat (S d))%Z).
    replace (nv m - Z.of_nat d)%Z with (t + 1)%Z in IH by lia.
    assert (Hout : t ∉ seqZ 0 t) by (rewrite elem_of_seqZ; lia).
    assert (Hperm : seqZ 0 (t + 1) ≡ₚ t :: seqZ 0 t).
    { rewrite (seqZ_app 0 t 1) by lia.
      rewrite (seqZ_cons _ 1), (seqZ_nil _ (Z.pred 1)) by lia.
      rewrite Z.add_0_l. by rewrite Permutation_app_comm. }
    apply (pos_def_perm _ _ _ Hperm) in IH.
    destruct (schur_pos_def (T m q (t + 1)) t (seqZ 0 t) Hout) as [_ Hs];
      [| assumption |].
    { intros i j _ _. apply T_sym. }
    apply (pos_def_ext (schur (T m q (t + 1)) t)); [| assumption].
    intros i j Hi Hj. apply elem_of_seqZ in Hi, Hj.
    symmetry. apply T_schur; (assumption || lia).
Qed.

(** The pivots of a positive definite matrix are positive. *)
Lemma Uh_pivot_pos (m : Model) (q : list R) (k : Z) :
  dof_chains m -> pos_def (Mfull m q) (seqZ 0 (nv m)) ->
  (0 <= k < nv m)%Z -> 0 < Uh m q k k.
Proof.
  intros Hch Hpd Hk.
  pose proof (T_pos_def m q Hch Hpd (Z.to_nat (nv m - (k + 1))) ltac:(lia))
    as Ht.
  replace (nv m - Z.of_nat (Z.to_nat (nv m - (k + 1))))%Z with (k + 1)%Z
    in Ht by lia.
  assert (Hout : k ∉ seqZ 0 k) by (rewrite elem_of_seqZ; lia).
  assert (Hperm : seqZ 0 (k + 1) ≡ₚ k :: seqZ 0 k).
  { rewrite (seqZ_app 0 k 1) by lia.
    rewrite (seqZ_cons _ 1), (seqZ_nil _ (Z.pred 1)) by lia.
    rewrite Z.add_0_l. by rewrite Permutation_app_comm. }
  apply (pos_def_perm _ _ _ Hperm) in Ht.
  rewrite <- (T_row m q k k) by (assumption || lia).
  by apply (pos_def_diag _ k (seqZ 0 k)).
Qed.

(** The rows of the factor give the matrix back. *)
Lemma Uh_product (m : Model) (q : list R) (a b : Z) :
  dof_chains m -> (forall k, (0 <= k < nv m)%Z -> Uh m q k k <> 0) ->
  (0 <= a < nv m)%Z -> (0 <= b < nv m)%Z ->
  rsum (fun k => Uh m q k a * Uh m q k b / Uh m q k k) (seqZ 0 (nv m))
  = Mfull m q a b.
Proof.
  intros Hch Hpiv Ha Hb.
  assert (Hle : forall a b, (0 <= b <= a)%Z -> (a < nv m)%Z ->
            rsum (fun k => Uh m q k a * Uh m q k b / Uh m q k k)
                 (seqZ 0 (nv m))
            = Mfull m q a b).
  { clear a b Ha Hb. intros a b Hb Ha.
    rewrite (rsum_seqZ_split _ (nv m) a) by lia.
    rewrite rsum_zero_ext.
    2:{ intros k Hk. apply elem_of_seqZ in Hk.
        rewrite (Uh_zero m q k a); [unfold Rdiv; ring | lia |].
        destruct (anc m a k) eqn:Hanc; [| reflexivity].
        apply anc_le in Hanc; [lia | assumption | lia]. }
    rewrite (seqZ_cons a) by lia. rewrite rsum_cons.
    replace (Z.succ a) with (a + 1)%Z by lia.
    replace (Z.pred (nv m - a)) with (nv m - (a + 1))%Z by lia.
    pose proof (T_row m q a b Hch Hb Ha) as Hrow. unfold T in Hrow.
    specialize (Hpiv a ltac:(lia)).
    replace (Uh m q a a * Uh m q a b / Uh m q a a) with (Uh m q a b)
      by (field; assumption).
    lra. }
  destruct (Z.le_gt_cases b a).
  - apply Hle; lia.
  - rewrite Mfull_sym, <- (Hle b a) by lia.
    apply rsum_ext. intros k _. unfold Rdiv. ring.
Qed.

(** *** The threads of [qLD_acc] *)

(** The loop of a thread: the entries from [base] on are lowered by the
    entries from [src] on, which lie behind them. *)
Lemma acc_loop_effect (q : list R) (base src : Z) (tmp : R) (n : nat) :
  (0 <= base)%Z -> (base + Z.of_nat n <= Z.of_nat (length q))%Z ->
  (base + Z.of_nat n <= src)%Z ->
  let q' :=
    foldl (fun q j =>
             aset q (base + j) (aget q (base + j) - aget q (src + j) * tmp))
          q (seqZ 0 (Z.of_nat n)) in
  length q' = length q
  /\ forall c,
       aget q' c
       = if decide (base <= c < base + Z.of_nat n)%Z
         then aget q c - aget q (c + (src - base)) * tmp
         else aget q c.
Proof.
  intros Hbase. induction n as [| n IH]; intros Hlen Hsrc.
  - simpl. split; [reflexivity |]. intros c.
    by rewrite decide_False by lia.
  - destruct (IH ltac:(lia) ltac:(lia)) as [IHlen IHc]. clear IH.
    replace (Z.of_nat (S n)) with (Z.of_nat n + 1)%Z by lia.
    rewrite (seqZ_app 0 (Z.of_nat n) 1) by lia.
    cbv zeta. rewrite foldl_app.
    rewrite (seqZ_cons _ 1), (seqZ_nil _ (Z.pred 1)) by lia.
    rewrite Z.add_0_l. cbn [foldl].
    set (q1 := foldl _ q (seqZ 0 (Z.of_nat n))) in *.
    split; [by rewrite length_aset |].
    intros c. destruct (decide (c = base + Z.of_nat n)%Z) as [-> | Hne].
    + rewrite aget_aset_eq by (unfold in_range; lia).
      rewrite !IHc. rewrite !decide_False by lia.
      rewrite decide_True by lia. do 3 f_equal. lia.
    + rewrite aget_aset_ne by lia. rewrite IHc.
      destruct (decide (base <= c < base + Z.of_nat n)%Z).
      * by rewrite decide_True by lia.
      * by rewrite decide_False by lia.
Qed.

(** The entries that the updates [done] have divided by their pivot. *)
Definition scaled (done : list (Z * Z * Z)) (j i : Z) : bool :=
  existsb (fun u => (target u =? j)%Z && (pivot u =? i)%Z) done.

(** What the updates [done] have taken from the entry [(i, j)]. *)
Definition sub (m : Model) (q0 : list R) (done : list (Z * Z * Z))
    (i j : Z) : R :=
  rsum (fun u =>
          if (target u =? i)%Z
          then Uh m q0 (pivot u) i * Uh m q0 (pivot u) j
               / Uh m q0 (pivot u) (pivot u)
          else 0) done.

(** The packed array after the updates [done]. *)
Definition factor_inv (m : Model) (q0 : list R) (done : list (Z * Z * Z))
    (q : list R) : Prop :=
  length q = length q0
  /\ forall i c j, (0 <= i < nv m)%Z -> (c, j) ∈ row m i ->
       aget q c = if scaled done j i then Uh m q0 i j / Uh m q0 i i
                  else aget q0 c - sub m q0 done i j.

Lemma scaled_snoc (done : list (Z * Z * Z)) (u : Z * Z * Z) (j i : Z) :
  scaled (done ++ [u]) j i
  = scaled done j i || ((target u =? j)%Z && (pivot u =? i)%Z).
Proof. unfold scaled. rewrite existsb_app. simpl. by rewrite orb_false_r. Qed.

Lemma scaled_true (done : list (Z * Z * Z)) (j i : Z) :
  scaled done j i = true <-> exists c, (j, i, c) ∈ done.
Proof.
  unfold scaled. rewrite existsb_exists. split.
  - intros ([[j' i'] c] & Hin & Heq). apply list_elem_of_In in Hin.
    apply andb_true_iff in Heq as [Hj Hi]. unfold target, pivot in *.
    simpl in *. apply Z.eqb_eq in Hj, Hi. subst. by exists c.
  - intros (c & Hin). exists (j, i, c). split; [by apply list_elem_of_In |].
    unfold target, pivot. simpl. by rewrite !Z.eqb_refl.
Qed.

Lemma scaled_false (done : list (Z * Z * Z)) (j i : Z) :
  (forall c, (j, i, c) ∉ done) -> scaled done j i = false.
Proof.
  intros Hout. destruct (scaled done j i) eqn:Hs; [| reflexivity].
  apply scaled_true in Hs as (c & Hin). by apply Hout in Hin.
Qed.

Lemma sub_snoc (m : Model) (q0 : list R) (done : list (Z * Z * Z))
    (u : Z * Z * Z) (i j : Z) :
  sub m q0 (done ++ [u]) i j
  = sub m q0 done i j
    + (if (target u =? i)%Z
       then Uh m q0 (pivot u) i * Uh m q0 (pivot u) j
            / Uh m q0 (pivot u) (pivot u)
       else 0).
Proof. unfold sub. by rewrite rsum_snoc. Qed.

(** One update, when row [k] has received all its updates and neither the
    entries of row [k] in the columns of row [i] nor the entries of row
    [i] are divided yet. *)
Lemma acc_update_inv (m : Model) (q0 q : list R) (done : list (Z * Z * Z))
    (i k Madr_ki : Z) :
  dof_chains m -> wf_Madr m -> Z.of_nat (length q0) = nM m ->
  factor_inv m q0 done q ->
  (0 <= k < nv m)%Z -> (Madr_ki, i) ∈ chain m k ->
  (forall j, sub m q0 done k j
             = rsum (fun k' => Uh m q0 k' k * Uh m q0 k' j / Uh m q0 k' k')
                    (seqZ (k + 1) (nv m - k - 1))) ->
  scaled done k k = false ->
  (forall j, anc m j i = true -> scaled done j k = false) ->
  (forall j, scaled done j i = false) ->
  factor_inv m q0 (done ++ [(i, k, Madr_ki)]) (acc_update m q (i, k, Madr_ki)).
Proof.
  intros Hch Hwf Hlen0 [Hlen Hinv] Hk Hki Hfull Hdiag Hrowk Hrowi.
  pose proof (chain_columns m k Madr_ki i Hch Hk Hki) as [Hi HMk].
  assert (Hki' : (Madr_ki, i) ∈ row m k).
  { apply row_chain; [assumption | assumption | by right]. }
  assert (Hread : forall c j, (c, j) ∈ row m k -> scaled done j k = false ->
            aget q c = Uh m q0 k j).
  { intros c j Hin Hs. rewrite (Hinv k c j Hk Hin), Hs.
    rewrite (Uh_unfold m q0 k j) by assumption.
    rewrite (proj2 (anc_true m j k)) by (by exists c).
    rewrite (sp_entry m q0 k c j) by (assumption || lia).
    by rewrite Hfull. }
  assert (Hqki : aget q Madr_ki = Uh m q0 k i).
  { apply (Hread _ _ Hki'). apply Hrowk. apply anc_refl; [assumption | lia]. }
  assert (Hqkk : aget q (aget (dof_Madr m) k) = Uh m q0 k k).
  { apply Hread; [| assumption]. apply row_chain; auto. }
  unfold acc_update. cbn [fst snd].
  rewrite Hqki, Hqkk.
  rewrite (Madr_next m Hwf i) by lia.
  replace (aget (dof_Madr m) i + Z.of_nat (length (row m i))
           - aget (dof_Madr m) i)%Z
    with (Z.of_nat (length (row m i))) by lia.
  pose proof (Madr_nonneg m Hwf i ltac:(lia)) as Hnn.
  pose proof (Madr_bound m Hwf i ltac:(lia)) as Hbd.
  pose proof (Madr_mono m i k Hch Hwf ltac:(lia) ltac:(lia)) as Hmono.
  destruct (acc_loop_effect q (aget (dof_Madr m) i) Madr_ki
              (Uh m q0 k i / Uh m q0 k k) (length (row m i)))
    as [Hlen1 Hq1]; [lia | lia | lia |].
  set (q1 := foldl _ q (seqZ 0 (Z.of_nat (length (row m i))))) in *.
  split; [rewrite length_aset; congruence |].
  intros i' c j Hi' Hin.
  rewrite scaled_snoc, sub_snoc. unfold target, pivot. cbn [fst snd].
  destruct (decide (c = Madr_ki)) as [-> | Hne].
  - destruct (address_inj m i' k Madr_ki j i Hch Hwf) as [-> ->];
      [lia | lia | assumption | assumption |].
    rewrite !Z.eqb_refl. rewrite orb_true_r.
    apply aget_aset_eq. unfold in_range. rewrite Hlen1, Hlen.
    apply (row_in_range m q0 k Madr_ki i); assumption.
  - rewrite aget_aset_ne by congruence. rewrite Hq1.
    destruct (decide (aget (dof_Madr m) i <= c
                      < aget (dof_Madr m) i + Z.of_nat (length (row m i)))%Z)
      as [Hc | Hc].
    + destruct (row_address_elem m i c Hch ltac:(lia) Hc) as (j' & Hin').
      destruct (address_inj m i' i c j j' Hch Hwf) as [-> ->];
        [lia | lia | assumption | assumption |].
      rewrite (Hinv i c j' ltac:(lia) Hin'), Hrowi.
      rewrite (Hread (c + (Madr_ki - aget (dof_Madr m) i))%Z j').
      * rewrite Z.eqb_refl. replace (k =? i)%Z with false by lia.
        rewrite andb_false_r. simpl. unfold Rdiv. ring.
      * apply row_shift; (assumption || lia).
      * apply Hrowk. apply anc_true. by exists c.
    + assert (Hii' : i' <> i).
      { intros ->. apply Hc. apply (row_addresses m i c j); (assumption || lia). }
      rewrite (Hinv i' c j Hi' Hin).
      replace (i =? i')%Z with false by lia.
      assert (Hs : ((i =? j)%Z && (k =? i')%Z) = false).
      { destruct (Z.eqb_spec i j) as [<- |]; [| reflexivity].
        destruct (Z.eqb_spec k i') as [<- |]; [| reflexivity].
        exfalso. apply Hne.
        by apply (walk_functional m k Hch ltac:(lia) (aget (dof_Madr m) k)
                    c i Madr_ki i Hin Hki'). }
      rewrite Hs, orb_false_r. destruct (scaled done j i'); lra.
Qed.

(** *** The updates in their order *)

Lemma expected_elem (m : Model) (i k c : Z) :
  (i, k, c) ∈ expected_updates m <-> (0 <= k < nv m)%Z /\ (c, i) ∈ chain m k.
Proof.
  unfold expected_updates. rewrite list_elem_of_bind. split.
  - intros (k' & Hin & Hk'). apply elem_of_seqZ in Hk'.
    apply list_elem_of_fmap in Hin as ([c' i'] & Heq & Hin).
    injection Heq as -> -> ->. split; [lia | assumption].
  - intros [Hk Hin]. exists k. split; [| apply elem_of_seqZ; lia].
    apply list_elem_of_fmap. by exists (c, i).
Qed.

Lemma expected_NoDup (m : Model) : dof_chains m -> NoDup (expected_updates m).
Proof.
  intros Hch. unfold expected_updates. apply NoDup_bind.
  - intros k k' [[i' k''] c] _ _ Hin Hin'.
    apply list_elem_of_fmap in Hin as (? & Heq & _).
    apply list_elem_of_fmap in Hin' as (? & Heq' & _).
    congruence.
  - intros k Hk. apply elem_of_seqZ in Hk.
    apply NoDup_fmap_2_strong.
    + intros [c a] [c' a'] _ _ Heq. simpl in Heq. congruence.
    + pose proof (Hch k ltac:(lia)). apply walk_NoDup; [assumption | lia].
  - apply NoDup_seqZ.
Qed.

Lemma rsum_bind {A B : Type} (f : B -> R) (h : A -> list B) (l : list A) :
  rsum f (l ≫= h) = rsum (fun x => rsum f (h x)) l.
Proof.
  induction l as [| x l IH].
  - by rewrite rsum_nil.
  - rewrite bind_cons, rsum_app, rsum_cons. by rewrite IH.
Qed.

(** All the updates of row [k] together: the rows below [k]. *)
Lemma sub_expected (m : Model) (q0 : list R) (k j : Z) :
  dof_chains m -> (0 <= k < nv m)%Z ->
  sub m q0 (expected_updates m) k j
  = rsum (fun k' => Uh m q0 k' k * Uh m q0 k' j / Uh m q0 k' k')
         (seqZ (k + 1) (nv m - k - 1)).
Proof.
  intros Hch Hk. unfold sub, expected_updates. rewrite rsum_bind.
  rewrite (rsum_seqZ_split _ (nv m) (k + 1)) by lia.
  replace (nv m - (k + 1))%Z with (nv m - k - 1)%Z by lia.
  rewrite rsum_zero_ext.
  2:{ intros k' Hk'. apply elem_of_seqZ in Hk'.
      apply rsum_zero_ext. intros u Hu.
      apply list_elem_of_fmap in Hu as ([c a] & -> & Hin).
      unfold target. simpl.
      apply chain_columns in Hin; [| assumption | lia].
      by replace (a =? k)%Z with false by lia. }
  rewrite Rplus_0_l. apply rsum_ext. intros k' Hk'.
  apply elem_of_seqZ in Hk'.
  rewrite rsum_fmap. unfold target, pivot. simpl.
  pose proof (Hch k' ltac:(lia)) as Hp.
  destruct (anc m k k') eqn:Hanc.
  - apply anc_true in Hanc as (c & Hin).
    apply row_chain in Hin as [[_ ?] | Hin]; [lia | | assumption | lia].
    unfold chain in *.
    apply (rsum_column m
             (fun _ => Uh m q0 k' k * Uh m q0 k' j / Uh m q0 k' k')
             (aget (dof_parentid m) k') _ c k); [assumption | lia | assumption].
  - rewrite (Uh_zero m q0 k' k) by (assumption || lia).
    rewrite rsum_zero_ext; [unfold Rdiv; ring |].
    intros [c a] Hin. simpl.
    destruct (Z.eqb_spec a k) as [-> |]; [| reflexivity].
    assert (anc m k k' = true); [| congruence].
    apply anc_true. exists c. apply row_chain; [assumption | lia | by right].
Qed.

Lemma order_perm (m : Model) (order : list (Z * Z * Z)) :
  dof_chains m -> update_order m order -> order ≡ₚ expected_updates m.
Proof.
  intros Hch Hord. apply NoDup_Permutation.
  - apply Hord.
  - by apply expected_NoDup.
  - apply Hord.
Qed.

(** The updates of row [k] are complete once none of them is left. *)
Lemma sub_prefix (m : Model) (q0 : list R) (order : list (Z * Z * Z))
    (t : nat) (k j : Z) :
  dof_chains m -> update_order m order -> (0 <= k < nv m)%Z ->
  (forall s v, order !! s = Some v -> target v = k -> (s < t)%nat) ->
  sub m q0 (take t order) k j
  = rsum (fun k' => Uh m q0 k' k * Uh m q0 k' j / Uh m q0 k' k')
         (seqZ (k + 1) (nv m - k - 1)).
Proof.
  intros Hch Hord Hk Hbefore.
  rewrite <- sub_expected by assumption.
  unfold sub at 2. rewrite <- (rsum_perm _ _ _ (order_perm m order Hch Hord)).
  rewrite <- (take_drop t order) at 2. rewrite rsum_app.
  rewrite (rsum_zero_ext _ (drop t order)); [unfold sub; lra |].
  intros v Hv. apply list_elem_of_lookup in Hv as (s & Hs).
  rewrite lookup_drop in Hs.
  destruct (Z.eqb_spec (target v) k) as [Heq |]; [| reflexivity].
  specialize (Hbefore _ _ Hs Heq). lia.
Qed.

(** The packed array after every prefix of the updates. *)
Lemma order_inv (m : Model) (q0 : list R) (order : list (Z * Z * Z)) :
  dof_chains m -> wf_Madr m -> Z.of_nat (length q0) = nM m ->
  update_order m order ->
  forall t : nat, (t <= length order)%nat ->
    factor_inv m q0 (take t order) (foldl (acc_update m) q0 (take t order)).
Proof.
  intros Hch Hwf Hlen Hord. induction t as [| t IH]; intros Ht.
  - rewrite take_0. simpl. split; [reflexivity |].
    intros i c j _ _. simpl. unfold sub. rewrite rsum_nil. lra.
  - specialize (IH ltac:(lia)).
    destruct (lookup_lt_is_Some_2 order t ltac:(lia)) as [[[i k] Madr_ki] Hu].
    rewrite (take_S_r _ _ _ Hu), foldl_app. cbn [foldl].
    assert (Hex : (i, k, Madr_ki) ∈ expected_updates m).
    { apply (ord_elems m order Hord). by apply list_elem_of_lookup_2 in Hu. }
    apply expected_elem in Hex as [Hk Hki].
    pose proof (chain_columns m k Madr_ki i Hch Hk Hki) as [Hi _].
    assert (Hanc : anc m i k = true).
    { apply anc_true. exists Madr_ki.
      apply row_chain; [assumption | assumption | by right]. }
    assert (Hdone : forall (P : Prop) j i' , scaled (take t order) j i' = true ->
              (forall s c, (s < t)%nat -> order !! s = Some (j, i', c) ->
                 (c, j) ∈ chain m i' -> (0 <= i' < nv m)%Z -> P) -> P).
    { intros P j i' Hs HP. apply scaled_true in Hs as (c & Hin).
      apply elem_of_take in Hin as (s & Hs & Hlt).
      assert (Hex : (j, i', c) ∈ expected_updates m).
      { apply (ord_elems m order Hord). by apply list_elem_of_lookup_2 in Hs. }
      apply expected_elem in Hex as [? ?]. by apply (HP s c). }
    apply acc_update_inv; try assumption.
    + intros j. apply sub_prefix; try assumption.
      intros s v Hs Hv.
      apply (ord_anc m order Hord s t v (i, k, Madr_ki)); try assumption.
      * unfold target at 1. simpl. by rewrite Hv.
      * unfold target at 1. simpl. lia.
    + destruct (scaled (take t order) k k) eqn:Hs; [| reflexivity].
      apply (Hdone False) in Hs; [contradiction |].
      intros s c _ _ Hin Hk'.
      apply chain_columns in Hin; [lia | assumption | assumption].
    + intros j Hj.
      destruct (scaled (take t order) j k) eqn:Hs; [| reflexivity].
      apply (Hdone False) in Hs; [contradiction |].
      intros s c Hlt Hs' Hin _.
      destruct (decide (j = i)) as [-> | Hne].
      * assert (c = Madr_ki) as ->.
        { assert (Hpn : (aget (dof_parentid m) k < nv m)%Z).
          { pose proof (Hch k Hk). lia. }
          apply (walk_functional m (aget (dof_parentid m) k) Hch Hpn
                   (aget (dof_Madr m) k + 1)%Z c i Madr_ki i Hin Hki).
          reflexivity. }
        pose proof (NoDup_lookup _ _ _ _ (ord_NoDup m order Hord) Hs' Hu).
        lia.
      * pose proof (ord_anc m order Hord t s (i, k, Madr_ki) (j, k, c) Hu Hs'
                      Hj Hne). lia.
    + intros j.
      destruct (scaled (take t order) j i) eqn:Hs; [| reflexivity].
      apply (Hdone False) in Hs; [contradiction |].
      intros s c Hlt Hs' Hin Hi'.
      pose proof (chain_columns m i c j Hch Hi' Hin) as [Hj _].
      assert (Hji : anc m j i = true).
      { apply anc_true. exists c.
        apply row_chain; [assumption | assumption | by right]. }
      assert (Hne : j <> i) by lia.
      pose proof (ord_anc m order Hord t s (i, k, Madr_ki) (j, i, c) Hu Hs'
                    Hji Hne). lia.
Qed.

(** The packed array after all the updates: the pivots on the diagonal,
    the rows divided by their pivot below it. *)
Lemma factored_rows (m : Model) (q0 : list R) (order : list (Z * Z * Z)) :
  dof_chains m -> wf_Madr m -> Z.of_nat (length q0) = nM m ->
  update_order m order ->
  let q := foldl (acc_update m) q0 order in
  length q = length q0
  /\ forall i c j, (0 <= i < nv m)%Z -> (c, j) ∈ row m i ->
       aget q c = if (j =? i)%Z then Uh m q0 i i
                  else Uh m q0 i j / Uh m q0 i i.
Proof.
  intros Hch Hwf Hlen Hord.
  pose proof (order_inv m q0 order Hch Hwf Hlen Hord (length order)
                ltac:(lia)) as [Hlen' Hinv].
  rewrite take_ge in Hlen', Hinv by lia.
  split; [assumption |]. intros i c j Hi Hin.
  rewrite (Hinv i c j Hi Hin).
  pose proof Hin as Hin'.
  apply row_chain in Hin' as [[-> ->] | Hin']; [| | assumption | assumption].
  - rewrite Z.eqb_refl.
    rewrite scaled_false.
    2:{ intros c Hc. apply (ord_elems m order Hord) in Hc.
        apply expected_elem in Hc as [_ Hc].
        apply chain_columns in Hc; [lia | assumption | assumption]. }
    rewrite <- (take_ge order (length order)) at 1 by lia.
    rewrite sub_prefix; try assumption.
    + rewrite (Uh_unfold m q0 i i) by assumption.
      rewrite anc_refl by assumption.
      rewrite (sp_entry m q0 i (aget (dof_Madr m) i) i) by (assumption || lia).
      reflexivity.
    + intros s v Hs _. by apply lookup_lt_Some in Hs.
  - pose proof (chain_columns m i c j Hch Hi Hin') as [Hj _].
    replace (j =? i)%Z with false by lia.
    rewrite (proj2 (scaled_true order j i)); [reflexivity |].
    exists c. apply (ord_elems m order Hord). by apply expected_elem.
Qed.

(** *** The launches of [_factor_m_sparse] *)

Lemma aget_aset2_row0 (Q : list (list R)) (c : Z) (v : R) :
  aget (aset2 Q 0 c v) 0 = aset (aget Q 0) c v.
Proof.
  unfold aset2. destruct Q as [| r Q].
  - unfold aget, aset. simpl. by destruct (decide (0 <= c)%Z).
  - apply aget_aset_eq. unfold in_range. simpl. lia.
Qed.

Lemma qLD_acc_row0 (m : Model) (leveladr nodeid : Z) (qLD : list (list R)) :
  aget (qLD_acc m leveladr nodeid qLD) 0
  = acc_update m (aget qLD 0) (aget (qLD_updates m) (leveladr + nodeid)).
Proof.
  unfold qLD_acc, acc_update. cbv zeta.
  destruct (aget (qLD_updates m) (leveladr + nodeid)) as [[i k] Madr_ki].
  cbn [fst snd]. rewrite aget_aset2_row0. unfold aget2.
  f_equal.
  generalize (aget (aget qLD 0) Madr_ki
              / aget (aget qLD 0) (aget (dof_Madr m) k)).
  intros tmp.
  generalize (seqZ 0 (aget (dof_Madr m) (i + 1) - aget (dof_Madr m) i)).
  intros l. revert qLD. induction l as [| j l IH]; intros qLD;
    [reflexivity |].
  cbn [foldl]. rewrite IH. by rewrite aget_aset2_row0.
Qed.

Lemma launch_qLD_acc (m : Model) (adr size : Z) (qLD : list (list R)) :
  aget (launch size (qLD_acc m adr) qLD) 0
  = foldl (acc_update m) (aget qLD 0)
          ((fun node => aget (qLD_updates m) (adr + node)%Z) <$> seqZ 0 size).
Proof.
  rewrite (launch_proj (fun qLD : list (list R) => aget qLD 0) size
             (qLD_acc m adr)
             (fun node q =>
                acc_update m q (aget (qLD_updates m) (adr + node)%Z))).
  - unfold launch. by rewrite foldl_fmap.
  - intros tid Q _. apply qLD_acc_row0.
Qed.

Lemma levels_qLD_acc (m : Model) (levels : list (Z * Z))
    (qLD : list (list R)) :
  aget (foldl (fun qLD '(adr, size) => launch size (qLD_acc m adr) qLD)
              qLD levels) 0
  = foldl (acc_update m) (aget qLD 0)
          (mjoin ((fun l : Z * Z =>
                     (fun node => aget (qLD_updates m) (l.1 + node)%Z)
                       <$> seqZ 0 l.2) <$> levels)).
Proof.
  revert qLD. induction levels as [| [adr size] levels IH]; intros qLD;
    [reflexivity |].
  cbn [foldl]. rewrite IH. csimpl. rewrite foldl_app.
  by rewrite launch_qLD_acc.
Qed.

(** The order of the threads of a well-formed schedule. *)
Lemma wf_update_order (m : Model) :
  wf_schedule m -> update_order m (mjoin (reverse (update_levels m))).
Proof.
  intros Hwf.
  assert (Hperm : mjoin (reverse (update_levels m))
                  ≡ₚ mjoin (update_levels m)).
  { by rewrite reverse_Permutation. }
  split.
  - rewrite Hperm. apply Hwf.
  - intros u. rewrite Hperm. apply Hwf.
  - intros s t u v Hs Ht Hanc Hne.
    apply (crb_props.concat_lookup_order (reverse (update_levels m)) s t u v);
      [| assumption | assumption].
    intros a b us vs Ha Hb Hu Hv.
    apply reverse_lookup_Some in Ha as [Ha Hla].
    apply reverse_lookup_Some in Hb as [Hb Hlb].
    pose proof (sched_levels m Hwf _ _ us vs u v Ha Hb Hu Hv Hanc Hne).
    lia.
Qed.

(** [_factor_m_sparse] returns; row [0] of [qLD] holds the factor and
    [qLDiagInv] the inverses of the pivots. *)
Lemma factor_m_sparse_spec (m : Model) (qM qLD : list (list R))
    (qLDiagInv : list R) :
  dof_chains m -> wf_Madr m -> wf_schedule m ->
  Z.of_nat (length (aget qM 0)) = nM m ->
  Z.of_nat (length qLDiagInv) = nv m ->
  let q0 := aget qM 0 in
  exists qLD' qLDiagInv',
    _factor_m_sparse m qM qLD qLDiagInv = Some (qLD', qLDiagInv')
    /\ (forall i c j, (0 <= i < nv m)%Z -> (c, j) ∈ row m i ->
          aget (aget qLD' 0) c = if (j =? i)%Z then Uh m q0 i i
                                 else Uh m q0 i j / Uh m q0 i i)
    /\ length qLDiagInv' = length qLDiagInv
    /\ forall k, (0 <= k < nv m)%Z ->
         aget qLDiagInv' k = 1 / Uh m q0 k k.
Proof.
  intros Hch Hwf Hsched HlenM Hlen q0. unfold _factor_m_sparse.
  rewrite (crb_props.levels_backward_Some _ _ (sched_lengths m Hsched)).
  set (qLD' := foldl _ qM (reverse (zip (qLD_leveladr m) (qLD_levelsize m)))).
  assert (Hrow0 : aget qLD' 0
                  = foldl (acc_update m) q0 (mjoin (reverse (update_levels m)))).
  { unfold qLD'. rewrite levels_qLD_acc. unfold update_levels.
    by rewrite fmap_reverse. }
  destruct (factored_rows m q0 _ Hch Hwf HlenM (wf_update_order m Hsched))
    as [_ Hrows].
  rewrite <- Hrow0 in Hrows.
  exists qLD', (launch (nv m) (qLDiag_div m qLD') qLDiagInv).
  split; [reflexivity |]. split; [exact Hrows |]. split.
  - apply (launch_invariant (fun a => length a = length qLDiagInv));
      [reflexivity |].
    intros tid a _ Ha. unfold qLDiag_div. by rewrite length_aset.
  - intros k Hk.
    etransitivity;
      [exact (launch_pointwise
                (fun tid _ => 1 / aget2 qLD' 0 (aget (dof_Madr m) tid))
                (nv m) qLDiagInv k ltac:(unfold in_range; lia)) |].
    rewrite decide_True by lia. unfold aget2.
    rewrite (Hrows k (aget (dof_Madr m) k) k Hk).
    + by rewrite Z.eqb_refl.
    + apply row_chain; auto.
Qed.

(** *** The factored system is the system of the matrix *)

Lemma Lfull_factored (m : Model) (q0 q : list R) (k a : Z) :
  dof_chains m ->
  (forall i c j, (0 <= i < nv m)%Z -> (c, j) ∈ row m i ->
     aget q c = if (j =? i)%Z then Uh m q0 i i
                else Uh m q0 i j / Uh m q0 i i) ->
  (0 <= k < nv m)%Z -> Uh m q0 k k <> 0 ->
  Lfull m q k a = Uh m q0 k a / Uh m q0 k k.
Proof.
  intros Hch Hrows Hk Hpiv. unfold Lfull.
  destruct (Z.eqb_spec k a) as [<- | Hne].
  - rewrite Lsp_zero by (assumption || lia). by field.
  - rewrite Rplus_0_l. unfold Lsp, coef.
    pose proof (Hch k Hk) as Hp.
    destruct (anc m a k) eqn:Hanc.
    + apply anc_true in Hanc as (c & Hin). pose proof Hin as Hin'.
      apply row_chain in Hin' as [[_ ?] | Hin']; [lia | | assumption | lia].
      unfold chain in *.
      rewrite (rsum_column m (aget q) (aget (dof_parentid m) k) _ c a);
        [| assumption | lia | assumption].
      rewrite (Hrows k c a Hk Hin).
      by replace (a =? k)%Z with false by lia.
    + rewrite (Uh_zero m q0 k a) by assumption.
      rewrite rsum_zero_ext; [unfold Rdiv; ring |].
      intros [c a'] Hin. simpl.
      destruct (Z.eqb_spec a' a) as [-> |]; [| reflexivity].
      assert (anc m a k = true); [| congruence].
      apply anc_true. exists c. apply row_chain; [assumption | lia | by right].
Qed.

Lemma LtDL_Mfull (m : Model) (q0 q : list R) (D : Z -> R) (y : list R)
    (a : Z) :
  dof_chains m ->
  (forall i c j, (0 <= i < nv m)%Z -> (c, j) ∈ row m i ->
     aget q c = if (j =? i)%Z then Uh m q0 i i
                else Uh m q0 i j / Uh m q0 i i) ->
  (forall k, (0 <= k < nv m)%Z -> Uh m q0 k k <> 0) ->
  (forall k, (0 <= k < nv m)%Z -> D k = Uh m q0 k k) ->
  (0 <= a < nv m)%Z ->
  LtDL m q D y a
  = rsum (fun b => Mfull m q0 a b * aget y b) (seqZ 0 (nv m)).
Proof.
  intros Hch Hrows Hpiv HD Ha. unfold LtDL.
  transitivity
    (rsum (fun k =>
             rsum (fun b => Uh m q0 k a * Uh m q0 k b / Uh m q0 k k * aget y b)
                  (seqZ 0 (nv m)))
          (seqZ 0 (nv m))).
  - apply rsum_ext. intros k Hk. apply elem_of_seqZ in Hk.
    rewrite <- !rsum_scal_l. apply rsum_ext. intros b _.
    rewrite !(Lfull_factored m q0 q k) by (auto || lia).
    rewrite HD by lia. field. apply Hpiv. lia.
  - rewrite rsum_swap. apply rsum_ext. intros b Hb. apply elem_of_seqZ in Hb.
    rewrite rsum_scal_r. by rewrite Uh_product by (assumption || lia).
Qed.

End sparse_factor.

(** ** smooth.py: the sparse and the dense factorisation agree *)

Module factor_equivalence.
Import array_facts dof_tree linalg smooth solve_props dense_path sparse_factor.
Local Open Scope R_scope.

(** A positive definite system has one solution. *)
Lemma pos_def_unique (M : Z -> Z -> R) (S : list Z) (u v : Z -> R) :
  pos_def M S ->
  (forall a, a ∈ S ->
     rsum (fun b => M a b * u b) S = rsum (fun b => M a b * v b) S) ->
  forall a, a ∈ S -> u a = v a.
Proof.
  intros Hpd Heq a Ha.
  destruct (Req_dec (u a) (v a)) as [| Hne]; [assumption | exfalso].
  specialize (Hpd (fun i => u i - v i)).
  assert (Hq : qform M S (fun i => u i - v i) = 0).
  { unfold qform. apply rsum_zero_ext. intros i Hi.
    rewrite (rsum_ext _ (fun j => (u i - v i) * (M i j * u j - M i j * v j))).
    - rewrite rsum_scal_l, rsum_minus, (Heq i Hi). ring.
    - intros j _. ring. }
  rewrite Hq in Hpd. apply (Rlt_irrefl 0). apply Hpd.
  exists a. split; [assumption | lra].
Qed.

Lemma aget_ext (l l' : list R) :
  length l = length l' ->
  (forall a, (0 <= a < Z.of_nat (length l))%Z -> aget l a = aget l' a) ->
  l = l'.
Proof.
  intros Hlen Hget. apply list_eq_same_length with (length l); try done.
  intros i x x' Hi Hx Hx'.
  specialize (Hget (Z.of_nat i) ltac:(lia)). unfold aget in Hget.
  rewrite !decide_True in Hget by lia. rewrite Nat2Z.id in Hget.
  rewrite Hx, Hx' in Hget. exact Hget.
Qed.

(** C4: the sparse path ([factor_m] and [solve_m] of a model with the
    sparse flag: the in-place [L^T D L] factorisation of the packed
    matrix and the three sweeps) and the dense path (the same calls on a
    model of as many DOFs without the flag: the tiled Cholesky
    factorisation and solve of the square array) return, and leave the
    same store: the array [y] holds one and the same solution of
    [M y = x], where [M] is the symmetric positive definite matrix that
    the packed array and the square array both hold. *)
Theorem sparse_dense_same_solution (fuel : nat) (ms md : Model)
    (qM_sparse qM_dense qLD_sparse qLD_dense : list (list R))
    (qLDiagInv qLDiagInv_dense : list R) (x y : nat)
    (arrays : gmap nat (list R)) (xv yv : list R) :
  opt_is_sparse ms = true -> opt_is_sparse md = false -> nv md = nv ms ->
  dof_chains ms -> wf_Madr ms -> wf_schedule ms ->
  (Z.to_nat (nv ms) <= fuel)%nat ->
  Z.of_nat (length (aget qM_sparse 0)) = nM ms ->
  (forall a b, (0 <= a < nv ms)%Z -> (0 <= b < nv ms)%Z ->
     aget2 qM_dense a b = Mfull ms (aget qM_sparse 0) a b) ->
  pos_def (Mfull ms (aget qM_sparse 0)) (seqZ 0 (nv ms)) ->
  square (nv ms) qLD_dense ->
  Z.of_nat (length qLDiagInv) = nv ms ->
  arrays !! x = Some xv -> arrays !! y = Some yv ->
  Z.of_nat (length xv) = nv ms -> Z.of_nat (length yv) = nv ms ->
  exists qLD_s qLDiagInv_s qLD_d arrays' ysol,
    factor_m ms qM_sparse qLD_sparse (Some qLDiagInv)
    = Some (qLD_s, Some qLDiagInv_s)
    /\ factor_m md qM_dense qLD_dense None = Some (qLD_d, None)
    /\ solve_m fuel ms qLD_s qLDiagInv_s x y arrays = Some arrays'
    /\ solve_m fuel md qLD_d qLDiagInv_dense x y arrays = Some arrays'
    /\ arrays' !! y = Some ysol
    /\ length ysol = length yv
    /\ forall a, (0 <= a < nv ms)%Z ->
         rsum (fun b => Mfull ms (aget qM_sparse 0) a b * aget ysol b)
              (seqZ 0 (nv ms))
         = aget xv a.
Proof.
  intros Hs Hd Hnv Hch HMadr Hsched Hfuel HlenM Hsame Hpd Hsq HlenD
    Hx Hy Hxlen Hylen.
  set (q0 := aget qM_sparse 0) in *.
  assert (Hpiv : forall k, (0 <= k < nv ms)%Z -> 0 < Uh ms q0 k k).
  { intros k Hk. by apply Uh_pivot_pos. }
  (* the sparse path *)
  destruct (factor_m_sparse_spec ms qM_sparse qLD_sparse qLDiagInv
              Hch HMadr Hsched HlenM HlenD)
    as (qLD_s & qLDiagInv_s & Hfac & Hrows & _ & Hinv).
  fold q0 in Hrows, Hinv.
  destruct (solve_m_sparse_solves fuel ms qLD_s qLDiagInv_s xv
              (fun k => Uh ms q0 k k) Hch Hfuel ltac:(lia) Hxlen)
    as (ys & Hsolve & Hyslen & Hys).
  { intros k Hk. rewrite Hinv by assumption. field.
    pose proof (Hpiv k Hk). lra. }
  assert (Hys' : forall a, (0 <= a < nv ms)%Z ->
            rsum (fun b => Mfull ms q0 a b * aget ys b) (seqZ 0 (nv ms))
            = aget xv a).
  { intros a Ha. rewrite <- (Hys a Ha). symmetry.
    apply LtDL_Mfull; try assumption; [| reflexivity].
    intros k Hk. pose proof (Hpiv k Hk). lra. }
  (* the dense path *)
  assert (Hsym_d : sym_on (aget2 qM_dense) (seqZ 0 (nv md))).
  { rewrite Hnv. intros a b Ha Hb. apply elem_of_seqZ in Ha, Hb.
    rewrite !Hsame by lia. apply Mfull_sym. }
  assert (Hpd_d : pos_def (aget2 qM_dense) (seqZ 0 (nv md))).
  { rewrite Hnv. apply (pos_def_ext (Mfull ms q0)); [| assumption].
    intros a b Ha Hb. apply elem_of_seqZ in Ha, Hb.
    symmetry. apply Hsame; lia. }
  destruct (dense_path_solves md qM_dense qLD_dense xv yv)
    as [Hydlen Hyd]; try (rewrite Hnv; (assumption || lia)); try assumption.
  set (yd := solve_m_dense md (_factor_m_dense md qM_dense qLD_dense) xv yv)
    in *.
  rewrite Hnv in Hyd.
  (* one solution *)
  assert (Heq : ys = yd).
  { apply aget_ext; [lia |]. intros a Ha.
    apply (pos_def_unique (Mfull ms q0) (seqZ 0 (nv ms)) (aget ys) (aget yd)
             Hpd).
    - intros a' Ha'. apply elem_of_seqZ in Ha'.
      rewrite Hys' by lia. rewrite <- (Hyd a') by lia.
      apply rsum_ext. intros b Hb. apply elem_of_seqZ in Hb.
      by rewrite Hsame by lia.
    - apply elem_of_seqZ. lia. }
  exists qLD_s, qLDiagInv_s, (_factor_m_dense md qM_dense qLD_dense),
         (<[y := yd]> arrays), yd.
  split; [unfold factor_m; by rewrite Hs, Hfac |].
  split; [unfold factor_m; by rewrite Hd |].
  split.
  { unfold solve_m. rewrite Hx, Hy, Hs. cbv zeta.
    rewrite lookup_insert_eq. simpl. rewrite Hsolve, Heq.
    by rewrite insert_insert_eq. }
  split; [unfold solve_m; by rewrite Hx, Hy, Hd |].
  split; [by rewrite lookup_insert_eq |].
  split; [exact Hydlen |].
  intros a Ha. rewrite <- Heq. by apply Hys'.
Qed.

(** The fixture [tree_model] with the matrix [tree_qM]. *)
Lemma tree_model_wf_Madr : wf_Madr fixtures.tree_model.
Proof.
  split.
  - intros i Hi. simpl in Hi.
    assert (Hcases : (i = 0 \/ i = 1 \/ i = 2 \/ i = 3)%Z) by lia.
    destruct Hcases as [-> | [-> | [-> | ->]]]; arr_eval; lia.
  - intros i Hi Hi'. simpl in Hi'.
    assert (Hcases : (i = 0 \/ i = 1 \/ i = 2)%Z) by lia.
    destruct Hcases as [-> | [-> | ->]]; reflexivity.
  - intros i Hi. simpl in Hi.
    assert (Hcases : (i = 0 \/ i = 1 \/ i = 2 \/ i = 3)%Z) by lia.
    destruct Hcases as [-> | [-> | [-> | ->]]]; vm_compute; discriminate.
Qed.

Lemma tree_model_wf_schedule : wf_schedule fixtures.tree_model.
Proof.
  assert (Hlevels : update_levels fixtures.tree_model
                    = [[(0, 1, 2); (0, 2, 5); (0, 3, 8)];
                       [(1, 2, 4); (1, 3, 7)]]%Z) by reflexivity.
  assert (Hexp : expected_updates fixtures.tree_model
                 = [(0, 1, 2); (1, 2, 4); (0, 2, 5); (1, 3, 7); (0, 3, 8)]%Z)
    by reflexivity.
  split.
  - reflexivity.
  - rewrite Hlevels. csimpl.
    repeat (apply NoDup_cons; split;
            [rewrite ?elem_of_cons, elem_of_nil; intros ?; destruct_or!;
             done |]).
    apply NoDup_nil_2.
  - intros u. rewrite Hlevels, Hexp. csimpl.
    rewrite ?elem_of_cons, !elem_of_nil. tauto.
  - intros a b us vs u v Ha Hb Hu Hv Hanc Hne. rewrite Hlevels in Ha, Hb.
    destruct a as [| [| a]], b as [| [| b]]; simpl in Ha, Hb;
      try discriminate; try lia;
      injection Ha as <-; injection Hb as <-;
      set_unfold; destruct_or!; subst u v;
      try (by (exfalso; apply Hne)); vm_compute in Hanc; discriminate.
Qed.

Lemma tree_qM_same (a b : Z) :
  (0 <= a < 4)%Z -> (0 <= b < 4)%Z ->
  aget2 fixtures.tree_qM_dense a b
  = Mfull fixtures.tree_model (aget fixtures.tree_qM 0) a b.
Proof.
  intros Ha Hb.
  assert (Hrow : forall i, (0 <= i < 4)%Z ->
            row fixtures.tree_model i
            = aget [[(0, 0)]; [(1, 1); (2, 0)]; [(3, 2); (4, 1); (5, 0)];
                    [(6, 3); (7, 1); (8, 0)]]%Z i).
  { intros i Hi.
    assert (Hcases : (i = 0 \/ i = 1 \/ i = 2 \/ i = 3)%Z) by lia.
    destruct Hcases as [-> | [-> | [-> | ->]]]; reflexivity. }
  unfold Mfull, sp, coef.
  assert (Ha' : (a = 0 \/ a = 1 \/ a = 2 \/ a = 3)%Z) by lia.
  assert (Hb' : (b = 0 \/ b = 1 \/ b = 2 \/ b = 3)%Z) by lia.
  destruct Ha' as [-> | [-> | [-> | ->]]];
    destruct Hb' as [-> | [-> | [-> | ->]]];
    simpl; rewrite Hrow by lia; arr_eval;
    rewrite ?rsum_cons, rsum_nil; simpl; lra.
Qed.

Lemma tree_qM_pos_def :
  pos_def (Mfull fixtures.tree_model (aget fixtures.tree_qM 0)) (seqZ 0 4).
Proof.
  apply (pos_def_ext (aget2 fixtures.tree_qM_dense)).
  { intros a b Ha Hb. apply elem_of_seqZ in Ha, Hb. apply tree_qM_same; lia. }
  intros v (i & Hi & Hv). apply elem_of_seqZ in Hi.
  change (seqZ 0 4) with [0; 1; 2; 3]%Z. unfold qform.
  rewrite ?rsum_cons, !rsum_nil. arr_eval.
  assert (Hcases : (i = 0 \/ i = 1 \/ i = 2 \/ i = 3)%Z) by lia.
  set (a := v 0%Z) in *. set (b := v 1%Z) in *.
  set (c := v 2%Z) in *. set (d := v 3%Z) in *.
  assert (Hsq : 0 < a * a + b * b + c * c + d * d).
  { destruct Hcases as [-> | [-> | [-> | ->]]];
      fold a b c d in Hv; nra. }
  pose proof (Rle_0_sqr (a + b)). pose proof (Rle_0_sqr (a + c)).
  pose proof (Rle_0_sqr (a + d)). pose proof (Rle_0_sqr (b + c)).
  pose proof (Rle_0_sqr (b + d)). pose proof (Rle_0_sqr c).
  pose proof (Rle_0_sqr d). unfold Rsqr in *. lra.
Qed.

Lemma sparse_dense_same_solution_witness :
  exists qLD_s qLDiagInv_s qLD_d arrays' ysol,
    factor_m fixtures.tree_model fixtures.tree_qM fixtures.tree_qLD
      (Some [0; 0; 0; 0])
    = Some (qLD_s, Some qLDiagInv_s)
    /\ factor_m fixtures.tree_model_dense fixtures.tree_qM_dense
         fixtures.tree_qLD_dense None
       = Some (qLD_d, None)
    /\ solve_m 4 fixtures.tree_model qLD_s qLDiagInv_s 0 1
         fixtures.tree_arrays = Some arrays'
    /\ solve_m 4 fixtures.tree_model_dense qLD_d [] 0 1
         fixtures.tree_arrays = Some arrays'
    /\ arrays' !! 1%nat = Some ysol
    /\ length ysol = 4%nat
    /\ forall a, (0 <= a < 4)%Z ->
         rsum (fun b => Mfull fixtures.tree_model (aget fixtures.tree_qM 0) a b
                        * aget ysol b)
              (seqZ 0 4)
         = aget [1; 2; 3; 4] a.
Proof.
  apply (sparse_dense_same_solution 4 fixtures.tree_model
           fixtures.tree_model_dense fixtures.tree_qM fixtures.tree_qM_dense
           fixtures.tree_qLD fixtures.tree_qLD_dense [0; 0; 0; 0] [] 0 1
           fixtures.tree_arrays [1; 2; 3; 4] [0; 0; 0; 0]).
  - reflexivity.
  - reflexivity.
  - reflexivity.
  - exact solve_m_props.tree_model_dof_chains.
  - exact tree_model_wf_Madr.
  - exact tree_model_wf_schedule.
  - simpl. lia.
  - reflexivity.
  - exact tree_qM_same.
  - exact tree_qM_pos_def.
  - split; [reflexivity |]. intros i Hi. simpl in Hi.
    assert (Hcases : (i = 0 \/ i = 1 \/ i = 2 \/ i = 3)%Z) by lia.
    destruct Hcases as [-> | [-> | [-> | ->]]]; reflexivity.
  - reflexivity.
  - reflexivity.
  - reflexivity.
  - reflexivity.
  - reflexivity.
Defined.

End factor_equivalence.

(** ** math.py: the algebra of the quaternion and spatial functions *)

Module math_props.
Import math math_spatial.
Local Open Scope R_scope.

(** X1: [mul_quat] is associative. *)
Theorem mul_quat_assoc (u v w : quat) :
  mul_quat (mul_quat u v) w = mul_quat u (mul_quat v w).
Proof. unfold mul_quat. simpl. f_equal; ring. Qed.

(** X2: the squared length of a product of [mul_quat] is the product of
    the squared lengths, so a product of unit quaternions is a unit
    quaternion. *)
Theorem mul_quat_norm (u v : quat) :
  qdot (mul_quat u v) (mul_quat u v) = qdot u u * qdot v v.
Proof. unfold mul_quat, qdot. simpl. ring. Qed.

(** X3: [rot_vec_quat] and [quat_to_mat] are one rotation:
    rotating a vector by a quaternion is multiplying it by the matrix of
    the quaternion, for every quaternion. *)
Theorem rot_vec_quat_matrix (vec : vec3) (q : quat) :
  rot_vec_quat vec q = mulmv (quat_to_mat q) vec.
Proof.
  unfold rot_vec_quat, quat_to_mat, mulmv, vadd, vscale, vmuls, cross, dot.
  simpl. f_equal; ring.
Qed.

(** X4: rotating by [q] and then by [p] is rotating by [mul_quat p q]. *)
Theorem rot_vec_quat_compose (vec : vec3) (p q : quat) :
  rot_vec_quat (rot_vec_quat vec q) p = rot_vec_quat vec (mul_quat p q).
Proof.
  unfold rot_vec_quat, mul_quat, vadd, vscale, vmuls, cross, dot.
  simpl. f_equal; ring.
Qed.

(** X5: [rot_vec_quat] multiplies the dot product of two vectors by the
    fourth power of the length of the quaternion: a unit quaternion keeps
    lengths and angles. *)
Theorem rot_vec_quat_dot (a b : vec3) (q : quat) :
  dot (rot_vec_quat a q) (rot_vec_quat b q)
  = qdot q q * qdot q q * dot a b.
Proof.
  unfold rot_vec_quat, qdot, vadd, vscale, vmuls, cross, dot.
  simpl. ring.
Qed.

Lemma axis_angle_to_quat_zero (axis : vec3) :
  axis_angle_to_quat axis 0 = mkquat 1 0 0 0.
Proof.
  unfold axis_angle_to_quat, vmuls. simpl.
  rewrite Rmult_0_l, sin_0, cos_0. f_equal; ring.
Qed.

(** X6: the quaternion of a unit axis and any angle is a unit
    quaternion. *)
Theorem axis_angle_to_quat_unit (axis : vec3) (angle : R) :
  dot axis axis = 1 ->
  qdot (axis_angle_to_quat axis angle) (axis_angle_to_quat axis angle) = 1.
Proof.
  intros Haxis. unfold axis_angle_to_quat, qdot, vmuls, dot in *. simpl in *.
  pose proof (sin2_cos2 (angle * 0.5)) as Hsc. unfold Rsqr in Hsc.
  set (s := sin (angle * 0.5)) in *. set (c := cos (angle * 0.5)) in *.
  transitivity (c * c
                + s * s * (v0 axis * v0 axis + v1 axis * v1 axis
                           + v2 axis * v2 axis)); [ring |].
  rewrite Haxis. lra.
Qed.

Lemma axis_angle_to_quat_unit_witness :
  dot (mkvec3 0 0 1) (mkvec3 0 0 1) = 1
  /\ qdot (axis_angle_to_quat (mkvec3 0 0 1) 2)
          (axis_angle_to_quat (mkvec3 0 0 1) 2) = 1.
Proof.
  assert (H : dot (mkvec3 0 0 1) (mkvec3 0 0 1) = 1)
    by (unfold dot; simpl; ring).
  split; [exact H | exact (axis_angle_to_quat_unit (mkvec3 0 0 1) 2 H)].
Defined.

(** X7: the 6D inertia of [inert_vec] is symmetric: [u . (I v)] is
    [v . (I u)]. *)
Theorem inert_vec_symmetric (i : vec10) (u v : spatial_vector) :
  sdot u (inert_vec i v) = sdot v (inert_vec i u).
Proof. unfold inert_vec, sdot. simpl. ring. Qed.

(** X8: [inert_vec] is additive in the inertia: the product with the sum
    of two inertias is the sum of the products. *)
Theorem inert_vec_add (i j : vec10) (v : spatial_vector) :
  inert_vec (vec10_add i j) v = sadd (inert_vec i v) (inert_vec j v).
Proof. unfold inert_vec, vec10_add, sadd. simpl. f_equal; ring. Qed.

(** X9: the force [motion_cross_force v f] does no work on the motion
    [v]. *)
Theorem motion_cross_force_power (v f : spatial_vector) :
  sdot v (motion_cross_force v f) = 0.
Proof.
  unfold motion_cross_force, spatial_of, sdot, vadd, cross. simpl. ring.
Qed.

End math_props.

(** ** forward.py: what a step does to the state *)

Module advance_props.
Import array_facts forward forward_props math_props.
Local Open Scope R_scope.

Lemma aset_aget_id {A : Type} `{Blank A} (a : list A) (i : Z) :
  aset a i (aget a i) = a.
Proof.
  unfold aset, aget. destruct (decide (0 <= i)%Z); [| reflexivity].
  destruct (a !! Z.to_nat i) eqn:Hl; simpl.
  - by apply list_insert_id.
  - apply list_insert_ge. by apply lookup_ge_None.
Qed.

Lemma normalizeq_of_unit (q : quat) : lengthq q = 1 -> normalizeq q = q.
Proof.
  intros Hq. unfold normalizeq. cbv zeta. rewrite Hq.
  destruct (Rlt_dec 0 1) as [_ | Hn]; [| exfalso; lra].
  destruct q. simpl. f_equal; field.
Qed.

Lemma mul_quat_one_r (q : quat) : math.mul_quat q (mkquat 1 0 0 0) = q.
Proof. destruct q. unfold math.mul_quat. simpl. f_equal; ring. Qed.

Lemma quat_integrate_wp_zero (q : quat) (dt : R) :
  quat_integrate_wp q vec3_zero dt = normalizeq q.
Proof.
  unfold quat_integrate_wp. cbv zeta.
  assert (Hl : length3 vec3_zero = 0).
  { unfold length3, dot. simpl.
    replace (0 * 0 + 0 * 0 + 0 * 0) with 0 by ring. apply sqrt_0. }
  unfold normalize3. cbv zeta. rewrite Hl.
  destruct (Rlt_dec 0 0) as [Hn | _]; [exfalso; lra |].
  rewrite Rmult_0_r, axis_angle_to_quat_zero. by rewrite mul_quat_one_r.
Qed.

(** X10: with a zero angular velocity [quat_integrate_wp] gives a unit
    quaternion back as it was, for every time step. *)
Theorem quat_integrate_wp_rest (q : quat) (dt : R) :
  lengthq q = 1 -> quat_integrate_wp q vec3_zero dt = q.
Proof.
  intros Hq. rewrite quat_integrate_wp_zero. by apply normalizeq_of_unit.
Qed.

Lemma quat_integrate_wp_rest_witness :
  lengthq (mkquat 1 0 0 0) = 1
  /\ quat_integrate_wp (mkquat 1 0 0 0) vec3_zero 2 = mkquat 1 0 0 0.
Proof.
  assert (H : lengthq (mkquat 1 0 0 0) = 1).
  { unfold lengthq, qdot. simpl.
    replace (1 * 1 + 0 * 0 + 0 * 0 + 0 * 0) with 1 by ring. apply sqrt_1. }
  split; [exact H | exact (quat_integrate_wp_rest (mkquat 1 0 0 0) 2 H)].
Defined.

(** *** euler with implicit damping *)

(** The launches of [euler_damping] write to [qM] and [qfrc_eulerdamp]
    only. *)
Lemma euler_damping_keeps {T : Type} (proj : World -> T) (m : Model)
    (d : Data) (i : nat) (w : World) :
  (forall v w, proj (set_qM v w) = proj w) ->
  (forall v w, proj (set_qfrc_eulerdamp v w) = proj w) ->
  worlds d !! i = Some w ->
  exists w', worlds (euler_damping m d) !! i = Some w' /\ proj w' = proj w.
Proof.
  intros HqM Hfrc Hw. unfold euler_damping.
  destruct (is_sparse m); rewrite !worlds_launch_worlds, Hw; simpl;
    (eexists; split; [reflexivity |]);
    rewrite (launch_frame proj) by (intros; apply Hfrc);
    apply (launch_frame proj); intros; apply HqM.
Qed.

(** X11: with the euler-damp flag clear, [euler] raises [TypeError] at
    its call of [smooth.factor_m] and the step is not taken: time,
    positions, velocities and activations are as they were.  By then
    [qacc_eulerdamp] holds a copy of [qacc]. *)
Theorem euler_damping_enabled_raises (MJ_DSBL_EULERDAMP : Z) (m : Model)
    (d : Data) :
  Z.land (disable_flags m) MJ_DSBL_EULERDAMP = 0%Z ->
  exists d',
    euler MJ_DSBL_EULERDAMP m d = Raises TypeError d'
    /\ time d' = time d
    /\ forall (worldid : nat) (w : World),
         worlds d !! worldid = Some w ->
         exists w',
           worlds d' !! worldid = Some w'
           /\ qpos w' = qpos w /\ qvel w' = qvel w /\ act w' = act w
           /\ qacc_eulerdamp w' = qacc w.
Proof.
  intros Hflag. unfold euler. cbv zeta. rewrite Hflag. simpl.
  set (d0 := set_worlds _ d).
  exists (euler_damping m d0). split; [reflexivity |]. split.
  { unfold euler_damping. by destruct (is_sparse m). }
  intros worldid w Hw.
  assert (Hw0 : worlds d0 !! worldid = Some (set_qacc_eulerdamp (qacc w) w)).
  { unfold d0. simpl. by rewrite list_lookup_fmap, Hw. }
  destruct (euler_damping_keeps qpos m d0 _ _ ltac:(done) ltac:(done) Hw0)
    as (w' & Hw' & Hqpos).
  destruct (euler_damping_keeps qvel m d0 _ _ ltac:(done) ltac:(done) Hw0)
    as (w1 & Hw1 & Hqvel).
  destruct (euler_damping_keeps act m d0 _ _ ltac:(done) ltac:(done) Hw0)
    as (w2 & Hw2 & Hact).
  destruct (euler_damping_keeps qacc_eulerdamp m d0 _ _ ltac:(done)
              ltac:(done) Hw0) as (w3 & Hw3 & Hqacc).
  assert (w1 = w') as -> by congruence.
  assert (w2 = w') as -> by congruence.
  assert (w3 = w') as -> by congruence.
  exists w'. by repeat split.
Qed.

Lemma euler_damping_enabled_raises_witness :
  exists d',
    euler 16384 fixtures.damping_model (mkData 0 [fixtures.damping_world])
    = Raises TypeError d'
    /\ time d' = time (mkData 0 [fixtures.damping_world])
    /\ forall (worldid : nat) (w : World),
         worlds (mkData 0 [fixtures.damping_world]) !! worldid = Some w ->
         exists w',
           worlds d' !! worldid = Some w'
           /\ qpos w' = qpos w /\ qvel w' = qvel w /\ act w' = act w
           /\ qacc_eulerdamp w' = qacc w.
Proof.
  apply (euler_damping_enabled_raises 16384 fixtures.damping_model
           (mkData 0 [fixtures.damping_world])).
  reflexivity.
Defined.

(** *** The positions of hinge and slide joints *)

(** The world slice after [_advance] without [qvel]: the positions are
    integrated with the velocities that [advance_velocities] has left. *)
Lemma advance_None_world (m : Model) (d : Data) (act_dot qacc : list (list R))
    (i : nat) (w : World) :
  worlds d !! i = Some w ->
  let w1 :=
    launch (nv m) (advance_velocities m qacc (Z.of_nat i))
      (if (na m =? 0)%Z then w
       else launch (nu m) (next_activation m act_dot (Z.of_nat i)) w) in
  exists qvel_in,
    aget qvel_in (Z.of_nat i) = qvel w1
    /\ worlds (_advance m d act_dot qacc None) !! i
       = Some (launch (njnt m)
                 (integrate_joint_positions m qvel_in (Z.of_nat i)) w1).
Proof.
  intros Hw. unfold _advance. cbv zeta. cbn [worlds].
  exists (qvel <$>
            worlds (launch_worlds (nv m) (advance_velocities m qacc)
                      (if (na m =? 0)%Z then d
                       else launch_worlds (nu m) (next_activation m act_dot) d))).
  split.
  - apply aget_fmap. rewrite worlds_launch_worlds.
    destruct (na m =? 0)%Z; [by rewrite Hw |].
    by rewrite worlds_launch_worlds, Hw.
  - rewrite !worlds_launch_worlds.
    destruct (na m =? 0)%Z; [by rewrite Hw |].
    by rewrite worlds_launch_worlds, Hw.
Qed.

Lemma qvel_after_velocities (m : Model) (act_dot qacc : list (list R))
    (worldid : Z) (w : World) (i : Z) :
  in_range (qvel w) i -> (i < nv m)%Z ->
  aget (qvel (launch (nv m) (advance_velocities m qacc worldid)
                (if (na m =? 0)%Z then w
                 else launch (nu m) (next_activation m act_dot worldid) w))) i
  = aget (qvel w) i + aget2 qacc worldid i * timestep m.
Proof.
  intros Hi Hnv.
  rewrite (launch_proj qvel _ _
             (fun tid a =>
                aset a tid
                  ((fun t x => x + aget2 qacc worldid t * timestep m)
                     tid (aget a tid))))
    by reflexivity.
  assert (Hq : qvel (if (na m =? 0)%Z then w
                     else launch (nu m) (next_activation m act_dot worldid) w)
               = qvel w).
  { destruct (na m =? 0)%Z; [reflexivity |].
    apply (launch_frame qvel). intros. apply qvel_next_activation. }
  rewrite Hq.
  etransitivity;
    [exact (launch_pointwise
              (fun t x => x + aget2 qacc worldid t * timestep m)
              (nv m) (qvel w) i Hi) |].
  by rewrite decide_True.
Qed.

Lemma qpos_width_pos (t : Z) : (0 < qpos_width t)%Z.
Proof.
  unfold qpos_width. destruct (t =? 0)%Z; [lia |].
  destruct (t =? 1)%Z; lia.
Qed.

(** The thread of a hinge or slide joint. *)
Lemma integrate_scalar (m : Model) (qvel_in : list (list R))
    (worldId tid : Z) (w : World) :
  aget (jnt_type m) tid <> 0%Z -> aget (jnt_type m) tid <> 1%Z ->
  in_range (qpos w) (aget (jnt_qposadr m) tid) ->
  aget (qpos (integrate_joint_positions m qvel_in worldId tid w))
       (aget (jnt_qposadr m) tid)
  = aget (qpos w) (aget (jnt_qposadr m) tid)
    + timestep m * aget2 qvel_in worldId (aget (jnt_dofadr m) tid).
Proof.
  intros H0 H1 Hin. unfold integrate_joint_positions. cbv zeta.
  replace (aget (jnt_type m) tid =? 0)%Z with false by lia.
  replace (aget (jnt_type m) tid =? 1)%Z with false by lia.
  cbn [qpos set_qpos]. by rewrite aget_aset_eq.
Qed.

Lemma integrate_launch_positions (m : Model) (qvel_in : list (list R))
    (worldId : Z) (w : World) (n : nat) :
  qpos_layout m (qpos w) -> (Z.of_nat n <= njnt m)%Z ->
  let w' := launch (Z.of_nat n) (integrate_joint_positions m qvel_in worldId) w in
  length (qpos w') = length (qpos w)
  /\ (forall i,
        (forall t, (0 <= t < Z.of_nat n)%Z ->
           (i < aget (jnt_qposadr m) t
            \/ aget (jnt_qposadr m) t + qpos_width (aget (jnt_type m) t) <= i)%Z) ->
        aget (qpos w') i = aget (qpos w) i)
  /\ forall j, (0 <= j < Z.of_nat n)%Z ->
       aget (jnt_type m) j <> 0%Z -> aget (jnt_type m) j <> 1%Z ->
       aget (qpos w') (aget (jnt_qposadr m) j)
       = aget (qpos w) (aget (jnt_qposadr m) j)
         + timestep m * aget2 qvel_in worldId (aget (jnt_dofadr m) j).
Proof.
  intros [Hin Hdisj]. cbv zeta. induction n as [| p IH]; intros Hn.
  - rewrite launch_nonpos by reflexivity.
    split; [reflexivity |]. split; [reflexivity | lia].
  - rewrite Nat2Z.inj_succ, <- Z.add_1_r, launch_succ by lia.
    destruct IH as (Hlen & Hframe & Hval); [lia |].
    set (wp := launch (Z.of_nat p) _ w) in *.
    split; [by rewrite length_qpos_integrate |]. split.
    + intros i Hi. rewrite qpos_integrate_frame by (apply Hi; lia).
      apply Hframe. intros t Ht. apply Hi. lia.
    + intros j Hj H0 H1.
      pose proof (qpos_width_pos (aget (jnt_type m) j)) as Hwj.
      destruct (decide (j = Z.of_nat p)) as [-> | Hne].
      * destruct (Hin (Z.of_nat p)) as [Hlo Hhi]; [lia |].
        rewrite integrate_scalar; [| assumption | assumption |].
        2:{ unfold in_range. rewrite Hlen. lia. }
        rewrite Hframe; [reflexivity |].
        intros t Ht.
        pose proof (qpos_width_pos (aget (jnt_type m) t)).
        destruct (Hdisj (Z.of_nat p) t) as [? | ?]; lia.
      * pose proof (qpos_width_pos (aget (jnt_type m) (Z.of_nat p))).
        rewrite qpos_integrate_frame.
        -- apply Hval; [lia | assumption | assumption].
        -- destruct (Hdisj j (Z.of_nat p)) as [? | ?]; lia.
Qed.

(** X12: [_advance] without the argument [qvel] is semi-implicit: the
    position of a hinge or slide joint moves by [timestep] times the
    velocity of its DOF as [advance_velocities] has just updated it,
    [qvel + qacc * timestep].  The segments of the joints are assumed to
    lie inside [qpos] without overlap. *)
Theorem advance_scalar_joint_semi_implicit (m : Model) (d : Data)
    (act_dot qacc : list (list R)) (worldid : nat) (w : World) (j : Z) :
  worlds d !! worldid = Some w ->
  qpos_layout m (qpos w) ->
  (0 <= j < njnt m)%Z ->
  aget (jnt_type m) j <> 0%Z -> aget (jnt_type m) j <> 1%Z ->
  in_range (qvel w) (aget (jnt_dofadr m) j) ->
  (aget (jnt_dofadr m) j < nv m)%Z ->
  exists w',
    worlds (_advance m d act_dot qacc None) !! worldid = Some w'
    /\ aget (qpos w') (aget (jnt_qposadr m) j)
       = aget (qpos w) (aget (jnt_qposadr m) j)
         + timestep m
           * (aget (qvel w) (aget (jnt_dofadr m) j)
              + aget2 qacc (Z.of_nat worldid) (aget (jnt_dofadr m) j)
                * timestep m).
Proof.
  intros Hw Hlay Hj H0 H1 Hdof Hnv.
  destruct (advance_None_world m d act_dot qacc worldid w Hw)
    as (qvel_in & Hqv & ->).
  eexists. split; [reflexivity |].
  rewrite <- (Z2Nat.id (njnt m)) by lia.
  destruct (integrate_launch_positions m qvel_in (Z.of_nat worldid)
              (launch (nv m) (advance_velocities m qacc (Z.of_nat worldid))
                 (if (na m =? 0)%Z then w
                  else launch (nu m)
                         (next_activation m act_dot (Z.of_nat worldid)) w))
              (Z.to_nat (njnt m))) as (_ & _ & Hval).
  { by rewrite qpos_before_integrate. }
  { lia. }
  rewrite Hval by (assumption || lia).
  rewrite qpos_before_integrate. f_equal. f_equal.
  unfold aget2. rewrite Hqv.
  by apply qvel_after_velocities.
Qed.

Lemma advance_scalar_joint_semi_implicit_witness :
  exists w',
    worlds (_advance fixtures.hinge_model (mkData 0 [fixtures.hinge_world])
              [[]] [[2]] None) !! 0%nat = Some w'
    /\ aget (qpos w') 0
       = aget (qpos fixtures.hinge_world) 0
         + timestep fixtures.hinge_model
           * (aget (qvel fixtures.hinge_world) 0
              + aget2 [[2]] 0 0 * timestep fixtures.hinge_model).
Proof.
  apply (advance_scalar_joint_semi_implicit fixtures.hinge_model
           (mkData 0 [fixtures.hinge_world]) [[]] [[2]] 0%nat
           fixtures.hinge_world 0).
  - reflexivity.
  - split.
    + intros j Hj. simpl in Hj. assert (j = 0%Z) as -> by lia.
      unfold qpos_width. arr_eval. lia.
    + intros j k Hj Hk Hne. simpl in Hj, Hk. lia.
  - simpl. lia.
  - discriminate.
  - discriminate.
  - unfold in_range. vm_compute. split; [discriminate | reflexivity].
  - reflexivity.
Defined.

(** *** A state at rest *)

Lemma launch_id {St : Type} (n : Z) (k : Z -> St -> St) (s : St) :
  (forall tid, (0 <= tid < n)%Z -> k tid s = s) -> launch n k s = s.
Proof.
  intros Hk. apply (launch_invariant (fun s' => s' = s)); [reflexivity |].
  intros tid s' Ht ->. by apply Hk.
Qed.

Lemma launch_worlds_id (n : Z) (k : Z -> Z -> World -> World) (d : Data) :
  (forall (i : nat) w, worlds d !! i = Some w ->
     launch n (k (Z.of_nat i)) w = w) ->
  launch_worlds n k d = d.
Proof.
  intros Hk. unfold launch_worlds, set_worlds. destruct d as [t ws].
  simpl in *. f_equal. apply list_eq. intros i. rewrite list_lookup_imap.
  destruct (ws !! i) as [w |] eqn:Hw; [| reflexivity].
  simpl. f_equal. by apply Hk.
Qed.

Lemma next_activation_rest (m : Model) (act_dot_in : list (list R))
    (worldId tid : Z) (w : World) :
  (forall i, aget (aget act_dot_in worldId) i = 0) ->
  next_activation m act_dot_in worldId tid w = w.
Proof.
  intros Hz. unfold next_activation. cbv zeta.
  destruct (aget (actuator_actadr m) tid =? -1)%Z; [reflexivity |].
  rewrite Hz.
  destruct (aget (actuator_dyntype m) tid =? 3)%Z;
    rewrite ?Rmult_0_l, Rplus_0_r, aset_aget_id; by destruct w.
Qed.

Lemma advance_velocities_rest (m : Model) (qacc : list (list R))
    (worldId tid : Z) (w : World) :
  (forall i, aget2 qacc worldId i = 0) ->
  advance_velocities m qacc worldId tid w = w.
Proof.
  intros Hz. unfold advance_velocities.
  rewrite Hz, Rmult_0_l, Rplus_0_r, aset_aget_id. by destruct w.
Qed.

Lemma integrate_joint_positions_rest (m : Model) (qvel_in : list (list R))
    (worldId tid : Z) (w : World) :
  (forall i, aget (aget qvel_in worldId) i = 0) ->
  ((aget (jnt_type m) tid = 0 \/ aget (jnt_type m) tid = 1)%Z ->
   lengthq (stored_quat m (qpos w) tid) = 1) ->
  integrate_joint_positions m qvel_in worldId tid w = w.
Proof.
  intros Hz Hunit. unfold integrate_joint_positions. cbv zeta.
  unfold stored_quat in Hunit. rewrite !Hz.
  fold vec3_zero.
  destruct (Z.eqb_spec (aget (jnt_type m) tid) 0) as [Hty | Hty].
  - rewrite Hty in Hunit. cbn [Z.eqb] in Hunit.
    rewrite quat_integrate_wp_rest by auto.
    unfold vadd, vscale. cbn [v0 v1 v2 q0 q1 q2 q3].
    rewrite !Rmult_0_r, !Rplus_0_r, !aset_aget_id. by destruct w.
  - destruct (Z.eqb_spec (aget (jnt_type m) tid) 1) as [Hty1 | Hty1].
    + rewrite Hty1 in Hunit. cbn [Z.eqb Pos.eqb] in Hunit.
      rewrite quat_integrate_wp_rest by auto.
      cbn [q0 q1 q2 q3]. rewrite !aset_aget_id. by destruct w.
    + rewrite Rmult_0_r, Rplus_0_r, aset_aget_id. by destruct w.
Qed.

(** X13: a state at rest stays at rest.  When the velocities, the
    accelerations and the activation derivatives are all zero and the
    quaternions of the free and ball joints in [qpos] are unit
    quaternions, [_advance] changes nothing but the time, which grows by
    [timestep]. *)
Theorem advance_at_rest (m : Model) (d : Data) (act_dot qacc : list (list R)) :
  (forall (worldid : nat) (w : World), worlds d !! worldid = Some w ->
     (forall i, aget (qvel w) i = 0)
     /\ (forall i, aget2 qacc (Z.of_nat worldid) i = 0)
     /\ (forall i, aget2 act_dot (Z.of_nat worldid) i = 0)
     /\ forall j, (0 <= j < njnt m)%Z ->
          (aget (jnt_type m) j = 0 \/ aget (jnt_type m) j = 1)%Z ->
          lengthq (stored_quat m (qpos w) j) = 1) ->
  _advance m d act_dot qacc None = mkData (time d + timestep m) (worlds d).
Proof.
  intros Hrest. unfold _advance. cbv zeta.
  assert (Hact : (if (na m =? 0)%Z then d
                  else launch_worlds (nu m) (next_activation m act_dot) d) = d).
  { destruct (na m =? 0)%Z; [reflexivity |].
    apply launch_worlds_id. intros i w Hw. apply launch_id. intros tid _.
    apply next_activation_rest. apply (Hrest i w Hw). }
  rewrite Hact.
  assert (Hvel : launch_worlds (nv m) (advance_velocities m qacc) d = d).
  { apply launch_worlds_id. intros i w Hw. apply launch_id. intros tid _.
    apply advance_velocities_rest. apply (Hrest i w Hw). }
  rewrite Hvel.
  rewrite launch_worlds_id; [reflexivity |].
  intros i w Hw. apply launch_id. intros tid Htid.
  destruct (Hrest i w Hw) as (Hqvel & _ & _ & Hunit).
  apply integrate_joint_positions_rest.
  - intros k. rewrite (aget_fmap _ _ _ w Hw). apply Hqvel.
  - intros Hty. by apply Hunit.
Qed.

Lemma advance_at_rest_witness :
  _advance fixtures.ball_model
    (mkData 0 [fixtures.ball_world (mkquat 1 0 0 0)]) [[]] [[]] None
  = mkData (0 + timestep fixtures.ball_model)
      [fixtures.ball_world (mkquat 1 0 0 0)].
Proof.
  apply (advance_at_rest fixtures.ball_model
           (mkData 0 [fixtures.ball_world (mkquat 1 0 0 0)]) [[]] [[]]).
  intros worldid w Hw. destruct worldid as [| worldid]; [| discriminate].
  injection Hw as <-. split; [| split; [| split]].
  - intros i. unfold aget. simpl. destruct (decide (0 <= i)%Z); [| reflexivity].
    destruct (Z.to_nat i) as [| [| [| n]]]; reflexivity.
  - intros i. unfold aget2, aget. simpl.
    destruct (decide (0 <= i)%Z); [| reflexivity].
    by destruct (Z.to_nat i).
  - intros i. unfold aget2, aget. simpl.
    destruct (decide (0 <= i)%Z); [| reflexivity].
    by destruct (Z.to_nat i).
  - intros j Hj _. simpl in Hj. assert (j = 0%Z) as -> by lia.
    unfold stored_quat, lengthq, qdot. arr_eval.
    replace (1 * 1 + 0 * 0 + 0 * 0 + 0 * 0) with 1 by ring. apply sqrt_1.
Defined.

End advance_props.

(** ** smooth.py: the poses that kinematics writes *)

Module kinematics_more.
Import array_facts smooth forward_props math_props advance_props.
Local Open Scope R_scope.

Lemma normalizeq_identity_unit : lengthq (mkquat 1 0 0 0) = 1.
Proof.
  unfold lengthq, qdot. simpl.
  replace (1 * 1 + 0 * 0 + 0 * 0 + 0 * 0) with 1 by ring. apply sqrt_1.
Qed.

Lemma vsub_vadd (r a : vec3) : vsub (vadd r a) r = a.
Proof. destruct r, a. unfold vadd, vsub. simpl. f_equal; ring. Qed.

(** One pass of the joint loop touches [xanchor] and [xaxis] only, and
    leaves the pose alone unless the joint is a hinge away from its
    reference position. *)
Lemma level_joint_reference (m : Model) (xp : vec3) (xq : quat) (ja : Z)
    (w : World) :
  (aget (jnt_type m) ja = 3%Z ->
   aget (qpos w) (aget (jnt_qposadr m) ja)
   = aget (qpos0 m) (aget (jnt_qposadr m) ja)) ->
  exists w',
    _level_joint m (xp, xq, ja, w) = (xp, xq, (ja + 1)%Z, w')
    /\ qpos w' = qpos w /\ xpos w' = xpos w /\ xquat w' = xquat w
    /\ xmat w' = xmat w.
Proof.
  intros Href. unfold _level_joint. cbv zeta.
  destruct (Z.eqb_spec (aget (jnt_type m) ja) 3) as [Hty | Hty].
  - rewrite (Href Hty).
    match goal with
    | |- context [math.axis_angle_to_quat _ (?a - ?a)] =>
        replace (a - a) with 0 by ring
    end.
    rewrite axis_angle_to_quat_zero, mul_quat_one_r, vsub_vadd.
    eexists. split; [reflexivity |]. by repeat split.
  - eexists. split; [reflexivity |]. by repeat split.
Qed.

Lemma level_joints_reference (m : Model) (xp : vec3) (xq : quat) (ja : Z)
    (w : World) (n : nat) :
  (forall k, (0 <= k < Z.of_nat n)%Z ->
     aget (jnt_type m) (ja + k) = 3%Z ->
     aget (qpos w) (aget (jnt_qposadr m) (ja + k))
     = aget (qpos0 m) (aget (jnt_qposadr m) (ja + k))) ->
  exists w',
    Nat.iter n (_level_joint m) (xp, xq, ja, w)
    = (xp, xq, (ja + Z.of_nat n)%Z, w')
    /\ qpos w' = qpos w /\ xpos w' = xpos w /\ xquat w' = xquat w
    /\ xmat w' = xmat w.
Proof.
  induction n as [| n IH]; intros Href.
  - exists w. simpl. rewrite Z.add_0_r. by repeat split.
  - destruct IH as (wn & Hn & Hqpos & Hxpos & Hxquat & Hxmat).
    { intros k Hk. apply Href. lia. }
    change (Nat.iter (S n) (_level_joint m) (xp, xq, ja, w))
      with (_level_joint m (Nat.iter n (_level_joint m) (xp, xq, ja, w))).
    rewrite Hn.
    destruct (level_joint_reference m xp xq (ja + Z.of_nat n) wn)
      as (w' & Hw' & Hq' & Hp' & Hxq' & Hm').
    { rewrite Hqpos. apply Href. lia. }
    exists w'. rewrite Hw'. split; [do 2 f_equal; lia |].
    repeat split; congruence.
Qed.

(** X14: the pose at the reference configuration.  For a body that is
    not on a single free joint, whenever each of its hinge joints is at
    its reference position [qpos0], [_level] writes the fixed transform
    from the parent: [xmat[pid] * body_pos + xpos[pid]] and the product
    of [xquat[pid]] and [body_quat], normalised in [xquat] and as it is
    in [xmat].  The joints of the other types, ball and slide, never
    enter the pose. *)
Theorem level_reference_pose (m : Model) (leveladr worldid nodeid : Z)
    (w : World) :
  let bodyid := aget (body_tree m) (leveladr + nodeid) in
  let jntadr := aget (body_jntadr m) bodyid in
  let jntnum := aget (body_jntnum m) bodyid in
  let pid := aget (body_parentid m) bodyid in
  ~ (jntnum = 1%Z /\ aget (jnt_type m) jntadr = 0%Z) ->
  (forall k, (0 <= k < jntnum)%Z ->
     aget (jnt_type m) (jntadr + k) = 3%Z ->
     aget (qpos w) (aget (jnt_qposadr m) (jntadr + k))
     = aget (qpos0 m) (aget (jnt_qposadr m) (jntadr + k))) ->
  in_range (xpos w) bodyid -> in_range (xquat w) bodyid ->
  in_range (xmat w) bodyid ->
  let w' := _level m leveladr worldid nodeid w in
  let q := math.mul_quat (aget (xquat w) pid) (aget (body_quat m) bodyid) in
  aget (xpos w') bodyid
  = vadd (mulmv (aget (xmat w) pid) (aget (body_pos m) bodyid))
         (aget (xpos w) pid)
  /\ aget (xquat w') bodyid = normalizeq q
  /\ aget (xmat w') bodyid = math.quat_to_mat q.
Proof.
  cbv zeta. intros Hfree Href Hxpos Hxquat Hxmat. unfold _level. cbv zeta.
  set (bodyid := aget (body_tree m) (leveladr + nodeid)) in *.
  set (jntadr := aget (body_jntadr m) bodyid) in *.
  set (jntnum := aget (body_jntnum m) bodyid) in *.
  assert (Hbranch : ((jntnum =? 1)%Z && (aget (jnt_type m) jntadr =? 0)%Z)
                    = false).
  { destruct (Z.eqb_spec jntnum 1) as [H1 |]; [| reflexivity].
    destruct (Z.eqb_spec (aget (jnt_type m) jntadr) 0) as [H0 |];
      [| reflexivity].
    exfalso. by apply Hfree. }
  rewrite Hbranch.
  destruct (level_joints_reference m
              (vadd (mulmv (aget (xmat w) (aget (body_parentid m) bodyid))
                           (aget (body_pos m) bodyid))
                    (aget (xpos w) (aget (body_parentid m) bodyid)))
              (math.mul_quat (aget (xquat w) (aget (body_parentid m) bodyid))
                             (aget (body_quat m) bodyid))
              jntadr w (Z.to_nat jntnum))
    as (w1 & -> & _ & Hp & Hq & Hm).
  { intros k Hk. apply Href. lia. }
  cbn [xpos xquat xmat set_xpos set_xquat set_xmat].
  rewrite !aget_aset_eq by (unfold in_range in *; congruence).
  by repeat split.
Qed.

Lemma level_reference_pose_witness :
  let m := fixtures.hinge_model in
  let w := set_qpos [0] fixtures.hinge_world in
  let w' := _level m 1 0 0 w in
  let q := math.mul_quat (aget (xquat w) 0) (aget (body_quat m) 1) in
  aget (xpos w') 1
  = vadd (mulmv (aget (xmat w) 0) (aget (body_pos m) 1)) (aget (xpos w) 0)
  /\ aget (xquat w') 1 = normalizeq q
  /\ aget (xmat w') 1 = math.quat_to_mat q.
Proof.
  apply (level_reference_pose fixtures.hinge_model 1 0 0
           (set_qpos [0] fixtures.hinge_world)).
  - intros [_ H]. vm_compute in H. discriminate.
  - intros k Hk _.
    assert (k = 0%Z) as -> by (revert Hk; arr_eval; lia). reflexivity.
  - unfold in_range. vm_compute. split; [discriminate | reflexivity].
  - unfold in_range. vm_compute. split; [discriminate | reflexivity].
  - unfold in_range. vm_compute. split; [discriminate | reflexivity].
Defined.

(** *** The orientations are unit quaternions *)

Lemma level_joint_xquat (m : Model) (st : vec3 * quat * Z * World) :
  xquat (_level_joint m st).2 = xquat st.2.
Proof.
  destruct st as [[[xp xq] ja] w]. unfold _level_joint. cbv zeta.
  by destruct (aget (jnt_type m) ja =? 3)%Z.
Qed.

Lemma level_joints_xquat (m : Model) (n : nat) (st : vec3 * quat * Z * World) :
  xquat (Nat.iter n (_level_joint m) st).2 = xquat st.2.
Proof.
  induction n as [| n IH]; [reflexivity |].
  change (Nat.iter (S n) (_level_joint m) st)
    with (_level_joint m (Nat.iter n (_level_joint m) st)).
  by rewrite level_joint_xquat.
Qed.

(** A thread of [_level] writes one entry of [xquat], a normalised
    quaternion. *)
Lemma level_xquat (m : Model) (leveladr worldid nodeid : Z) (w : World) :
  exists q,
    xquat (_level m leveladr worldid nodeid w)
    = aset (xquat w) (aget (body_tree m) (leveladr + nodeid)) (normalizeq q).
Proof.
  unfold _level. cbv zeta.
  destruct ((aget (body_jntnum m) (aget (body_tree m) (leveladr + nodeid)) =? 1)%Z
            && (aget (jnt_type m)
                  (aget (body_jntadr m)
                     (aget (body_tree m) (leveladr + nodeid))) =? 0)%Z).
  - eexists. reflexivity.
  - match goal with
    | |- context [Nat.iter ?n (_level_joint m) ?st] =>
        pose proof (level_joints_xquat m n st) as Hx;
        destruct (Nat.iter n (_level_joint m) st) as [[[xp xq] ja] w1]
    end.
    simpl in Hx. cbn [xquat set_xquat set_xmat set_xpos]. rewrite Hx.
    eexists. reflexivity.
Qed.

Lemma level_unit_kept (m : Model) (leveladr worldid nodeid : Z) (w : World)
    (b : Z) :
  in_range (xquat w) b -> lengthq (aget (xquat w) b) = 1 ->
  lengthq (aget (xquat (_level m leveladr worldid nodeid w)) b) = 1.
Proof.
  intros Hin Hb. destruct (level_xquat m leveladr worldid nodeid w) as [q ->].
  destruct (decide (aget (body_tree m) (leveladr + nodeid) = b)) as [-> | Hne].
  - rewrite aget_aset_eq by assumption. apply normalizeq_unit.
  - by rewrite aget_aset_ne.
Qed.

Lemma level_in_range (m : Model) (leveladr worldid nodeid : Z) (w : World)
    (b : Z) :
  in_range (xquat w) b ->
  in_range (xquat (_level m leveladr worldid nodeid w)) b.
Proof.
  intros Hin. destruct (level_xquat m leveladr worldid nodeid w) as [q ->].
  by apply in_range_aset.
Qed.

(** A launch in which one thread establishes a property that every
    thread keeps. *)
Lemma launch_establish {St : Type} (I P : St -> Prop) (n t : Z)
    (k : Z -> St -> St) (s : St) :
  I s -> (forall tid s, I s -> I (k tid s)) ->
  (forall tid s, I s -> P s -> P (k tid s)) ->
  (0 <= t < n)%Z -> (forall s, I s -> P (k t s)) ->
  P (launch n k s).
Proof.
  intros Hs HI HP Ht Hest.
  assert (HIn : forall p : nat, I (launch (Z.of_nat p) k s)).
  { intros p. apply (launch_invariant I); [assumption |].
    intros tid s' _. apply HI. }
  assert (H : forall p : nat, (t < Z.of_nat p)%Z ->
            P (launch (Z.of_nat p) k s)).
  { induction p as [| p IH]; intros Hp; [lia |].
    rewrite Nat2Z.inj_succ, <- Z.add_1_r, launch_succ by lia.
    destruct (decide (t = Z.of_nat p)) as [<- | Hne].
    - apply Hest. rewrite <- (Z2Nat.id t) by lia. apply HIn.
    - apply HP; [apply HIn | apply IH; lia]. }
  rewrite <- (Z2Nat.id n) by lia. apply H. lia.
Qed.

Lemma levels_fold_invariant (P : World -> Prop)
    (k : Z -> Z -> World -> World) (levels : list (Z * Z)) (w : World) :
  P w -> (forall adr tid s, P s -> P (k adr tid s)) ->
  P (foldl (fun w '(adr, size) => launch size (k adr) w) w levels).
Proof.
  intros Hw Hk. revert w Hw.
  induction levels as [| [adr size] levels IH]; intros w Hw; [assumption |].
  simpl. apply IH. apply launch_invariant; [assumption |].
  intros tid s _. apply Hk.
Qed.

(** X15: after [kinematics] the orientation [xquat] of the world body
    and of every body listed in a level is a unit quaternion, whatever
    [qpos] and the model hold: each is stored through [wp.normalize]. *)
Theorem kinematics_unit_quaternions (m : Model) (d : Data) (worldid : nat)
    (w : World) (b : Z) :
  worlds d !! worldid = Some w ->
  in_range (xquat w) b ->
  b = 0%Z \/ b ∈ mjoin (crb_props.body_levels m) ->
  exists w',
    worlds (kinematics m d) !! worldid = Some w'
    /\ lengthq (aget (xquat w') b) = 1.
Proof.
  intros Hw Hin Hb. unfold kinematics. cbv zeta.
  rewrite crb_props.worlds_launch_levels.
  unfold launch_per_world. cbn [worlds set_worlds].
  rewrite list_lookup_imap, Hw. simpl.
  eexists. split; [reflexivity |].
  set (w0 := _root m (Z.of_nat worldid) w).
  set (I := fun s : World => in_range (xquat s) b).
  set (U := fun s : World => I s /\ lengthq (aget (xquat s) b) = 1).
  assert (HI0 : I w0).
  { unfold I, w0, _root. cbv zeta. cbn [xquat set_xquat set_xpos set_xipos
      set_xmat set_ximat]. by apply in_range_aset. }
  assert (HIk : forall adr tid s, I s -> I (_level m adr (Z.of_nat worldid) tid s)).
  { intros adr tid s. apply level_in_range. }
  assert (HUk : forall adr tid s, U s -> U (_level m adr (Z.of_nat worldid) tid s)).
  { intros adr tid s [Hi Hu]. split; [by apply level_in_range |].
    by apply level_unit_kept. }
  enough (HU : U (foldl (fun w '(adr, size) =>
                           launch size (_level m adr (Z.of_nat worldid)) w)
                        w0 (zip (body_leveladr m) (body_levelsize m))))
    by apply HU.
  destruct Hb as [-> | Hb].
  - apply (levels_fold_invariant U); [| exact HUk].
    split; [exact HI0 |].
    unfold w0, _root. cbv zeta. cbn [xquat set_xquat set_xpos set_xipos
      set_xmat set_ximat].
    rewrite aget_aset_eq by exact Hin. apply normalizeq_identity_unit.
  - apply list_elem_of_join in Hb as (bs & Hbs & Hlev).
    unfold crb_props.body_levels in Hlev.
    apply list_elem_of_fmap in Hlev as ([adr size] & -> & Hl).
    apply list_elem_of_split in Hl as (l1 & l2 & ->).
    rewrite foldl_app. cbn [foldl].
    apply (levels_fold_invariant U); [| exact HUk].
    unfold crb_props.level_bodies in Hbs. simpl in Hbs.
    apply list_elem_of_fmap in Hbs as (t & -> & Ht).
    apply elem_of_seqZ in Ht.
    apply (launch_establish I U size t).
    + by apply (levels_fold_invariant I).
    + intros tid s. apply HIk.
    + intros tid s _. apply HUk.
    + lia.
    + intros s Hs. split; [by apply level_in_range |].
      destruct (level_xquat m adr (Z.of_nat worldid) t s) as [q ->].
      rewrite aget_aset_eq by exact Hs. apply normalizeq_unit.
Qed.

Lemma kinematics_unit_quaternions_witness :
  exists w',
    worlds (kinematics fixtures.hinge_model (mkData 0 [fixtures.hinge_world]))
      !! 0%nat = Some w'
    /\ lengthq (aget (xquat w') 1) = 1.
Proof.
  apply (kinematics_unit_quaternions fixtures.hinge_model
           (mkData 0 [fixtures.hinge_world]) 0%nat fixtures.hinge_world 1).
  - reflexivity.
  - unfold in_range. vm_compute. split; [discriminate | reflexivity].
  - right. vm_compute. apply list_elem_of_In. simpl. tauto.
Defined.

End kinematics_more.

(** ** smooth.py: the mass matrix that crb assembles *)

Module mass_matrix.
Import array_facts dof_tree smooth sparse_factor math_spatial.
Local Open Scope R_scope.

Lemma levels_fold_frame {T : Type} (proj : World -> T)
    (k : Z -> Z -> World -> World) (levels : list (Z * Z)) (w : World) :
  (forall adr tid s, proj (k adr tid s) = proj s) ->
  proj (foldl (fun w '(adr, size) => launch size (k adr) w) w levels) = proj w.
Proof.
  intros Hk.
  apply (kinematics_more.levels_fold_invariant (fun s => proj s = proj w));
    [reflexivity |].
  intros adr tid s Hs. by rewrite Hk.
Qed.

(** One pass of the loop [while dofid >= 0] of [qM_sparse]. *)
Definition qM_step (buf : spatial_vector) (w : World) (ca : Z * Z) : World :=
  set_qM
    (aset2 (qM w) 0 ca.1 (aget2 (qM w) 0 ca.1 + sdot (aget (cdof w) ca.2) buf))
    w.

Lemma qM_ancestors_walk (m : Model) (buf : spatial_vector) (fuel : nat) :
  dof_chains m ->
  forall madr j w, (j < nv m)%Z -> (Z.to_nat (j + 1) <= fuel)%nat ->
    qM_sparse_ancestors fuel m buf j madr w
    = Some (foldl (qM_step buf) w (walk m madr j)).
Proof.
  intros Hch. induction fuel as [| fuel IH]; intros madr j w Hj Hfuel.
  - simpl. replace (0 <=? j)%Z with false by lia.
    by rewrite walk_neg by lia.
  - simpl. destruct (Z.leb_spec 0 j) as [Hge | Hlt].
    + rewrite (walk_unfold m madr j) by (assumption || lia). simpl.
      pose proof (Hch j ltac:(lia)). rewrite IH by lia. reflexivity.
    + by rewrite walk_neg by lia.
Qed.

Lemma qM_steps_row0 (buf : spatial_vector) (es : list (Z * Z)) (w : World) :
  let w' := foldl (qM_step buf) w es in
  types.crb w' = types.crb w /\ cdof w' = cdof w
  /\ aget (qM w') 0
     = foldl (fun q ca => aset q ca.1 (aget q ca.1 + sdot (aget (cdof w) ca.2) buf))
             (aget (qM w) 0) es.
Proof.
  cbv zeta. revert w. induction es as [| ca es IH]; intros w; [done |].
  cbn [foldl]. destruct (IH (qM_step buf w ca)) as (Hcrb & Hcdof & Hq).
  rewrite Hcrb, Hcdof, Hq. unfold qM_step. cbn [types.crb cdof qM set_qM].
  by rewrite aget_aset2_row0.
Qed.

(** A fold that adds into the addresses of a list of entries. *)
Lemma fold_add_effect (g : Z -> R) (es : list (Z * Z)) (q : list R) :
  NoDup es.*1 -> (forall c, c ∈ es.*1 -> in_range q c) ->
  let q' := foldl (fun q ca => aset q ca.1 (aget q ca.1 + g ca.2)) q es in
  length q' = length q
  /\ (forall c, c ∉ es.*1 -> aget q' c = aget q c)
  /\ forall c j, (c, j) ∈ es -> aget q' c = aget q c + g j.
Proof.
  cbv zeta. revert q. induction es as [| [c0 j0] es IH]; intros q Hnd Hin.
  - split; [reflexivity |]. split; [reflexivity |].
    intros c j H. by apply elem_of_nil in H.
  - csimpl in *. apply NoDup_cons in Hnd as [Hc0 Hnd].
    destruct (IH (aset q c0 (aget q c0 + g j0)) Hnd) as (Hlen & Hout & Hval).
    { intros c Hc. apply in_range_aset. apply Hin. by right. }
    split; [by rewrite Hlen, length_aset |]. split.
    + intros c Hc. apply not_elem_of_cons in Hc as [Hne Hc].
      rewrite Hout by assumption. by rewrite aget_aset_ne by congruence.
    + intros c j Hcj. apply elem_of_cons in Hcj as [Heq | Hcj].
      * injection Heq as -> ->. rewrite Hout by assumption.
        apply aget_aset_eq. apply Hin. by left.
      * rewrite (Hval c j Hcj). rewrite aget_aset_ne; [reflexivity |].
        intros ->. apply Hc0. apply list_elem_of_fmap. by exists (c, j).
Qed.

Lemma row_fst_NoDup (m : Model) (i : Z) :
  dof_chains m -> (i < nv m)%Z -> NoDup (row m i).*1.
Proof.
  intros Hch Hi. unfold row. rewrite walk_fst by assumption. apply NoDup_seqZ.
Qed.

(** The thread of the DOF [i]: what it leaves in row [0] of [qM]. *)
Lemma qM_sparse_thread (m : Model) (fuel : nat) (worldid i : Z) (w : World) :
  dof_chains m -> wf_Madr m -> (0 <= i < nv m)%Z ->
  (Z.to_nat (nv m) <= fuel)%nat ->
  Z.of_nat (length (aget (qM w) 0)) = nM m ->
  exists w',
    qM_sparse fuel m worldid i w = Some w'
    /\ types.crb w' = types.crb w /\ cdof w' = cdof w
    /\ length (aget (qM w') 0) = length (aget (qM w) 0)
    /\ (forall c, c ∉ (row m i).*1 -> aget2 (qM w') 0 c = aget2 (qM w) 0 c)
    /\ forall c j, (c, j) ∈ row m i ->
         aget2 (qM w') 0 c
         = (if (j =? i)%Z then aget (dof_armature m) i else aget2 (qM w) 0 c)
           + sdot (aget (cdof w) j)
                  (inert_vec (aget (types.crb w) (aget (dof_bodyid m) i))
                             (aget (cdof w) i)).
Proof.
  intros Hch Hwf Hi Hfuel Hlen. unfold qM_sparse. cbv zeta.
  cbn [types.crb cdof set_qM].
  fold (inert_vec (aget (types.crb w) (aget (dof_bodyid m) i)) (aget (cdof w) i)).
  set (buf := inert_vec _ _).
  rewrite qM_ancestors_walk by (assumption || lia).
  fold (row m i).
  set (w1 := set_qM (aset2 (qM w) 0 (aget (dof_Madr m) i)
                       (aget (dof_armature m) i)) w).
  destruct (qM_steps_row0 buf (row m i) w1) as (Hcrb & Hcdof & Hq).
  eexists. split; [reflexivity |].
  split; [exact Hcrb |]. split; [exact Hcdof |].
  unfold aget2. rewrite Hq. unfold w1. cbn [cdof qM set_qM].
  rewrite aget_aset2_row0.
  set (q := aget (qM w) 0) in *.
  destruct (fold_add_effect (fun j => sdot (aget (cdof w) j) buf) (row m i)
              (aset q (aget (dof_Madr m) i) (aget (dof_armature m) i)))
    as (Hl & Hout & Hval).
  { apply row_fst_NoDup; [assumption | lia]. }
  { intros c Hc. apply list_elem_of_fmap in Hc as ([c' j] & -> & Hin).
    apply in_range_aset. by apply (row_in_range m q i c' j). }
  split; [by rewrite Hl, length_aset |]. split.
  - intros c Hc. rewrite Hout by assumption.
    apply aget_aset_ne. intros <-. apply Hc.
    apply list_elem_of_fmap. exists (aget (dof_Madr m) i, i). split; [done |].
    apply row_chain; auto.
  - intros c j Hin. rewrite (Hval c j Hin). f_equal.
    pose proof (proj1 (row_chain m i c j Hch Hi) Hin) as [[-> ->] | Hchain].
    + rewrite Z.eqb_refl. apply aget_aset_eq.
      by apply (row_in_range m q i _ i).
    + pose proof (chain_columns m i c j Hch Hi Hchain) as [Hj Hc].
      replace (j =? i)%Z with false by lia.
      apply aget_aset_ne. lia.
Qed.

(** The packed matrix after the threads of the first [p] DOFs. *)
Lemma qM_sparse_launch (m : Model) (fuel : nat) (worldid : Z) (w : World)
    (p : nat) :
  dof_chains m -> wf_Madr m -> (Z.to_nat (nv m) <= fuel)%nat ->
  Z.of_nat (length (aget (qM w) 0)) = nM m ->
  (Z.of_nat p <= nv m)%Z ->
  exists w',
    launch_opt (Z.of_nat p) (qM_sparse fuel m worldid) w = Some w'
    /\ types.crb w' = types.crb w /\ cdof w' = cdof w
    /\ length (aget (qM w') 0) = length (aget (qM w) 0)
    /\ forall i c j, (0 <= i < nv m)%Z -> (c, j) ∈ row m i ->
         aget2 (qM w') 0 c
         = if (i <? Z.of_nat p)%Z then
             (if (j =? i)%Z then aget (dof_armature m) i
              else aget2 (qM w) 0 c)
             + sdot (aget (cdof w) j)
                    (inert_vec (aget (types.crb w) (aget (dof_bodyid m) i))
                               (aget (cdof w) i))
           else aget2 (qM w) 0 c.
Proof.
  intros Hch Hwf Hfuel Hlen. induction p as [| p IH]; intros Hp.
  - exists w. rewrite launch_opt_nonpos by reflexivity.
    split; [reflexivity |]. repeat split.
    intros i c j Hi _.
    destruct (Z.ltb_spec i (Z.of_nat 0)); [lia | reflexivity].
  - destruct IH as (wp & Hwp & Hcrb & Hcdof & Hl & Hent); [lia |].
    rewrite Nat2Z.inj_succ, <- Z.add_1_r, launch_opt_succ by lia.
    rewrite Hwp. simpl.
    destruct (qM_sparse_thread m fuel worldid (Z.of_nat p) wp Hch Hwf
                ltac:(lia) Hfuel ltac:(lia))
      as (w' & Hw' & Hcrb' & Hcdof' & Hl' & Hout & Hval).
    exists w'. split; [exact Hw' |].
    split; [congruence |]. split; [congruence |]. split; [congruence |].
    intros i c j Hi Hin.
    destruct (decide (i = Z.of_nat p)) as [-> | Hne].
    + rewrite (Hval c j Hin), Hcrb, Hcdof.
      replace (Z.of_nat p <? Z.of_nat p + 1)%Z with true by lia.
      destruct (j =? Z.of_nat p)%Z; [reflexivity |].
      rewrite (Hent _ c j Hi Hin).
      by replace (Z.of_nat p <? Z.of_nat p)%Z with false by lia.
    + rewrite Hout.
      * rewrite (Hent i c j Hi Hin).
        destruct (Z.ltb_spec i (Z.of_nat p)), (Z.ltb_spec i (Z.of_nat p + 1));
          try reflexivity; lia.
      * intros Hc. apply list_elem_of_fmap in Hc as ([c' j'] & Heq & Hin').
        simpl in Heq. subst c'.
        destruct (address_inj m i (Z.of_nat p) c j j' Hch Hwf) as [? _];
          try assumption; lia.
Qed.

(** X16: the mass matrix of [crb].  [crb] returns and, in every world,
    the packed array [qM] holds for every DOF [i] and every column [j]
    of its row (the DOF itself and its ancestors) the product
    [cdof[j] . (I cdof[i])], where [I] is the composite inertia that
    [crb] has left in [d.crb] for the body of the DOF [i] and [I v] is
    [math.inert_vec]; on the diagonal the armature of the DOF is
    added. *)
Theorem crb_mass_matrix (fuel : nat) (m : Model) (d : Data) :
  dof_chains m -> wf_Madr m -> (Z.to_nat (nv m) <= fuel)%nat ->
  length (body_leveladr m) = length (body_levelsize m) ->
  (forall w, w ∈ worlds d ->
     in_range (qM w) 0 /\ Z.of_nat (length (aget (qM w) 0)) = nM m) ->
  exists d',
    smooth.crb fuel m d = Some d'
    /\ forall (worldid : nat) (w : World),
         worlds d !! worldid = Some w ->
         exists w',
           worlds d' !! worldid = Some w'
           /\ cdof w' = cdof w
           /\ forall i c j, (0 <= i < nv m)%Z -> (c, j) ∈ row m i ->
                aget2 (qM w') 0 c
                = (if (j =? i)%Z then aget (dof_armature m) i else 0)
                  + sdot (aget (cdof w) j)
                         (inert_vec (aget (types.crb w') (aget (dof_bodyid m) i))
                                    (aget (cdof w) i)).
Proof.
  intros Hch Hwf Hfuel Hlevels HqM. unfold smooth.crb. cbv zeta.
  rewrite crb_props.levels_backward_Some by assumption.
  match goal with
  | |- exists d', launch_worlds_opt _ _ ?d3 = _ /\ _ =>
      destruct (launch_worlds_opt_Some (nv m) (qM_sparse fuel m) d3
                  (fun w3 w' =>
                     types.crb w' = types.crb w3 /\ cdof w' = cdof w3
                     /\ forall i c j, (0 <= i < nv m)%Z -> (c, j) ∈ row m i ->
                          aget2 (qM w') 0 c
                          = (if (j =? i)%Z then aget (dof_armature m) i
                             else aget2 (qM w3) 0 c)
                            + sdot (aget (cdof w3) j)
                                (inert_vec
                                   (aget (types.crb w3) (aget (dof_bodyid m) i))
                                   (aget (cdof w3) i))))
        as (d' & Hd' & _ & Hws)
  end.
  { intros i w3 Hw3.
    cbn [worlds set_worlds] in Hw3.
    rewrite list_lookup_fmap, crb_props.worlds_launch_levels in Hw3.
    cbn [worlds set_worlds] in Hw3. rewrite list_lookup_fmap in Hw3.
    destruct (worlds d !! i) as [w |] eqn:Hw; [| discriminate].
    simpl in Hw3. injection Hw3 as <-.
    destruct (HqM w) as [Hin Hlen]; [by eapply list_elem_of_lookup_2 |].
    match goal with
    | |- exists w', launch_opt _ _ ?w3 = _ /\ _ =>
        assert (Hrow0 : aget (qM w3) 0 = (fun _ : R => 0) <$> aget (qM w) 0)
    end.
    { cbn [qM set_qM].
      rewrite (levels_fold_frame qM)
        by (intros adr tid s; unfold crb_accumulate; cbv zeta;
            by destruct (_ =? 0)%Z).
      cbn [qM set_crb]. unfold in_range in Hin.
      destruct (qM w) as [| r rows] eqn:HqMw; [simpl in Hin; lia |].
      reflexivity. }
    destruct (decide (0 <= nv m)%Z) as [Hnv | Hnv].
    - match goal with
      | |- exists w', launch_opt _ _ ?w3 = _ /\ _ =>
          destruct (qM_sparse_launch m fuel (Z.of_nat i) w3 (Z.to_nat (nv m))
                      Hch Hwf Hfuel)
            as (w' & Hw' & Hcrb & Hcdof & _ & Hent)
      end.
      { rewrite Hrow0, length_fmap. exact Hlen. }
      { lia. }
      rewrite Z2Nat.id in Hw', Hent by lia.
      exists w'. split; [exact Hw' |]. split; [exact Hcrb |].
      split; [exact Hcdof |].
      intros k c j Hk Hin'. rewrite (Hent k c j Hk Hin').
      destruct (Z.ltb_spec k (nv m)); [reflexivity | lia].
    - rewrite launch_opt_nonpos by lia. eexists. split; [reflexivity |].
      repeat split. intros k c j Hk. lia. }
  exists d'. split; [exact Hd' |].
  intros worldid w Hw.
  edestruct (Hws worldid) as (w' & Hw' & Hcrb & Hcdof & Hent).
  { cbn [worlds set_worlds].
    rewrite list_lookup_fmap, crb_props.worlds_launch_levels.
    cbn [worlds set_worlds]. rewrite list_lookup_fmap, Hw. reflexivity. }
  exists w'. split; [exact Hw' |].
  destruct (HqM w) as [Hin Hlen]; [by eapply list_elem_of_lookup_2 |].
  split.
  { rewrite Hcdof. cbn [cdof set_qM].
    rewrite (levels_fold_frame cdof)
      by (intros adr tid s; unfold crb_accumulate; cbv zeta;
          by destruct (_ =? 0)%Z).
    reflexivity. }
  intros i c j Hi Hin'. rewrite (Hent i c j Hi Hin'), Hcrb.
  cbn [cdof types.crb qM set_qM].
  rewrite (levels_fold_frame cdof)
    by (intros adr tid s; unfold crb_accumulate; cbv zeta;
        by destruct (_ =? 0)%Z).
  cbn [cdof set_crb].
  destruct (j =? i)%Z; [reflexivity |].
  f_equal. unfold aget2.
  rewrite (levels_fold_frame qM)
    by (intros adr tid s; unfold crb_accumulate; cbv zeta;
        by destruct (_ =? 0)%Z).
  cbn [qM set_crb]. unfold in_range in Hin.
  destruct (qM w) as [| r rows]; [simpl in Hin; lia |].
  unfold aget at 2. simpl.
  unfold aget. destruct (decide (0 <= c)%Z); [| reflexivity].
  rewrite list_lookup_fmap. by destruct (r !! Z.to_nat c).
Qed.

Lemma crb_mass_matrix_witness :
  exists d',
    smooth.crb 4 fixtures.tree_model (mkData 0 [fixtures.tree_world])
    = Some d'
    /\ forall (worldid : nat) (w : World),
         worlds (mkData 0 [fixtures.tree_world]) !! worldid = Some w ->
         exists w',
           worlds d' !! worldid = Some w'
           /\ cdof w' = cdof w
           /\ forall i c j, (0 <= i < nv fixtures.tree_model)%Z ->
                (c, j) ∈ row fixtures.tree_model i ->
                aget2 (qM w') 0 c
                = (if (j =? i)%Z
                   then aget (dof_armature fixtures.tree_model) i else 0)
                  + sdot (aget (cdof w) j)
                         (inert_vec
                            (aget (types.crb w')
                               (aget (dof_bodyid fixtures.tree_model) i))
                            (aget (cdof w) i)).
Proof.
  apply (crb_mass_matrix 4 fixtures.tree_model
           (mkData 0 [fixtures.tree_world])).
  - exact solve_m_props.tree_model_dof_chains.
  - exact factor_equivalence.tree_model_wf_Madr.
  - simpl. lia.
  - reflexivity.
  - intros w Hw. apply list_elem_of_singleton in Hw as ->.
    split; [unfold in_range; simpl; lia | reflexivity].
Defined.

End mass_matrix.

(** ** smooth.py: what factor_m leaves in qLD, and solve_m in place *)

Module factor_props.
Import array_facts dof_tree linalg smooth solve_props dense_props
  solve_m_props dense_path sparse_factor.
Local Open Scope R_scope.

(** *** The sparse factor *)

(** X17: the sparse factorisation.  For a symmetric positive definite
    matrix [M] in packed form, [factor_m] with the sparse flag returns
    and leaves in row [0] of [qLD] a unit lower triangular [L] (below
    the diagonal) and a positive diagonal [D] (on it) with
    [L^T D L = M], and in [qLDiagInv] the reciprocals of [D]. *)
Theorem factor_m_sparse_LtDL (m : Model) (qM qLD : list (list R))
    (qLDiagInv : list R) :
  opt_is_sparse m = true ->
  dof_chains m -> wf_Madr m -> wf_schedule m ->
  Z.of_nat (length (aget qM 0)) = nM m ->
  Z.of_nat (length qLDiagInv) = nv m ->
  pos_def (Mfull m (aget qM 0)) (seqZ 0 (nv m)) ->
  exists qLD' qLDiagInv',
    factor_m m qM qLD (Some qLDiagInv) = Some (qLD', Some qLDiagInv')
    /\ (forall k, (0 <= k < nv m)%Z ->
          0 < aget2 qLD' 0 (aget (dof_Madr m) k)
          /\ aget qLDiagInv' k = 1 / aget2 qLD' 0 (aget (dof_Madr m) k))
    /\ forall a b, (0 <= a < nv m)%Z -> (0 <= b < nv m)%Z ->
         rsum (fun k =>
                 Lfull m (aget qLD' 0) k a
                 * aget2 qLD' 0 (aget (dof_Madr m) k)
                 * Lfull m (aget qLD' 0) k b)
              (seqZ 0 (nv m))
         = Mfull m (aget qM 0) a b.
Proof.
  intros Hs Hch HMadr Hsched HlenM HlenD Hpd.
  set (q0 := aget qM 0) in *.
  assert (Hpiv : forall k, (0 <= k < nv m)%Z -> 0 < Uh m q0 k k).
  { intros k Hk. by apply Uh_pivot_pos. }
  destruct (factor_m_sparse_spec m qM qLD qLDiagInv Hch HMadr Hsched
              HlenM HlenD)
    as (qLD' & qLDiagInv' & Hfac & Hrows & _ & Hinv).
  fold q0 in Hrows, Hinv.
  exists qLD', qLDiagInv'.
  split; [unfold factor_m; by rewrite Hs, Hfac |].
  assert (Hdiag : forall k, (0 <= k < nv m)%Z ->
            aget2 qLD' 0 (aget (dof_Madr m) k) = Uh m q0 k k).
  { intros k Hk. unfold aget2.
    rewrite (Hrows k (aget (dof_Madr m) k) k Hk).
    - by rewrite Z.eqb_refl.
    - apply row_chain; auto. }
  split.
  - intros k Hk. rewrite Hdiag, Hinv by assumption. split; [by apply Hpiv |].
    reflexivity.
  - intros a b Ha Hb. rewrite <- (Uh_product m q0 a b Hch); try assumption.
    2:{ intros k Hk. pose proof (Hpiv k Hk). lra. }
    apply rsum_ext. intros k Hk. apply elem_of_seqZ in Hk.
    pose proof (Hpiv k ltac:(lia)) as Hpos.
    rewrite Hdiag by lia.
    rewrite !(Lfull_factored m q0 (aget qLD' 0) k) by (auto || lia || lra).
    field. lra.
Qed.

Lemma factor_m_sparse_LtDL_witness :
  exists qLD' qLDiagInv',
    factor_m fixtures.tree_model fixtures.tree_qM fixtures.tree_qLD
      (Some [0; 0; 0; 0])
    = Some (qLD', Some qLDiagInv')
    /\ (forall k, (0 <= k < nv fixtures.tree_model)%Z ->
          0 < aget2 qLD' 0 (aget (dof_Madr fixtures.tree_model) k)
          /\ aget qLDiagInv' k
             = 1 / aget2 qLD' 0 (aget (dof_Madr fixtures.tree_model) k))
    /\ forall a b, (0 <= a < nv fixtures.tree_model)%Z ->
         (0 <= b < nv fixtures.tree_model)%Z ->
         rsum (fun k =>
                 Lfull fixtures.tree_model (aget qLD' 0) k a
                 * aget2 qLD' 0 (aget (dof_Madr fixtures.tree_model) k)
                 * Lfull fixtures.tree_model (aget qLD' 0) k b)
              (seqZ 0 (nv fixtures.tree_model))
         = Mfull fixtures.tree_model (aget fixtures.tree_qM 0) a b.
Proof.
  apply (factor_m_sparse_LtDL fixtures.tree_model fixtures.tree_qM
           fixtures.tree_qLD [0; 0; 0; 0]).
  - reflexivity.
  - exact tree_model_dof_chains.
  - exact factor_equivalence.tree_model_wf_Madr.
  - exact factor_equivalence.tree_model_wf_schedule.
  - reflexivity.
  - reflexivity.
  - exact factor_equivalence.tree_qM_pos_def.
Defined.

(** *** The dense factor *)

Lemma aget_replicate_zero (n : nat) (k : Z) : aget (replicate n 0) k = 0.
Proof.
  unfold aget. destruct (decide (0 <= k)%Z); [| reflexivity].
  destruct (replicate n 0 !! Z.to_nat k) as [x |] eqn:Hx; [| reflexivity].
  apply lookup_replicate in Hx as [-> _]. reflexivity.
Qed.

(** Above the diagonal the rows of the factor hold zeros. *)
Lemma chol_rows_upper (A : list (list R)) (n : Z) (t : nat) :
  (Z.of_nat t <= n)%Z ->
  forall i j, (0 <= i < Z.of_nat t)%Z -> (i < j)%Z ->
    aget2 (chol_rows A n (Z.of_nat t)) i j = 0.
Proof.
  induction t as [| t IH]; intros Ht i j Hi Hj; [lia |].
  destruct (chol_rows_spec A n t ltac:(lia)) as (Hlen & Hrow & _ & _).
  unfold chol_rows in *. rewrite seqZ_snoc, foldl_app, foldl_one.
  set (L := foldl _ [] (seqZ 0 (Z.of_nat t))) in *.
  unfold aget2. destruct (decide (i = Z.of_nat t)) as [-> | Hne].
  - rewrite aget_app_r by lia. rewrite Hlen, Z.sub_diag.
    change (aget [?a] 0) with a.
    unfold cholesky_row. cbv zeta.
    fold (chol_prefix A L (Z.of_nat t) (Z.of_nat t)).
    destruct (chol_prefix_spec A L (Z.of_nat t) t) as [Hrlen _].
    { intros k Hk. rewrite Hrow by lia. lia. }
    rewrite aget_app_r by lia. rewrite aget_app_r by (simpl; lia).
    apply aget_replicate_zero.
  - rewrite aget_app_l by lia. apply (IH ltac:(lia)); lia.
Qed.

(** What [_factor_m_dense] leaves in the [nv] by [nv] corner of [qLD]:
    the rows of the factor of the corner of [qM]. *)
Lemma dense_factor_entries (m : Model) (qM qLD : list (list R)) :
  (0 <= nv m)%Z -> square (nv m) qLD ->
  let Lc := chol_rows (tile_load2 (nv m) qM) (nv m) (nv m) in
  chol_eqs (aget2 qM) (aget2 Lc) (nv m)
  /\ forall i k, (0 <= i < nv m)%Z -> (0 <= k < nv m)%Z ->
       aget2 (_factor_m_dense m qM qLD) i k = aget2 Lc i k.
Proof.
  intros Hnv [HqLD HqLDrow]. cbv zeta. unfold _factor_m_dense. cbv zeta.
  set (n := nv m) in *.
  set (T := tile_load2 n qM).
  assert (HTlen : Z.of_nat (length T) = n).
  { unfold T. rewrite length_tile_load2. lia. }
  destruct (chol_rows_spec T n (Z.to_nat n) ltac:(lia))
    as (HLlen & HLrow & HLlow & HLdiag).
  rewrite Z2Nat.id in * by lia.
  rewrite tile_cholesky_rows, HTlen.
  set (Lc := chol_rows T n n) in *.
  assert (HT : forall i k, (0 <= i < n)%Z -> (0 <= k < n)%Z ->
            aget2 T i k = aget2 qM i k).
  { intros i k Hi Hk. unfold T. by apply aget2_tile_load2. }
  split.
  - split.
    + intros i j Hj Hi. rewrite HLlow, HT by lia. reflexivity.
    + intros i Hi. rewrite HLdiag, HT by lia. reflexivity.
  - intros i k Hi Hk. apply tile_store2_spec.
    + unfold in_range. lia.
    + lia.
    + unfold in_range. rewrite HqLDrow by lia. lia.
    + rewrite HLrow by lia. lia.
Qed.

(** X18: the dense factorisation.  For a symmetric positive definite
    matrix [M] in the [nv] by [nv] corner of [qM], [factor_m] without the
    sparse flag leaves in the corner of [qLD] the lower triangular
    Cholesky factor: zeros above the diagonal, a positive diagonal, and
    [L L^T = M]. *)
Theorem factor_m_dense_cholesky (m : Model) (qM qLD : list (list R)) :
  opt_is_sparse m = false ->
  (0 <= nv m)%Z -> square (nv m) qLD ->
  sym_on (aget2 qM) (seqZ 0 (nv m)) -> pos_def (aget2 qM) (seqZ 0 (nv m)) ->
  exists qLD',
    factor_m m qM qLD None = Some (qLD', None)
    /\ (forall a b, (0 <= a < b)%Z -> (b < nv m)%Z -> aget2 qLD' a b = 0)
    /\ (forall a, (0 <= a < nv m)%Z -> 0 < aget2 qLD' a a)
    /\ forall a b, (0 <= a < nv m)%Z -> (0 <= b < nv m)%Z ->
         rsum (fun k => aget2 qLD' a k * aget2 qLD' b k) (seqZ 0 (nv m))
         = aget2 qM a b.
Proof.
  intros Hd Hnv Hsq Hsym Hpd.
  exists (_factor_m_dense m qM qLD).
  split; [unfold factor_m; by rewrite Hd |].
  destruct (dense_factor_entries m qM qLD Hnv Hsq) as [Heqs Hent].
  set (Lc := chol_rows (tile_load2 (nv m) qM) (nv m) (nv m)) in *.
  assert (Hup : forall a b, (0 <= a < b)%Z -> (b < nv m)%Z ->
            aget2 Lc a b = 0).
  { intros a b Ha Hb. unfold Lc.
    pose proof (chol_rows_upper (tile_load2 (nv m) qM) (nv m)
                  (Z.to_nat (nv m)) ltac:(lia) a b) as Hu.
    rewrite Z2Nat.id in Hu by lia. apply Hu; lia. }
  split; [intros a b Ha Hb; rewrite Hent by lia; by apply Hup |].
  split.
  - intros a Ha. rewrite Hent by lia.
    by destruct (chol_pivots_pos (aget2 qM) (aget2 Lc) (nv m) a Heqs Hsym
                   Hpd Ha).
  - intros a b Ha Hb.
    rewrite <- (low_product (aget2 qM) Lc (nv m) a b Heqs Hsym Hpd Ha Hb).
    apply rsum_ext. intros k Hk. apply elem_of_seqZ in Hk.
    rewrite !Hent by lia. unfold low.
    destruct (Z.leb_spec k a), (Z.leb_spec k b);
      try rewrite (Hup a k) by lia; try rewrite (Hup b k) by lia; ring.
Qed.

Lemma tree_qM_dense_sym :
  sym_on (aget2 fixtures.tree_qM_dense) (seqZ 0 4).
Proof.
  intros a b Ha Hb. apply elem_of_seqZ in Ha, Hb.
  rewrite !factor_equivalence.tree_qM_same by lia. apply Mfull_sym.
Qed.

Lemma tree_qM_dense_pos_def :
  pos_def (aget2 fixtures.tree_qM_dense) (seqZ 0 4).
Proof.
  apply (pos_def_ext (Mfull fixtures.tree_model (aget fixtures.tree_qM 0)));
    [| exact factor_equivalence.tree_qM_pos_def].
  intros a b Ha Hb. apply elem_of_seqZ in Ha, Hb.
  symmetry. apply factor_equivalence.tree_qM_same; lia.
Qed.

Lemma tree_qLD_dense_square : square 4 fixtures.tree_qLD_dense.
Proof.
  split; [reflexivity |]. intros i Hi.
  assert (Hcases : (i = 0 \/ i = 1 \/ i = 2 \/ i = 3)%Z) by lia.
  destruct Hcases as [-> | [-> | [-> | ->]]]; reflexivity.
Qed.

Lemma factor_m_dense_cholesky_witness :
  exists qLD',
    factor_m fixtures.tree_model_dense fixtures.tree_qM_dense
      fixtures.tree_qLD_dense None = Some (qLD', None)
    /\ (forall a b, (0 <= a < b)%Z -> (b < nv fixtures.tree_model_dense)%Z ->
          aget2 qLD' a b = 0)
    /\ (forall a, (0 <= a < nv fixtures.tree_model_dense)%Z ->
          0 < aget2 qLD' a a)
    /\ forall a b, (0 <= a < nv fixtures.tree_model_dense)%Z ->
         (0 <= b < nv fixtures.tree_model_dense)%Z ->
         rsum (fun k => aget2 qLD' a k * aget2 qLD' b k)
              (seqZ 0 (nv fixtures.tree_model_dense))
         = aget2 fixtures.tree_qM_dense a b.
Proof.
  apply (factor_m_dense_cholesky fixtures.tree_model_dense
           fixtures.tree_qM_dense fixtures.tree_qLD_dense).
  - reflexivity.
  - simpl. lia.
  - exact tree_qLD_dense_square.
  - exact tree_qM_dense_sym.
  - exact tree_qM_dense_pos_def.
Defined.

(** *** solve_m in place *)

(** X19: [solve_m] may be given one array as [x] and as [y]: it returns
    and the array holds the solution of the factored system for the
    right-hand side that it held, [(L^T D L) y = x] on the sparse path
    and [(L L^T) y = x] on the dense path; no other array changes. *)
Theorem solve_m_in_place (fuel : nat) (m : Model) (qLD : list (list R))
    (qLDiagInv : list R) (x : nat) (arrays : gmap nat (list R))
    (xv : list R) :
  arrays !! x = Some xv ->
  Z.of_nat (length xv) = nv m ->
  dof_chains m -> (Z.to_nat (nv m) <= fuel)%nat ->
  (if opt_is_sparse m
   then forall k, (0 <= k < nv m)%Z ->
          aget2 qLD 0 (aget (dof_Madr m) k) * aget qLDiagInv k = 1
   else forall k, (0 <= k < nv m)%Z -> aget2 qLD k k <> 0) ->
  exists arrays' ysol,
    solve_m fuel m qLD qLDiagInv x x arrays = Some arrays'
    /\ arrays' !! x = Some ysol
    /\ (forall z, z <> x -> arrays' !! z = arrays !! z)
    /\ length ysol = length xv
    /\ forall a, (0 <= a < nv m)%Z ->
         (if opt_is_sparse m
          then LtDL m (aget qLD 0)
                 (fun k => aget2 qLD 0 (aget (dof_Madr m) k)) ysol a
          else LLt qLD (nv m) ysol a)
         = aget xv a.
Proof.
  intros Hx Hxlen Hch Hfuel Hfac. unfold solve_m.
  rewrite Hx. destruct (opt_is_sparse m).
  - cbv zeta. rewrite lookup_insert_eq. simpl.
    destruct (solve_m_sparse_solves fuel m qLD qLDiagInv xv
                (fun k => aget2 qLD 0 (aget (dof_Madr m) k))
                Hch Hfuel ltac:(lia) Hxlen Hfac) as (ysol & -> & Hlen & Hsol).
    exists (<[x := ysol]> (<[x := xv]> arrays)), ysol.
    split; [reflexivity |].
    split; [by rewrite lookup_insert_eq |].
    split; [intros z Hz; by rewrite !lookup_insert_ne by done |].
    split; [lia | exact Hsol].
  - destruct (solve_m_dense_solves m qLD xv xv ltac:(lia) Hxlen Hxlen Hfac)
      as [Hlen Hsol].
    exists (<[x := solve_m_dense m qLD xv xv]> arrays),
           (solve_m_dense m qLD xv xv).
    split; [reflexivity |].
    split; [by rewrite lookup_insert_eq |].
    split; [intros z Hz; by rewrite lookup_insert_ne by done |].
    split; [exact Hlen | exact Hsol].
Qed.

Lemma solve_m_in_place_witness :
  exists arrays' ysol,
    solve_m 4 fixtures.tree_model fixtures.tree_qLD fixtures.tree_qLDiagInv
      0 0 fixtures.tree_arrays = Some arrays'
    /\ arrays' !! 0%nat = Some ysol
    /\ (forall z, z <> 0%nat -> arrays' !! z = fixtures.tree_arrays !! z)
    /\ length ysol = 4%nat
    /\ forall a, (0 <= a < 4)%Z ->
         LtDL fixtures.tree_model (aget fixtures.tree_qLD 0)
           (fun k => aget2 fixtures.tree_qLD 0
                       (aget (dof_Madr fixtures.tree_model) k)) ysol a
         = aget [1; 2; 3; 4] a.
Proof.
  apply (solve_m_in_place 4 fixtures.tree_model fixtures.tree_qLD
           fixtures.tree_qLDiagInv 0 fixtures.tree_arrays [1; 2; 3; 4]).
  - reflexivity.
  - reflexivity.
  - exact tree_model_dof_chains.
  - simpl. lia.
  - simpl. intros k Hk.
    assert (Hcases : (k = 0 \/ k = 1 \/ k = 2 \/ k = 3)%Z) by lia.
    destruct Hcases as [-> | [-> | [-> | ->]]]; arr_eval; lra.
Defined.

End factor_props.

(** ** smooth.py: sums over subtrees by [wp.atomic_add]

    [com_pos] and [rne] add the entry of every body to the entry of its
    parent, level by level from the leaves, without the test
    [pid == 0] of [crb].  The entries are masses, vectors or spatial
    vectors: the argument is given once, over a commutative monoid. *)

Module accumulate.
Import array_facts dof_tree crb_props.
Local Open Scope Z_scope.

Section Monoid.
Context {A : Type} `{Blank A} (add : A -> A -> A) (zero : A).
Hypothesis add_comm : forall a b, add a b = add b a.
Hypothesis add_assoc : forall a b c, add a (add b c) = add (add a b) c.
Hypothesis add_zero_l : forall a, add zero a = a.

Lemma add_zero_r (a : A) : add a zero = a.
Proof using add_comm add_zero_l. by rewrite add_comm, add_zero_l. Qed.

(** The sum of [g x] over the bodies [x] of [l]. *)
Definition msum (g : Z -> A) (l : list Z) : A :=
  foldr (fun x acc => add (g x) acc) zero l.

Lemma msum_ext (g h : Z -> A) (l : list Z) :
  (forall x, x ∈ l -> g x = h x) -> msum g l = msum h l.
Proof using Type.
  induction l as [| x l IH]; intros Hgh; [reflexivity |]. simpl.
  rewrite Hgh by left. rewrite IH; [reflexivity |].
  intros y Hy. apply Hgh. by right.
Qed.

Lemma msum_add (g h : Z -> A) (l : list Z) :
  add (msum g l) (msum h l) = msum (fun x => add (g x) (h x)) l.
Proof using add_comm add_assoc add_zero_l.
  induction l as [| x l IH]; simpl; [apply add_zero_l |].
  rewrite <- IH.
  rewrite !add_assoc. f_equal.
  rewrite <- !add_assoc. f_equal. apply add_comm.
Qed.

Lemma msum_none (F : Z -> bool) (g : Z -> A) (l : list Z) :
  (forall x, x ∈ l -> F x = false) ->
  msum (fun x => if F x then g x else zero) l = zero.
Proof using add_zero_l.
  induction l as [| y l IH]; intros HF; simpl; [reflexivity |].
  rewrite HF by left. rewrite IH by (intros x Hx; apply HF; by right).
  apply add_zero_l.
Qed.

Lemma msum_only (F : Z -> bool) (g : Z -> A) (l : list Z) (b : Z) :
  NoDup l -> b ∈ l -> (forall x, x ∈ l -> F x = true <-> x = b) ->
  msum (fun x => if F x then g x else zero) l = g b.
Proof using add_comm add_zero_l.
  induction l as [| y l IH]; intros Hnd Hb HF; [by apply elem_of_nil in Hb |].
  apply NoDup_cons in Hnd as [Hy Hnd]. simpl.
  destruct (decide (y = b)) as [-> | Hne].
  - rewrite (proj2 (HF b ltac:(left))) by reflexivity.
    rewrite msum_none; [apply add_zero_r |].
    intros x Hx. apply not_true_is_false. intros HFx.
    apply HF in HFx; [| by right]. congruence.
  - destruct (F y) eqn:HFy.
    { apply HF in HFy; [contradiction | by left]. }
    rewrite add_zero_l. apply IH; [assumption | |].
    + apply elem_of_cons in Hb as [? | ?]; [congruence | assumption].
    + intros x Hx. apply HF. by right.
Qed.

(** The sum of [g] over the subtree of [b]. *)
Definition subtree_total (m : Model) (g : Z -> A) (b : Z) : A :=
  msum (fun x => if in_subtree m b x then g x else zero) (seqZ 0 (nbody m)).

(** What the thread of body [b] does to the array. *)
Definition add_to_parent (m : Model) (c : list A) (b : Z) : list A :=
  let pid := aget (body_parentid m) b in
  aset c pid (add (aget c pid) (aget c b)).

(** Once the threads of the bodies [P] have run, the entry of [b] holds
    the entry of [x] when [x] is [b] or lies under a child of [b] whose
    thread has run. *)
Definition collected (m : Model) (P : list Z) (b x : Z) : bool :=
  in_subtree m b x
  && ((x =? b)
      || existsb
           (fun c => (0 <? c) && (aget (body_parentid m) c =? b)
                     && in_subtree m c x) P).

Lemma collected_complete (m : Model) (P : list Z) (b x : Z) :
  parents_below m ->
  (forall c, 0 < c <= x -> aget (body_parentid m) c = b -> c ∈ P) ->
  collected m P b x = in_subtree m b x.
Proof using Type.
  intros Hpar Hchildren. unfold collected.
  destruct (in_subtree m b x) eqn:Hin; [| reflexivity]. simpl.
  destruct (Z.eqb_spec x b) as [| Hne]; [reflexivity |]. simpl.
  destruct (in_subtree_child m b x Hpar Hne Hin) as (c & Hc & Hpc & Hcx).
  apply existsb_exists. exists c. split.
  - apply list_elem_of_In. by apply Hchildren.
  - rewrite Hpc, Hcx, Z.eqb_refl. by replace (0 <? c) with true by lia.
Qed.

Lemma collected_not_yet (m : Model) (P : list Z) (c x : Z) :
  parents_below m -> 0 < c -> c ∉ P ->
  in_subtree m c x = true ->
  collected m P (aget (body_parentid m) c) x = false.
Proof using Type.
  intros Hpar Hc HcP Hin. unfold collected.
  apply andb_false_iff. right. apply orb_false_iff. split.
  - apply in_subtree_le in Hin; [| assumption].
    pose proof (Hpar c Hc). lia.
  - apply not_true_is_false. intros Hex.
    apply existsb_exists in Hex as (c' & Hc'P & Hc').
    apply andb_true_iff in Hc' as [Hc' Hc'x].
    apply andb_true_iff in Hc' as [Hc'pos Hpc'].
    apply Z.eqb_eq in Hpc'. apply Z.ltb_lt in Hc'pos.
    assert (c = c').
    { apply (in_subtree_sibling m c c' x); try assumption. by symmetry. }
    subst c'. apply HcP. by apply list_elem_of_In.
Qed.

Lemma collected_snoc (m : Model) (P : list Z) (c b x : Z) :
  parents_below m ->
  collected m (P ++ [c]) b x
  = if (0 <? c) && (aget (body_parentid m) c =? b)
    then collected m P b x || in_subtree m c x
    else collected m P b x.
Proof using Type.
  intros Hpar. unfold collected. rewrite existsb_app. simpl.
  rewrite orb_false_r.
  destruct (Z.ltb_spec 0 c) as [Hc | Hc]; simpl; [| by rewrite orb_false_r].
  destruct (Z.eqb_spec (aget (body_parentid m) c) b) as [Hpb | Hpb]; simpl.
  - destruct (in_subtree m c x) eqn:Hin.
    + apply (in_subtree_parent m c x Hpar Hc) in Hin. rewrite Hpb in Hin.
      rewrite Hin. simpl. by rewrite !orb_true_r.
    + by rewrite !orb_false_r.
  - by rewrite orb_false_r.
Qed.

(** The threads run in an order [order], children before parents.  The
    thread of the world body adds the entry [0] to itself; the entries
    of the other bodies do not see it. *)
Lemma add_to_parent_invariant (m : Model) (f : list A) (order : list Z) :
  parents_below m -> aget (body_parentid m) 0 = 0 ->
  Z.of_nat (length f) = nbody m ->
  accumulation_order m order ->
  forall k, (k <= length order)%nat ->
  let cur := foldl (add_to_parent m) f (take k order) in
  length cur = length f
  /\ forall b, 0 <= b < nbody m -> 0 < b \/ 0 ∉ take k order ->
       aget cur b
       = msum (fun x => if collected m (take k order) b x
                        then aget f x else zero)
              (seqZ 0 (nbody m)).
Proof using add_comm add_assoc add_zero_l.
  intros Hpar Hroot Hlen [Hnd Hrange Hcover Hfirst]. cbv zeta.
  induction k as [| k IH]; intros Hk.
  - simpl. split; [reflexivity |].
    intros b Hb _. unfold collected. simpl.
    symmetry.
    apply (msum_only (fun x => in_subtree m b x && ((x =? b) || false))
             (aget f)).
    + apply NoDup_seqZ.
    + apply elem_of_seqZ. lia.
    + intros x _. rewrite orb_false_r. split.
      * intros Hx. apply andb_true_iff in Hx as [_ Hx]. by apply Z.eqb_eq.
      * intros ->. by rewrite in_subtree_self, Z.eqb_refl.
  - destruct (lookup_lt_is_Some_2 order k) as [c Hc]; [lia |].
    rewrite (take_S_r _ _ _ Hc), foldl_app. simpl.
    destruct IH as (IHlen & IHsum); [lia |].
    set (P := take k order) in *.
    set (cur := foldl (add_to_parent m) f P) in *.
    assert (HcR : 0 <= c < nbody m).
    { apply Hrange. by eapply list_elem_of_lookup_2. }
    assert (HcP : c ∉ P).
    { unfold P. intros Hin. apply list_elem_of_lookup in Hin as [i Hi].
      apply lookup_take_Some in Hi as [Hi Hik].
      pose proof (NoDup_lookup _ _ _ _ Hnd Hi Hc). lia. }
    unfold add_to_parent. cbv zeta.
    split; [by rewrite length_aset |].
    intros b Hb Hb0.
    assert (Hb0' : forall b', 0 <= b' -> (b' = 0 -> b = 0) -> 0 < b' \/ 0 ∉ P).
    { intros b' Hb' Himp. destruct (decide (0 < b')); [by left |].
      right. destruct Hb0 as [? | Hb0]; [lia |].
      intros Hin. apply Hb0. apply elem_of_app. by left. }
    destruct (decide (c = 0)) as [-> | Hc0].
    + rewrite Hroot.
      assert (0 < b).
      { destruct Hb0 as [? | Hb0]; [assumption |].
        exfalso. apply Hb0. apply elem_of_app. right. by left. }
      rewrite aget_aset_ne by lia.
      rewrite IHsum by (assumption || (left; assumption)).
      apply msum_ext. intros x _.
      by rewrite (collected_snoc m P 0 b x Hpar).
    + assert (Hcpos : 0 < c) by lia.
      pose proof (Hpar c Hcpos) as Hp.
      set (p := aget (body_parentid m) c) in *.
      destruct (decide (b = p)) as [-> | Hbp].
      * rewrite aget_aset_eq by (unfold in_range; lia).
        rewrite (IHsum p) by (try lia; apply Hb0'; lia).
        rewrite (IHsum c) by (try lia; left; lia).
        rewrite msum_add. apply msum_ext. intros x Hx.
        apply elem_of_seqZ in Hx.
        rewrite (collected_snoc m P c p x Hpar). fold p.
        rewrite Z.eqb_refl. replace (0 <? c) with true by lia. simpl.
        assert (Hchildren : forall c', 0 < c' <= x ->
                  aget (body_parentid m) c' = c -> c' ∈ P).
        { intros c' Hc' Hpc'.
          assert (Hc'o : c' ∈ order) by (apply Hcover; lia).
          apply list_elem_of_lookup in Hc'o as [i Hi].
          assert (i < k)%nat by (eapply Hfirst; eauto; lia).
          unfold P. apply list_elem_of_lookup. exists i.
          apply lookup_take_Some. split; [assumption | lia]. }
        rewrite (collected_complete m P c x Hpar) by assumption.
        destruct (in_subtree m c x) eqn:Hin.
        -- unfold p. rewrite collected_not_yet by assumption. simpl.
           apply add_zero_l.
        -- rewrite orb_false_r. apply add_zero_r.
      * rewrite aget_aset_ne by congruence.
        rewrite IHsum by (try assumption; apply Hb0'; lia).
        apply msum_ext. intros x _.
        rewrite (collected_snoc m P c b x Hpar). fold p.
        destruct (Z.eqb_spec p b); [congruence |].
        by rewrite andb_false_r.
Qed.

(** After all threads the entry of a body other than the world holds
    the sum over its subtree. *)
Lemma add_to_parent_total (m : Model) (f : list A) (order : list Z) (b : Z) :
  parents_below m -> aget (body_parentid m) 0 = 0 ->
  Z.of_nat (length f) = nbody m ->
  accumulation_order m order ->
  0 <= b < nbody m -> 0 < b \/ 0 ∉ order ->
  aget (foldl (add_to_parent m) f order) b = subtree_total m (aget f) b.
Proof using add_comm add_assoc add_zero_l.
  intros Hpar Hroot Hlen Hord Hb Hb0.
  destruct (add_to_parent_invariant m f order Hpar Hroot Hlen Hord
              (length order) ltac:(lia)) as [_ Hsum].
  rewrite firstn_all in Hsum. rewrite Hsum by assumption.
  apply msum_ext. intros x Hx. apply elem_of_seqZ in Hx.
  rewrite (collected_complete m order b x Hpar); [reflexivity |].
  intros c Hc _. apply Hord. lia.
Qed.

Lemma length_add_to_parent (m : Model) (f : list A) (order : list Z) :
  length (foldl (add_to_parent m) f order) = length f.
Proof using Type.
  revert f. induction order as [| c order IH]; intros f; [reflexivity |].
  simpl. rewrite IH. unfold add_to_parent. apply length_aset.
Qed.

(** The thread of the world body, run last, doubles its entry. *)
Lemma add_to_parent_world (m : Model) (f : list A) (order : list Z) :
  parents_below m -> aget (body_parentid m) 0 = 0 ->
  Z.of_nat (length f) = nbody m -> 0 < nbody m ->
  accumulation_order m (order ++ [0]) ->
  let total := subtree_total m (aget f) 0 in
  aget (foldl (add_to_parent m) f (order ++ [0])) 0 = add total total.
Proof using add_comm add_assoc add_zero_l.
  intros Hpar Hroot Hlen Hn Hord. cbv zeta.
  destruct (add_to_parent_invariant m f (order ++ [0]) Hpar Hroot Hlen Hord
              (length order)) as [Hl Hsum].
  { rewrite length_app. lia. }
  rewrite take_app_length in Hsum, Hl.
  assert (H0 : 0 ∉ order).
  { intros Hin. pose proof (order_nodup m _ Hord) as Hnd.
    apply NoDup_app in Hnd as (_ & Hnd & _). apply (Hnd 0 Hin). by left. }
  rewrite foldl_app. simpl. unfold add_to_parent at 1. rewrite Hroot.
  rewrite aget_aset_eq by (unfold in_range; lia).
  rewrite Hsum by (lia || by right).
  assert (Heq : msum (fun x => if collected m order 0 x then aget f x else zero)
                     (seqZ 0 (nbody m))
                = subtree_total m (aget f) 0).
  { apply msum_ext. intros x Hx. apply elem_of_seqZ in Hx.
    rewrite (collected_complete m order 0 x Hpar); [reflexivity |].
    intros c Hc _.
    assert (Hin : c ∈ order ++ [0]) by (apply Hord; lia).
    apply elem_of_app in Hin as [? | Hin]; [assumption |].
    apply list_elem_of_singleton in Hin. lia. }
  by rewrite Heq.
Qed.

End Monoid.

(** *** The level schedule *)

(** The launches of a kernel over a list of levels, seen through a
    projection of the state on which the thread of a body acts as
    [step]. *)
Lemma levels_steps {St T : Type} (proj : St -> T) (k : Z -> Z -> St -> St)
    (step : T -> Z -> T) (m : Model) (levels : list (Z * Z)) (s : St) :
  (forall adr tid s,
     proj (k adr tid s) = step (proj s) (aget (body_tree m) (adr + tid))) ->
  proj (foldl (fun s '(adr, size) => launch size (k adr) s) s levels)
  = foldl step (proj s)
          (mjoin ((fun l : Z * Z => level_bodies m l.1 l.2) <$> levels)).
Proof.
  intros Hk. revert s.
  induction levels as [| [adr size] levels IH]; intros s; [reflexivity |].
  csimpl. rewrite foldl_app, IH. f_equal.
  rewrite (launch_proj proj _ _
             (fun tid c => step c (aget (body_tree m) (adr + tid)))).
  - unfold launch, level_bodies. by rewrite foldl_fmap.
  - intros tid s' _. apply Hk.
Qed.

Lemma levels_frame {St T : Type} (proj : St -> T) (k : Z -> Z -> St -> St)
    (levels : list (Z * Z)) (s : St) :
  (forall adr tid s, proj (k adr tid s) = proj s) ->
  proj (foldl (fun s '(adr, size) => launch size (k adr) s) s levels)
  = proj s.
Proof.
  intros Hk. revert s.
  induction levels as [| [adr size] levels IH]; intros s; [reflexivity |].
  simpl. rewrite IH. apply launch_frame. intros tid s' _. apply Hk.
Qed.

Lemma backward_levels_bodies (m : Model) :
  mjoin ((fun l : Z * Z => level_bodies m l.1 l.2)
           <$> reverse (zip (body_leveladr m) (body_levelsize m)))
  = mjoin (reverse (body_levels m)).
Proof. unfold body_levels. by rewrite fmap_reverse. Qed.

(** An accumulation order without its last thread. *)
Lemma accumulation_order_init (m : Model) (order : list Z) :
  accumulation_order m (order ++ [0]) -> accumulation_order m order.
Proof.
  intros [Hnd Hrange Hcover Hfirst]. split.
  - by apply NoDup_app in Hnd as (? & _ & _).
  - intros b Hb. apply Hrange. apply elem_of_app. by left.
  - intros b Hb. specialize (Hcover b Hb).
    apply elem_of_app in Hcover as [? | Hin]; [assumption |].
    apply list_elem_of_singleton in Hin. lia.
  - intros i j c' c Hi Hj. apply Hfirst; by apply lookup_app_l_Some.
Qed.

End accumulate.

(** ** smooth.py: com_pos *)

Module com_props.
Import array_facts dof_tree crb_props smooth_com accumulate math_spatial.
Local Open Scope R_scope.

(** *** The monoids of the accumulated arrays *)

Lemma vadd_comm (a b : vec3) : vadd a b = vadd b a.
Proof. unfold vadd. f_equal; apply Rplus_comm. Qed.

Lemma vadd_assoc (a b c : vec3) : vadd a (vadd b c) = vadd (vadd a b) c.
Proof. unfold vadd. simpl. f_equal; symmetry; apply Rplus_assoc. Qed.

Lemma vadd_zero_l (a : vec3) : vadd vec3_zero a = a.
Proof. destruct a. unfold vadd. simpl. f_equal; apply Rplus_0_l. Qed.

Lemma Rplus_assoc' (a b c : R) : a + (b + c) = a + b + c.
Proof. ring. Qed.

(** The mass and the first moment of the subtree of [b]. *)
Definition subtree_mass (m : ModelX) (b : Z) : R :=
  subtree_total Rplus 0 m (aget (body_mass m)) b.

Definition subtree_moment (m : ModelX) (wx : WorldX) (b : Z) : vec3 :=
  subtree_total vadd vec3_zero m
    (fun x => vmuls (aget (xipos wx) x) (aget (body_mass m) x)) b.

(** *** Launches *)

(** A launch seen through a projection, for threads that keep [I]. *)
Lemma launch_proj_inv {St T : Type} (I : St -> Prop) (proj : St -> T) (n : Z)
    (k : Z -> St -> St) (k' : Z -> T -> T) (s : St) :
  I s ->
  (forall tid s, (0 <= tid < n)%Z -> I s ->
     I (k tid s) /\ proj (k tid s) = k' tid (proj s)) ->
  I (launch n k s) /\ proj (launch n k s) = launch n k' (proj s).
Proof.
  intros Hs Hk. destruct (decide (n <= 0)%Z) as [Hn | Hn].
  - by rewrite !launch_nonpos.
  - rewrite <- (Z2Nat.id n) in Hk |- * by lia.
    induction (Z.to_nat n) as [| p IH].
    + by rewrite !launch_nonpos.
    + rewrite Nat2Z.inj_succ, <- Z.add_1_r, !launch_succ by lia.
      destruct IH as [HI Hp]; [intros tid s' Ht; apply Hk; lia |].
      destruct (Hk (Z.of_nat p) (launch (Z.of_nat p) k s) ltac:(lia) HI)
        as [HI' Hp'].
      split; [assumption |]. by rewrite Hp', Hp.
Qed.

(** A launch whose thread [tid] writes [g tid] to entry [tid]. *)
Lemma launch_fill {A : Type} `{Blank A} (g : Z -> A) (n : Z) (a : list A) :
  let a' := launch n (fun tid a => aset a tid (g tid)) a in
  length a' = length a
  /\ forall i, in_range a i -> (i < n)%Z -> aget a' i = g i.
Proof.
  cbv zeta. split.
  - apply (launch_invariant (fun a' => length a' = length a)); [reflexivity |].
    intros tid s _ Hs. by rewrite length_aset.
  - intros i Hi Hn.
    rewrite (launch_pointwise (fun tid _ => g tid) n a i Hi).
    by rewrite decide_True.
Qed.

(** *** The states of [com_pos] *)

Section Steps.
Variables (m : ModelX) (wx : WorldX) (levels : list (Z * Z)).

Let order : list Z :=
  mjoin ((fun l : Z * Z => level_bodies m l.1 l.2) <$> levels).

Definition masses : list R :=
  foldl (fun ms '(adr, size) => launch size (mass_subtree_acc m adr) ms)
        (body_mass m) levels.

Definition after_init : WorldX := launch (nbody m) (subtree_com_init m) wx.

Definition after_acc : WorldX :=
  foldl (fun wx '(adr, size) => launch size (subtree_com_acc m adr) wx)
        after_init levels.

Definition after_div : WorldX := launch (nbody m) (subtree_div masses) after_acc.

Definition after_cinert : WorldX := launch (nbody m) (cinert m) after_div.

Definition after_cdof : WorldX := launch (njnt m) (cdof m) after_cinert.

Lemma com_pos_unfold :
  smooth.levels_backward (body_leveladr m) (body_levelsize m) = Some levels ->
  com_pos m wx = Some after_cdof.
Proof using Type. intros Hl. unfold com_pos. by rewrite Hl. Qed.

Lemma masses_steps : masses = foldl (add_to_parent Rplus m) (body_mass m) order.
Proof using Type.
  unfold masses, order.
  apply (levels_steps (fun ms : list R => ms)
           (fun adr tid ms => mass_subtree_acc m adr tid ms)
           (add_to_parent Rplus m) m).
  reflexivity.
Qed.

Lemma after_init_world : world after_init = world wx.
Proof using Type.
  unfold after_init. apply (launch_frame world). reflexivity.
Qed.

Lemma after_init_com :
  length (subtree_com after_init) = length (subtree_com wx)
  /\ forall x, in_range (subtree_com wx) x -> (x < nbody m)%Z ->
       aget (subtree_com after_init) x
       = vmuls (aget (xipos wx) x) (aget (body_mass m) x).
Proof using Type.
  unfold after_init.
  destruct (launch_proj_inv (fun s => world s = world wx) subtree_com
              (nbody m) (subtree_com_init m)
              (fun tid sc =>
                 aset sc tid
                   (vmuls (aget (xipos wx) tid) (aget (body_mass m) tid)))
              wx eq_refl) as [_ ->].
  { intros tid s _ Hs. split; [exact Hs |].
    unfold subtree_com_init. simpl. by rewrite Hs. }
  apply (launch_fill
           (fun tid => vmuls (aget (xipos wx) tid) (aget (body_mass m) tid))).
Qed.

Lemma after_acc_world : world after_acc = world wx.
Proof using Type.
  unfold after_acc.
  rewrite (levels_frame world (fun adr tid s => subtree_com_acc m adr tid s));
    [apply after_init_world | reflexivity].
Qed.

Lemma after_acc_com :
  subtree_com after_acc
  = foldl (add_to_parent vadd m) (subtree_com after_init) order.
Proof using Type.
  unfold after_acc, order.
  apply (levels_steps subtree_com
           (fun adr tid s => subtree_com_acc m adr tid s)
           (add_to_parent vadd m) m).
  reflexivity.
Qed.

Lemma after_div_world : world after_div = world wx.
Proof using Type.
  unfold after_div. rewrite (launch_frame world); [| reflexivity].
  apply after_acc_world.
Qed.

Lemma after_div_com (b : Z) :
  in_range (subtree_com after_acc) b -> (b < nbody m)%Z ->
  aget (subtree_com after_div) b
  = vdivs (aget (subtree_com after_acc) b) (aget masses b).
Proof using Type.
  intros Hb Hn. unfold after_div.
  rewrite (launch_proj subtree_com _ _
             (fun tid sc => aset sc tid (vdivs (aget sc tid) (aget masses tid))))
    by reflexivity.
  rewrite (launch_pointwise (fun tid v => vdivs v (aget masses tid)) _ _ b Hb).
  by rewrite decide_True.
Qed.

Lemma after_cinert_com : subtree_com after_cinert = subtree_com after_div.
Proof using Type.
  unfold after_cinert. apply (launch_frame subtree_com). reflexivity.
Qed.

Lemma after_cdof_com : subtree_com after_cdof = subtree_com after_div.
Proof using Type.
  unfold after_cdof. rewrite (launch_frame subtree_com); [| reflexivity].
  apply after_cinert_com.
Qed.

(** [com_pos] leaves the positions and orientations of the inertial
    frames alone. *)
Lemma after_cdof_xipos : xipos after_cdof = xipos wx.
Proof using Type.
  transitivity (xipos after_cinert).
  { apply (launch_frame (fun s : WorldX => xipos s)). reflexivity. }
  transitivity (xipos after_div).
  { apply (launch_frame (fun s : WorldX => xipos s)). reflexivity. }
  by rewrite after_div_world.
Qed.

Lemma after_cdof_ximat : ximat after_cdof = ximat wx.
Proof using Type.
  transitivity (ximat after_cinert).
  { apply (launch_frame (fun s : WorldX => ximat s)). reflexivity. }
  transitivity (ximat after_div).
  { apply (launch_frame (fun s : WorldX => ximat s)). reflexivity. }
  by rewrite after_div_world.
Qed.

(** The inertia that the thread [bodyid] of [cinert] stores. *)
Definition inertia_com (mat : mat33) (inert : vec3) (mass : R) (dif : vec3)
    : vec10 :=
  let tmp := mulmm (mulmm mat (diag3 inert)) (transpose3 mat) in
  mkvec10
    (m00 tmp + mass * (v1 dif * v1 dif + v2 dif * v2 dif))
    (m11 tmp + mass * (v0 dif * v0 dif + v2 dif * v2 dif))
    (m22 tmp + mass * (v0 dif * v0 dif + v1 dif * v1 dif))
    (m01 tmp - mass * v0 dif * v1 dif)
    (m02 tmp - mass * v0 dif * v2 dif)
    (m12 tmp - mass * v1 dif * v2 dif)
    (mass * v0 dif) (mass * v1 dif) (mass * v2 dif) mass.

Lemma after_cdof_cinert (b : Z) :
  in_range (types.cinert wx) b -> (b < nbody m)%Z ->
  aget (types.cinert after_cdof) b
  = inertia_com (aget (ximat after_cdof) b) (aget (body_inertia m) b)
      (aget (body_mass m) b)
      (vsub (aget (xipos after_cdof) b)
            (aget (subtree_com after_cdof) (aget (body_rootid m) b))).
Proof using Type.
  intros Hb Hn. rewrite after_cdof_xipos, after_cdof_ximat, after_cdof_com.
  transitivity (aget (types.cinert after_cinert) b).
  { f_equal. apply (launch_frame (fun s : WorldX => types.cinert s)).
    reflexivity. }
  unfold after_cinert.
  destruct (launch_proj_inv
              (fun s => subtree_com s = subtree_com after_div
                        /\ xipos s = xipos wx /\ ximat s = ximat wx)
              (fun s => types.cinert s) (nbody m) (cinert m)
              (fun tid c =>
                 aset c tid
                   (inertia_com (aget (ximat wx) tid) (aget (body_inertia m) tid)
                      (aget (body_mass m) tid)
                      (vsub (aget (xipos wx) tid)
                            (aget (subtree_com after_div)
                                  (aget (body_rootid m) tid)))))
              after_div) as [_ ->].
  - by rewrite after_div_world.
  - intros tid s _ (Hc & Hx & Hm). split; [by repeat split |].
    unfold cinert, inertia_com. cbv zeta. simpl. by rewrite Hc, Hx, Hm.
  - assert (Hw : types.cinert after_div = types.cinert wx)
      by (by rewrite after_div_world).
    rewrite Hw.
    by apply (launch_fill
                (fun tid =>
                   inertia_com (aget (ximat wx) tid) (aget (body_inertia m) tid)
                     (aget (body_mass m) tid)
                     (vsub (aget (xipos wx) tid)
                           (aget (subtree_com after_div)
                                 (aget (body_rootid m) tid))))).
Qed.

End Steps.

(** The levels from the last to the first. *)
Definition backward (m : Model) : list (Z * Z) :=
  reverse (zip (body_leveladr m) (body_levelsize m)).

Lemma com_pos_returns (m : ModelX) (wx : WorldX) :
  wf_body_tree m -> com_pos m wx = Some (after_cdof m wx (backward m)).
Proof.
  intros Hwf. apply com_pos_unfold. apply levels_backward_Some. apply Hwf.
Qed.

Lemma com_pos_Some (m : ModelX) (wx wx' : WorldX) :
  com_pos m wx = Some wx' -> exists levels, wx' = after_cdof m wx levels.
Proof.
  unfold com_pos.
  destruct (smooth.levels_backward _ _) as [levels |]; [| discriminate].
  intros [= <-]. by exists levels.
Qed.

Lemma masses_subtree (m : ModelX) (b : Z) :
  wf_body_tree m -> Z.of_nat (length (body_mass m)) = nbody m ->
  (0 < b < nbody m)%Z ->
  aget (masses m (backward m)) b = subtree_mass m b.
Proof.
  intros Hwf Hlen Hb. rewrite masses_steps.
  unfold backward. rewrite backward_levels_bodies.
  apply (add_to_parent_total Rplus 0 Rplus_comm Rplus_assoc' Rplus_0_l);
    try assumption.
  - by apply wf_parents_below.
  - apply Hwf.
  - by apply wf_accumulation_order.
  - lia.
  - left. lia.
Qed.

Lemma moment_ext (m : ModelX) (wx : WorldX) (b : Z) :
  Z.of_nat (length (subtree_com wx)) = nbody m ->
  subtree_total vadd vec3_zero m (aget (subtree_com (after_init m wx))) b
  = subtree_moment m wx b.
Proof.
  intros Hlen. unfold subtree_moment, subtree_total.
  apply msum_ext. intros x Hx. apply elem_of_seqZ in Hx.
  destruct (in_subtree m b x); [| reflexivity].
  apply after_init_com; unfold in_range; lia.
Qed.

(** X20: on a well-formed body tree [com_pos] returns, and for every
    body [b] but the world it leaves in [subtree_com[b]] the centre of
    mass of the subtree of [b]: the sum of [xipos[x] * body_mass[x]] over
    the bodies [x] of the subtree, divided by the sum of their masses. *)
Theorem com_pos_subtree_com (m : ModelX) (wx : WorldX) (b : Z) :
  wf_body_tree m ->
  Z.of_nat (length (body_mass m)) = nbody m ->
  Z.of_nat (length (subtree_com wx)) = nbody m ->
  (0 < b < nbody m)%Z ->
  exists wx',
    com_pos m wx = Some wx'
    /\ aget (subtree_com wx') b
       = vdivs (subtree_moment m wx b) (subtree_mass m b).
Proof.
  intros Hwf Hmass Hcom Hb.
  exists (after_cdof m wx (backward m)). split.
  { by apply com_pos_returns. }
  destruct (after_init_com m wx) as [Hlen _].
  rewrite after_cdof_com, after_div_com.
  - rewrite (masses_subtree m b Hwf Hmass Hb). f_equal.
    rewrite after_acc_com. unfold backward. rewrite backward_levels_bodies.
    rewrite (add_to_parent_total vadd vec3_zero vadd_comm vadd_assoc
               vadd_zero_l m _ _ b); try assumption.
    + by apply moment_ext.
    + by apply wf_parents_below.
    + apply Hwf.
    + lia.
    + by apply wf_accumulation_order.
    + lia.
    + left. lia.
  - unfold in_range. rewrite after_acc_com, length_add_to_parent. lia.
  - lia.
Qed.

Lemma com_pos_subtree_com_witness :
  exists wx',
    com_pos fixtures.tree_modelx fixtures.tree_worldx = Some wx'
    /\ aget (subtree_com wx') 2
       = vdivs (subtree_moment fixtures.tree_modelx fixtures.tree_worldx 2)
               (subtree_mass fixtures.tree_modelx 2).
Proof.
  apply (com_pos_subtree_com fixtures.tree_modelx fixtures.tree_worldx 2).
  - exact tree_model_wf.
  - reflexivity.
  - reflexivity.
  - simpl. lia.
Defined.

Lemma levels_world_last (m : Model) :
  head (body_levels m) = Some [0%Z] ->
  exists rest,
    body_levels m = [0%Z] :: rest
    /\ mjoin (reverse (body_levels m)) = mjoin (reverse rest) ++ [0%Z].
Proof.
  intros Hhead. destruct (body_levels m) as [| l rest]; [discriminate |].
  injection Hhead as ->. exists rest. split; [reflexivity |].
  by rewrite reverse_cons, join_app.
Qed.

(** X21: when the first level holds the world body alone, the thread of
    the world body adds entry [0] to itself after the other bodies have
    been gathered, in [mass_subtree] and in [subtree_com] alike:
    [subtree_com[0]] ends as twice the first moment of all bodies divided
    by twice their mass. *)
Theorem com_pos_world_doubled (m : ModelX) (wx : WorldX) :
  wf_body_tree m ->
  head (body_levels m) = Some [0%Z] ->
  Z.of_nat (length (body_mass m)) = nbody m ->
  Z.of_nat (length (subtree_com wx)) = nbody m ->
  exists wx',
    com_pos m wx = Some wx'
    /\ aget (subtree_com wx') 0
       = vdivs (vadd (subtree_moment m wx 0) (subtree_moment m wx 0))
               (subtree_mass m 0 + subtree_mass m 0).
Proof.
  intros Hwf Hhead Hmass Hcom.
  exists (after_cdof m wx (backward m)). split.
  { by apply com_pos_returns. }
  destruct (levels_world_last m Hhead) as (rest & _ & Horder).
  pose proof (wf_accumulation_order m Hwf) as Hord. rewrite Horder in Hord.
  pose proof (wf_nbody m Hwf) as Hn.
  destruct (after_init_com m wx) as [Hlen _].
  rewrite after_cdof_com, after_div_com.
  - rewrite masses_steps, after_acc_com. unfold backward.
    rewrite backward_levels_bodies, Horder.
    rewrite (add_to_parent_world Rplus 0 Rplus_comm Rplus_assoc' Rplus_0_l);
      try assumption; [| by apply wf_parents_below | apply Hwf].
    rewrite (add_to_parent_world vadd vec3_zero vadd_comm vadd_assoc
               vadd_zero_l); try assumption;
      [| by apply wf_parents_below | apply Hwf | lia].
    by rewrite moment_ext.
  - unfold in_range. rewrite after_acc_com, length_add_to_parent. lia.
  - lia.
Qed.

Lemma com_pos_world_doubled_witness :
  exists wx',
    com_pos fixtures.tree_modelx fixtures.tree_worldx = Some wx'
    /\ aget (subtree_com wx') 0
       = vdivs (vadd (subtree_moment fixtures.tree_modelx fixtures.tree_worldx 0)
                     (subtree_moment fixtures.tree_modelx fixtures.tree_worldx 0))
               (subtree_mass fixtures.tree_modelx 0
                + subtree_mass fixtures.tree_modelx 0).
Proof.
  apply (com_pos_world_doubled fixtures.tree_modelx fixtures.tree_worldx).
  - exact tree_model_wf.
  - reflexivity.
  - reflexivity.
  - reflexivity.
Defined.

(** The quadratic form of the inertia that [cinert] stores. *)
Lemma inertia_com_form (mat : mat33) (inert : vec3) (mass : R) (dif : vec3)
    (v : spatial_vector) :
  let ang := mkvec3 (s0 v) (s1 v) (s2 v) in
  let lin := mkvec3 (s3 v) (s4 v) (s5 v) in
  let local := mulmv (transpose3 mat) ang in
  let point := vadd lin (cross ang dif) in
  sdot v (inert_vec (inertia_com mat inert mass dif) v)
  = v0 inert * (v0 local * v0 local)
    + v1 inert * (v1 local * v1 local)
    + v2 inert * (v2 local * v2 local)
    + mass * dot point point.
Proof.
  destruct mat, inert, dif, v. unfold inertia_com, inert_vec, sdot, dot.
  simpl. ring.
Qed.

(** X22: after [com_pos] the inertia [cinert[b]] of a body, applied by
    [inert_vec] to a motion [v] and paired with [v], is the rotational
    term of the principal inertias on the angular part of [v] taken into
    the frame [ximat[b]], plus the mass times the squared velocity of the
    point [xipos[b]] seen from [subtree_com[body_rootid[b]]].  With
    nonnegative mass and inertias it is never negative. *)
Theorem com_pos_cinert_form (m : ModelX) (wx wx' : WorldX) (b : Z)
    (v : spatial_vector) :
  com_pos m wx = Some wx' ->
  in_range (types.cinert wx) b -> (b < nbody m)%Z ->
  let dif :=
    vsub (aget (xipos wx') b)
         (aget (subtree_com wx') (aget (body_rootid m) b)) in
  let ang := mkvec3 (s0 v) (s1 v) (s2 v) in
  let lin := mkvec3 (s3 v) (s4 v) (s5 v) in
  let local := mulmv (transpose3 (aget (ximat wx') b)) ang in
  let point := vadd lin (cross ang dif) in
  let inert := aget (body_inertia m) b in
  let mass := aget (body_mass m) b in
  let energy := sdot v (inert_vec (aget (types.cinert wx') b) v) in
  energy
  = v0 inert * (v0 local * v0 local)
    + v1 inert * (v1 local * v1 local)
    + v2 inert * (v2 local * v2 local)
    + mass * dot point point
  /\ (0 <= mass -> 0 <= v0 inert -> 0 <= v1 inert -> 0 <= v2 inert ->
      0 <= energy).
Proof.
  intros Hcom Hb Hn. cbv zeta.
  destruct (com_pos_Some m wx wx' Hcom) as [levels ->].
  rewrite (after_cdof_cinert m wx levels b Hb Hn).
  split; [apply inertia_com_form |].
  intros Hmass H0 H1 H2. rewrite inertia_com_form. cbv zeta.
  repeat apply Rplus_le_le_0_compat;
    try (apply Rmult_le_pos; [assumption | apply Rle_0_sqr]).
  apply Rmult_le_pos; [assumption |]. unfold dot.
  repeat apply Rplus_le_le_0_compat; apply Rle_0_sqr.
Qed.

Lemma com_pos_cinert_form_witness :
  0 <= sdot (mkspatial 1 0 0 0 1 0)
         (inert_vec
            (aget (types.cinert
                     (after_cdof fixtures.tree_modelx fixtures.tree_worldx
                        (backward fixtures.tree_model))) 2)
            (mkspatial 1 0 0 0 1 0)).
Proof.
  destruct (com_pos_cinert_form fixtures.tree_modelx fixtures.tree_worldx
              (after_cdof fixtures.tree_modelx fixtures.tree_worldx
                 (backward fixtures.tree_model))
              2 (mkspatial 1 0 0 0 1 0)) as [_ Hpos].
  - apply com_pos_returns. exact tree_model_wf.
  - unfold in_range. simpl. lia.
  - simpl. lia.
  - apply Hpos; arr_eval; lra.
Defined.

(** *** The motion axes *)

(** The number of entries of [cdof] that the thread of a joint of type
    [t] writes, from [jnt_dofadr] on. *)
Definition dof_width (t : Z) : Z :=
  if (t =? 0)%Z then 6%Z
  else if (t =? 1)%Z then 3%Z
  else if (t =? 2)%Z then 1%Z
  else if (t =? 3)%Z then 1%Z
  else 0%Z.

(** [e] is a DOF of rotation of joint [j]: the DOF of a hinge, one of
    the three of a ball, one of the last three of a free joint. *)
Definition rotation_dof (m : ModelX) (j e : Z) : Prop :=
  let t := aget (jnt_type m) j in
  let adr := aget (jnt_dofadr m) j in
  (t = 3%Z /\ e = adr)
  \/ (t = 1%Z /\ (adr <= e < adr + 3)%Z)
  \/ (t = 0%Z /\ (adr + 3 <= e < adr + 6)%Z).

Lemma cdof_thread_other (m : ModelX) (j e : Z) (s : WorldX) :
  ~ (aget (jnt_dofadr m) j <= e
     < aget (jnt_dofadr m) j + dof_width (aget (jnt_type m) j))%Z ->
  aget (types.cdof (cdof m j s)) e = aget (types.cdof s) e.
Proof.
  intros He. unfold cdof. cbv zeta. cbn [world set_world types.cdof set_cdof].
  unfold dof_width in He.
  destruct (aget (jnt_type m) j =? 0)%Z;
    [by rewrite !aget_aset_ne by lia |].
  destruct (aget (jnt_type m) j =? 1)%Z;
    [by rewrite !aget_aset_ne by lia |].
  destruct (aget (jnt_type m) j =? 2)%Z;
    [by rewrite !aget_aset_ne by lia |].
  destruct (aget (jnt_type m) j =? 3)%Z;
    [by rewrite !aget_aset_ne by lia | reflexivity].
Qed.

Lemma cdof_thread_length (m : ModelX) (j : Z) (s : WorldX) :
  length (types.cdof (cdof m j s)) = length (types.cdof s).
Proof.
  unfold cdof. cbv zeta. cbn [world set_world types.cdof set_cdof].
  repeat (destruct (_ =? _)%Z; [by rewrite !length_aset |]). reflexivity.
Qed.

Lemma cdof_thread_own (m : ModelX) (j e : Z) (s : WorldX) :
  in_range (types.cdof s) e -> rotation_dof m j e ->
  exists a,
    aget (types.cdof (cdof m j s)) e
    = spatial_of a
        (cross a
           (vsub (aget (subtree_com s)
                       (aget (body_rootid m) (aget (jnt_bodyid m) j)))
                 (aget (xanchor s) j))).
Proof.
  intros Hin Hrot. unfold cdof. cbv zeta.
  cbn [world set_world types.cdof set_cdof].
  assert (Hr : forall (a : list spatial_vector) i v,
            in_range (aset a i v) e <-> in_range a e)
    by (intros; apply in_range_aset).
  destruct Hrot as [[Ht ->] | [[Ht He] | [Ht He]]]; rewrite Ht; simpl.
  - rewrite aget_aset_eq by assumption. by eexists.
  - assert (Hcase : e = (aget (jnt_dofadr m) j + 0)%Z
                    \/ e = (aget (jnt_dofadr m) j + 1)%Z
                    \/ e = (aget (jnt_dofadr m) j + 2)%Z) by lia.
    destruct Hcase as [-> | [-> | ->]];
      rewrite ?aget_aset_ne by lia;
      (rewrite aget_aset_eq; [by eexists | by rewrite ?Hr]).
  - assert (Hcase : e = (aget (jnt_dofadr m) j + 3)%Z
                    \/ e = (aget (jnt_dofadr m) j + 4)%Z
                    \/ e = (aget (jnt_dofadr m) j + 5)%Z) by lia.
    destruct Hcase as [-> | [-> | ->]];
      rewrite ?aget_aset_ne by lia;
      (rewrite aget_aset_eq; [by eexists | by rewrite ?Hr]).
Qed.

(** A launch in which thread [t] establishes a property that the other
    threads keep. *)
Lemma launch_establish_at {St : Type} (I P : St -> Prop) (n t : Z)
    (k : Z -> St -> St) (s : St) :
  I s -> (forall tid s, I s -> I (k tid s)) ->
  (forall tid s, (0 <= tid < n)%Z -> tid <> t -> I s -> P s -> P (k tid s)) ->
  (0 <= t < n)%Z -> (forall s, I s -> P (k t s)) ->
  I (launch n k s) /\ P (launch n k s).
Proof.
  intros Hs HI HP Ht Hest.
  assert (HIn : forall p : nat, I (launch (Z.of_nat p) k s)).
  { intros p. apply (launch_invariant I); [assumption |].
    intros tid s' _. apply HI. }
  assert (H : forall p : nat, (t < Z.of_nat p <= n)%Z ->
            P (launch (Z.of_nat p) k s)).
  { induction p as [| p IH]; intros Hp; [lia |].
    rewrite Nat2Z.inj_succ, <- Z.add_1_r, launch_succ by lia.
    destruct (decide (t = Z.of_nat p)) as [<- | Hne].
    - apply Hest. rewrite <- (Z2Nat.id t) by lia. apply HIn.
    - apply HP; [lia | lia | apply HIn | apply IH; lia]. }
  rewrite <- (Z2Nat.id n) by lia. split; [apply HIn | apply H; lia].
Qed.

Lemma point_at_rest (a com anchor : vec3) :
  vadd (cross a (vsub com anchor)) (cross a (vsub anchor com)) = vec3_zero.
Proof. unfold vadd, cross, vsub, vec3_zero. simpl. f_equal; ring. Qed.

(** X23: after [com_pos], a DOF of rotation of a joint [j] that no other
    joint writes holds in [cdof] a motion that leaves the anchor of the
    joint in place: its linear part, taken at
    [subtree_com[body_rootid[jnt_bodyid[j]]]], plus its angular part
    crossed with the vector from there to [xanchor[j]], is zero. *)
Theorem com_pos_rotation_about_anchor (m : ModelX) (wx wx' : WorldX)
    (j e : Z) :
  com_pos m wx = Some wx' ->
  (0 <= j < njnt m)%Z ->
  rotation_dof m j e ->
  in_range (types.cdof wx) e ->
  (forall j', (0 <= j' < njnt m)%Z -> j' <> j ->
     ~ (aget (jnt_dofadr m) j' <= e
        < aget (jnt_dofadr m) j' + dof_width (aget (jnt_type m) j'))%Z) ->
  let axis := aget (types.cdof wx') e in
  let ang := mkvec3 (s0 axis) (s1 axis) (s2 axis) in
  let lin := mkvec3 (s3 axis) (s4 axis) (s5 axis) in
  let com :=
    aget (subtree_com wx') (aget (body_rootid m) (aget (jnt_bodyid m) j)) in
  vadd lin (cross ang (vsub (aget (xanchor wx') j) com)) = vec3_zero.
Proof.
  intros Hcom Hj Hrot Hin Hother. cbv zeta.
  destruct (com_pos_Some m wx wx' Hcom) as [levels ->].
  set (s0' := after_cinert m wx levels).
  set (c := aget (subtree_com s0')
                 (aget (body_rootid m) (aget (jnt_bodyid m) j))).
  set (anchor := aget (xanchor s0') j).
  destruct (launch_establish_at
              (fun s : WorldX =>
                 subtree_com s = subtree_com s0'
                 /\ xanchor s = xanchor s0'
                 /\ length (types.cdof s) = length (types.cdof wx))
              (fun s : WorldX =>
                 exists a,
                   aget (types.cdof s) e
                   = spatial_of a (cross a (vsub c anchor)))
              (njnt m) j (cdof m) s0') as [(Hc & Ha & _) [a Haxis]].
  - split; [reflexivity |]. split; [reflexivity |].
    unfold s0', after_cinert.
    transitivity (length (types.cdof (after_div m wx levels))).
    + f_equal. apply (launch_frame (fun s : WorldX => types.cdof s)).
      reflexivity.
    + by rewrite after_div_world.
  - intros tid s (Hc & Ha & Hl). split; [exact Hc |]. split; [exact Ha |].
    by rewrite cdof_thread_length.
  - intros tid s Htid Hne _ [a Haxis]. exists a.
    rewrite cdof_thread_other by (by apply Hother). exact Haxis.
  - assumption.
  - intros s (Hc & Ha & Hl).
    destruct (cdof_thread_own m j e s) as [a Haxis]; [| assumption |].
    + unfold in_range in *. lia.
    + exists a. rewrite Haxis. unfold c, anchor. by rewrite Hc, Ha.
  - change (launch (njnt m) (cdof m) s0') with (after_cdof m wx levels)
      in Hc, Ha, Haxis.
    rewrite Haxis, Hc, Ha. fold c anchor.
    destruct a. unfold spatial_of. cbn [s0 s1 s2 s3 s4 s5 wp.v0 wp.v1 wp.v2].
    apply point_at_rest.
Qed.

Lemma com_pos_rotation_about_anchor_witness :
  let wx' :=
    after_cdof fixtures.tree_modelx fixtures.tree_worldx
      (backward fixtures.tree_model) in
  let axis := aget (types.cdof wx') 1 in
  vadd (mkvec3 (s3 axis) (s4 axis) (s5 axis))
       (cross (mkvec3 (s0 axis) (s1 axis) (s2 axis))
          (vsub (aget (xanchor wx') 1) (aget (subtree_com wx') 1)))
  = vec3_zero.
Proof.
  apply (com_pos_rotation_about_anchor fixtures.tree_modelx
           fixtures.tree_worldx _ 1 1).
  - apply com_pos_returns. exact tree_model_wf.
  - simpl. lia.
  - left. split; reflexivity.
  - unfold in_range. simpl. lia.
  - intros j' Hj' Hne. simpl in Hj'.
    assert (Hcase : j' = 0%Z \/ j' = 2%Z \/ j' = 3%Z) by lia.
    destruct Hcase as [-> | [-> | ->]]; arr_eval; unfold dof_width; simpl; lia.
Defined.

End com_props.

(** ** smooth.py: rne *)

Module rne_props.
Import array_facts dof_tree crb_props smooth_com smooth_rne accumulate
  com_props math_spatial.
Local Open Scope R_scope.

Definition szero : spatial_vector := mkspatial 0 0 0 0 0 0.

Lemma sadd_comm (a b : spatial_vector) : sadd a b = sadd b a.
Proof. unfold sadd. f_equal; apply Rplus_comm. Qed.

Lemma sadd_assoc (a b c : spatial_vector) :
  sadd a (sadd b c) = sadd (sadd a b) c.
Proof. unfold sadd. simpl. f_equal; symmetry; apply Rplus_assoc. Qed.

Lemma sadd_zero_l (a : spatial_vector) : sadd szero a = a.
Proof. destruct a. unfold sadd. simpl. f_equal; apply Rplus_0_l. Qed.

Lemma sadd_zero_r (a : spatial_vector) : sadd a szero = a.
Proof. by rewrite sadd_comm, sadd_zero_l. Qed.

(** *** The accelerations and forces of the recursion *)

(** The acceleration that [cacc_gravity] stores for the world body. *)
Definition gravity_acc (m : ModelX) : spatial_vector :=
  spatial_of vec3_zero (vneg (opt_gravity m)).

(** The loop of [cacc_level] over the DOFs of body [b], from [start]. *)
Definition joint_acc (m : ModelX) (wx : WorldX) (b : Z)
    (start : spatial_vector) : spatial_vector :=
  let dofadr := aget (body_dofadr m) b in
  foldl (fun local_cacc i =>
           sadd local_cacc
                (smuls (aget (cdof_dot wx) (dofadr + i))
                       (aget (qvel wx) (dofadr + i))))
        start (seqZ 0 (aget (body_dofnum m) b)).

(** What the thread of body [b] does to [cacc]. *)
Definition cacc_body (m : ModelX) (wx : WorldX)
    (cacc : list spatial_vector) (b : Z) : list spatial_vector :=
  aset cacc b (joint_acc m wx b (aget cacc (aget (body_parentid m) b))).

(** The acceleration of body [x] by the recursion over its ancestors:
    that of the parent, or the gravity term at the world body, and the
    terms of the DOFs of [x]. *)
Fixpoint cacc_of_fuel (fuel : nat) (m : ModelX) (wx : WorldX) (x : Z)
    : spatial_vector :=
  joint_acc m wx x
    match fuel with
    | O => gravity_acc m
    | S fuel =>
        if (0 <? x)%Z
        then cacc_of_fuel fuel m wx (aget (body_parentid m) x)
        else gravity_acc m
    end.

Definition cacc_of (m : ModelX) (wx : WorldX) (x : Z) : spatial_vector :=
  cacc_of_fuel (Z.to_nat x) m wx x.

(** The force on body [x] alone, as the kernel [frc] computes it. *)
Definition body_force (m : ModelX) (wx : WorldX) (x : Z) : spatial_vector :=
  let tmp0 := inert_vec (aget (types.cinert wx) x) (cacc_of m wx x) in
  let tmp1 := inert_vec (aget (types.cinert wx) x) (aget (cvel wx) x) in
  let tmp2 := motion_cross_force (aget (cvel wx) x) tmp1 in
  sadd tmp0 tmp2.

Lemma cacc_of_fuel_enough (m : ModelX) (wx : WorldX) (fuel fuel' : nat) :
  parents_below m ->
  forall x, (Z.to_nat x <= fuel)%nat -> (Z.to_nat x <= fuel')%nat ->
  cacc_of_fuel fuel m wx x = cacc_of_fuel fuel' m wx x.
Proof.
  intros Hpar. revert fuel'.
  induction fuel as [| fuel IH]; intros fuel' x Hx Hx'.
  - destruct fuel'; simpl; [reflexivity |].
    by replace (0 <? x)%Z with false by lia.
  - destruct fuel' as [| fuel']; simpl.
    + by replace (0 <? x)%Z with false by lia.
    + destruct (Z.ltb_spec 0 x) as [Hgt | Hle]; [| reflexivity].
      specialize (Hpar x Hgt). f_equal. apply IH; lia.
Qed.

Lemma cacc_of_world (m : ModelX) (wx : WorldX) :
  cacc_of m wx 0 = joint_acc m wx 0 (gravity_acc m).
Proof. reflexivity. Qed.

Lemma cacc_of_unfold (m : ModelX) (wx : WorldX) (x : Z) :
  parents_below m -> (0 < x)%Z ->
  cacc_of m wx x = joint_acc m wx x (cacc_of m wx (aget (body_parentid m) x)).
Proof.
  intros Hpar Hx. unfold cacc_of.
  destruct (Z.to_nat x) as [| k] eqn:Hk; [lia |]. simpl.
  replace (0 <? x)%Z with true by lia. f_equal.
  pose proof (Hpar x Hx).
  apply cacc_of_fuel_enough; (assumption || lia).
Qed.

(** *** The forward pass *)

Section Forward.
Variables (m : ModelX) (wx : WorldX).
Hypothesis Hwf : wf_body_tree m.
Hypothesis Hhead : head (body_levels m) = Some [0%Z].

Let order : list Z := mjoin (body_levels m).

Let init : list spatial_vector :=
  cacc_gravity m (replicate (Z.to_nat (nbody m)) szero).

Lemma world_in_order : 0%Z ∈ order.
Proof using Hhead.
  unfold order. destruct (body_levels m) as [| l rest]; [discriminate |].
  injection Hhead as ->. csimpl. by left.
Qed.

Lemma body_in_order (b : Z) : (0 <= b < nbody m)%Z -> b ∈ order.
Proof using Hwf Hhead.
  intros Hb. destruct (decide (b = 0%Z)) as [-> | Hne];
    [apply world_in_order |].
  apply (wf_level_cover m Hwf). lia.
Qed.

Lemma parent_first (i j : nat) (c : Z) :
  order !! i = Some c -> (0 < c)%Z ->
  order !! j = Some (aget (body_parentid m) c) -> (j < i)%nat.
Proof using Hwf.
  intros Hi Hc Hj.
  apply (concat_lookup_order (body_levels m) j i
           (aget (body_parentid m) c) c); [| assumption | assumption].
  intros a b xs ys Ha Hb Hx Hy.
  by apply (wf_level_strict m Hwf a b xs ys (aget (body_parentid m) c) c).
Qed.

Lemma init_length : Z.of_nat (length init) = nbody m.
Proof using Hwf.
  unfold init, cacc_gravity. rewrite length_aset, length_replicate.
  pose proof (wf_nbody m Hwf). lia.
Qed.

Lemma init_world : aget init 0 = gravity_acc m.
Proof using Hwf.
  unfold init, cacc_gravity. apply aget_aset_eq.
  unfold in_range. rewrite length_replicate.
  pose proof (wf_nbody m Hwf). lia.
Qed.

Lemma forward_invariant (k : nat) :
  (k <= length order)%nat ->
  let cur := foldl (cacc_body m wx) init (take k order) in
  length cur = length init
  /\ (forall b, b ∈ take k order -> aget cur b = cacc_of m wx b)
  /\ (forall b, b ∉ take k order -> aget cur b = aget init b).
Proof using Hwf Hhead.
  cbv zeta. pose proof (wf_parents_below m Hwf) as Hpar.
  induction k as [| k IH]; intros Hk.
  - simpl. split; [reflexivity |]. split; [| reflexivity].
    intros b Hb. by apply elem_of_nil in Hb.
  - destruct (lookup_lt_is_Some_2 order k) as [c Hc]; [lia |].
    rewrite (take_S_r _ _ _ Hc), foldl_app. simpl.
    destruct IH as (IHlen & IHin & IHout); [lia |].
    set (P := take k order) in *.
    set (cur := foldl (cacc_body m wx) init P) in *.
    assert (Hco : c ∈ order) by (by eapply list_elem_of_lookup_2).
    assert (HcR : (0 <= c < nbody m)%Z) by (by apply (wf_level_range m Hwf)).
    assert (HcP : c ∉ P).
    { unfold P. intros Hin. apply list_elem_of_lookup in Hin as [i Hi].
      apply lookup_take_Some in Hi as [Hi Hik].
      pose proof (NoDup_lookup _ _ _ _ (wf_level_nodup m Hwf) Hi Hc). lia. }
    assert (Hnew : joint_acc m wx c (aget cur (aget (body_parentid m) c))
                   = cacc_of m wx c).
    { destruct (decide (c = 0%Z)) as [-> | Hc0].
      - rewrite (wf_parent_root m Hwf), (IHout 0%Z HcP), init_world.
        by rewrite cacc_of_world.
      - rewrite cacc_of_unfold by (assumption || lia). f_equal.
        apply IHin.
        assert (Hp : (0 <= aget (body_parentid m) c < c)%Z)
          by (apply Hpar; lia).
        assert (Hpo : aget (body_parentid m) c ∈ order)
          by (apply body_in_order; lia).
        apply list_elem_of_lookup in Hpo as [j Hj].
        assert (j < k)%nat by (apply (parent_first k j c); (assumption || lia)).
        unfold P. apply list_elem_of_lookup. exists j.
        apply lookup_take_Some. split; [assumption | lia]. }
    unfold cacc_body. rewrite Hnew.
    split; [by rewrite length_aset |]. split.
    + intros b Hb. apply elem_of_app in Hb as [Hb | Hb].
      * rewrite aget_aset_ne by (intros ->; contradiction). by apply IHin.
      * apply list_elem_of_singleton in Hb as ->.
        apply aget_aset_eq. unfold in_range. rewrite IHlen.
        pose proof init_length. lia.
    + intros b Hb.
      assert (b <> c).
      { intros ->. apply Hb. apply elem_of_app. right. by left. }
      rewrite aget_aset_ne by congruence. apply IHout.
      intros Hin. apply Hb. apply elem_of_app. by left.
Qed.

Definition cacc_final : list spatial_vector :=
  foldl (fun cacc '(adr, size) => launch size (cacc_level m wx adr) cacc)
        init (zip (body_leveladr m) (body_levelsize m)).

Lemma cacc_final_body (b : Z) :
  (0 <= b < nbody m)%Z -> aget cacc_final b = cacc_of m wx b.
Proof using Hwf Hhead.
  intros Hb. unfold cacc_final.
  rewrite (levels_steps (fun c : list spatial_vector => c)
             (fun adr tid c => cacc_level m wx adr tid c)
             (cacc_body m wx) m) by reflexivity.
  fold (body_levels m). fold order.
  destruct (forward_invariant (length order) ltac:(lia)) as (_ & Hin & _).
  rewrite firstn_all in Hin. apply Hin. by apply body_in_order.
Qed.

(** *** The forces of the bodies *)

Definition cfrc_bodies : list spatial_vector :=
  launch (nbody m) (frc wx cacc_final)
         (replicate (Z.to_nat (nbody m)) szero).

Lemma cfrc_bodies_length : Z.of_nat (length cfrc_bodies) = nbody m.
Proof using Hwf.
  unfold cfrc_bodies.
  rewrite (launch_invariant
             (fun c => length c = Z.to_nat (nbody m))).
  - pose proof (wf_nbody m Hwf). lia.
  - apply length_replicate.
  - intros tid s _ Hs. unfold frc. by rewrite length_aset.
Qed.

Lemma cfrc_bodies_force (x : Z) :
  (0 <= x < nbody m)%Z -> aget cfrc_bodies x = body_force m wx x.
Proof using Hwf Hhead.
  intros Hx. unfold cfrc_bodies.
  assert (Hin : in_range (replicate (Z.to_nat (nbody m)) szero) x).
  { unfold in_range. rewrite length_replicate. lia. }
  change (launch (nbody m) (frc wx cacc_final))
    with (launch (nbody m)
            (fun tid cfrc =>
               aset cfrc tid
                 ((fun tid v =>
                     sadd v
                       (sadd
                          (inert_vec (aget (types.cinert wx) tid)
                             (aget cacc_final tid))
                          (motion_cross_force (aget (cvel wx) tid)
                             (inert_vec (aget (types.cinert wx) tid)
                                (aget (cvel wx) tid)))))
                    tid (aget cfrc tid)))).
  rewrite (launch_pointwise _ _ _ x Hin). rewrite decide_True by lia.
  cbv beta.
  replace (aget (replicate (Z.to_nat (nbody m)) szero) x) with szero.
  - rewrite sadd_zero_l, cacc_final_body by assumption. reflexivity.
  - unfold aget. rewrite decide_True by lia.
    rewrite lookup_replicate_2 by lia. reflexivity.
Qed.

End Forward.

(** *** The backward pass *)

Lemma levels_backward_to_1_Some (la ls : list Z) :
  length la = length ls ->
  levels_backward_to_1 la ls = Some (reverse (drop 1 (zip la ls))).
Proof.
  intros Hlen. unfold levels_backward_to_1. apply mapM_Some_2.
  apply Forall2_same_length_lookup_2.
  - by rewrite !length_reverse, length_seq, length_drop, length_zip_with_l
      by lia.
  - intros i k [adr size] Hk Hz.
    assert (Hi : (i < length la - 1)%nat).
    { apply lookup_lt_Some in Hk. by rewrite length_reverse, length_seq in Hk. }
    rewrite reverse_lookup in Hk by (by rewrite length_seq).
    rewrite length_seq in Hk. apply lookup_seq in Hk as [-> _].
    rewrite reverse_lookup in Hz
      by (rewrite length_drop, length_zip_with_l; lia).
    rewrite length_drop, length_zip_with_l in Hz by lia.
    rewrite lookup_drop in Hz.
    apply lookup_zip_with_Some in Hz as (a & b & Heq & Ha & Hb).
    injection Heq as -> ->. rewrite Hb. cbn [mbind option_bind].
    by rewrite Ha.
Qed.

Lemma backward_to_1_bodies (m : Model) (rest : list (list Z)) :
  body_levels m = [0%Z] :: rest ->
  mjoin ((fun l : Z * Z => level_bodies m l.1 l.2)
           <$> reverse (drop 1 (zip (body_leveladr m) (body_levelsize m))))
  = mjoin (reverse rest).
Proof.
  intros Hl. rewrite fmap_reverse, fmap_drop. fold (body_levels m).
  by rewrite Hl.
Qed.

(** The result of [rne] in the entry [i] of [qfrc_bias]. *)
Lemma rne_bias (m : ModelX) (wx : WorldX) (i : Z) :
  wf_body_tree m ->
  head (body_levels m) = Some [0%Z] ->
  in_range (smooth_com.qfrc_bias wx) i -> (i < nv m)%Z ->
  (0 <= aget (dof_bodyid m) i < nbody m)%Z ->
  exists wx',
    rne m wx = Some wx'
    /\ aget (smooth_com.qfrc_bias wx') i
       = sdot (aget (types.cdof wx) i)
              (subtree_total sadd szero m (body_force m wx)
                 (aget (dof_bodyid m) i)).
Proof.
  intros Hwf Hhead Hi Hnv Hb. unfold rne. cbv zeta.
  rewrite (levels_backward_to_1_Some _ _ (wf_level_length m Hwf)).
  eexists. split; [reflexivity |].
  fold szero. fold (cacc_final m wx). fold (cfrc_bodies m wx).
  set (cfrc := foldl _ (cfrc_bodies m wx) _).
  destruct (launch_proj_inv (fun s => world s = world wx)
              smooth_com.qfrc_bias (nv m) (smooth_rne.qfrc_bias m cfrc)
              (fun tid q =>
                 aset q tid
                   (sdot (aget (types.cdof wx) tid)
                         (aget cfrc (aget (dof_bodyid m) tid))))
              wx eq_refl) as [_ ->].
  { intros tid s _ Hs. split; [exact Hs |].
    unfold smooth_rne.qfrc_bias. simpl. by rewrite Hs. }
  destruct (launch_fill
              (fun tid => sdot (aget (types.cdof wx) tid)
                               (aget cfrc (aget (dof_bodyid m) tid)))
              (nv m) (smooth_com.qfrc_bias wx)) as [_ ->];
    [| assumption | assumption].
  f_equal. unfold cfrc.
  rewrite (levels_steps (fun c : list spatial_vector => c)
             (fun adr tid c => cfrc_fn m adr tid c)
             (add_to_parent sadd m) m) by reflexivity.
  destruct (levels_world_last m Hhead) as (rest & Hrest & Horder).
  rewrite (backward_to_1_bodies m rest Hrest).
  pose proof (wf_accumulation_order m Hwf) as Hord. rewrite Horder in Hord.
  assert (H0 : 0%Z ∉ mjoin (reverse rest)).
  { intros Hin. pose proof (order_nodup m _ Hord) as Hnd.
    apply NoDup_app in Hnd as (_ & Hnd & _). apply (Hnd 0%Z Hin). by left. }
  rewrite (add_to_parent_total sadd szero sadd_comm sadd_assoc sadd_zero_l
             m (cfrc_bodies m wx) (mjoin (reverse rest))
             (aget (dof_bodyid m) i)).
  - apply msum_ext. intros x Hx. apply elem_of_seqZ in Hx.
    destruct (in_subtree m (aget (dof_bodyid m) i) x); [| reflexivity].
    apply cfrc_bodies_force; (assumption || lia).
  - by apply wf_parents_below.
  - apply Hwf.
  - by apply cfrc_bodies_length.
  - by apply accumulation_order_init.
  - assumption.
  - by right.
Qed.

(** X24: [rne] returns on a well-formed body tree whose first level
    holds the world body alone, and [qfrc_bias[i]] is the DOF axis
    [cdof[i]] paired with the sum, over the subtree of the body of DOF
    [i], of the body forces [I a + v x* (I v)]; the acceleration [a] of a
    body is the gravity term of the world body plus the terms
    [cdof_dot * qvel] of the DOFs of the body and of its ancestors. *)
Theorem rne_newton_euler (m : ModelX) (wx : WorldX) (i : Z) :
  wf_body_tree m ->
  head (body_levels m) = Some [0%Z] ->
  in_range (smooth_com.qfrc_bias wx) i -> (i < nv m)%Z ->
  (0 <= aget (dof_bodyid m) i < nbody m)%Z ->
  exists wx',
    rne m wx = Some wx'
    /\ aget (smooth_com.qfrc_bias wx') i
       = sdot (aget (types.cdof wx) i)
              (subtree_total sadd szero m (body_force m wx)
                 (aget (dof_bodyid m) i)).
Proof. apply rne_bias. Qed.

Lemma rne_newton_euler_witness :
  exists wx',
    rne fixtures.tree_modelx fixtures.tree_worldx = Some wx'
    /\ aget (smooth_com.qfrc_bias wx') 1
       = sdot (aget (types.cdof fixtures.tree_worldx) 1)
              (subtree_total sadd szero fixtures.tree_modelx
                 (body_force fixtures.tree_modelx fixtures.tree_worldx)
                 (aget (dof_bodyid fixtures.tree_modelx) 1)).
Proof.
  apply (rne_newton_euler fixtures.tree_modelx fixtures.tree_worldx 1).
  - exact tree_model_wf.
  - reflexivity.
  - unfold in_range. simpl. lia.
  - simpl. lia.
  - arr_eval. lia.
Defined.

(** *** At rest *)

Lemma joint_acc_rest (m : ModelX) (wx : WorldX) (b : Z)
    (start : spatial_vector) :
  (forall j, aget (qvel wx) j = 0) -> joint_acc m wx b start = start.
Proof.
  intros Hq. unfold joint_acc. cbv zeta.
  induction (seqZ 0 (aget (body_dofnum m) b)) as [| i l IH] using rev_ind;
    [reflexivity |].
  rewrite foldl_app. simpl. rewrite IH, Hq.
  destruct start. unfold sadd, smuls. simpl. f_equal; ring.
Qed.

Lemma cacc_of_rest (m : ModelX) (wx : WorldX) (x : Z) :
  (forall j, aget (qvel wx) j = 0) -> cacc_of m wx x = gravity_acc m.
Proof.
  intros Hq. unfold cacc_of.
  generalize (Z.to_nat x). intros fuel. revert x.
  induction fuel as [| fuel IH]; intros x; simpl.
  - by apply joint_acc_rest.
  - rewrite joint_acc_rest by assumption.
    destruct (0 <? x)%Z; [apply IH | reflexivity].
Qed.

Lemma body_force_rest (m : ModelX) (wx : WorldX) (x : Z) :
  (forall j, aget (qvel wx) j = 0) ->
  (forall b, aget (cvel wx) b = szero) ->
  body_force m wx x = inert_vec (aget (types.cinert wx) x) (gravity_acc m).
Proof.
  intros Hq Hv. unfold body_force. cbv zeta.
  rewrite cacc_of_rest, Hv by assumption.
  destruct (aget (types.cinert wx) x), (gravity_acc m).
  unfold sadd, motion_cross_force, inert_vec, szero, spatial_of, vadd, cross.
  simpl. f_equal; ring.
Qed.

(** X25: with all velocities [qvel] and [cvel] zero, [rne] leaves in
    [qfrc_bias[i]] the gravity term alone: the DOF axis [cdof[i]] paired
    with the sum, over the subtree of the body of DOF [i], of the
    inertias [cinert] applied to the acceleration
    [(0, -opt.gravity)]. *)
Theorem rne_at_rest (m : ModelX) (wx : WorldX) (i : Z) :
  wf_body_tree m ->
  head (body_levels m) = Some [0%Z] ->
  in_range (smooth_com.qfrc_bias wx) i -> (i < nv m)%Z ->
  (0 <= aget (dof_bodyid m) i < nbody m)%Z ->
  (forall j, aget (qvel wx) j = 0) ->
  (forall b, aget (cvel wx) b = szero) ->
  exists wx',
    rne m wx = Some wx'
    /\ aget (smooth_com.qfrc_bias wx') i
       = sdot (aget (types.cdof wx) i)
              (subtree_total sadd szero m
                 (fun x =>
                    inert_vec (aget (types.cinert wx) x)
                      (spatial_of vec3_zero (vneg (opt_gravity m))))
                 (aget (dof_bodyid m) i)).
Proof.
  intros Hwf Hhead Hi Hnv Hb Hq Hv.
  destruct (rne_bias m wx i Hwf Hhead Hi Hnv Hb) as (wx' & Hrne & Hbias).
  exists wx'. split; [assumption |]. rewrite Hbias. f_equal.
  apply msum_ext. intros x _.
  destruct (in_subtree m (aget (dof_bodyid m) i) x); [| reflexivity].
  by apply body_force_rest.
Qed.

Lemma zeros_aget {A : Type} `{Blank A} (n : nat) (j : Z) :
  aget (replicate n (blank : A)) j = blank.
Proof.
  unfold aget. destruct (decide (0 <= j)%Z); [| reflexivity].
  destruct (replicate n blank !! Z.to_nat j) as [v |] eqn:Hv; [| reflexivity].
  by apply lookup_replicate in Hv as [-> _].
Qed.

Lemma rne_at_rest_witness :
  exists wx',
    rne fixtures.tree_modelx fixtures.tree_worldx = Some wx'
    /\ aget (smooth_com.qfrc_bias wx') 1
       = sdot (aget (types.cdof fixtures.tree_worldx) 1)
              (subtree_total sadd szero fixtures.tree_modelx
                 (fun x =>
                    inert_vec (aget (types.cinert fixtures.tree_worldx) x)
                      (spatial_of vec3_zero
                         (vneg (opt_gravity fixtures.tree_modelx))))
                 (aget (dof_bodyid fixtures.tree_modelx) 1)).
Proof.
  apply (rne_at_rest fixtures.tree_modelx fixtures.tree_worldx 1).
  - exact tree_model_wf.
  - reflexivity.
  - unfold in_range. simpl. lia.
  - simpl. lia.
  - arr_eval. lia.
  - intros j. apply (zeros_aget 4 j).
  - intros b. apply (zeros_aget 5 b).
Defined.

End rne_props.
